(** * Concurrency-In-Go channel utilities: goroutines and channels in Rocq

    The Go packages [utils] and [utils_generics] build pipelines out of
    goroutines that talk over channels.  This development gives the
    channel operations of Go an executable interleaving semantics and
    embeds every combinator of the two packages as a process term whose
    shape follows the Go source line by line.

    - a goroutine body is a term of [proc R]: [make], [go], [close],
      [select] and the [sync.WaitGroup] calls are constructors carrying
      their continuation, an unbounded [for] is [Iter];
    - [step] runs one scheduling choice: a goroutine acting on its own, a
      rendezvous of two goroutines on an unbuffered channel, or the
      environment (the caller of the library) receiving from a stream or
      closing a cancellation channel;
    - a property of a combinator is proved for every schedule. *)

From Stdlib Require Import String.
From Stdlib Require Import ZArith List Bool Lia Permutation Arith.
Import ListNotations.
Local Open Scope Z_scope.

Set Implicit Arguments.

(** ** Values and channels *)

(** A channel reference; [NilChan] is Go's [nil] channel. *)
Inductive chan : Type :=
| NilChan
| Ch (id : nat).

(** The dynamic types a value stored in an [interface{}] can have, as far
    as the type conversions of the packages tell them apart. *)
Inductive gotype : Type :=
| TByte | TInt8 | TInt16 | TInt32 | TInt | TInt64
| TUInt8 | TUInt16 | TUInt32 | TUInt | TUInt64 | TUIntPtr
| TString | TBool | TRune | TFloat32 | TFloat64
| TComplex64 | TComplex128 | TStruct.

(** A value carried by a channel.  [VNil] is the nil interface, the zero
    value of [interface{}]. *)
Inductive value : Type :=
| VNil
| VNum (t : gotype) (z : Z)
| VStr (s : string)
| VChan (c : chan).

Definition VInt (z : Z) : value := VNum TInt z.

Definition gotype_eqb (a b : gotype) : bool :=
  match a, b with
  | TByte, TByte | TInt8, TInt8 | TInt16, TInt16 | TInt32, TInt32
  | TInt, TInt | TInt64, TInt64 | TUInt8, TUInt8 | TUInt16, TUInt16
  | TUInt32, TUInt32 | TUInt, TUInt | TUInt64, TUInt64
  | TUIntPtr, TUIntPtr | TString, TString | TBool, TBool
  | TRune, TRune | TFloat32, TFloat32 | TFloat64, TFloat64
  | TComplex64, TComplex64 | TComplex128, TComplex128
  | TStruct, TStruct => true
  (* byte is an alias of uint8 and rune an alias of int32 *)
  | TByte, TUInt8 | TUInt8, TByte | TRune, TInt32 | TInt32, TRune => true
  | _, _ => false
  end.

(** The dynamic type of a value; the nil interface has none. *)
Definition type_of (v : value) : option gotype :=
  match v with
  | VNil => None
  | VNum t _ => Some t
  | VStr _ => Some TString
  | VChan _ => None
  end.

(** [v.(T)]: the value when its dynamic type is [T], a run-time panic
    ([None]) otherwise. *)
Definition type_assert (T : gotype) (v : value) : option value :=
  match type_of v with
  | Some t => if gotype_eqb t T then Some v else None
  | None => None
  end.

(** [stream = maybeStream] for an element of a channel of channels. *)
Definition as_chan (v : value) : chan :=
  match v with
  | VChan c => c
  | _ => NilChan
  end.

(** ** Process terms *)

Definition wgid := nat.

(** One case of a [select]. *)
Inductive scase (P : Type) : Type :=
| OnRecv (c : chan) (k : value -> bool -> P)   (* case v, ok := <-c *)
| OnSend (c : chan) (v : value) (k : P).       (* case c <- v *)

(** Goroutine code returning an [R]. *)
#[warnings="-register-all"]
Inductive proc (R : Type) : Type :=
| Ret (r : R)
| Panic
| MakeChan (zero : value) (cap : Z) (k : chan -> proc R)
| Go (child : proc unit) (k : proc R)
| Close (c : chan) (k : proc R)
| Select (cs : list (scase (proc R)))
| NewWg (k : wgid -> proc R)
| WgAdd (w : wgid) (n : Z) (k : proc R)
| WgWait (w : wgid) (k : proc R)
| Iter (S X : Type) (body : S -> proc (S + X)) (s : S) (k : X -> proc R).

Arguments Panic {R}.
Arguments Ret {R} r.

Definition map_scase {P Q : Type} (f : P -> Q) (c : scase P) : scase Q :=
  match c with
  | OnRecv ch k => OnRecv ch (fun v ok => f (k v ok))
  | OnSend ch v k => OnSend ch v (f k)
  end.

Fixpoint bind {R R' : Type} (p : proc R) (f : R -> proc R') : proc R' :=
  match p with
  | Ret r => f r
  | Panic => Panic
  | MakeChan z cap k => MakeChan z cap (fun c => bind (k c) f)
  | Go child k => Go child (bind k f)
  | Close c k => Close c (bind k f)
  | Select cs => Select (map (map_scase (fun q => bind q f)) cs)
  | NewWg k => NewWg (fun w => bind (k w) f)
  | WgAdd w n k => WgAdd w n (bind k f)
  | WgWait w k => WgWait w (bind k f)
  | Iter body s k => Iter body s (fun x => bind (k x) f)
  end.

(** [for] with an unbounded number of rounds: the body either continues
    with a new loop state or leaves the loop with an [X]. *)
Definition loop_next {R S X : Type} (body : S -> proc (S + X))
    (k : X -> proc R) (r : S + X) : proc R :=
  match r with
  | inl s' => Iter body s' k
  | inr x => k x
  end.

Declare Scope proc_scope.
Delimit Scope proc_scope with proc.
Notation "x <- p ;; q" := (bind p (fun x => q))
  (at level 61, p at next level, right associativity) : proc_scope.
Notation "p ;;; q" := (bind p (fun _ => q))
  (at level 61, right associativity) : proc_scope.

(** Plain receive and send statements are one-case selects. *)
Definition recv {R : Type} (c : chan) (k : value -> bool -> proc R) : proc R :=
  Select [OnRecv c k].
Definition send {R : Type} (c : chan) (v : value) (k : proc R) : proc R :=
  Select [OnSend c v k].
Definition WgDone {R : Type} (w : wgid) (k : proc R) : proc R := WgAdd w (-1) k.

(** How a loop body ends a round. *)
Inductive leave : Type :=
| Break      (* the loop is over, the function goes on *)
| Return.    (* [return] inside the loop *)

Definition continue {S : Type} (s : S) : proc (S + leave) := Ret (inl s).
Definition break {S : Type} : proc (S + leave) := Ret (inr Break).
Definition ret {S : Type} : proc (S + leave) := Ret (inr Return).

(** ** Shared state *)

Record chan_state : Type := mkChan {
  buf : list value;      (* values sent and not yet received *)
  cap : nat;             (* capacity; 0 for an unbuffered channel *)
  closed : bool;
  zero : value;          (* what a receive on the closed channel yields *)
  recvd : list value     (* every value received from the channel so far *)
}.

Record world : Type := mkWorld {
  heap : list chan_state;
  wgs : list Z
}.

Fixpoint upd {A : Type} (i : nat) (x : A) (l : list A) : list A :=
  match l, i with
  | [], _ => []
  | _ :: t, O => x :: t
  | h :: t, S j => h :: upd j x t
  end.

Definition get_chan (w : world) (c : chan) : option chan_state :=
  match c with
  | NilChan => None
  | Ch id => nth_error (heap w) id
  end.

Definition set_chan (w : world) (c : chan) (cs : chan_state) : world :=
  match c with
  | NilChan => w
  | Ch id => mkWorld (upd id cs (heap w)) (wgs w)
  end.

(** ** One goroutine acting on its own *)

Inductive outcome (R : Type) : Type :=
| Blocked
| Crash
| Next (p : proc R) (w : world) (spawned : list (proc unit)).

Arguments Blocked {R}.
Arguments Crash {R}.

Definition solo_case {R : Type} (w : world) (c : scase (proc R)) : outcome R :=
  match c with
  | OnRecv ch k =>
      match get_chan w ch with
      | None => Blocked
      | Some cs =>
          match buf cs with
          | v :: rest =>
              Next (k v true)
                (set_chan w ch (mkChan rest (cap cs) (closed cs) (zero cs)
                                  (recvd cs ++ [v]))) []
          | [] => if closed cs then Next (k (zero cs) false) w [] else Blocked
          end
      end
  | OnSend ch v k =>
      match get_chan w ch with
      | None => Blocked
      | Some cs =>
          if closed cs then Crash
          else if (length (buf cs) <? cap cs)%nat
          then Next k (set_chan w ch (mkChan (buf cs ++ [v]) (cap cs)
                                        (closed cs) (zero cs) (recvd cs))) []
          else Blocked
      end
  end.

(** [make(chan T, n)] panics in its caller when [n] is negative.  The
    runtime refuses as well a capacity beyond what it can allocate (size
    out of range, or no memory left); where that limit lies depends on
    the platform and is not part of the model.  What is stated about a
    capacity that the caller chooses is stated for the capacities up to
    [chan_cap_bound], a buffer every platform allocates. *)
Definition chan_cap_bound : Z := 65536.

Definition solo {R : Type} (p : proc R) (n : nat) (w : world) : outcome R :=
  match p with
  | Ret _ => Blocked
  | Panic => Crash
  | MakeChan z c k =>
      if c <? 0 then Crash
      else Next (k (Ch (length (heap w))))
             (mkWorld (heap w ++ [mkChan [] (Z.to_nat c) false z []]) (wgs w)) []
  | Go child k => Next k w [child]
  | Close c k =>
      match get_chan w c with
      | None => Crash
      | Some cs =>
          if closed cs then Crash
          else Next k (set_chan w c (mkChan (buf cs) (cap cs) true (zero cs)
                                       (recvd cs))) []
      end
  | Select cs =>
      match nth_error cs n with
      | None => Blocked
      | Some c => solo_case w c
      end
  | NewWg k =>
      Next (k (length (wgs w))) (mkWorld (heap w) (wgs w ++ [0])) []
  | WgAdd g d k =>
      match nth_error (wgs w) g with
      | None => Crash
      | Some z =>
          if z + d <? 0 then Crash
          else Next k (mkWorld (heap w) (upd g (z + d) (wgs w))) []
      end
  | WgWait g k =>
      match nth_error (wgs w) g with
      | Some 0 => Next k w []
      | _ => Blocked
      end
  | Iter body s k => Next (bind (body s) (loop_next body k)) w []
  end.

(** What a goroutine blocked in a [select] offers to a partner. *)
Definition send_offer {R : Type} (p : proc R) (n : nat)
  : option (chan * value * proc R) :=
  match p with
  | Select cs =>
      match nth_error cs n with
      | Some (OnSend c v k) => Some (c, v, k)
      | _ => None
      end
  | _ => None
  end.

Definition recv_offer {R : Type} (p : proc R) (n : nat)
  : option (chan * (value -> bool -> proc R)) :=
  match p with
  | Select cs =>
      match nth_error cs n with
      | Some (OnRecv c k) => Some (c, k)
      | _ => None
      end
  | _ => None
  end.

Definition chan_eqb (a b : chan) : bool :=
  match a, b with
  | NilChan, NilChan => true
  | Ch i, Ch j => Nat.eqb i j
  | _, _ => false
  end.

(** A value can be handed over directly on [c]: the channel is open and
    nothing is queued in front. *)
Definition handover (w : world) (c : chan) (v : value) : option world :=
  match get_chan w c with
  | None => None
  | Some cs =>
      if closed cs then None
      else match buf cs with
           | [] => Some (set_chan w c (mkChan [] (cap cs) false (zero cs)
                                         (recvd cs ++ [v])))
           | _ :: _ => None
           end
  end.

(** ** Configurations and scheduling *)

Record config (R : Type) : Type := mkConfig {
  main : proc R;                 (* the caller evaluating the call *)
  pool : list (proc unit);       (* the goroutines started so far *)
  st : world;
  panicked : bool
}.

Inductive choice : Type :=
| Main (n : nat)                         (* the caller takes a step *)
| Solo (i n : nat)                       (* goroutine [i] takes a step *)
| Sync (i n j m : nat)                   (* [i] sends to [j] *)
| EnvRecv (c : chan) (i n : nat)         (* the environment receives from [i] *)
| EnvTake (c : chan)                     (* ... or from the buffer of [c] *)
| EnvClose (c : chan).                   (* the environment closes [c] *)

Definition step {R : Type} (cf : config R) (ch : choice) : option (config R) :=
  if panicked cf then None else
  match ch with
  | Main n =>
      match solo (main cf) n (st cf) with
      | Blocked => None
      | Crash => Some (mkConfig (main cf) (pool cf) (st cf) true)
      | Next p w sp => Some (mkConfig p (pool cf ++ sp) w false)
      end
  | Solo i n =>
      match nth_error (pool cf) i with
      | None => None
      | Some t =>
          match solo t n (st cf) with
          | Blocked => None
          | Crash => Some (mkConfig (main cf) (pool cf) (st cf) true)
          | Next p w sp =>
              Some (mkConfig (main cf) (upd i p (pool cf) ++ sp) w false)
          end
      end
  | Sync i n j m =>
      if Nat.eqb i j then None else
      match nth_error (pool cf) i, nth_error (pool cf) j with
      | Some ti, Some tj =>
          match send_offer ti n, recv_offer tj m with
          | Some (c, v, k), Some (c', k') =>
              if chan_eqb c c' then
                match handover (st cf) c v with
                | Some w =>
                    Some (mkConfig (main cf)
                            (upd j (k' v true) (upd i k (pool cf))) w false)
                | None => None
                end
              else None
          | _, _ => None
          end
      | _, _ => None
      end
  | EnvRecv c i n =>
      match nth_error (pool cf) i with
      | Some ti =>
          match send_offer ti n with
          | Some (c', v, k) =>
              if chan_eqb c c' then
                match handover (st cf) c v with
                | Some w => Some (mkConfig (main cf) (upd i k (pool cf)) w false)
                | None => None
                end
              else None
          | None => None
          end
      | None => None
      end
  | EnvTake c =>
      match get_chan (st cf) c with
      | Some cs =>
          match buf cs with
          | v :: rest =>
              Some (mkConfig (main cf) (pool cf)
                      (set_chan (st cf) c
                         (mkChan rest (cap cs) (closed cs) (zero cs)
                            (recvd cs ++ [v]))) false)
          | [] => None
          end
      | None => None
      end
  | EnvClose c =>
      match get_chan (st cf) c with
      | Some cs =>
          if closed cs then None
          else Some (mkConfig (main cf) (pool cf)
                       (set_chan (st cf) c
                          (mkChan (buf cs) (cap cs) true (zero cs) (recvd cs)))
                       false)
      | None => None
      end
  end.

Fixpoint run {R : Type} (sched : list choice) (cf : config R)
  : option (config R) :=
  match sched with
  | [] => Some cf
  | ch :: rest =>
      match step cf ch with
      | Some cf' => run rest cf'
      | None => None
      end
  end.

(** What the environment sees of a stream. *)
Definition is_closed {R : Type} (cf : config R) (c : chan) : bool :=
  match get_chan (st cf) c with
  | Some cs => closed cs
  | None => false
  end.

Definition received {R : Type} (cf : config R) (c : chan) : list value :=
  match get_chan (st cf) c with
  | Some cs => recvd cs
  | None => []
  end.

(** A receive on [c] would complete: a signal has fired. *)
Definition fired {R : Type} (cf : config R) (c : chan) : bool :=
  match get_chan (st cf) c with
  | Some cs => closed cs || negb (Nat.eqb (length (buf cs)) 0)
  | None => false
  end.

(** What the environment may do: receive from the streams in [outs] and
    close the signals in [dones]. *)
Definition env_may (outs dones : list chan) (ch : choice) : bool :=
  match ch with
  | EnvRecv c _ _ | EnvTake c => existsb (chan_eqb c) outs
  | EnvClose c => existsb (chan_eqb c) dones
  | _ => true
  end.

(** ** The combinators *)

(** [defer close(c)] around a goroutine body that has no statement that
    panics (no type assertion): the close runs when the body returns.
    The bodies that assert a type take [defer_close_unwinding] below. *)
Definition defer_close (c : chan) (body : proc unit) : proc unit :=
  bind body (fun _ => Close c (Ret tt)).

(** A panic raised in a goroutine that has deferred [close(c)] runs the
    close while it unwinds, and only then ends the program: every [Panic]
    of the code, in the rounds of its loops too, becomes the close
    followed by the panic.  A goroutine the code starts has its own
    deferred calls. *)
Fixpoint unwinding (c : chan) {R : Type} (p : proc R) : proc R :=
  match p with
  | Ret r => Ret r
  | Panic => Close c Panic
  | MakeChan z cap k => MakeChan z cap (fun x => unwinding c (k x))
  | Go child k => Go child (unwinding c k)
  | Close d k => Close d (unwinding c k)
  | Select cs => Select (map (map_scase (fun q => unwinding c q)) cs)
  | NewWg k => NewWg (fun w => unwinding c (k w))
  | WgAdd w n k => WgAdd w n (unwinding c k)
  | WgWait w k => WgWait w (unwinding c k)
  | Iter body s k =>
      Iter (fun s' => unwinding c (body s')) s (fun x => unwinding c (k x))
  end.

(** [defer close(c)] around a goroutine body that can panic: the close
    runs when the body returns and when it panics. *)
Definition defer_close_unwinding (c : chan) (body : proc unit)
  : proc unit :=
  bind (unwinding c body) (fun _ => Close c (Ret tt)).

(** The zero value of a channel's element type. *)
Definition zero_of (T : gotype) : value :=
  match T with
  | TString => VStr EmptyString
  | _ => VNum T 0
  end.

(** Package [utils]: the functions of utils/channelUtils.go, which all
    work on [chan interface{}]. *)
Module Utils.
(** [OrChannel(channels...)].  The recursive call is on a slice two
    shorter, [fuel] counts that down. *)
Fixpoint OrChannel_rec (fuel : nat) (channels : list chan) : proc chan :=
  match channels with
  | [] => Ret NilChan
  | [c0] => Ret c0
  | c0 :: c1 :: rest =>
      MakeChan VNil 0 (fun orDone =>
      Go (defer_close orDone
            match rest with
            | [] =>
                Select [OnRecv c0 (fun _ _ => Ret tt);
                        OnRecv c1 (fun _ _ => Ret tt)]
            | c2 :: rest3 =>
                match fuel with
                | O => Ret tt
                | S fuel' =>
                    bind (OrChannel_rec fuel' (rest3 ++ [orDone]))
                      (fun c3 =>
                         Select [OnRecv c0 (fun _ _ => Ret tt);
                                 OnRecv c1 (fun _ _ => Ret tt);
                                 OnRecv c2 (fun _ _ => Ret tt);
                                 OnRecv c3 (fun _ _ => Ret tt)])
                end
            end)
         (Ret orDone))
  end.

Definition OrChannel (channels : list chan) : proc chan :=
  OrChannel_rec (length channels) channels.

(** [for _, v := range values { select { case <-done: return;
    case valStream <- v: } }] followed by [k]. *)
Fixpoint range_values {S : Type} (done valStream : chan)
    (values : list value) (k : proc (S + leave)) : proc (S + leave) :=
  match values with
  | [] => k
  | v :: vs =>
      Select [OnRecv done (fun _ _ => ret);
              OnSend valStream v (range_values done valStream vs k)]
  end.

Definition RepeatValue (done : chan) (values : list value) : proc chan :=
  MakeChan VNil 0 (fun valStream =>
  Go (defer_close valStream
        (Iter (fun _ : unit =>
                 range_values done valStream values (continue tt))
           tt (fun _ => Ret tt)))
     (Ret valStream)).

(** [fn] is called once per round; [fn n] is what its [n]-th call
    returns. *)
Definition RepeatFn (done : chan) (fn : nat -> value) : proc chan :=
  MakeChan VNil 0 (fun valStream =>
  Go (defer_close valStream
        (Iter (fun n : nat =>
                 Select [OnRecv done (fun _ _ => ret);
                         OnSend valStream (fn n) (continue (S n))])
           O (fun _ => Ret tt)))
     (Ret valStream)).

(** The right-hand side [<-valueStream] of the send case is evaluated
    when the [select] is entered, before a case is chosen. *)
Definition TakeChannel (done valueStream : chan) (num : Z) : proc chan :=
  MakeChan VNil 0 (fun takeStream =>
  Go (defer_close takeStream
        (Iter (fun i : Z =>
                 if i <? num then
                   recv valueStream (fun v _ =>
                   Select [OnRecv done (fun _ _ => ret);
                           OnSend takeStream v (continue (i + 1))])
                 else break)
           0 (fun _ => Ret tt)))
     (Ret takeStream)).

Definition OrDoneChannel (done c : chan) : proc chan :=
  MakeChan VNil 0 (fun valStream =>
  Go (defer_close valStream
        (Iter (fun _ : unit =>
                 Select [OnRecv done (fun _ _ => ret);
                         OnRecv c (fun v ok =>
                           if Bool.eqb ok false then ret
                           else
                             Select [OnSend valStream v (continue tt);
                                     OnRecv done (fun _ _ => continue tt)])])
           tt (fun _ => Ret tt)))
     (Ret valStream)).

(** [for i := range c { select { case <-done: return;
    case multiplexedStream <- i: } }] with [defer wg.Done()]. *)
Definition multiplex (wg : wgid) (done multiplexedStream c : chan)
  : proc unit :=
  bind (Iter (fun _ : unit =>
                recv c (fun i ok =>
                  if ok then
                    Select [OnRecv done (fun _ _ => ret);
                            OnSend multiplexedStream i (continue tt)]
                  else break))
          tt (fun _ => Ret tt))
    (fun _ => WgDone wg (Ret tt)).

Fixpoint go_each {R : Type} (f : chan -> proc unit) (channels : list chan)
    (k : proc R) : proc R :=
  match channels with
  | [] => k
  | c :: cs => Go (f c) (go_each f cs k)
  end.

Definition FanInChannel (done : chan) (channels : list chan) : proc chan :=
  NewWg (fun wg =>
  MakeChan VNil 0 (fun multiplexedStream =>
  WgAdd wg (Z.of_nat (length channels))
  (go_each (multiplex wg done multiplexedStream) channels
  (Go (WgWait wg (Close multiplexedStream (Ret tt)))
  (Ret multiplexedStream))))).

(** [for i := 0; i < 2; i++ { select { case <-done: case out1<-val:
    out1 = nil; case out2<-val: out2 = nil } }] on the shadowing copies
    of [out1] and [out2]; [n] is the number of rounds left. *)
Fixpoint tee_rounds {R : Type} (n : nat) (done : chan) (val : value)
    (out1 out2 : chan) (k : proc R) : proc R :=
  match n with
  | O => k
  | S n' =>
      Select [OnRecv done (fun _ _ => tee_rounds n' done val out1 out2 k);
              OnSend out1 val (tee_rounds n' done val NilChan out2 k);
              OnSend out2 val (tee_rounds n' done val out1 NilChan k)]
  end.

Definition TeeChannel (done inp : chan) : proc (chan * chan) :=
  MakeChan VNil 0 (fun out1 =>
  MakeChan VNil 0 (fun out2 =>
  Go (bind
        (bind (OrDoneChannel done inp) (fun orDoneStream =>
         Iter (fun _ : unit =>
                 recv orDoneStream (fun val ok =>
                   if ok then
                     tee_rounds 2 done val out1 out2 (continue tt)
                   else break))
           tt (fun _ => Ret tt)))
        (fun _ => Close out1 (Close out2 (Ret tt))))
     (Ret (out1, out2)))).

Definition BridgeChannel (done chanStream : chan) : proc chan :=
  MakeChan VNil 0 (fun valStream =>
  Go (defer_close valStream
        (Iter (fun _ : unit =>
                 Select
                   [OnRecv chanStream (fun maybeStream ok =>
                      if Bool.eqb ok false then ret
                      else
                        let stream := as_chan maybeStream in
                        bind (OrDoneChannel done stream)
                          (fun orDoneStream =>
                        Iter (fun _ : unit =>
                                recv orDoneStream (fun val ok' =>
                                  if ok' then
                                    Select
                                      [OnSend valStream val (continue tt);
                                       OnRecv done (fun _ _ => continue tt)]
                                  else break))
                          tt (fun _ => continue tt)));
                    OnRecv done (fun _ _ => ret)])
           tt (fun _ => Ret tt)))
     (Ret valStream)).

End Utils.


(** Package [utils_generics] (unnamed/part_000): the same combinators,
    the generators, [BufferChannel] and the conversion [ToTChannel[T]]. *)
Module UtilsGenerics.
(** [OrChannel(channels...)].  The recursive call is on a slice two
    shorter, [fuel] counts that down. *)
Fixpoint OrChannel_rec (fuel : nat) (channels : list chan) : proc chan :=
  match channels with
  | [] => Ret NilChan
  | [c0] => Ret c0
  | c0 :: c1 :: rest =>
      MakeChan VNil 0 (fun orDone =>
      Go (defer_close orDone
            match rest with
            | [] =>
                Select [OnRecv c0 (fun _ _ => Ret tt);
                        OnRecv c1 (fun _ _ => Ret tt)]
            | c2 :: rest3 =>
                match fuel with
                | O => Ret tt
                | S fuel' =>
                    bind (OrChannel_rec fuel' (rest3 ++ [orDone]))
                      (fun c3 =>
                         Select [OnRecv c0 (fun _ _ => Ret tt);
                                 OnRecv c1 (fun _ _ => Ret tt);
                                 OnRecv c2 (fun _ _ => Ret tt);
                                 OnRecv c3 (fun _ _ => Ret tt)])
                end
            end)
         (Ret orDone))
  end.

Definition OrChannel (channels : list chan) : proc chan :=
  OrChannel_rec (length channels) channels.

(** [for _, v := range values { select { case <-done: return;
    case valStream <- v: } }] followed by [k]. *)
Fixpoint range_values {S : Type} (done valStream : chan)
    (values : list value) (k : proc (S + leave)) : proc (S + leave) :=
  match values with
  | [] => k
  | v :: vs =>
      Select [OnRecv done (fun _ _ => ret);
              OnSend valStream v (range_values done valStream vs k)]
  end.

Definition RepeatValueChannel (done : chan) (values : list value) : proc chan :=
  MakeChan VNil 0 (fun valStream =>
  Go (defer_close valStream
        (Iter (fun _ : unit =>
                 range_values done valStream values (continue tt))
           tt (fun _ => Ret tt)))
     (Ret valStream)).

(** [fn] is called once per round; [fn n] is what its [n]-th call
    returns. *)
Definition RepeatFnChannel (done : chan) (fn : nat -> value) : proc chan :=
  MakeChan VNil 0 (fun valStream =>
  Go (defer_close valStream
        (Iter (fun n : nat =>
                 Select [OnRecv done (fun _ _ => ret);
                         OnSend valStream (fn n) (continue (S n))])
           O (fun _ => Ret tt)))
     (Ret valStream)).

(** The right-hand side [<-valueStream] of the send case is evaluated
    when the [select] is entered, before a case is chosen. *)
Definition TakeChannel (done valueStream : chan) (num : Z) : proc chan :=
  MakeChan VNil 0 (fun takeStream =>
  Go (defer_close takeStream
        (Iter (fun i : Z =>
                 if i <? num then
                   recv valueStream (fun v _ =>
                   Select [OnRecv done (fun _ _ => ret);
                           OnSend takeStream v (continue (i + 1))])
                 else break)
           0 (fun _ => Ret tt)))
     (Ret takeStream)).

Definition OrDoneChannel (done c : chan) : proc chan :=
  MakeChan VNil 0 (fun valStream =>
  Go (defer_close valStream
        (Iter (fun _ : unit =>
                 Select [OnRecv done (fun _ _ => ret);
                         OnRecv c (fun v ok =>
                           if Bool.eqb ok false then ret
                           else
                             Select [OnSend valStream v (continue tt);
                                     OnRecv done (fun _ _ => continue tt)])])
           tt (fun _ => Ret tt)))
     (Ret valStream)).

(** [for i := range c { select { case <-done: return;
    case multiplexedStream <- i: } }] with [defer wg.Done()]. *)
Definition multiplex (wg : wgid) (done multiplexedStream c : chan)
  : proc unit :=
  bind (Iter (fun _ : unit =>
                recv c (fun i ok =>
                  if ok then
                    Select [OnRecv done (fun _ _ => ret);
                            OnSend multiplexedStream i (continue tt)]
                  else break))
          tt (fun _ => Ret tt))
    (fun _ => WgDone wg (Ret tt)).

Fixpoint go_each {R : Type} (f : chan -> proc unit) (channels : list chan)
    (k : proc R) : proc R :=
  match channels with
  | [] => k
  | c :: cs => Go (f c) (go_each f cs k)
  end.

Definition FanInChannel (done : chan) (channels : list chan) : proc chan :=
  NewWg (fun wg =>
  MakeChan VNil 0 (fun multiplexedStream =>
  WgAdd wg (Z.of_nat (length channels))
  (go_each (multiplex wg done multiplexedStream) channels
  (Go (WgWait wg (Close multiplexedStream (Ret tt)))
  (Ret multiplexedStream))))).

(** [for i := 0; i < 2; i++ { select { case <-done: case out1<-val:
    out1 = nil; case out2<-val: out2 = nil } }] on the shadowing copies
    of [out1] and [out2]; [n] is the number of rounds left. *)
Fixpoint tee_rounds {R : Type} (n : nat) (done : chan) (val : value)
    (out1 out2 : chan) (k : proc R) : proc R :=
  match n with
  | O => k
  | S n' =>
      Select [OnRecv done (fun _ _ => tee_rounds n' done val out1 out2 k);
              OnSend out1 val (tee_rounds n' done val NilChan out2 k);
              OnSend out2 val (tee_rounds n' done val out1 NilChan k)]
  end.

Definition TeeChannel (done inp : chan) : proc (chan * chan) :=
  MakeChan VNil 0 (fun out1 =>
  MakeChan VNil 0 (fun out2 =>
  Go (bind
        (bind (OrDoneChannel done inp) (fun orDoneStream =>
         Iter (fun _ : unit =>
                 recv orDoneStream (fun val ok =>
                   if ok then
                     tee_rounds 2 done val out1 out2 (continue tt)
                   else break))
           tt (fun _ => Ret tt)))
        (fun _ => Close out1 (Close out2 (Ret tt))))
     (Ret (out1, out2)))).

Definition BridgeChannel (done chanStream : chan) : proc chan :=
  MakeChan VNil 0 (fun valStream =>
  Go (defer_close valStream
        (Iter (fun _ : unit =>
                 Select
                   [OnRecv chanStream (fun maybeStream ok =>
                      if Bool.eqb ok false then ret
                      else
                        let stream := as_chan maybeStream in
                        bind (OrDoneChannel done stream)
                          (fun orDoneStream =>
                        Iter (fun _ : unit =>
                                recv orDoneStream (fun val ok' =>
                                  if ok' then
                                    Select
                                      [OnSend valStream val (continue tt);
                                       OnRecv done (fun _ _ => continue tt)]
                                  else break))
                          tt (fun _ => continue tt)));
                    OnRecv done (fun _ _ => ret)])
           tt (fun _ => Ret tt)))
     (Ret valStream)).


(** [for _, i := range slice { select { case <-done: return;
    case interfaceChannel <- i: } }]. *)
Fixpoint range_slice (done interfaceChannel : chan) (slice : list value)
  : proc unit :=
  match slice with
  | [] => Ret tt
  | i :: rest =>
      Select [OnRecv done (fun _ _ => Ret tt);
              OnSend interfaceChannel i
                (range_slice done interfaceChannel rest)]
  end.

Definition GeneratorToChannel (done : chan) (slice : list value) : proc chan :=
  MakeChan VNil (Z.of_nat (length slice)) (fun interfaceChannel =>
  Go (defer_close interfaceChannel (range_slice done interfaceChannel slice))
     (Ret interfaceChannel)).

Definition GeneratorFromStringArrayToChannel (done : chan)
    (slice : list string) : proc chan :=
  MakeChan VNil (Z.of_nat (length slice)) (fun interfaceChannel =>
  Go (defer_close interfaceChannel
        (range_slice done interfaceChannel (map VStr slice)))
     (Ret interfaceChannel)).

Definition BufferChannel (done inp : chan) (limit : Z) : proc chan :=
  MakeChan VNil limit (fun interfaceChannel =>
  Go (defer_close interfaceChannel
        (bind (OrDoneChannel done inp) (fun orDoneStream =>
         Iter (fun _ : unit =>
                 recv orDoneStream (fun val ok =>
                   if ok then
                     Select [OnRecv done (fun _ _ => ret);
                             OnSend interfaceChannel val (continue tt)]
                   else break))
           tt (fun _ => Ret tt))))
     (Ret interfaceChannel)).

(** [v.(T)] is evaluated when the [select] is entered. *)
Definition ToTChannel (T : gotype) (done valueStream : chan) : proc chan :=
  MakeChan (zero_of T) 0 (fun theStream =>
  Go (defer_close_unwinding theStream
        (Iter (fun _ : unit =>
                 recv valueStream (fun v ok =>
                   if ok then
                     match type_assert T v with
                     | Some tv =>
                         Select [OnRecv done (fun _ _ => ret);
                                 OnSend theStream tv (continue tt)]
                     | None => Panic
                     end
                   else break))
           tt (fun _ => Ret tt)))
     (Ret theStream)).

End UtilsGenerics.

(** Package [utils] as unnamed/part_001 has it: the combinators again, the
    generators, [ThrottleChannel] and one conversion per element type. *)
Module UtilsTyped.
(** [OrChannel(channels...)].  The recursive call is on a slice two
    shorter, [fuel] counts that down. *)
Fixpoint OrChannel_rec (fuel : nat) (channels : list chan) : proc chan :=
  match channels with
  | [] => Ret NilChan
  | [c0] => Ret c0
  | c0 :: c1 :: rest =>
      MakeChan VNil 0 (fun orDone =>
      Go (defer_close orDone
            match rest with
            | [] =>
                Select [OnRecv c0 (fun _ _ => Ret tt);
                        OnRecv c1 (fun _ _ => Ret tt)]
            | c2 :: rest3 =>
                match fuel with
                | O => Ret tt
                | S fuel' =>
                    bind (OrChannel_rec fuel' (rest3 ++ [orDone]))
                      (fun c3 =>
                         Select [OnRecv c0 (fun _ _ => Ret tt);
                                 OnRecv c1 (fun _ _ => Ret tt);
                                 OnRecv c2 (fun _ _ => Ret tt);
                                 OnRecv c3 (fun _ _ => Ret tt)])
                end
            end)
         (Ret orDone))
  end.

Definition OrChannel (channels : list chan) : proc chan :=
  OrChannel_rec (length channels) channels.

(** [for _, v := range values { select { case <-done: return;
    case valStream <- v: } }] followed by [k]. *)
Fixpoint range_values {S : Type} (done valStream : chan)
    (values : list value) (k : proc (S + leave)) : proc (S + leave) :=
  match values with
  | [] => k
  | v :: vs =>
      Select [OnRecv done (fun _ _ => ret);
              OnSend valStream v (range_values done valStream vs k)]
  end.

Definition RepeatValueChannel (done : chan) (values : list value) : proc chan :=
  MakeChan VNil 0 (fun valStream =>
  Go (defer_close valStream
        (Iter (fun _ : unit =>
                 range_values done valStream values (continue tt))
           tt (fun _ => Ret tt)))
     (Ret valStream)).

(** [fn] is called once per round; [fn n] is what its [n]-th call
    returns. *)
Definition RepeatFnChannel (done : chan) (fn : nat -> value) : proc chan :=
  MakeChan VNil 0 (fun valStream =>
  Go (defer_close valStream
        (Iter (fun n : nat =>
                 Select [OnRecv done (fun _ _ => ret);
                         OnSend valStream (fn n) (continue (S n))])
           O (fun _ => Ret tt)))
     (Ret valStream)).

(** The right-hand side [<-valueStream] of the send case is evaluated
    when the [select] is entered, before a case is chosen. *)
Definition TakeChannel (done valueStream : chan) (num : Z) : proc chan :=
  MakeChan VNil 0 (fun takeStream =>
  Go (defer_close takeStream
        (Iter (fun i : Z =>
                 if i <? num then
                   recv valueStream (fun v _ =>
                   Select [OnRecv done (fun _ _ => ret);
                           OnSend takeStream v (continue (i + 1))])
                 else break)
           0 (fun _ => Ret tt)))
     (Ret takeStream)).

Definition OrDoneChannel (done c : chan) : proc chan :=
  MakeChan VNil 0 (fun valStream =>
  Go (defer_close valStream
        (Iter (fun _ : unit =>
                 Select [OnRecv done (fun _ _ => ret);
                         OnRecv c (fun v ok =>
                           if Bool.eqb ok false then ret
                           else
                             Select [OnSend valStream v (continue tt);
                                     OnRecv done (fun _ _ => continue tt)])])
           tt (fun _ => Ret tt)))
     (Ret valStream)).

(** [for i := range c { select { case <-done: return;
    case multiplexedStream <- i: } }] with [defer wg.Done()]. *)
Definition multiplex (wg : wgid) (done multiplexedStream c : chan)
  : proc unit :=
  bind (Iter (fun _ : unit =>
                recv c (fun i ok =>
                  if ok then
                    Select [OnRecv done (fun _ _ => ret);
                            OnSend multiplexedStream i (continue tt)]
                  else break))
          tt (fun _ => Ret tt))
    (fun _ => WgDone wg (Ret tt)).

Fixpoint go_each {R : Type} (f : chan -> proc unit) (channels : list chan)
    (k : proc R) : proc R :=
  match channels with
  | [] => k
  | c :: cs => Go (f c) (go_each f cs k)
  end.

Definition FanInChannel (done : chan) (channels : list chan) : proc chan :=
  NewWg (fun wg =>
  MakeChan VNil 0 (fun multiplexedStream =>
  WgAdd wg (Z.of_nat (length channels))
  (go_each (multiplex wg done multiplexedStream) channels
  (Go (WgWait wg (Close multiplexedStream (Ret tt)))
  (Ret multiplexedStream))))).

(** [for i := 0; i < 2; i++ { select { case <-done: case out1<-val:
    out1 = nil; case out2<-val: out2 = nil } }] on the shadowing copies
    of [out1] and [out2]; [n] is the number of rounds left. *)
Fixpoint tee_rounds {R : Type} (n : nat) (done : chan) (val : value)
    (out1 out2 : chan) (k : proc R) : proc R :=
  match n with
  | O => k
  | S n' =>
      Select [OnRecv done (fun _ _ => tee_rounds n' done val out1 out2 k);
              OnSend out1 val (tee_rounds n' done val NilChan out2 k);
              OnSend out2 val (tee_rounds n' done val out1 NilChan k)]
  end.

Definition TeeChannel (done inp : chan) : proc (chan * chan) :=
  MakeChan VNil 0 (fun out1 =>
  MakeChan VNil 0 (fun out2 =>
  Go (bind
        (bind (OrDoneChannel done inp) (fun orDoneStream =>
         Iter (fun _ : unit =>
                 recv orDoneStream (fun val ok =>
                   if ok then
                     tee_rounds 2 done val out1 out2 (continue tt)
                   else break))
           tt (fun _ => Ret tt)))
        (fun _ => Close out1 (Close out2 (Ret tt))))
     (Ret (out1, out2)))).

Definition BridgeChannel (done chanStream : chan) : proc chan :=
  MakeChan VNil 0 (fun valStream =>
  Go (defer_close valStream
        (Iter (fun _ : unit =>
                 Select
                   [OnRecv chanStream (fun maybeStream ok =>
                      if Bool.eqb ok false then ret
                      else
                        let stream := as_chan maybeStream in
                        bind (OrDoneChannel done stream)
                          (fun orDoneStream =>
                        Iter (fun _ : unit =>
                                recv orDoneStream (fun val ok' =>
                                  if ok' then
                                    Select
                                      [OnSend valStream val (continue tt);
                                       OnRecv done (fun _ _ => continue tt)]
                                  else break))
                          tt (fun _ => continue tt)));
                    OnRecv done (fun _ _ => ret)])
           tt (fun _ => Ret tt)))
     (Ret valStream)).


(** [for _, i := range slice { select { case <-done: return;
    case interfaceChannel <- i: } }]. *)
Fixpoint range_slice (done interfaceChannel : chan) (slice : list value)
  : proc unit :=
  match slice with
  | [] => Ret tt
  | i :: rest =>
      Select [OnRecv done (fun _ _ => Ret tt);
              OnSend interfaceChannel i
                (range_slice done interfaceChannel rest)]
  end.

Definition GeneratorToChannel (done : chan) (slice : list value) : proc chan :=
  MakeChan VNil (Z.of_nat (length slice)) (fun interfaceChannel =>
  Go (defer_close interfaceChannel (range_slice done interfaceChannel slice))
     (Ret interfaceChannel)).

Definition GeneratorFromStringArrayToChannel (done : chan)
    (slice : list string) : proc chan :=
  MakeChan VNil (Z.of_nat (length slice)) (fun interfaceChannel =>
  Go (defer_close interfaceChannel
        (range_slice done interfaceChannel (map VStr slice)))
     (Ret interfaceChannel)).

(** [struct{}{}], the token. *)
Definition token : value := VNum TStruct 0.

Definition ThrottleChannel (done inp : chan) (limit : Z) : proc chan :=
  MakeChan VNil 0 (fun interfaceChannel =>
  MakeChan VNil limit (fun tokens =>
  Go (bind
        (bind (OrDoneChannel done inp) (fun orDoneStream =>
         Iter (fun _ : unit =>
                 recv orDoneStream (fun val ok =>
                   if ok then
                     send tokens token
                       (Select [OnRecv done (fun _ _ => ret);
                                OnSend interfaceChannel val
                                  (recv tokens (fun _ _ => continue tt))])
                   else break))
           tt (fun _ => Ret tt)))
        (fun _ => Close interfaceChannel (Close tokens (Ret tt))))
     (Ret interfaceChannel))).

(** The body eighteen of the [To<T>Channel] functions share; they differ
    in the asserted type only. *)
Definition to_typed (T : gotype) (done valueStream : chan) : proc chan :=
  MakeChan (zero_of T) 0 (fun typedStream =>
  Go (defer_close_unwinding typedStream
        (Iter (fun _ : unit =>
                 recv valueStream (fun v ok =>
                   if ok then
                     match type_assert T v with
                     | Some tv =>
                         Select [OnRecv done (fun _ _ => ret);
                                 OnSend typedStream tv (continue tt)]
                     | None => Panic
                     end
                   else break))
           tt (fun _ => Ret tt)))
     (Ret typedStream)).

Definition ToByteChannel := to_typed TByte.
Definition ToInt8Channel := to_typed TInt8.
Definition ToInt16Channel := to_typed TInt16.
Definition ToInt32Channel := to_typed TInt32.
Definition ToInt64Channel := to_typed TInt64.
Definition ToUInt8Channel := to_typed TUInt8.
Definition ToUInt16Channel := to_typed TUInt16.
Definition ToUInt32Channel := to_typed TUInt32.
Definition ToUIntChannel := to_typed TUInt.
Definition ToUInt64Channel := to_typed TUInt64.

(** [ToStringChannel] alone ranges over [orDone(done, valueStream)]. *)
Definition ToStringChannel (done valueStream : chan) : proc chan :=
  MakeChan (zero_of TString) 0 (fun stringStream =>
  Go (defer_close_unwinding stringStream
        (bind (OrDoneChannel done valueStream) (fun orDoneStream =>
         Iter (fun _ : unit =>
                 recv orDoneStream (fun v ok =>
                   if ok then
                     match type_assert TString v with
                     | Some tv =>
                         Select [OnRecv done (fun _ _ => ret);
                                 OnSend stringStream tv (continue tt)]
                     | None => Panic
                     end
                   else break))
           tt (fun _ => Ret tt))))
     (Ret stringStream)).

Definition ToBoolChannel := to_typed TBool.
Definition ToRuneChannel := to_typed TRune.
Definition ToFloat32Channel := to_typed TFloat32.
Definition ToFloat64Channel := to_typed TFloat64.
Definition ToComplex64Channel := to_typed TComplex64.
Definition ToComplex128Channel := to_typed TComplex128.
Definition ToUIntPtrChannel := to_typed TUIntPtr.

End UtilsTyped.

(** ** Scenarios *)

(** The caller is about to evaluate [call]; the channels of [h] exist
    already. *)
Definition init {R : Type} (call : proc R) (h : list chan_state) : config R :=
  mkConfig call [] (mkWorld h []) false.

(** An open unbuffered [chan interface{}], such as a [done] channel nobody
    has closed. *)
Definition open_chan : chan_state := mkChan [] 0 false VNil [].

(** A stream whose producer has already supplied [xs], and has closed it
    when [cl] is set. *)
Definition source (xs : list value) (cl : bool) : chan_state :=
  mkChan xs (length xs) cl VNil [].

(** A [done] channel, closed or not; nothing is ever sent on it. *)
Definition done_st (dc : bool) : chan_state := mkChan [] 0 dc VNil [].

(** An unbuffered [chan interface{}] made by a combinator, from which
    [rc] has been received. *)
Definition stream_st (oc : bool) (rc : list value) : chan_state :=
  mkChan [] 0 oc VNil rc.

(** ** Schedules and invariants *)

Lemma run_app {R} (s1 s2 : list choice) (c : config R) :
  run (s1 ++ s2) c = match run s1 c with Some c' => run s2 c' | None => None end.
Proof.
  revert c; induction s1 as [|ch s1 IH]; intros c; simpl; [reflexivity|].
  destruct (step c ch); [apply IH | reflexivity].
Qed.

Lemma run_invariant {R} (ok : choice -> bool) (Inv : config R -> Prop) :
  (forall c ch c', Inv c -> ok ch = true -> step c ch = Some c' -> Inv c') ->
  forall sched c c', forallb ok sched = true -> Inv c -> run sched c = Some c' -> Inv c'.
Proof.
  intros Hstep sched; induction sched as [|ch sched IH]; intros c c' Hok Hc Hrun; simpl in *.
  - congruence.
  - apply andb_prop in Hok as [Hch Hs].
    destruct (step c ch) as [c1|] eqn:E; [|discriminate].
    eapply IH; [exact Hs | eapply Hstep; eassumption | exact Hrun].
Qed.

Lemma skipn_cons_nth {A} (d : A) (l : list A) i v rest :
  skipn i l = v :: rest ->
  nth i l d = v /\ skipn (S i) l = rest /\ firstn (S i) l = firstn i l ++ [v] /\ (i < length l)%nat.
Proof.
  revert l; induction i as [|i IH]; intros [|a l] H; simpl in *; try discriminate.
  - inversion H; subst. repeat split; auto. lia.
  - destruct (IH _ H) as (H1 & H2 & H3 & H4). repeat split; auto.
    + rewrite <- H3. reflexivity.
    + lia.
Qed.

Lemma skipn_nil_len {A} (l : list A) i : skipn i l = [] -> (length l <= i)%nat.
Proof.
  revert l; induction i as [|i IH]; intros [|a l] H; simpl in *; try discriminate; try lia.
  apply IH in H. lia.
Qed.

Lemma firstn_snoc_nth {A} (d : A) (l : list A) i :
  (i < length l)%nat -> firstn (S i) l = firstn i l ++ [nth i l d].
Proof.
  revert l; induction i as [|i IH]; intros [|a l] H; simpl in *; try lia; auto.
  f_equal. apply IH. lia.
Qed.

Ltac break_idx H :=
  repeat match type of H with
    | (if ?b then None else None) = Some _ => destruct b; discriminate H
    | context [match ?l with [] => _ | _ :: _ => _ end] =>
        is_var l; destruct l; simpl in H
    | context [nth_error _ ?i] => is_var i; destruct i; simpl in H
    | context [match ?i with O => _ | S _ => _ end] => is_var i; destruct i; simpl in H
    | context [Nat.eqb ?i ?j] => is_var i; destruct i; simpl in H
    | context [Nat.eqb ?i ?j] => is_var j; destruct j; simpl in H
    | context [chan_eqb ?c _] => is_var c; destruct c; simpl in H
    | context [get_chan _ ?c] => is_var c; destruct c; simpl in H
    end; try discriminate H.

Ltac step_cases ch H Hok :=
  destruct ch as [? | ? ? | ? ? ? ? | ? ? ? | ? | ?]; simpl in H; break_idx H;
  try (simpl in Hok; discriminate Hok).


(** One round of a single worker with nobody cancelling: the loop is
    entered, the worker receives from its source, the environment takes
    the value from [out]. *)
Definition worker_round (out : chan) : list choice :=
  [Solo 0 0; Solo 0 0; EnvRecv out 0 1].

Fixpoint worker_rounds (out : chan) (k : nat) : list choice :=
  match k with
  | O => []
  | S k' => worker_round out ++ worker_rounds out k'
  end.

Lemma worker_rounds_ok out k dones :
  forallb (env_may [out] dones) (worker_rounds out k) = true.
Proof.
  induction k as [|k IH]; simpl; auto.
  destruct out; simpl; auto. rewrite Nat.eqb_refl. simpl. exact IH.
Qed.

(** The source stream after [n] receives: what is left of [xs] and what
    has been handed out. *)
Section Source.
Variables (xs : list value) (cl : bool).

Definition source_at (n : nat) : chan_state :=
  mkChan (skipn n xs) (length xs) cl VNil (firstn n xs).

Lemma source_at_exhausted n : skipn n xs = [] -> source_at (S n) = source_at n.
Proof.
  intros H. pose proof (@skipn_nil_len _ _ _ H) as Hl. unfold source_at.
  rewrite H. rewrite !firstn_all2 by lia. rewrite skipn_all2 by lia. reflexivity.
Qed.

Lemma source_at_pop n v rest :
  skipn n xs = v :: rest ->
  mkChan rest (length xs) cl VNil (firstn n xs ++ [v]) = source_at (S n).
Proof.
  intros H. destruct (@skipn_cons_nth _ VNil _ _ _ _ H) as (_ & H2 & H3 & _).
  unfold source_at. rewrite H2, H3. reflexivity.
Qed.

End Source.

(** ** Take *)

Section Take.
Variables (xs : list value) (cl : bool) (num : Z).
Let done := Ch 0.
Let src := Ch 1.
Let out := Ch 2.

Definition tk_sel (i : Z) (v : value) : proc (Z + leave) :=
  Select [OnRecv done (fun _ _ => ret); OnSend out v (continue (i + 1))].
Definition tk_body (i : Z) : proc (Z + leave) :=
  if i <? num then recv src (fun v _ => tk_sel i v) else break.
Definition tk_k (x : leave) : proc unit := Close out (Ret tt).

Inductive tk_pc := TkHead (i : Z) | TkUnf (i : Z) | TkSel (i : Z) (v : value) | TkClose | TkDone.
Definition tk_term (pc : tk_pc) : proc unit :=
  match pc with
  | TkHead i => Iter tk_body i tk_k
  | TkUnf i => bind (tk_body i) (loop_next tk_body tk_k)
  | TkSel i v => bind (tk_sel i v) (loop_next tk_body tk_k)
  | TkClose => tk_k Return
  | TkDone => Ret tt
  end.

Definition take_count := Z.to_nat num.
Definition take_feed := if cl then xs ++ repeat VNil take_count else xs.



Definition tk_rel (pc : tk_pc) (dc : bool) (n : nat) (oc : bool) (rc : list value) : Prop :=
  match pc with
  | TkHead i | TkUnf i =>
      0 <= i /\ (i <= num \/ i = 0) /\ n = Z.to_nat i /\ rc = firstn n take_feed /\ oc = false /\ (n <= length take_feed)%nat
  | TkSel i v =>
      0 <= i < num /\ n = S (Z.to_nat i) /\ rc = firstn (Z.to_nat i) take_feed /\ oc = false
      /\ v = nth (Z.to_nat i) take_feed VNil /\ (Z.to_nat i < length take_feed)%nat
  | TkClose =>
      oc = false /\ dc = true /\ exists j, rc = firstn j take_feed /\ (j <= take_count)%nat /\ (j <= length take_feed)%nat
  | TkDone =>
      oc = true /\ exists j, rc = firstn j take_feed /\ (j <= take_count)%nat /\ (j <= length take_feed)%nat /\ (dc = false -> j = take_count)
  end.

Lemma take_feed_pop n v rest :
  skipn n xs = v :: rest -> nth n take_feed VNil = v /\ (n < length take_feed)%nat.
Proof.
  intros H. destruct (@skipn_cons_nth _ VNil _ _ _ _ H) as (H1 & _ & _ & H4).
  unfold take_feed. destruct cl.
  - rewrite app_nth1 by lia. rewrite length_app. split; [exact H1 | lia].
  - split; [exact H1 | lia].
Qed.

Lemma take_feed_exhausted n :
  skipn n xs = [] -> cl = true -> (n < take_count)%nat ->
  nth n take_feed VNil = VNil /\ (n < length take_feed)%nat.
Proof.
  intros H Hcl Hn. pose proof (@skipn_nil_len _ _ _ H) as Hl. unfold take_feed. rewrite Hcl.
  rewrite length_app, repeat_length. split; [|lia].
  rewrite app_nth2 by lia. apply nth_repeat.
Qed.

Inductive take_inv (c : config chan) : Prop :=
| TI_call dc :
    main c = Utils.TakeChannel done src num -> pool c = [] ->
    st c = mkWorld [done_st dc; source_at xs cl 0] [] -> panicked c = false -> take_inv c
| TI_go dc :
    main c = Go (tk_term (TkHead 0)) (Ret out) -> pool c = [] ->
    st c = mkWorld [done_st dc; source_at xs cl 0; stream_st false []] [] -> panicked c = false -> take_inv c
| TI_run pc dc n oc rc :
    main c = Ret out -> pool c = [tk_term pc] ->
    st c = mkWorld [done_st dc; source_at xs cl n; stream_st oc rc] [] -> panicked c = false ->
    tk_rel pc dc n oc rc -> take_inv c.


Lemma tk_rel_cancel pc dc n oc rc : tk_rel pc dc n oc rc -> tk_rel pc true n oc rc.
Proof.
  destruct pc; simpl; auto.
  - intros (H1 & H0 & j & H2 & H3 & H4). repeat split; auto. exists j; auto.
  - intros (H1 & j & H2 & H3 & H4 & H5). split; [assumption|].
    exists j. repeat split; auto. discriminate.
Qed.

Lemma take_inv_step c ch c' :
  take_inv c -> env_may [out] [done] ch = true -> step c ch = Some c' -> take_inv c'.
Proof.
  intros Hinv Hok Hstep.
  destruct c as [m p w pk].
  destruct Hinv as [dc Hm Hp Hw Hk | dc Hm Hp Hw Hk | pc dc n oc rc Hm Hp Hw Hk Hrel];
    simpl in Hm, Hp, Hw, Hk; subst m p w pk; unfold step in Hstep; simpl in Hstep.
  - step_cases ch Hstep Hok.
    + injection Hstep as <-. eapply TI_go; reflexivity.
    + destruct dc; simpl in Hstep; [discriminate|]. injection Hstep as <-.
      eapply TI_call with (dc := true); reflexivity.
  - step_cases ch Hstep Hok.
    + injection Hstep as <-. eapply TI_run with (pc := TkHead 0) (n := O); try reflexivity.
      simpl. repeat split; try lia.
    + destruct dc; simpl in Hstep; [discriminate|]. injection Hstep as <-.
      eapply TI_go with (dc := true); reflexivity.
  - destruct ch as [k | i k | i k j l | ch i k | ch | ch].
    6:{ simpl in Hstep. break_idx Hstep; try (simpl in Hok; discriminate Hok).
        destruct dc; simpl in Hstep; [discriminate|]. injection Hstep as <-.
        eapply TI_run with (pc := pc) (dc := true); try reflexivity.
        eapply tk_rel_cancel; eassumption. }
    5:{ simpl in Hstep. break_idx Hstep; try (simpl in Hok; discriminate Hok). }
    1:{ simpl in Hstep. discriminate. }
    + (* the worker on its own *)
      destruct pc as [z|z|z v| |]; simpl in Hrel.
      * simpl in Hstep; break_idx Hstep. injection Hstep as <-.
        eapply TI_run with (pc := TkUnf z); try reflexivity. exact Hrel.
      * destruct Hrel as (Hi & Hle & Hn & Hrc & Hoc & Hlen). subst oc.
        unfold tk_term, tk_body in Hstep. destruct (Z.ltb_spec z num) as [Hlt|Hge].
        -- simpl in Hstep; break_idx Hstep.
           destruct (skipn n xs) as [|v rest] eqn:Esk.
           ++ destruct cl eqn:Ecl; [|discriminate]. injection Hstep as <-.
              rewrite <- (@source_at_exhausted xs true _ Esk).
              replace (source_at xs true (S n)) with (source_at xs cl (S n))
                by (rewrite Ecl; reflexivity).
              eapply TI_run with (pc := TkSel z VNil); try reflexivity.
              simpl. subst n.
              destruct (@take_feed_exhausted _ Esk Ecl) as [Hv Hl]; [unfold take_count; lia|].
              repeat split; auto; lia.
           ++ injection Hstep as <-. rewrite (@source_at_pop xs cl _ _ _ Esk).
              eapply TI_run with (pc := TkSel z v); try reflexivity.
              simpl. subst n. destruct (@take_feed_pop _ _ _ Esk) as [Hv Hl].
              repeat split; auto; lia.
        -- simpl in Hstep; break_idx Hstep.
           injection Hstep as <-. eapply TI_run with (pc := TkDone); try reflexivity.
           simpl. split; [reflexivity|]. exists n. repeat split; auto; unfold take_count; lia.
      * destruct Hrel as (Hi & Hn & Hrc & Hoc & Hv & Hlen). subst oc.
        simpl in Hstep; break_idx Hstep.
        destruct dc; [|discriminate]. injection Hstep as <-.
        eapply TI_run with (pc := TkClose); try reflexivity.
        simpl. repeat split; auto. exists (Z.to_nat z). repeat split; auto; unfold take_count; lia.
      * destruct Hrel as (Hoc & Hdc & j & Hrc & Hj & Hlen). subst oc dc.
        simpl in Hstep; break_idx Hstep. injection Hstep as <-.
        eapply TI_run with (pc := TkDone); try reflexivity.
        simpl. split; auto. exists j. repeat split; auto. discriminate.
      * simpl in Hstep. break_idx Hstep.
    + (* no partner goroutine *)
      simpl in Hstep. break_idx Hstep.
    + (* the environment receives *)
      simpl in Hstep. break_idx Hstep; try (simpl in Hok; discriminate Hok).
      destruct pc as [z|z|z v| |]; simpl in Hrel.
      * simpl in Hstep. discriminate.
      * unfold tk_term, tk_body in Hstep. destruct (z <? num); simpl in Hstep; break_idx Hstep.
      * simpl in Hstep. break_idx Hstep.
        destruct Hrel as (Hi & Hn & Hrc & Hoc & Hv & Hlen). subst oc. simpl in Hstep.
        injection Hstep as <-.
        eapply TI_run with (pc := TkHead (z + 1)); try reflexivity.
        simpl. rewrite Hrc, Hv, <- firstn_snoc_nth by assumption.
        replace (Z.to_nat (z + 1)) with (S (Z.to_nat z)) by lia.
        subst n. repeat split; auto; lia.
      * simpl in Hstep. discriminate.
      * simpl in Hstep. discriminate.
Qed.

Definition take_init : config chan :=
  init (Utils.TakeChannel done src num) [open_chan; source xs cl].

Lemma take_init_inv : take_inv take_init.
Proof. eapply TI_call with (dc := false); reflexivity. Qed.

Lemma take_inv_received c :
  take_inv c ->
  exists j, received c out = firstn j take_feed /\ (j <= take_count)%nat /\ (j <= length take_feed)%nat /\
    (is_closed c out = true -> is_closed c done = false -> j = take_count).
Proof.
  intros [dc Hm Hp Hw Hk | dc Hm Hp Hw Hk | pc dc n oc rc Hm Hp Hw Hk Hrel];
    unfold received, is_closed; rewrite Hw; simpl.
  - exists O. repeat split; try lia; discriminate.
  - exists O. repeat split; try lia; discriminate.
  - destruct pc as [z|z|z v| |]; simpl in Hrel.
    + destruct Hrel as (Hi & Hle & Hn & Hrc & Hoc & Hlen). subst oc.
      exists n. repeat split; auto; try discriminate. unfold take_count; lia.
    + destruct Hrel as (Hi & Hle & Hn & Hrc & Hoc & Hlen). subst oc.
      exists n. repeat split; auto; try discriminate. unfold take_count; lia.
    + destruct Hrel as (Hi & Hn & Hrc & Hoc & Hv & Hlen). subst oc.
      exists (Z.to_nat z). repeat split; auto; try discriminate; unfold take_count; lia.
    + destruct Hrel as (Hoc & Hdc & j & Hrc & Hj & Hlen). subst oc.
      exists j. repeat split; auto; discriminate.
    + destruct Hrel as (Hoc & j & Hrc & Hj & Hlen & Hd).
      exists j. repeat split; auto.
Qed.

(** The worker at control point [pc], after the call has returned. *)
Definition tk_cfg (pc : tk_pc) (dc : bool) (n : nat) (oc : bool)
    (rc : list value) : config chan :=
  mkConfig (Ret out) [tk_term pc]
    (mkWorld [done_st dc; source_at xs cl n; stream_st oc rc] []) false.

Lemma tk_setup :
  run [Main 0; Main 0] take_init = Some (tk_cfg (TkHead 0) false 0 false []).
Proof. reflexivity. Qed.

Lemma tk_step_head i dc n oc rc :
  step (tk_cfg (TkHead i) dc n oc rc) (Solo 0 0)
  = Some (tk_cfg (TkUnf i) dc n oc rc).
Proof. reflexivity. Qed.

Lemma tk_step_recv i dc n rc :
  i < num -> (n < length take_feed)%nat ->
  step (tk_cfg (TkUnf i) dc n false rc) (Solo 0 0)
  = Some (tk_cfg (TkSel i (nth n take_feed VNil)) dc (S n) false rc).
Proof.
  intros Hlt Hn. unfold step, tk_cfg, tk_term, tk_body; simpl.
  apply Z.ltb_lt in Hlt. rewrite Hlt. simpl.
  destruct (skipn n xs) as [|v rest] eqn:Esk.
  - assert (Hcl : cl = true).
    { destruct cl eqn:Ecl; [reflexivity|]. exfalso.
      apply skipn_nil_len in Esk. unfold take_feed in Hn. rewrite Ecl in Hn. lia. }
    rewrite Hcl.
    assert (Hv : nth n take_feed VNil = VNil).
    { pose proof (skipn_nil_len _ _ Esk) as Hl. unfold take_feed. rewrite Hcl.
      rewrite app_nth2 by lia. apply nth_repeat. }
    rewrite Hv, (@source_at_exhausted xs true _ Esk). reflexivity.
  - destruct (@take_feed_pop _ _ _ Esk) as [Hv _].
    rewrite Hv, (@source_at_pop xs cl _ _ _ Esk). reflexivity.
Qed.

Lemma tk_step_send i v dc n rc :
  step (tk_cfg (TkSel i v) dc n false rc) (EnvRecv out 0 1)
  = Some (tk_cfg (TkHead (i + 1)) dc n false (rc ++ [v])).
Proof. reflexivity. Qed.

Lemma tk_step_end i dc n rc :
  num <= i ->
  run [Solo 0 0] (tk_cfg (TkUnf i) dc n false rc)
  = Some (tk_cfg TkDone dc n true rc).
Proof.
  intros Hge. unfold run, step, tk_cfg, tk_term, tk_body; simpl.
  apply Z.ltb_ge in Hge. rewrite Hge. reflexivity.
Qed.

Lemma tk_round_run i n :
  0 <= i < num -> n = Z.to_nat i -> (n < length take_feed)%nat ->
  run (worker_round out) (tk_cfg (TkHead i) false n false (firstn n take_feed))
  = Some (tk_cfg (TkHead (i + 1)) false (S n) false (firstn (S n) take_feed)).
Proof.
  intros Hi Hn Hlen. unfold worker_round, run.
  rewrite tk_step_head, tk_step_recv by (assumption || lia).
  rewrite tk_step_send, <- firstn_snoc_nth by assumption. reflexivity.
Qed.

Lemma tk_rounds_run k : forall n,
  (n + k <= take_count)%nat -> (n + k <= length take_feed)%nat ->
  run (worker_rounds out k) (tk_cfg (TkHead (Z.of_nat n)) false n false (firstn n take_feed))
  = Some (tk_cfg (TkHead (Z.of_nat (n + k))) false (n + k) false
            (firstn (n + k) take_feed)).
Proof.
  induction k as [|k IH]; intros n HK Hlen.
  - rewrite Nat.add_0_r. reflexivity.
  - change (worker_rounds out (S k)) with (worker_round out ++ worker_rounds out k).
    rewrite run_app, tk_round_run by (unfold take_count in *; lia).
    replace (Z.of_nat n + 1) with (Z.of_nat (S n)) by lia.
    rewrite IH by lia. replace (S n + k)%nat with (n + S k)%nat by lia.
    reflexivity.
Qed.

(** The schedule that lets Take run to its end undisturbed. *)
Definition tk_schedule : list choice :=
  [Main 0; Main 0] ++ worker_rounds out take_count ++ [Solo 0 0; Solo 0 0].

Lemma tk_schedule_ok dones : forallb (env_may [out] dones) tk_schedule = true.
Proof.
  unfold tk_schedule. rewrite !forallb_app, worker_rounds_ok. reflexivity.
Qed.

Lemma tk_schedule_run :
  (take_count <= length take_feed)%nat ->
  run tk_schedule take_init
  = Some (tk_cfg TkDone false take_count true (firstn take_count take_feed)).
Proof.
  intros Hlen. unfold tk_schedule.
  rewrite run_app, tk_setup, run_app.
  change (tk_cfg (TkHead 0) false 0 false [])
    with (tk_cfg (TkHead (Z.of_nat 0)) false 0 false (firstn 0 take_feed)).
  rewrite (tk_rounds_run take_count O) by lia. simpl Nat.add.
  change (run [Solo 0 0; Solo 0 0] ?c) with
    (match step c (Solo 0 0) with Some c' => run [Solo 0 0] c' | None => None end).
  rewrite tk_step_head. apply tk_step_end. unfold take_count. lia.
Qed.

(** Every run of Take: what the environment has received is a prefix of
    the take_feed, at most [take_count] long, and all [take_count] once the stream is closed with
    nobody having cancelled. *)
Lemma take_runs sched c :
  forallb (env_may [out] [done]) sched = true ->
  run sched take_init = Some c ->
  panicked c = false /\
  exists j, received c out = firstn j take_feed /\ (j <= take_count)%nat /\
    (j <= length take_feed)%nat /\
    (is_closed c out = true -> is_closed c done = false -> j = take_count).
Proof.
  intros Hok Hrun.
  assert (Hinv : take_inv c).
  { eapply run_invariant with (Inv := take_inv); eauto using take_init_inv.
    intros; eapply take_inv_step; eauto. }
  split; [|apply take_inv_received; assumption].
  destruct Hinv; assumption.
Qed.

End Take.

(** ** RepeatValue on an empty list *)

Section RepeatEmpty.
Let done := Ch 0.
Let out := Ch 1.

(** With no values the inner [range] has no round and the outer [for]
    never reaches a [select]. *)
Definition rp_spin : proc unit :=
  defer_close out
    (Iter (fun _ : unit => Utils.range_values done out [] (continue tt))
       tt (fun _ => Ret tt)).

Definition rp_init : config chan :=
  init (Utils.RepeatValue done []) [open_chan].

Inductive rp_inv (c : config chan) : Prop :=
| RP_call dc :
    main c = Utils.RepeatValue done [] -> pool c = [] ->
    st c = mkWorld [done_st dc] [] -> panicked c = false -> rp_inv c
| RP_go dc :
    main c = Go rp_spin (Ret out) -> pool c = [] ->
    st c = mkWorld [done_st dc; stream_st false []] [] ->
    panicked c = false -> rp_inv c
| RP_spin dc :
    main c = Ret out -> pool c = [rp_spin] ->
    st c = mkWorld [done_st dc; stream_st false []] [] ->
    panicked c = false -> rp_inv c.

Lemma rp_init_inv : rp_inv rp_init.
Proof. eapply RP_call with (dc := false); reflexivity. Qed.

Lemma rp_inv_step c ch c' :
  rp_inv c -> env_may [out] [done] ch = true -> step c ch = Some c' ->
  rp_inv c'.
Proof.
  intros Hinv Hok Hstep. destruct c as [m p w pk].
  destruct Hinv as [dc Hm Hp Hw Hk | dc Hm Hp Hw Hk | dc Hm Hp Hw Hk];
    simpl in Hm, Hp, Hw, Hk; subst m p w pk;
    unfold step in Hstep; simpl in Hstep; step_cases ch Hstep Hok.
  - injection Hstep as <-. eapply RP_go; reflexivity.
  - destruct dc; simpl in Hstep; [discriminate|]. injection Hstep as <-.
    eapply RP_call with (dc := true); reflexivity.
  - injection Hstep as <-. eapply RP_spin; reflexivity.
  - destruct dc; simpl in Hstep; [discriminate|]. injection Hstep as <-.
    eapply RP_go with (dc := true); reflexivity.
  - injection Hstep as <-. eapply RP_spin; reflexivity.
  - destruct dc; simpl in Hstep; [discriminate|]. injection Hstep as <-.
    eapply RP_spin with (dc := true); reflexivity.
Qed.

Lemma rp_inv_open c :
  rp_inv c ->
  panicked c = false /\ is_closed c out = false /\ received c out = [].
Proof.
  intros [dc Hm Hp Hw Hk | dc Hm Hp Hw Hk | dc Hm Hp Hw Hk];
    unfold is_closed, received; rewrite Hw; auto.
Qed.

(** Once started the worker can always take one more step, and that step
    changes nothing. *)
Lemma rp_inv_spins c :
  rp_inv c -> pool c <> [] -> step c (Solo 0 0) = Some c.
Proof.
  destruct c as [m p w pk].
  intros [dc Hm Hp Hw Hk | dc Hm Hp Hw Hk | dc Hm Hp Hw Hk] Hne;
    simpl in *; subst; try congruence. reflexivity.
Qed.

End RepeatEmpty.

(** ** Typed extraction *)

Lemma type_assert_some T v tv : type_assert T v = Some tv -> tv = v.
Proof.
  unfold type_assert. destruct (type_of v); [|discriminate].
  destruct (gotype_eqb g T); congruence.
Qed.

(** [v.(T)] does not panic. *)
Definition well_typed (T : gotype) (v : value) : bool :=
  match type_assert T v with
  | Some _ => true
  | None => false
  end.

Section Typed.
Variables (T : gotype) (xs : list value) (cl : bool).
Let done := Ch 0.
Let src := Ch 1.
Let out := Ch 2.

(** [select { case <-done: return; case theStream <- v.(T): }]. *)
Definition tx_assert (v : value) : proc (unit + leave) :=
  match type_assert T v with
  | Some tv =>
      Select [OnRecv done (fun _ _ => ret); OnSend out tv (continue tt)]
  | None => Panic
  end.
(** The same in the goroutine, which has deferred [close(theStream)]. *)
Definition tx_sel (v : value) : proc (unit + leave) :=
  unwinding out (tx_assert v).
Definition tx_body (_ : unit) : proc (unit + leave) :=
  recv src (fun v ok => unwinding out (if ok then tx_assert v else break)).
Definition tx_k (x : leave) : proc unit := Close out (Ret tt).

(** Control points of the worker; at [TxPanic] the deferred close has
    run and the panic is about to end the program. *)
Inductive tx_pc : Type :=
| TxHead | TxUnf | TxGot (v : value) | TxPanic | TxClose | TxDone.

Definition tx_term (pc : tx_pc) : proc unit :=
  match pc with
  | TxHead => Iter tx_body tt tx_k
  | TxUnf => bind (tx_body tt) (loop_next tx_body tx_k)
  | TxGot v => bind (tx_sel v) (loop_next tx_body tx_k)
  | TxPanic => Panic
  | TxClose => tx_k Return
  | TxDone => Ret tt
  end.

(** The typed stream [make(chan T)]. *)
Definition typed_st (oc : bool) (rc : list value) : chan_state :=
  mkChan [] 0 oc (zero_of T) rc.

Definition tx_sent (m : nat) (rc : list value) : Prop :=
  rc = firstn m xs /\ (m <= length xs)%nat /\
  forallb (well_typed T) rc = true.

Definition tx_rel (pc : tx_pc) (dc : bool) (n : nat) (oc : bool)
    (rc : list value) (pk : bool) : Prop :=
  match pc with
  | TxHead | TxUnf => tx_sent n rc /\ oc = false /\ pk = false
  | TxGot v =>
      exists m, n = S m /\ (m < length xs)%nat /\ v = nth m xs VNil /\
        tx_sent m rc /\ oc = false /\ pk = false
  | TxPanic =>
      exists m, n = S m /\ (m < length xs)%nat /\
        well_typed T (nth m xs VNil) = false /\ tx_sent m rc /\ oc = true
  | TxClose =>
      oc = false /\ pk = false /\
      exists m, tx_sent m rc /\ (dc = true \/ (cl = true /\ m = length xs))
  | TxDone =>
      oc = true /\ pk = false /\
      exists m, tx_sent m rc /\ (dc = true \/ (cl = true /\ m = length xs))
  end.

Definition tx_init : config chan :=
  init (UtilsGenerics.ToTChannel T done src) [open_chan; source xs cl].

Inductive tx_inv (c : config chan) : Prop :=
| TX_call dc :
    main c = UtilsGenerics.ToTChannel T done src -> pool c = [] ->
    st c = mkWorld [done_st dc; source_at xs cl 0] [] ->
    panicked c = false -> tx_inv c
| TX_go dc :
    main c = Go (tx_term TxHead) (Ret out) -> pool c = [] ->
    st c = mkWorld [done_st dc; source_at xs cl 0; typed_st false []] [] ->
    panicked c = false -> tx_inv c
| TX_run pc dc n oc rc :
    main c = Ret out -> pool c = [tx_term pc] ->
    st c = mkWorld [done_st dc; source_at xs cl n; typed_st oc rc] [] ->
    tx_rel pc dc n oc rc (panicked c) -> tx_inv c.

Lemma tx_init_inv : tx_inv tx_init.
Proof. eapply TX_call with (dc := false); reflexivity. Qed.

Lemma tx_rel_cancel pc dc n oc rc pk :
  tx_rel pc dc n oc rc pk -> tx_rel pc true n oc rc pk.
Proof.
  destruct pc; simpl; auto.
  - intros (H1 & H2 & m & H3 & _). repeat split; auto. exists m; auto.
  - intros (H1 & H2 & m & H3 & _). repeat split; auto. exists m; auto.
Qed.

Lemma tx_sent_snoc m rc v :
  tx_sent m rc -> (m < length xs)%nat -> v = nth m xs VNil ->
  well_typed T v = true -> tx_sent (S m) (rc ++ [v]).
Proof.
  intros (H1 & H2 & H3) Hm Hv Hw. unfold tx_sent. subst rc v.
  rewrite <- firstn_snoc_nth by assumption. repeat split; [lia|].
  rewrite (firstn_snoc_nth VNil) by assumption.
  rewrite forallb_app, H3. simpl. rewrite Hw. reflexivity.
Qed.

Lemma tx_inv_step c ch c' :
  tx_inv c -> env_may [out] [done] ch = true -> step c ch = Some c' ->
  tx_inv c'.
Proof.
  intros Hinv Hok Hstep. destruct c as [m p w pk].
  destruct Hinv as [dc Hm Hp Hw Hk | dc Hm Hp Hw Hk | pc dc n oc rc Hm Hp Hw Hrel];
    simpl in *; subst m p w.
  - subst pk. unfold step in Hstep; simpl in Hstep. step_cases ch Hstep Hok.
    + injection Hstep as <-. eapply TX_go; reflexivity.
    + destruct dc; simpl in Hstep; [discriminate|]. injection Hstep as <-.
      eapply TX_call with (dc := true); reflexivity.
  - subst pk. unfold step in Hstep; simpl in Hstep. step_cases ch Hstep Hok.
    + injection Hstep as <-. eapply TX_run with (pc := TxHead) (n := O);
        try reflexivity. simpl. repeat split; lia.
    + destruct dc; simpl in Hstep; [discriminate|]. injection Hstep as <-.
      eapply TX_go with (dc := true); reflexivity.
  - assert (Hpk : pk = false).
    { unfold step in Hstep; simpl in Hstep. destruct pk; [discriminate|reflexivity]. }
    subst pk. unfold step in Hstep; simpl in Hstep.
    destruct ch as [k | i k | i k j l | ch i k | ch | ch].
    6:{ simpl in Hstep. break_idx Hstep; try (simpl in Hok; discriminate Hok).
        destruct dc; simpl in Hstep; [discriminate|]. injection Hstep as <-.
        eapply TX_run with (pc := pc) (dc := true); try reflexivity.
        eapply tx_rel_cancel; eassumption. }
    5:{ simpl in Hstep. break_idx Hstep; try (simpl in Hok; discriminate Hok). }
    1:{ simpl in Hstep. discriminate. }
    + (* the worker on its own *)
      destruct pc as [ | |v| | |]; simpl in Hrel.
      * simpl in Hstep; break_idx Hstep. injection Hstep as <-.
        eapply TX_run with (pc := TxUnf); try reflexivity. exact Hrel.
      * destruct Hrel as (Hs & Hoc & _). subst oc.
        simpl in Hstep; break_idx Hstep.
        destruct (skipn n xs) as [|v rest] eqn:Esk.
        -- case_eq cl; intros Ecl; rewrite Ecl in Hstep; [|discriminate].
           injection Hstep as <-.
           replace (source_at xs true n) with (source_at xs cl n)
             by (rewrite Ecl; reflexivity).
           eapply TX_run with (pc := TxClose); try reflexivity.
           simpl. repeat split; auto. exists n. split; [assumption|].
           right. split; [assumption|]. apply skipn_nil_len in Esk.
           destruct Hs as (_ & Hl & _). lia.
        -- injection Hstep as <-. rewrite (@source_at_pop xs cl _ _ _ Esk).
           eapply TX_run with (pc := TxGot v); try reflexivity.
           simpl. destruct (@skipn_cons_nth _ VNil _ _ _ _ Esk) as (Hv & _ & _ & Hl).
           pose proof Hs as (Hs1 & Hs2 & Hs3).
           exists n. repeat split; auto; try discriminate; try lia.
      * destruct Hrel as (m & Hn & Hm & Hv & Hs & Hoc & _). subst oc.
        unfold tx_term, tx_sel, tx_assert in Hstep.
        destruct (type_assert T v) as [tv|] eqn:Eta.
        -- simpl in Hstep; break_idx Hstep.
           destruct dc; [|discriminate]. injection Hstep as <-.
           eapply TX_run with (pc := TxClose); try reflexivity.
           simpl. repeat split; auto. exists m. auto.
        -- (* the assertion fails: the deferred close runs *)
           simpl in Hstep. break_idx Hstep. injection Hstep as <-.
           eapply TX_run with (pc := TxPanic); try reflexivity.
           simpl. exists m. repeat split; auto; try apply Hs.
           rewrite <- Hv. unfold well_typed. rewrite Eta. reflexivity.
      * (* the panic ends the program *)
        simpl in Hstep. break_idx Hstep. injection Hstep as <-.
        eapply TX_run with (pc := TxPanic); try reflexivity. exact Hrel.
      * destruct Hrel as (Hoc & _ & m & Hs & Hwhy). subst oc.
        simpl in Hstep; break_idx Hstep. injection Hstep as <-.
        eapply TX_run with (pc := TxDone); try reflexivity.
        simpl. repeat split; auto. exists m. auto.
      * simpl in Hstep. break_idx Hstep.
    + simpl in Hstep. break_idx Hstep.
    + (* the environment receives *)
      simpl in Hstep. break_idx Hstep; try (simpl in Hok; discriminate Hok).
      destruct pc as [ | |v| | |]; simpl in Hrel;
        try (simpl in Hstep; break_idx Hstep; fail).
      destruct Hrel as (m & Hn & Hm & Hv & Hs & Hoc & _). subst oc.
      unfold tx_term, tx_sel, tx_assert in Hstep.
      destruct (type_assert T v) as [tv|] eqn:Eta;
        simpl in Hstep; break_idx Hstep.
      injection Hstep as <-. apply type_assert_some in Eta as Etv. subst tv.
      eapply TX_run with (pc := TxHead); try reflexivity.
      simpl. subst n. split; [|split; reflexivity].
      apply tx_sent_snoc; auto. unfold well_typed. rewrite Eta. reflexivity.
Qed.

(** What a run shows.  The output is closed with nobody having
    cancelled in two cases only: the whole input, closed, has been
    delivered, or the assertion has failed at the element that follows
    what has been delivered. *)
Lemma tx_inv_sent c :
  tx_inv c ->
  exists m, tx_sent m (received c out) /\
    (panicked c = true ->
       (m < length xs)%nat /\ well_typed T (nth m xs VNil) = false /\
       is_closed c out = true) /\
    (is_closed c out = true ->
       is_closed c done = true \/
       (cl = true /\ m = length xs /\ panicked c = false) \/
       ((m < length xs)%nat /\ well_typed T (nth m xs VNil) = false)).
Proof.
  intros [dc Hm Hp Hw Hk | dc Hm Hp Hw Hk | pc dc n oc rc Hm Hp Hw Hrel];
    unfold received, is_closed; rewrite Hw; simpl.
  - exists O. rewrite Hk. split; [|split; discriminate].
    repeat split. lia.
  - exists O. rewrite Hk. split; [|split; discriminate].
    repeat split. lia.
  - destruct pc as [ | |v| | |]; simpl in Hrel.
    + destruct Hrel as (Hs & Hoc & Hpk). rewrite Hpk, Hoc.
      exists n. split; [assumption|]. split; discriminate.
    + destruct Hrel as (Hs & Hoc & Hpk). rewrite Hpk, Hoc.
      exists n. split; [assumption|]. split; discriminate.
    + destruct Hrel as (m & Hn & Hm' & Hv & Hs & Hoc & Hpk).
      rewrite Hoc, Hpk.
      exists m. split; [assumption|]. split; discriminate.
    + destruct Hrel as (m & Hn & Hm' & Hv & Hs & Hoc). rewrite Hoc.
      exists m. split; [assumption|]. split; auto.
    + destruct Hrel as (Hoc & Hpk & m & Hs & Hwhy). rewrite Hpk, Hoc.
      exists m. split; [assumption|]. split; discriminate.
    + destruct Hrel as (Hoc & Hpk & m & Hs & Hwhy). rewrite Hpk, Hoc.
      exists m. split; [assumption|]. split; [discriminate|].
      intros _. destruct Hwhy as [->|[Hcl Hall]]; auto.
Qed.

(** The conversion worker at control point [pc]. *)
Definition tx_cfg (pc : tx_pc) (dc : bool) (n : nat) (oc : bool)
    (rc : list value) (pk : bool) : config chan :=
  mkConfig (Ret out) [tx_term pc]
    (mkWorld [done_st dc; source_at xs cl n; typed_st oc rc] []) pk.

Lemma tx_setup :
  run [Main 0; Main 0] tx_init = Some (tx_cfg TxHead false 0 false [] false).
Proof. reflexivity. Qed.

Lemma tx_step_head dc n oc rc :
  step (tx_cfg TxHead dc n oc rc false) (Solo 0 0)
  = Some (tx_cfg TxUnf dc n oc rc false).
Proof. reflexivity. Qed.

Lemma tx_step_recv dc n rc :
  (n < length xs)%nat ->
  step (tx_cfg TxUnf dc n false rc false) (Solo 0 0)
  = Some (tx_cfg (TxGot (nth n xs VNil)) dc (S n) false rc false).
Proof.
  intros Hn. unfold step, tx_cfg, tx_term, tx_body; simpl.
  destruct (skipn n xs) as [|v rest] eqn:Esk.
  - apply skipn_nil_len in Esk. lia.
  - destruct (@skipn_cons_nth _ VNil _ _ _ _ Esk) as (Hv & _).
    rewrite Hv, (@source_at_pop xs cl _ _ _ Esk). reflexivity.
Qed.

Lemma tx_step_send v dc n rc :
  well_typed T v = true ->
  step (tx_cfg (TxGot v) dc n false rc false) (EnvRecv out 0 1)
  = Some (tx_cfg TxHead dc n false (rc ++ [v]) false).
Proof.
  unfold well_typed. intros Hw.
  unfold step, tx_cfg, tx_term, tx_sel, tx_assert.
  destruct (type_assert T v) as [tv|] eqn:Eta; [|discriminate].
  apply type_assert_some in Eta. subst tv. reflexivity.
Qed.



Lemma tx_round_run n :
  (n < length xs)%nat -> well_typed T (nth n xs VNil) = true ->
  run (worker_round out) (tx_cfg TxHead false n false (firstn n xs) false)
  = Some (tx_cfg TxHead false (S n) false (firstn (S n) xs) false).
Proof.
  intros Hn Hw. unfold worker_round, run.
  rewrite tx_step_head, tx_step_recv by assumption.
  rewrite tx_step_send, <- firstn_snoc_nth by assumption. reflexivity.
Qed.

Lemma tx_rounds_run k : forall n,
  (n + k <= length xs)%nat ->
  forallb (well_typed T) (firstn (n + k) xs) = true ->
  run (worker_rounds out k) (tx_cfg TxHead false n false (firstn n xs) false)
  = Some (tx_cfg TxHead false (n + k) false (firstn (n + k) xs) false).
Proof.
  induction k as [|k IH]; intros n Hlen Hwt.
  - rewrite Nat.add_0_r. reflexivity.
  - change (worker_rounds out (S k))
      with (worker_round out ++ worker_rounds out k).
    replace (n + S k)%nat with (S n + k)%nat in * by lia.
    assert (Hn : well_typed T (nth n xs VNil) = true).
    { rewrite forallb_forall in Hwt. apply Hwt.
      replace (nth n xs VNil) with (nth n (firstn (S n + k) xs) VNil).
      - apply nth_In. rewrite length_firstn. lia.
      - rewrite nth_firstn. destruct (Nat.ltb_spec n (S n + k)); [reflexivity|lia]. }
    rewrite run_app, tx_round_run by (assumption || lia).
    apply IH; assumption.
Qed.




Lemma typed_runs sched c :
  forallb (env_may [out] [done]) sched = true ->
  run sched tx_init = Some c ->
  exists m, tx_sent m (received c out) /\
    (panicked c = true ->
       (m < length xs)%nat /\ well_typed T (nth m xs VNil) = false /\
       is_closed c out = true) /\
    (is_closed c out = true ->
       is_closed c done = true \/
       (cl = true /\ m = length xs /\ panicked c = false) \/
       ((m < length xs)%nat /\ well_typed T (nth m xs VNil) = false)).
Proof.
  intros Hok Hrun. apply tx_inv_sent.
  eapply run_invariant with (Inv := tx_inv); eauto using tx_init_inv.
  intros; eapply tx_inv_step; eauto.
Qed.

End Typed.

(** ** The OrDone relay worker *)

Section OrDoneWorker.
Variables (done c valStream : chan).

Definition od_send (v : value) : proc (unit + leave) :=
  Select [OnSend valStream v (continue tt);
          OnRecv done (fun _ _ => continue tt)].
Definition od_body (_ : unit) : proc (unit + leave) :=
  Select [OnRecv done (fun _ _ => ret);
          OnRecv c (fun v ok => if Bool.eqb ok false then ret else od_send v)].
Definition od_k (x : leave) : proc unit := Close valStream (Ret tt).

(** Control points of the relay: at the head of the loop, in the outer
    [select], holding a value in the inner [select], about to close its
    stream, finished. *)
Inductive od_pc : Type :=
| OdHead | OdUnf | OdSend (v : value) | OdClose | OdDone.

Definition od_term (pc : od_pc) : proc unit :=
  match pc with
  | OdHead => Iter od_body tt od_k
  | OdUnf => bind (od_body tt) (loop_next od_body od_k)
  | OdSend v => bind (od_send v) (loop_next od_body od_k)
  | OdClose => od_k Return
  | OdDone => Ret tt
  end.

Inductive od_at : od_pc -> proc unit -> Prop :=
| od_at_head : od_at OdHead (od_term OdHead)
| od_at_unf : od_at OdUnf (od_term OdUnf)
| od_at_send v : od_at (OdSend v) (od_term (OdSend v))
| od_at_close : od_at OdClose (od_term OdClose)
| od_at_done : od_at OdDone (od_term OdDone).

Lemma od_at_term pc : od_at pc (od_term pc).
Proof. destruct pc; constructor. Qed.

(** The value the relay has taken from its input and not passed on. *)
Definition od_held (pc : od_pc) : list value :=
  match pc with
  | OdSend v => [v]
  | _ => []
  end.

(** The relay has closed its stream. *)
Definition od_closed (pc : od_pc) : bool :=
  match pc with
  | OdDone => true
  | _ => false
  end.

(** The relay has left its loop. *)
Definition od_left (pc : od_pc) : bool :=
  match pc with
  | OdClose | OdDone => true
  | _ => false
  end.

End OrDoneWorker.

Lemma OrDoneChannel_unfold done c :
  Utils.OrDoneChannel done c
  = MakeChan VNil 0 (fun vs => Go (od_term done c vs OdHead) (Ret vs)).
Proof. reflexivity. Qed.

(** ** Tee *)

Section Tee.
Variable xs : list value.
Let done := Ch 0.
Let inp := Ch 1.
Let out1 := Ch 2.
Let out2 := Ch 3.
Let relay := Ch 4.

Definition te_body (_ : unit) : proc (unit + leave) :=
  recv relay (fun val ok =>
    if ok then Utils.tee_rounds 2 done val out1 out2 (continue tt) else break).
Definition te_k (x : leave) : proc unit := Close out1 (Close out2 (Ret tt)).

(** Control points of the Tee worker. *)
Inductive te_pc : Type :=
| TeCall                                   (* about to call orDone *)
| TeGo                                     (* orDone has made its stream *)
| TeHead | TeUnf
| TeR (n : nat) (v : value) (o1 o2 : chan) (* [n] rounds left for [v] *)
| TeClose1 | TeClose2 | TeDone.

Definition te_term (pc : te_pc) : proc unit :=
  match pc with
  | TeCall =>
      bind
        (bind (Utils.OrDoneChannel done inp) (fun orDoneStream =>
         Iter (fun _ : unit =>
                 recv orDoneStream (fun val ok =>
                   if ok then
                     Utils.tee_rounds 2 done val out1 out2 (continue tt)
                   else break))
           tt (fun _ => Ret tt)))
        (fun _ => Close out1 (Close out2 (Ret tt)))
  | TeGo => Go (od_term done inp relay OdHead) (Iter te_body tt te_k)
  | TeHead => Iter te_body tt te_k
  | TeUnf => bind (te_body tt) (loop_next te_body te_k)
  | TeR n v o1 o2 =>
      bind (Utils.tee_rounds n done v o1 o2 (continue tt))
        (loop_next te_body te_k)
  | TeClose1 => te_k Break
  | TeClose2 => Close out2 (Ret tt)
  | TeDone => Ret tt
  end.

Inductive te_at : te_pc -> proc unit -> Prop :=
| te_at_head : te_at TeHead (te_term TeHead)
| te_at_unf : te_at TeUnf (te_term TeUnf)
| te_at_r2 v : te_at (TeR 2 v out1 out2) (te_term (TeR 2 v out1 out2))
| te_at_r1a v :
    te_at (TeR 1 v NilChan out2) (te_term (TeR 1 v NilChan out2))
| te_at_r1b v :
    te_at (TeR 1 v out1 NilChan) (te_term (TeR 1 v out1 NilChan))
| te_at_r1c v : te_at (TeR 1 v out1 out2) (te_term (TeR 1 v out1 out2))
| te_at_close1 : te_at TeClose1 (te_term TeClose1)
| te_at_close2 : te_at TeClose2 (te_term TeClose2)
| te_at_done : te_at TeDone (te_term TeDone).

Lemma TeeChannel_unfold :
  Utils.TeeChannel done inp
  = MakeChan VNil 0 (fun o1 => MakeChan VNil 0 (fun o2 =>
      Go (bind
            (bind (Utils.OrDoneChannel done inp) (fun orDoneStream =>
             Iter (fun _ : unit =>
                     recv orDoneStream (fun val ok =>
                       if ok then
                         Utils.tee_rounds 2 done val o1 o2 (continue tt)
                       else break))
               tt (fun _ => Ret tt)))
            (fun _ => Close o1 (Close o2 (Ret tt))))
         (Ret (o1, o2)))).
Proof. reflexivity. Qed.


(** What [TeeChannel] still has to do once [out1] exists. *)
Definition te_main1 (o1 : chan) : proc (chan * chan) :=
  MakeChan VNil 0 (fun o2 =>
  Go (bind
        (bind (Utils.OrDoneChannel done inp) (fun orDoneStream =>
         Iter (fun _ : unit =>
                 recv orDoneStream (fun val ok =>
                   if ok then
                     Utils.tee_rounds 2 done val o1 o2 (continue tt)
                   else break))
           tt (fun _ => Ret tt)))
        (fun _ => Close o1 (Close o2 (Ret tt))))
     (Ret (o1, o2))).

(** A send case on the shadowing copy [o] still waits for a receiver. *)
Definition chan_pending (o : chan) (v : value) : list value :=
  match o with
  | NilChan => []
  | Ch _ => [v]
  end.

Definition te_pend1 (pc : te_pc) : list value :=
  match pc with
  | TeR _ v o1 _ => chan_pending o1 v
  | _ => []
  end.

Definition te_pend2 (pc : te_pc) : list value :=
  match pc with
  | TeR _ v _ o2 => chan_pending o2 v
  | _ => []
  end.

(** [out1], [out2] are closed at these control points. *)
Definition te_oc1 (pc : te_pc) : bool :=
  match pc with
  | TeClose2 | TeDone => true
  | _ => false
  end.

Definition te_oc2 (pc : te_pc) : bool :=
  match pc with
  | TeDone => true
  | _ => false
  end.

(** The worker has left its loop. *)
Definition te_left (pc : te_pc) : bool :=
  match pc with
  | TeClose1 | TeClose2 | TeDone => true
  | _ => false
  end.

(** With nobody cancelling, a value is offered to both outputs in the
    first round and to the remaining one in the second. *)
Definition te_rounds_ok (pc : te_pc) : Prop :=
  match pc with
  | TeR n _ o1 o2 =>
      (n = 2%nat /\ o1 = out1 /\ o2 = out2) \/
      (n = 1%nat /\ ((o1 = NilChan /\ o2 = out2) \/
                     (o1 = out1 /\ o2 = NilChan)))
  | _ => True
  end.

Definition src_st (cl : bool) (sb sr : list value) : chan_state :=
  mkChan sb (length xs) cl VNil sr.

Record te_rel (cl : bool) (tpc : te_pc) (opc : od_pc) (dc : bool)
    (sb rc1 rc2 : list value) : Prop := mk_te_rel {
  te_relay_closed : te_left tpc = true -> opc = OdDone;
  te_rounds_inv : dc = false -> te_rounds_ok tpc;
  te_law1 : dc = false -> rc1 ++ te_pend1 tpc ++ od_held opc ++ sb = xs;
  te_law2 : dc = false -> rc2 ++ te_pend2 tpc ++ od_held opc ++ sb = xs;
  te_src_done : dc = false -> od_left opc = true -> sb = [] /\ cl = true
}.

Definition tee_init (cl : bool) : config (chan * chan) :=
  init (Utils.TeeChannel done inp) [open_chan; source xs cl].

Inductive tee_inv (cl : bool) (c : config (chan * chan)) : Prop :=
| TE_a dc :
    main c = Utils.TeeChannel done inp -> pool c = [] ->
    st c = mkWorld [done_st dc; src_st cl xs []] [] ->
    panicked c = false -> tee_inv cl c
| TE_b dc :
    main c = te_main1 out1 -> pool c = [] ->
    st c = mkWorld [done_st dc; src_st cl xs []; stream_st false []] [] ->
    panicked c = false -> tee_inv cl c
| TE_c dc :
    main c = Go (te_term TeCall) (Ret (out1, out2)) -> pool c = [] ->
    st c = mkWorld [done_st dc; src_st cl xs []; stream_st false [];
                    stream_st false []] [] ->
    panicked c = false -> tee_inv cl c
| TE_d dc :
    main c = Ret (out1, out2) -> pool c = [te_term TeCall] ->
    st c = mkWorld [done_st dc; src_st cl xs []; stream_st false [];
                    stream_st false []] [] ->
    panicked c = false -> tee_inv cl c
| TE_e dc :
    main c = Ret (out1, out2) -> pool c = [te_term TeGo] ->
    st c = mkWorld [done_st dc; src_st cl xs []; stream_st false [];
                    stream_st false []; stream_st false []] [] ->
    panicked c = false -> tee_inv cl c
| TE_run t1 t2 tpc opc dc sb sr rc1 rc2 rr :
    main c = Ret (out1, out2) -> pool c = [t1; t2] ->
    te_at tpc t1 -> od_at done inp relay opc t2 ->
    st c = mkWorld [done_st dc; src_st cl sb sr;
                    stream_st (te_oc1 tpc) rc1; stream_st (te_oc2 tpc) rc2;
                    stream_st (od_closed opc) rr] [] ->
    panicked c = false ->
    te_rel cl tpc opc dc sb rc1 rc2 -> tee_inv cl c.

Lemma tee_init_inv cl : tee_inv cl (tee_init cl).
Proof. eapply TE_a with (dc := false); reflexivity. Qed.

Lemma te_rel_cancel cl tpc opc dc sb rc1 rc2 :
  te_rel cl tpc opc dc sb rc1 rc2 -> te_rel cl tpc opc true sb rc1 rc2.
Proof. intros [H2 H3 H4 H5 H6]. constructor; auto; discriminate. Qed.


Ltac env_close_done Hstep dc :=
  destruct dc; simpl in Hstep; [discriminate Hstep|]; injection Hstep as <-.

Ltac te_finish Hstep :=
  injection Hstep as <-;
  eapply TE_run;
  [ reflexivity | reflexivity
  | first [eassumption | econstructor]
  | first [eassumption | econstructor]
  | reflexivity | reflexivity | idtac ].

Ltac use_refl :=
  repeat match goal with
    | H : ?a = ?a -> _ |- _ => specialize (H eq_refl)
    | H : _ /\ _ |- _ => destruct H
    end.

Ltac te_rel_solve Hrel :=
  destruct Hrel as [R1 R2 R3 R4 R5]; simpl in *; use_refl;
  try discriminate;
  constructor; simpl in *; intros; use_refl;
  try discriminate; auto;
  try solve [rewrite <- ?app_assoc; simpl; auto];
  try solve [exfalso; intuition discriminate].

Lemma tee_inv_step cl c ch c' :
  tee_inv cl c -> env_may [out1; out2] [done] ch = true ->
  step c ch = Some c' -> tee_inv cl c'.
Proof.
  intros Hinv Hok Hstep. destruct c as [m p w pk].
  destruct Hinv as [dc Hm Hp Hw Hk | dc Hm Hp Hw Hk | dc Hm Hp Hw Hk
                   | dc Hm Hp Hw Hk | dc Hm Hp Hw Hk
                   | t1 t2 tpc opc dc sb sr rc1 rc2 rr Hm Hp Hat1 Hat2 Hw Hk Hrel];
    simpl in Hm, Hp, Hw, Hk; subst m p w pk;
    unfold step in Hstep; simpl in Hstep.
  - step_cases ch Hstep Hok.
    + injection Hstep as <-. eapply TE_b; reflexivity.
    + env_close_done Hstep dc. eapply TE_a with (dc := true); reflexivity.
  - step_cases ch Hstep Hok.
    + injection Hstep as <-. eapply TE_c; reflexivity.
    + env_close_done Hstep dc. eapply TE_b with (dc := true); reflexivity.
  - step_cases ch Hstep Hok.
    + injection Hstep as <-. eapply TE_d; reflexivity.
    + env_close_done Hstep dc. eapply TE_c with (dc := true); reflexivity.
  - step_cases ch Hstep Hok.
    + injection Hstep as <-. eapply TE_e; reflexivity.
    + env_close_done Hstep dc. eapply TE_d with (dc := true); reflexivity.
  - step_cases ch Hstep Hok.
    + injection Hstep as <-.
      eapply TE_run with (tpc := TeHead) (opc := OdHead) (sb := xs);
        try reflexivity; try constructor; simpl; auto; try discriminate.
      all: intros; rewrite ?app_nil_r; auto.
    + env_close_done Hstep dc. eapply TE_e with (dc := true); reflexivity.
  - destruct ch as [k | i k | i k j l | ch i k | ch | ch].
    + simpl in Hstep; discriminate.
    + destruct i as [|[|i]]; simpl in Hstep; [ | | break_idx Hstep].
      * destruct Hat1, Hat2, dc, cl; simpl in Hstep; break_idx Hstep.
        all: te_finish Hstep.
        all: te_rel_solve Hrel.
      * destruct Hat1, Hat2, dc, cl; simpl in Hstep; break_idx Hstep.
        all: te_finish Hstep.
        all: te_rel_solve Hrel.
    + destruct Hat1, Hat2, dc, cl; simpl in Hstep; break_idx Hstep.
      all: te_finish Hstep.
      all: te_rel_solve Hrel.
    + destruct Hat1, Hat2, dc, cl; simpl in Hstep; break_idx Hstep;
        try (simpl in Hok; discriminate Hok).
      all: te_finish Hstep.
      all: te_rel_solve Hrel.
    + simpl in Hstep. break_idx Hstep; try (simpl in Hok; discriminate Hok).
    + simpl in Hstep. break_idx Hstep; try (simpl in Hok; discriminate Hok).
      env_close_done Hstep dc.
      eapply TE_run with (dc := true); try reflexivity; try eassumption.
      eapply te_rel_cancel; eassumption.
Qed.

Lemma te_at_ret tpc : te_at tpc (Ret tt) -> tpc = TeDone.
Proof. intros H. inversion H; reflexivity. Qed.

(** A finished Tee worker has closed both outputs. *)
Lemma tee_inv_exit cl c :
  tee_inv cl c -> nth_error (pool c) 0 = Some (Ret tt) ->
  is_closed c out1 = true /\ is_closed c out2 = true.
Proof.
  intros [dc Hm Hp Hw Hk | dc Hm Hp Hw Hk | dc Hm Hp Hw Hk
         | dc Hm Hp Hw Hk | dc Hm Hp Hw Hk
         | t1 t2 tpc opc dc sb sr rc1 rc2 rr Hm Hp Hat1 Hat2 Hw Hk Hrel] Hex;
    rewrite Hp in Hex; simpl in Hex; try discriminate.
  injection Hex as ->. apply te_at_ret in Hat1. subst tpc.
  unfold is_closed. rewrite Hw. split; reflexivity.
Qed.

(** [out2] is never closed before [out1]. *)
Lemma tee_inv_order cl c :
  tee_inv cl c -> is_closed c out2 = true -> is_closed c out1 = true.
Proof.
  intros [dc Hm Hp Hw Hk | dc Hm Hp Hw Hk | dc Hm Hp Hw Hk
         | dc Hm Hp Hw Hk | dc Hm Hp Hw Hk
         | t1 t2 tpc opc dc sb sr rc1 rc2 rr Hm Hp Hat1 Hat2 Hw Hk Hrel];
    unfold is_closed; rewrite Hw; simpl; try discriminate.
  destruct tpc; simpl; auto.
Qed.

(** With nobody having cancelled, what each output has delivered is a
    prefix of the source, and all of it once that output is closed. *)
Lemma tee_inv_received cl c :
  tee_inv cl c -> is_closed c done = false ->
  (exists l1, received c out1 ++ l1 = xs) /\
  (exists l2, received c out2 ++ l2 = xs) /\
  (is_closed c out1 = true -> received c out1 = xs /\ cl = true) /\
  (is_closed c out2 = true -> received c out2 = xs /\ cl = true).
Proof.
  intros [dc Hm Hp Hw Hk | dc Hm Hp Hw Hk | dc Hm Hp Hw Hk
         | dc Hm Hp Hw Hk | dc Hm Hp Hw Hk
         | t1 t2 tpc opc dc sb sr rc1 rc2 rr Hm Hp Hat1 Hat2 Hw Hk Hrel];
    unfold is_closed, received; rewrite Hw; simpl; intros Hdc;
    try (repeat split; try (exists xs; reflexivity); discriminate).
  subst dc. destruct Hrel as [R1 R2 R3 R4 R5].
  specialize (R3 eq_refl). specialize (R4 eq_refl). specialize (R5 eq_refl).
  split; [eexists; exact R3|]. split; [eexists; exact R4|].
  assert (Hleft : te_left tpc = true -> rc1 = xs /\ rc2 = xs /\ cl = true).
  { intros Hl. specialize (R1 Hl). subst opc. simpl in *.
    destruct (R5 eq_refl) as [-> ->].
    destruct tpc; simpl in *; try discriminate;
      rewrite app_nil_r in R3, R4; auto. }
  split; intros Hc; destruct tpc; simpl in Hc; try discriminate;
    destruct (Hleft eq_refl) as (? & ? & ?); auto.
Qed.

(** Tee and its relay at their control points. *)
Definition te_cfg (cl : bool) (tpc : te_pc) (opc : od_pc) (dc : bool)
    (sb sr rc1 rc2 rr : list value) : config (chan * chan) :=
  mkConfig (Ret (out1, out2)) [te_term tpc; od_term done inp relay opc]
    (mkWorld [done_st dc; src_st cl sb sr;
              stream_st (te_oc1 tpc) rc1; stream_st (te_oc2 tpc) rc2;
              stream_st (od_closed opc) rr] []) false.

Definition te_setup : list choice :=
  [Main 0; Main 0; Main 0; Solo 0 0; Solo 0 0].

Lemma te_setup_run cl :
  run te_setup (tee_init cl)
  = Some (te_cfg cl TeHead OdHead false xs [] [] [] []).
Proof. reflexivity. Qed.

(** One value travels from the source through the relay to both
    outputs. *)
Definition te_round : list choice :=
  [Solo 0 0; Solo 1 0; Solo 1 1; Sync 1 0 0 0;
   EnvRecv out1 0 1; EnvRecv out2 0 2].

Lemma te_round_run cl v sb sr rc1 rc2 rr :
  run te_round (te_cfg cl TeHead OdHead false (v :: sb) sr rc1 rc2 rr)
  = Some (te_cfg cl TeHead OdHead false sb (sr ++ [v])
            (rc1 ++ [v]) (rc2 ++ [v]) (rr ++ [v])).
Proof. reflexivity. Qed.

Fixpoint te_deliver (k : nat) : list choice :=
  match k with
  | O => []
  | S k' => te_round ++ te_deliver k'
  end.

Lemma te_rounds_env k dones :
  forallb (env_may [out1; out2] dones) (te_deliver k) = true.
Proof. induction k as [|k IH]; simpl; auto. Qed.

Lemma te_deliver_run cl sb : forall sr rc1 rc2 rr,
  run (te_deliver (length sb)) (te_cfg cl TeHead OdHead false sb sr rc1 rc2 rr)
  = Some (te_cfg cl TeHead OdHead false [] (sr ++ sb)
            (rc1 ++ sb) (rc2 ++ sb) (rr ++ sb)).
Proof.
  induction sb as [|v sb IH]; intros sr rc1 rc2 rr.
  - simpl. rewrite !app_nil_r. reflexivity.
  - change (te_deliver (length (v :: sb))) with (te_round ++ te_deliver (length sb)).
    rewrite run_app, te_round_run, IH, <- !app_assoc. reflexivity.
Qed.

(** The source is exhausted and closed: the relay closes its stream, Tee
    leaves its loop and closes both outputs. *)
Definition te_finish_sched : list choice :=
  [Solo 1 0; Solo 1 1; Solo 1 0; Solo 0 0; Solo 0 0; Solo 0 0; Solo 0 0].

Lemma te_finish_run sr rc1 rc2 rr :
  run te_finish_sched (te_cfg true TeHead OdHead false [] sr rc1 rc2 rr)
  = Some (te_cfg true TeDone OdDone false [] sr rc1 rc2 rr).
Proof. reflexivity. Qed.

Definition te_schedule : list choice :=
  te_setup ++ te_deliver (length xs) ++ te_finish_sched.

Lemma te_schedule_ok dones :
  forallb (env_may [out1; out2] dones) te_schedule = true.
Proof.
  unfold te_schedule. rewrite !forallb_app, te_rounds_env. reflexivity.
Qed.

Lemma te_schedule_run :
  run te_schedule (tee_init true)
  = Some (te_cfg true TeDone OdDone false [] xs xs xs xs).
Proof.
  unfold te_schedule.
  rewrite run_app, te_setup_run, run_app, te_deliver_run, te_finish_run.
  reflexivity.
Qed.

Lemma tee_runs cl sched c :
  forallb (env_may [out1; out2] [done]) sched = true ->
  run sched (tee_init cl) = Some c -> tee_inv cl c.
Proof.
  intros Hok Hrun.
  eapply run_invariant with (Inv := tee_inv cl); eauto using tee_init_inv.
  intros; eapply tee_inv_step; eauto.
Qed.

End Tee.

(** ** Abstract machines *)

Section Simulation.
Variables (R A : Type).
Variable cfg_of : A -> config R.
Variable astep : A -> choice -> option A.
Variable wf : A -> Prop.
Variable ok : choice -> bool.
Hypothesis sim : forall a ch, wf a -> ok ch = true ->
  step (cfg_of a) ch = option_map cfg_of (astep a ch).
Hypothesis wf_step : forall a ch a', wf a -> ok ch = true ->
  astep a ch = Some a' -> wf a'.

Fixpoint arun (sched : list choice) (a : A) : option A :=
  match sched with
  | [] => Some a
  | ch :: rest =>
      match astep a ch with
      | Some a' => arun rest a'
      | None => None
      end
  end.

Lemma sim_run sched : forall a,
  wf a -> forallb ok sched = true ->
  run sched (cfg_of a) = option_map cfg_of (arun sched a).
Proof.
  induction sched as [|ch sched IH]; intros a Hwf Hok; simpl in *.
  - reflexivity.
  - apply andb_prop in Hok as [Hch Hs].
    rewrite sim by assumption.
    destruct (astep a ch) as [a'|] eqn:E; simpl; [|reflexivity].
    apply IH; [eapply wf_step; eauto | assumption].
Qed.

Lemma arun_wf sched : forall a a',
  wf a -> forallb ok sched = true -> arun sched a = Some a' -> wf a'.
Proof.
  induction sched as [|ch sched IH]; intros a a' Hwf Hok Hrun; simpl in *.
  - congruence.
  - apply andb_prop in Hok as [Hch Hs].
    destruct (astep a ch) as [a1|] eqn:E; [|discriminate].
    eapply IH; [eapply wf_step; eauto | assumption | eassumption].
Qed.

Lemma sim_reach sched a c :
  wf a -> forallb ok sched = true -> run sched (cfg_of a) = Some c ->
  exists a', c = cfg_of a' /\ wf a'.
Proof.
  intros Hwf Hok Hrun. rewrite sim_run in Hrun by assumption.
  destruct (arun sched a) as [a'|] eqn:E; [|discriminate].
  injection Hrun as <-. exists a'. split; [reflexivity|].
  eapply arun_wf; eauto.
Qed.

End Simulation.

Lemma arun_app A (astep : A -> choice -> option A) s1 s2 a :
  arun astep (s1 ++ s2) a
  = match arun astep s1 a with Some a' => arun astep s2 a' | None => None end.
Proof.
  revert a; induction s1 as [|ch s1 IH]; intros a; simpl; [reflexivity|].
  destruct (astep a ch); [apply IH|reflexivity].
Qed.

(** ** Lists with a cell in the middle *)

Lemma nth_error_mid A (pre : list A) x post n :
  length pre = n -> nth_error (pre ++ x :: post) n = Some x.
Proof.
  intros <-. rewrite nth_error_app2 by lia. rewrite Nat.sub_diag. reflexivity.
Qed.

Lemma upd_app1 A (l1 l2 : list A) i x :
  (i < length l1)%nat -> upd i x (l1 ++ l2) = upd i x l1 ++ l2.
Proof.
  revert i; induction l1 as [|a l1 IH]; intros i Hi; simpl in *; [lia|].
  destruct i; simpl; [reflexivity|]. rewrite IH by lia. reflexivity.
Qed.

Lemma upd_app2 A (l1 l2 : list A) i x :
  (length l1 <= i)%nat -> upd i x (l1 ++ l2) = l1 ++ upd (i - length l1) x l2.
Proof.
  revert i; induction l1 as [|a l1 IH]; intros i Hi; simpl in *.
  - rewrite Nat.sub_0_r. destruct l2; reflexivity.
  - destruct i; [lia|]. simpl. rewrite IH by lia. reflexivity.
Qed.

Lemma upd_mid A (pre : list A) x y post n :
  length pre = n -> upd n y (pre ++ x :: post) = pre ++ y :: post.
Proof.
  intros <-. rewrite upd_app2 by lia. rewrite Nat.sub_diag. reflexivity.
Qed.

Lemma upd_map A B (f : A -> B) (l : list A) i x :
  upd i (f x) (map f l) = map f (upd i x l).
Proof.
  revert i; induction l as [|a l IH]; intros i; simpl; [destruct i; reflexivity|].
  destruct i; simpl; [reflexivity|]. rewrite IH. reflexivity.
Qed.

Lemma upd_length A (l : list A) i x : length (upd i x l) = length l.
Proof.
  revert i; induction l as [|a l IH]; intros i; simpl; [destruct i; reflexivity|].
  destruct i; simpl; [reflexivity|]. rewrite IH. reflexivity.
Qed.

Lemma nth_error_upd_eq A (l : list A) i x :
  (i < length l)%nat -> nth_error (upd i x l) i = Some x.
Proof.
  revert i; induction l as [|a l IH]; intros i Hi; simpl in *; [lia|].
  destruct i; simpl; [reflexivity|]. apply IH. lia.
Qed.

Lemma nth_error_upd_neq A (l : list A) i j x :
  i <> j -> nth_error (upd i x l) j = nth_error l j.
Proof.
  revert i j; induction l as [|a l IH]; intros i j Hij; simpl.
  - destruct i; reflexivity.
  - destruct i, j; simpl; try reflexivity; try lia. apply IH. lia.
Qed.

Lemma repeat_snoc A (x : A) n : repeat x n ++ [x] = repeat x (S n).
Proof. induction n as [|n IH]; simpl; [reflexivity|]. rewrite IH. reflexivity. Qed.

Lemma nth_error_repeat_some A (x : A) n i t :
  nth_error (repeat x n) i = Some t -> t = x /\ (i < n)%nat.
Proof.
  revert i; induction n as [|n IH]; intros i H; simpl in *.
  - destruct i; discriminate.
  - destruct i; simpl in *; [injection H as <-; split; [reflexivity|lia]|].
    apply IH in H as [? ?]. split; [assumption|lia].
Qed.

(** ** Bridge *)

Section Bridge.
Variable K : nat.
Let done := Ch 0.
Let outer := Ch 1.
Let vs := Ch (2 + K).

(** The [i]-th inner stream and the stream of the [r]-th relay. *)
Definition br_inner (i : nat) : chan := Ch (2 + i).
Definition br_relay (r : nat) : chan := Ch (3 + K + r).

Definition bi_send (v : value) : proc (unit + leave) :=
  Select [OnSend vs v (continue tt); OnRecv done (fun _ _ => continue tt)].
Definition bi_body (r : chan) (_ : unit) : proc (unit + leave) :=
  recv r (fun val ok' => if ok' then bi_send val else break).
Definition br_body (_ : unit) : proc (unit + leave) :=
  Select
    [OnRecv outer (fun maybeStream ok =>
       if Bool.eqb ok false then ret
       else
         let stream := as_chan maybeStream in
         bind (Utils.OrDoneChannel done stream) (fun orDoneStream =>
         Iter (bi_body orDoneStream) tt (fun _ => continue tt)));
     OnRecv done (fun _ _ => ret)].
Definition br_k (x : leave) : proc unit := Close vs (Ret tt).
Definition bi_k (x : leave) : proc unit := Iter br_body tt br_k.

Inductive br_pc : Type :=
| BrHead | BrUnf | BrCall | BrGo
| BrIHead | BrIUnf | BrISend (v : value)
| BrClose | BrDone.

(** The Bridge worker at [pc] while it deals with inner stream [n]. *)
Definition br_term (n : nat) (pc : br_pc) : proc unit :=
  match pc with
  | BrHead => Iter br_body tt br_k
  | BrUnf => bind (br_body tt) (loop_next br_body br_k)
  | BrCall =>
      bind
        (bind (Utils.OrDoneChannel done (br_inner n)) (fun orDoneStream =>
         Iter (bi_body orDoneStream) tt (fun _ => continue tt)))
        (loop_next br_body br_k)
  | BrGo =>
      Go (od_term done (br_inner n) (br_relay n) OdHead)
        (Iter (bi_body (br_relay n)) tt bi_k)
  | BrIHead => Iter (bi_body (br_relay n)) tt bi_k
  | BrIUnf =>
      bind (bi_body (br_relay n) tt) (loop_next (bi_body (br_relay n)) bi_k)
  | BrISend v => bind (bi_send v) (loop_next (bi_body (br_relay n)) bi_k)
  | BrClose => br_k Return
  | BrDone => Ret tt
  end.

Lemma BridgeChannel_unfold :
  Utils.BridgeChannel done outer
  = MakeChan VNil 0 (fun valStream =>
    Go (defer_close valStream
          (Iter (fun _ : unit =>
                   Select
                     [OnRecv outer (fun maybeStream ok =>
                        if Bool.eqb ok false then ret
                        else
                          let stream := as_chan maybeStream in
                          bind (Utils.OrDoneChannel done stream)
                            (fun orDoneStream =>
                          Iter (fun _ : unit =>
                                  recv orDoneStream (fun val ok' =>
                                    if ok' then
                                      Select
                                        [OnSend valStream val (continue tt);
                                         OnRecv done (fun _ _ => continue tt)]
                                    else break))
                            tt (fun _ => continue tt)));
                      OnRecv done (fun _ _ => ret)])
             tt (fun _ => Ret tt)))
       (Ret valStream)).
Proof. reflexivity. Qed.

(** The bridge is inside the loop over a relay's stream. *)
Definition br_in_inner (pc : br_pc) : bool :=
  match pc with
  | BrIHead | BrIUnf | BrISend _ => true
  | _ => false
  end.

(** The stream of the current relay exists. *)
Definition br_has_relay (pc : br_pc) : bool :=
  match pc with
  | BrGo | BrIHead | BrIUnf | BrISend _ => true
  | _ => false
  end.

Definition br_oc (pc : br_pc) : bool :=
  match pc with
  | BrDone => true
  | _ => false
  end.

Record br_abs : Type := mkBr {
  b_main : nat;                 (* 0: before make, 1: before go, 2: returned *)
  b_pc : br_pc;
  b_od : od_pc;                 (* the current relay *)
  b_dc : bool;
  b_n : nat;                    (* inner streams dealt with *)
  b_outer : chan_state;
  b_ins : list chan_state;      (* the inner streams *)
  b_rc : list value;            (* received from the output *)
  b_rls : list (list value);    (* what the finished relays passed on *)
  b_rr : list value             (* what the current relay passed on *)
}.

Definition br_main (m : nat) : proc chan :=
  match m with
  | O => Utils.BridgeChannel done outer
  | S O => Go (br_term 0 BrHead) (Ret vs)
  | _ => Ret vs
  end.

Definition br_pool (a : br_abs) : list (proc unit) :=
  match b_main a with
  | S (S _) =>
      br_term (b_n a) (b_pc a) :: repeat (Ret tt) (b_n a) ++
      (if br_in_inner (b_pc a)
       then [od_term done (br_inner (b_n a)) (br_relay (b_n a)) (b_od a)]
       else [])
  | _ => []
  end.

Definition br_heap (a : br_abs) : list chan_state :=
  done_st (b_dc a) :: b_outer a :: b_ins a ++
  match b_main a with
  | O => []
  | _ =>
      stream_st (br_oc (b_pc a)) (b_rc a) ::
      map (stream_st true) (b_rls a) ++
      (if br_has_relay (b_pc a)
       then [stream_st (od_closed (b_od a)) (b_rr a)]
       else [])
  end.

Definition br_cfg (a : br_abs) : config chan :=
  mkConfig (br_main (b_main a)) (br_pool a) (mkWorld (br_heap a) []) false.

(** Receiving from a channel that holds [v]. *)
Definition pop_st (cs : chan_state) (v : value) (rest : list value)
  : chan_state :=
  mkChan rest (cap cs) (closed cs) (zero cs) (recvd cs ++ [v]).

Definition br_solo (a : br_abs) (n : nat) : option br_abs :=
  let '(mkBr m pc od dc k ost ins rc rls rr) := a in
  match pc with
  | BrHead => Some (mkBr m BrUnf od dc k ost ins rc rls rr)
  | BrUnf =>
      match n with
      | O =>
          match buf ost with
          | v :: rest =>
              Some (mkBr m BrCall od dc k (pop_st ost v rest) ins rc rls rr)
          | [] =>
              if closed ost
              then Some (mkBr m BrClose od dc k ost ins rc rls rr)
              else None
          end
      | S O => if dc then Some (mkBr m BrClose od dc k ost ins rc rls rr)
               else None
      | _ => None
      end
  | BrCall => Some (mkBr m BrGo OdHead dc k ost ins rc rls [])
  | BrGo => Some (mkBr m BrIHead OdHead dc k ost ins rc rls rr)
  | BrIHead => Some (mkBr m BrIUnf od dc k ost ins rc rls rr)
  | BrIUnf =>
      match n, od with
      | O, OdDone => Some (mkBr m BrHead od dc (S k) ost ins rc (rls ++ [rr]) [])
      | _, _ => None
      end
  | BrISend v =>
      match n with
      | S O => if dc then Some (mkBr m BrIHead od dc k ost ins rc rls rr)
               else None
      | _ => None
      end
  | BrClose => Some (mkBr m BrDone od dc k ost ins rc rls rr)
  | BrDone => None
  end.

Definition br_od_solo (a : br_abs) (n : nat) : option br_abs :=
  let '(mkBr m pc od dc k ost ins rc rls rr) := a in
  match od with
  | OdHead => Some (mkBr m pc OdUnf dc k ost ins rc rls rr)
  | OdUnf =>
      match n with
      | O => if dc then Some (mkBr m pc OdClose dc k ost ins rc rls rr)
             else None
      | S O =>
          match nth_error ins k with
          | Some cs =>
              match buf cs with
              | v :: rest =>
                  Some (mkBr m pc (OdSend v) dc k ost
                          (upd k (pop_st cs v rest) ins) rc rls rr)
              | [] =>
                  if closed cs
                  then Some (mkBr m pc OdClose dc k ost ins rc rls rr)
                  else None
              end
          | None => None
          end
      | _ => None
      end
  | OdSend v =>
      match n with
      | S O => if dc then Some (mkBr m pc OdHead dc k ost ins rc rls rr)
               else None
      | _ => None
      end
  | OdClose => Some (mkBr m pc OdDone dc k ost ins rc rls rr)
  | OdDone => None
  end.

Definition br_step (a : br_abs) (ch : choice) : option br_abs :=
  let '(mkBr m pc od dc k ost ins rc rls rr) := a in
  match ch with
  | Main _ =>
      match m with
      | O => Some (mkBr 1 pc od dc k ost ins rc rls rr)
      | S O => Some (mkBr 2 pc od dc k ost ins rc rls rr)
      | _ => None
      end
  | Solo i n =>
      match m with
      | S (S _) =>
          if Nat.eqb i 0 then br_solo a n
          else if Nat.eqb i (S k) && br_in_inner pc then br_od_solo a n
          else None
      | _ => None
      end
  | Sync i n j l =>
      match m, pc, od, n, l with
      | S (S _), BrIUnf, OdSend v, O, O =>
          if Nat.eqb i (S k) && Nat.eqb j 0
          then Some (mkBr m (BrISend v) OdHead dc k ost ins rc rls (rr ++ [v]))
          else None
      | _, _, _, _, _ => None
      end
  | EnvRecv c i n =>
      match m, pc, n with
      | S (S _), BrISend v, O =>
          if Nat.eqb i 0
          then Some (mkBr m BrIHead od dc k ost ins (rc ++ [v]) rls rr)
          else None
      | _, _, _ => None
      end
  | EnvTake c => None
  | EnvClose c =>
      if dc then None else Some (mkBr m pc od true k ost ins rc rls rr)
  end.


Definition br_taking (pc : br_pc) : bool :=
  match pc with
  | BrCall | BrGo | BrIHead | BrIUnf | BrISend _ => true
  | _ => false
  end.

(** The streams the outer stream still holds. *)
Definition br_outer_buf (from : nat) : list value :=
  map (fun i => VChan (br_inner i)) (seq from (K - from)).

Record br_wf (a : br_abs) : Prop := mk_br_wf {
  bw_main : (b_main a <= 2)%nat;
  bw_ins : length (b_ins a) = K;
  bw_rls : length (b_rls a) = b_n a;
  bw_start : (b_main a < 2)%nat -> b_pc a = BrHead /\ b_n a = O /\ b_rc a = [];
  bw_outer_closed : closed (b_outer a) = true;
  bw_outer :
    buf (b_outer a)
    = br_outer_buf (if br_taking (b_pc a) then S (b_n a) else b_n a);
  bw_taking : br_taking (b_pc a) = true -> (b_n a < K)%nat;
  bw_n : (b_n a <= K)%nat;
  bw_go : b_pc a = BrGo -> b_od a = OdHead
}.

Lemma br_outer_buf_pop n v rest :
  br_outer_buf n = v :: rest ->
  v = VChan (br_inner n) /\ rest = br_outer_buf (S n) /\ (n < K)%nat.
Proof.
  unfold br_outer_buf. destruct (K - n)%nat as [|d] eqn:E; simpl; [discriminate|].
  intros H. injection H as <- <-.
  replace (K - S n)%nat with d by lia. repeat split. lia.
Qed.

Lemma chan_eqb_eq a b : chan_eqb a b = true -> a = b.
Proof.
  destruct a, b; simpl; try discriminate; auto.
  intros H. apply Nat.eqb_eq in H. congruence.
Qed.

Lemma chan_eqb_refl c : chan_eqb c c = true.
Proof. destruct c; simpl; [reflexivity|apply Nat.eqb_refl]. Qed.

Lemma env_take_is o dones c :
  env_may [o] dones (EnvTake c) = true -> c = o.
Proof.
  simpl. rewrite orb_false_r. apply chan_eqb_eq.
Qed.

Lemma env_recv_is o dones c i n :
  env_may [o] dones (EnvRecv c i n) = true -> c = o.
Proof.
  simpl. rewrite orb_false_r. apply chan_eqb_eq.
Qed.

Lemma env_close_is outs d c :
  env_may outs [d] (EnvClose c) = true -> c = d.
Proof.
  simpl. rewrite orb_false_r. apply chan_eqb_eq.
Qed.

Lemma some_config_eq R (m m' : proc R) p p' h h' g g' :
  m = m' -> p = p' -> h = h' -> g = g' ->
  Some (mkConfig m p (mkWorld h g) false)
  = Some (mkConfig m' p' (mkWorld h' g') false).
Proof. intros -> -> -> ->. reflexivity. Qed.

Ltac br_lists :=
  repeat rewrite <- app_assoc; repeat rewrite app_nil_r; simpl.

Section BridgeHeap.
Variables (m : nat) (pc : br_pc) (od : od_pc) (dc : bool) (k : nat)
  (ost : chan_state) (ins : list chan_state) (rc : list value)
  (rls : list (list value)) (rr : list value) (g : list Z).
Hypothesis Hins : length ins = K.
Hypothesis Hrls : length rls = k.
Let a := mkBr m pc od dc k ost ins rc rls rr.

Lemma br_get_done : get_chan (mkWorld (br_heap a) g) done = Some (done_st dc).
Proof. reflexivity. Qed.

Lemma br_get_outer : get_chan (mkWorld (br_heap a) g) outer = Some ost.
Proof. reflexivity. Qed.

Lemma br_get_inner i :
  (i < K)%nat -> get_chan (mkWorld (br_heap a) g) (br_inner i) = nth_error ins i.
Proof.
  intros Hi. unfold get_chan, br_inner, br_heap; simpl.
  apply nth_error_app1. lia.
Qed.

Lemma br_get_vs :
  m <> O ->
  get_chan (mkWorld (br_heap a) g) vs = Some (stream_st (br_oc pc) rc).
Proof.
  intros Hm. unfold get_chan, vs, br_heap; simpl.
  destruct m; [congruence|]. apply nth_error_mid. assumption.
Qed.

Lemma br_get_fresh :
  m = O -> get_chan (mkWorld (br_heap a) g) vs = None.
Proof.
  intros Hm. unfold get_chan, vs, br_heap; simpl. subst m.
  apply nth_error_None. rewrite length_app. simpl. lia.
Qed.

Lemma br_get_relay :
  m <> O -> br_has_relay pc = true ->
  get_chan (mkWorld (br_heap a) g) (br_relay k)
  = Some (stream_st (od_closed od) rr).
Proof.
  intros Hm Hr. unfold get_chan, br_relay, br_heap, a. cbn [heap b_main b_pc b_od b_dc b_n b_outer b_ins b_rc b_rls b_rr].
  destruct m; [congruence|]. rewrite Hr.
  change (nth_error (ins ++ stream_st (br_oc pc) rc
                       :: map (stream_st true) rls ++
                          [stream_st (od_closed od) rr]) (S (K + k))
          = Some (stream_st (od_closed od) rr)).
  rewrite nth_error_app2 by lia. rewrite Hins.
  replace (S (K + k) - K)%nat with (S k) by lia.
  change (nth_error (map (stream_st true) rls ++
                       [stream_st (od_closed od) rr]) k
          = Some (stream_st (od_closed od) rr)).
  apply nth_error_mid. rewrite length_map. assumption.
Qed.

Lemma br_heap_length :
  length (br_heap a)
  = match m with
    | O => (2 + K)%nat
    | _ => (3 + K + k + (if br_has_relay pc then 1 else 0))%nat
    end.
Proof.
  unfold br_heap; simpl. rewrite length_app, Hins.
  destruct m; simpl; [lia|]. rewrite length_app, length_map, Hrls.
  destruct (br_has_relay pc); simpl; lia.
Qed.

Lemma br_set_done x :
  set_chan (mkWorld (br_heap a) g) done x
  = mkWorld (x :: tl (br_heap a)) g.
Proof. reflexivity. Qed.

Lemma br_set_outer x :
  set_chan (mkWorld (br_heap a) g) outer x
  = mkWorld (br_heap (mkBr m pc od dc k x ins rc rls rr)) g.
Proof. reflexivity. Qed.

Lemma br_set_inner i x :
  (i < K)%nat ->
  set_chan (mkWorld (br_heap a) g) (br_inner i) x
  = mkWorld (br_heap (mkBr m pc od dc k ost (upd i x ins) rc rls rr)) g.
Proof.
  intros Hi. unfold set_chan, br_inner, br_heap; simpl.
  rewrite upd_app1 by lia. reflexivity.
Qed.

Lemma br_set_vs oc' rc' :
  m <> O ->
  set_chan (mkWorld (br_heap a) g) vs (mkChan [] 0 oc' VNil rc')
  = mkWorld
      (done_st dc :: ost :: ins ++
       stream_st oc' rc' :: map (stream_st true) rls ++
       (if br_has_relay pc then [stream_st (od_closed od) rr] else [])) g.
Proof.
  intros Hm. unfold set_chan, vs, br_heap; simpl.
  destruct m; [congruence|]. rewrite upd_mid by assumption. reflexivity.
Qed.

Lemma br_set_relay oc' rr' :
  m <> O -> br_has_relay pc = true ->
  set_chan (mkWorld (br_heap a) g) (br_relay k) (mkChan [] 0 oc' VNil rr')
  = mkWorld
      (done_st dc :: ost :: ins ++
       stream_st (br_oc pc) rc :: map (stream_st true) rls ++
       [stream_st oc' rr']) g.
Proof.
  intros Hm Hr. unfold set_chan, br_relay, br_heap, a. cbn [heap wgs b_main b_pc b_od b_dc b_n b_outer b_ins b_rc b_rls b_rr].
  destruct m; [congruence|]. rewrite Hr. f_equal.
  change (done_st dc :: ost ::
          upd (S (K + k)) (stream_st oc' rr')
            (ins ++ stream_st (br_oc pc) rc
               :: map (stream_st true) rls ++ [stream_st (od_closed od) rr])
          = done_st dc :: ost :: ins ++ stream_st (br_oc pc) rc
               :: map (stream_st true) rls ++ [stream_st oc' rr']).
  rewrite upd_app2 by lia. rewrite Hins.
  replace (S (K + k) - K)%nat with (S k) by lia.
  change (upd (S k) (stream_st oc' rr')
            (stream_st (br_oc pc) rc
               :: map (stream_st true) rls ++ [stream_st (od_closed od) rr]))
    with (stream_st (br_oc pc) rc ::
          upd k (stream_st oc' rr')
            (map (stream_st true) rls ++ [stream_st (od_closed od) rr])).
  rewrite upd_mid by (rewrite length_map; assumption). reflexivity.
Qed.

End BridgeHeap.

Lemma br_in_inner_relay pc :
  br_in_inner pc = true -> br_has_relay pc = true /\ br_taking pc = true.
Proof. destruct pc; simpl; auto; discriminate. Qed.

Lemma pool_tail_lookup (t : proc unit) k (b : bool) i :
  nth_error (repeat (Ret tt) k ++ (if b then [t] else [])) i
  = if Nat.eqb i k && b then Some t
    else if Nat.ltb i k then Some (Ret tt) else None.
Proof.
  destruct (Nat.ltb_spec i k) as [Hlt|Hge].
  - rewrite nth_error_app1 by (rewrite repeat_length; lia).
    replace (Nat.eqb i k) with false by (symmetry; apply Nat.eqb_neq; lia).
    simpl. rewrite nth_error_repeat by assumption. reflexivity.
  - rewrite nth_error_app2 by (rewrite repeat_length; lia).
    rewrite repeat_length. destruct (Nat.eqb_spec i k) as [->|Hne].
    + rewrite Nat.sub_diag. destruct b; reflexivity.
    + simpl. destruct (i - k)%nat as [|d] eqn:E; [lia|].
      destruct b; simpl; [destruct d|]; reflexivity.
Qed.

Lemma pool_tail_lookup1 (t : proc unit) k i :
  nth_error (repeat (Ret tt) k ++ [t]) i
  = if Nat.eqb i k then Some t
    else if Nat.ltb i k then Some (Ret tt) else None.
Proof.
  rewrite (pool_tail_lookup t k true i). rewrite andb_true_r. reflexivity.
Qed.

Lemma pool_tail_upd (x t p : proc unit) k :
  upd (S k) p (x :: repeat (Ret tt) k ++ [t]) = x :: repeat (Ret tt) k ++ [p].
Proof.
  simpl. f_equal. apply upd_mid. apply repeat_length.
Qed.

Local Arguments get_chan : simpl never.
Local Arguments set_chan : simpl never.
Local Arguments br_heap : simpl never.
Local Arguments br_relay : simpl never.
Local Arguments br_inner : simpl never.

Ltac br_fin :=
  apply some_config_eq; unfold br_pool, br_heap; cbn; br_lists;
  try reflexivity.

Ltac crush_if :=
  repeat match goal with
    | |- context [if ?b then _ else _] => destruct b
    end;
  try reflexivity.

Ltac od_fin Hin Hrel :=
  cbn; apply some_config_eq;
  [ reflexivity
  | rewrite ?Hin; rewrite ?upd_mid by apply repeat_length;
    rewrite ?app_nil_r; reflexivity
  | unfold br_heap; cbn; rewrite ?Hrel; reflexivity
  | reflexivity ].

Lemma br_sim a ch :
  br_wf a -> env_may [vs] [done] ch = true ->
  step (br_cfg a) ch = option_map br_cfg (br_step a ch).
Proof.
  intros [W1 W2 W3 W4 W5 W6 W7 W8 W9] Hok.
  destruct a as [m pc od dc k ost ins rc rls rr]; simpl in *.
  destruct m as [|[|[|m]]]; [| | |lia].
  - (* before make *)
    destruct (W4 ltac:(lia)) as (-> & -> & ->).
    destruct rls; [|discriminate].
    destruct ch as [n|i n|i n j l|c i n|c|c]; unfold step, br_cfg; cbn.
    + rewrite br_heap_length by assumption. br_fin.
    + destruct i; reflexivity.
    + destruct (Nat.eqb i j); destruct i; reflexivity.
    + destruct i; reflexivity.
    + apply env_take_is in Hok. subst c.
      rewrite br_get_fresh by auto. reflexivity.
    + apply env_close_is in Hok. subst c.
      rewrite br_get_done. cbn. destruct dc; reflexivity.
  - (* before go *)
    destruct (W4 ltac:(lia)) as (-> & -> & ->).
    destruct rls; [|discriminate].
    destruct ch as [n|i n|i n j l|c i n|c|c]; unfold step, br_cfg; cbn.
    + reflexivity.
    + destruct i; reflexivity.
    + destruct (Nat.eqb i j); destruct i; reflexivity.
    + destruct i; reflexivity.
    + apply env_take_is in Hok. subst c.
      rewrite br_get_vs by auto. reflexivity.
    + apply env_close_is in Hok. subst c.
      rewrite br_get_done. cbn. destruct dc; reflexivity.
  - (* running *)
    clear W4 W1.
    destruct ch as [n|i n|i n j l|c i n|c|c].
    + reflexivity.
    + destruct i as [|i'].
      * (* the bridge *)
        unfold step, br_cfg; cbn.
        destruct pc; cbn in *.
        -- br_fin.
        -- destruct n as [|[|n]]; cbn.
           ++ rewrite br_get_outer, W6.
              destruct (br_outer_buf k) as [|v rest] eqn:E.
              ** rewrite W5. br_fin.
              ** apply br_outer_buf_pop in E as (-> & -> & Hk). cbn.
                 rewrite br_set_outer. br_fin.
           ++ rewrite br_get_done. cbn. destruct dc; cbn; [|reflexivity].
              br_fin.
           ++ destruct n; reflexivity.
        -- (* BrCall: orDone makes its stream *)
           rewrite br_heap_length by assumption. cbn.
           replace (K + k + 0)%nat with (K + k)%nat by lia.
           br_fin.
        -- (* BrGo *) rewrite (W9 eq_refl). br_fin.
        -- (* BrIHead *) br_fin.
        -- (* BrIUnf *)
           destruct n as [|n]; cbn.
           ++ rewrite br_get_relay by auto. cbn.
              destruct od; cbn; try reflexivity.
              apply some_config_eq; try reflexivity.
              ** rewrite app_nil_r, repeat_snoc. cbn. rewrite app_nil_r. reflexivity.
              ** unfold br_heap; cbn. rewrite map_app, <- app_assoc. reflexivity.
           ++ destruct n; reflexivity.
        -- (* BrISend *)
           destruct n as [|[|n]]; cbn.
           ++ rewrite br_get_vs by auto. cbn. reflexivity.
           ++ rewrite br_get_done. cbn. destruct dc; cbn; [|reflexivity]. br_fin.
           ++ destruct n; reflexivity.
        -- (* BrClose *)
           rewrite br_get_vs by auto. cbn. rewrite br_set_vs by auto. br_fin.
        -- reflexivity.
      * (* a relay *)
        unfold step, br_cfg, br_pool.
        cbn [main pool st panicked b_main b_pc b_od b_n b_dc br_step].
        change (nth_error (?x :: ?l) (S i')) with (nth_error l i').
        rewrite pool_tail_lookup.
        change (Nat.eqb (S i') 0) with false. cbv iota.
        change (Nat.eqb (S i') (S k)) with (Nat.eqb i' k).
        destruct (Nat.eqb_spec i' k) as [->|Hne]; cbn [andb];
          [destruct (br_in_inner pc) eqn:Hin|].
        -- (* the current relay *)
           destruct (br_in_inner_relay _ Hin) as [Hrel Htk].
           specialize (W7 Htk).
           destruct od; cbn.
           ++ od_fin Hin Hrel.
           ++ destruct n as [|[|n]]; cbn.
              ** rewrite br_get_done. cbn. destruct dc; cbn; [|reflexivity].
                 od_fin Hin Hrel.
              ** rewrite br_get_inner by assumption.
                 destruct (nth_error ins k) as [cs|] eqn:Ecs; [|reflexivity].
                 destruct (buf cs) as [|v rest] eqn:Eb.
                 --- destruct (closed cs); [|reflexivity]. od_fin Hin Hrel.
                 --- rewrite br_set_inner by assumption. od_fin Hin Hrel.
              ** destruct n; reflexivity.
           ++ destruct n as [|[|n]]; cbn.
              ** rewrite br_get_relay by auto. reflexivity.
              ** rewrite br_get_done. cbn. destruct dc; cbn; [|reflexivity].
                 od_fin Hin Hrel.
              ** destruct n; reflexivity.
           ++ rewrite br_get_relay by auto. cbn.
              rewrite br_set_relay by auto.
              od_fin Hin Hrel.
           ++ reflexivity.
        -- (* no relay yet *)
           destruct (Nat.ltb k k); reflexivity.
        -- (* a finished relay, or nobody *)
           destruct (Nat.ltb i' k); reflexivity.
    + (* rendezvous *)
      unfold step, br_cfg, br_pool.
      cbn [main pool st panicked b_main b_pc b_od b_n b_dc].
      destruct i as [|i'].
      * (* the bridge sends *)
        destruct j as [|j']; [destruct pc, od, n, l; reflexivity|].
        cbn [Nat.eqb].
        change (nth_error (?x :: ?t) 0) with (Some x).
        change (nth_error (?x :: ?t) (S j')) with (nth_error t j').
        rewrite pool_tail_lookup.
        destruct pc; destruct n as [|[|[|n]]]; cbn;
          try (solve [crush_if | destruct od; destruct l; crush_if]).
        (* BrISend offers on the output *)
        destruct (Nat.eqb j' k); cbn; [|solve [crush_if]].
        specialize (W7 eq_refl).
        destruct od; destruct l as [|[|[|l]]]; cbn; try reflexivity.
        unfold br_inner; cbn.
        rewrite (proj2 (Nat.eqb_neq K k)) by lia. reflexivity.
      * (* a relay sends *)
        change (nth_error (?x :: ?t) (S i')) with (nth_error t i').
        rewrite pool_tail_lookup.
        destruct (Nat.eqb_spec i' k) as [->|Hne]; cbn [andb].
        2:{ (* a finished relay offers nothing *)
            replace (Nat.eqb (S i') (S k)) with false
              by (symmetry; apply Nat.eqb_neq; lia).
            cbn [andb].
            destruct (Nat.eqb (S i') j); [destruct pc, od, n, l; reflexivity|].
            destruct (Nat.ltb i' k); cbn;
              [destruct (nth_error _ j)|]; destruct pc, od, n, l; reflexivity. }
        destruct (br_in_inner pc) eqn:Hin.
        2:{ destruct (Nat.eqb (S k) j); [destruct pc; try discriminate; reflexivity|].
            destruct (Nat.ltb k k); cbn;
              [destruct (nth_error _ j)|]; destruct pc; try discriminate; reflexivity. }
        destruct (br_in_inner_relay _ Hin) as [Hrel Htk]. specialize (W7 Htk).
        destruct j as [|j'].
        -- (* to the bridge *)
           cbn [Nat.eqb nth_error]. rewrite Nat.eqb_refl. cbn [andb].
           destruct od; destruct n as [|[|[|n]]]; cbn;
             try (solve [destruct pc; try discriminate; destruct l; reflexivity]).
           destruct pc; try discriminate; cbn.
           ++ reflexivity.
           ++ destruct l as [|l]; cbn; [|destruct l; reflexivity].
              rewrite chan_eqb_refl. unfold handover.
              rewrite br_get_relay by auto. cbn.
              rewrite br_set_relay by auto.
              apply some_config_eq; try reflexivity.
              rewrite upd_mid by apply repeat_length. reflexivity.
           ++ destruct l as [|[|l]]; cbn; try reflexivity.
              destruct l; reflexivity.
        -- (* to another relay *)
           assert (Hrhs : forall (y : br_abs),
             (if Nat.eqb (S k) (S k) && Nat.eqb (S j') 0 then Some y else None)
             = None).
           { intros y. rewrite andb_false_r. reflexivity. }
           change (Nat.eqb (S k) (S j')) with (Nat.eqb k j').
           destruct (Nat.eqb_spec k j') as [<-|Hne].
           ++ destruct pc, od, n, l; cbn; rewrite ?Hrhs; reflexivity.
           ++ change (nth_error (?x :: ?t) (S j')) with (nth_error t j').
              rewrite pool_tail_lookup1.
              replace (Nat.eqb j' k) with false
                by (symmetry; apply Nat.eqb_neq; lia).
              destruct (Nat.ltb j' k); cbn.
              ** destruct (send_offer _ n) as [[[? ?] ?]|];
                   destruct pc, od, n, l; cbn; rewrite ?Hrhs; reflexivity.
              ** destruct pc, od, n, l; cbn; rewrite ?Hrhs; reflexivity.
    + (* the environment receives *)
      apply env_recv_is in Hok. subst c.
      unfold step, br_cfg, br_pool.
      cbn [main pool st panicked b_main b_pc b_od b_n b_dc].
      destruct i as [|i'].
      * cbn [nth_error].
        destruct pc; destruct n as [|[|[|n]]]; cbn; try reflexivity.
        rewrite Nat.eqb_refl. unfold handover.
        rewrite br_get_vs by auto. cbn. rewrite br_set_vs by auto.
        br_fin.
      * change (nth_error (?x :: ?t) (S i')) with (nth_error t i').
        rewrite pool_tail_lookup.
        match goal with
        | |- _ = ?rhs =>
            replace rhs with (@None (config chan))
              by (destruct pc, n; reflexivity)
        end.
        destruct (Nat.eqb i' k && br_in_inner pc).
        -- destruct od; destruct n as [|[|[|n]]]; cbn; try reflexivity.
           unfold br_relay. cbn.
           replace (Nat.eqb K (S (K + k))) with false
             by (symmetry; apply Nat.eqb_neq; lia).
           reflexivity.
        -- destruct (Nat.ltb i' k); reflexivity.
    + (* the environment looks into a buffer *)
      apply env_take_is in Hok. subst c.
      unfold step, br_cfg. cbn.
      rewrite br_get_vs by auto. reflexivity.
    + (* cancellation *)
      apply env_close_is in Hok. subst c.
      unfold step, br_cfg. cbn.
      rewrite br_get_done. cbn. destruct dc; cbn; [reflexivity|].
      rewrite br_set_done. reflexivity.
Qed.


(** *** What the bridge has delivered *)

Definition br_held (pc : br_pc) : list value :=
  match pc with
  | BrISend v => [v]
  | _ => []
  end.

Definition br_left (pc : br_pc) : bool :=
  match pc with
  | BrClose | BrDone => true
  | _ => false
  end.

(** The buffers of the inner streams, in the order of the streams. *)
Definition left_over (ins : list chan_state) : list value :=
  concat (map buf ins).

Variable xss : list (list value).

Record br_law (a : br_abs) : Prop := mk_br_law {
  bl_sum :
    b_rc a ++ br_held (b_pc a) ++ od_held (b_od a) ++ left_over (b_ins a)
    = concat xss;
  bl_drained : left_over (firstn (b_n a) (b_ins a)) = [];
  bl_cur :
    br_in_inner (b_pc a) = true -> od_left (b_od a) = true ->
    left_over (firstn (S (b_n a)) (b_ins a)) = [];
  bl_stale : br_in_inner (b_pc a) = false -> od_held (b_od a) = [];
  bl_left : br_left (b_pc a) = true -> b_n a = K
}.

Definition br_inv (a : br_abs) : Prop :=
  br_wf a /\ (b_dc a = false -> br_law a).

Lemma left_over_pop ins n cs v rest :
  left_over (firstn n ins) = [] ->
  nth_error ins n = Some cs -> buf cs = v :: rest ->
  left_over ins = v :: left_over (upd n (pop_st cs v rest) ins) /\
  left_over (firstn n (upd n (pop_st cs v rest) ins)) = [].
Proof.
  unfold left_over. revert n. induction ins as [|c ins IH]; intros n Hd Hn Hb.
  - destruct n; discriminate.
  - destruct n as [|n]; simpl in *.
    + injection Hn as ->. rewrite Hb. split; reflexivity.
    + apply app_eq_nil in Hd as [Hc Hd]. rewrite Hc.
      destruct (IH n Hd Hn Hb) as [H1 H2]. simpl. rewrite H1, H2.
      split; reflexivity.
Qed.

Lemma left_over_cur_empty ins n cs :
  left_over (firstn n ins) = [] ->
  nth_error ins n = Some cs -> buf cs = [] ->
  left_over (firstn (S n) ins) = [].
Proof.
  unfold left_over. revert n. induction ins as [|c ins IH]; intros n Hd Hn Hb.
  - destruct n; discriminate.
  - destruct n as [|n]; simpl in *.
    + injection Hn as ->. rewrite Hb. reflexivity.
    + apply app_eq_nil in Hd as [Hc Hd]. rewrite Hc. simpl.
      apply (IH n Hd Hn Hb).
Qed.

Lemma br_outer_buf_nil n : br_outer_buf n = [] -> (K <= n)%nat.
Proof.
  unfold br_outer_buf. destruct (K - n)%nat eqn:E; simpl; [lia|discriminate].
Qed.

Local Arguments firstn : simpl never.

Ltac br_some H :=
  repeat match type of H with
    | (if ?b then _ else _) = Some _ => destruct b eqn:?
    | match ?x with _ => _ end = Some _ => destruct x eqn:?
    end;
  try discriminate H; try (injection H as <-).

Ltac use_refl :=
  repeat match goal with
    | H : ?a = ?a -> _ |- _ => specialize (H eq_refl)
    | H : _ /\ _ |- _ => destruct H
    end.

Ltac br_pop :=
  match goal with
  | H : _ :: _ = br_outer_buf _ |- _ =>
      symmetry in H; apply br_outer_buf_pop in H; destruct H as (? & ? & ?)
  | H : [] = br_outer_buf _ |- _ =>
      symmetry in H; apply br_outer_buf_nil in H
  end.

Ltac br_wf_solve :=
  constructor; simpl in *; intros; use_refl;
  try congruence; try br_pop; subst;
  try discriminate; try tauto; try lia; try congruence; auto;
  try (rewrite length_app; simpl; lia);
  try (rewrite upd_length; assumption).

Ltac br_use_pop :=
  match goal with
  | Hn : nth_error ?ins ?k = Some ?c, Hb : buf ?c = ?v :: ?l,
    Hd : left_over (firstn ?k ?ins) = [] |- _ =>
      destruct (left_over_pop _ _ Hd Hn Hb) as [P1 P2]; rewrite ?P1 in *
  end.

Ltac br_law_solve L Hdc :=
  intros Hdc; destruct (L Hdc) as [L1 L2 L3 L4 L5];
  constructor; simpl in *; intros; use_refl;
  repeat match goal with
    | H : od_held _ = [] |- _ => rewrite H in *; clear H
    end;
  try br_use_pop;
  try br_pop; subst;
  try discriminate; try lia; try congruence; auto;
  try (rewrite <- ?app_assoc; simpl; assumption);
  try (eapply left_over_cur_empty; eassumption).

Lemma br_inv_step a ch a' :
  br_inv a -> env_may [vs] [done] ch = true ->
  br_step a ch = Some a' -> br_inv a'.
Proof.
  intros [[W1 W2 W3 W4 W5 W6 W7 W8 W9] L] Hok Hstep.
  destruct a as [m pc od dc k ost ins rc rls rr]; simpl in *.
  destruct ch as [n|i n|i n j l|c i n|c|c]; simpl in Hstep.
  - (* the caller *)
    br_some Hstep; (split; [br_wf_solve|br_law_solve L Hdc]).
  - (* a goroutine on its own *)
    destruct m as [|[|m]]; try discriminate.
    destruct (Nat.eqb i 0).
    + (* the bridge *)
      destruct pc; simpl in Hstep; br_some Hstep.
      all: (split; [br_wf_solve|try br_law_solve L Hdc]).
    + destruct (Nat.eqb i (S k) && br_in_inner pc) eqn:Hcur; [|discriminate].
      apply andb_prop in Hcur as [_ Hin].
      destruct od; simpl in Hstep; br_some Hstep.
      all: (split; [br_wf_solve|try br_law_solve L Hdc]).
  - br_some Hstep.
    all: (split; [br_wf_solve|try br_law_solve L Hdc]).
  - br_some Hstep.
    all: (split; [br_wf_solve|try br_law_solve L Hdc]).
  - discriminate.
  - br_some Hstep.
    split; [br_wf_solve|]. simpl. discriminate.
Qed.

Lemma br_inv_wf a : br_inv a -> br_wf a.
Proof. intros [H _]; exact H. Qed.

(** The outer stream: the inner streams in order, then closed. *)
Definition br_outer_vals : list value := br_outer_buf 0.

Definition br_start : br_abs :=
  mkBr 0 BrHead OdHead false 0 (source br_outer_vals true)
    (map (fun xs => source xs true) xss) [] [] [].

Definition bridge_init : config chan :=
  init (Utils.BridgeChannel done outer)
    (open_chan :: source br_outer_vals true ::
     map (fun xs => source xs true) xss).

Hypothesis HK : length xss = K.

Lemma br_start_cfg : br_cfg br_start = bridge_init.
Proof.
  unfold br_cfg, bridge_init, init, br_heap, br_start; simpl.
  rewrite app_nil_r. reflexivity.
Qed.

Lemma left_over_sources l :
  left_over (map (fun xs => source xs true) l) = concat l.
Proof.
  unfold left_over. induction l as [|x l IH]; simpl; [reflexivity|].
  rewrite IH. reflexivity.
Qed.

Lemma br_start_inv : br_inv br_start.
Proof.
  split.
  - constructor; simpl; auto; try lia; try discriminate.
    rewrite length_map. assumption.
  - intros _. constructor; simpl; auto; try discriminate.
    apply left_over_sources.
Qed.

Lemma left_over_all ins : left_over (firstn (length ins) ins) = left_over ins.
Proof. rewrite firstn_all. reflexivity. Qed.

(** Every run of Bridge.  With nobody having cancelled, what the output
    has delivered is a prefix of the concatenation of the inner streams,
    and all of it once the output is closed. *)
Lemma bridge_runs sched c :
  forallb (env_may [vs] [done]) sched = true ->
  run sched bridge_init = Some c ->
  panicked c = false /\
  (is_closed c done = false ->
   (exists rest, received c vs ++ rest = concat xss) /\
   (is_closed c vs = true -> received c vs = concat xss)).
Proof.
  intros Hok Hrun. rewrite <- br_start_cfg in Hrun.
  destruct (sim_reach br_cfg br_step br_inv (env_may [vs] [done]))
    with (sched := sched) (a := br_start) (c := c)
    as (a & -> & [W L]); auto using br_start_inv.
  - intros; apply br_sim; auto using br_inv_wf.
  - intros; eapply br_inv_step; eauto.
  - split; [reflexivity|].
    destruct W as [W1 W2 W3 W4 W5 W6 W7 W8 W9].
    destruct a as [m pc od dc k ost ins rc rls rr]; simpl in *.
    unfold is_closed, received, br_cfg; cbn [st].
    rewrite br_get_done. cbn [closed done_st]. intros Hdc.
    destruct (L Hdc) as [L1 L2 L3 L4 L5]; simpl in *.
    destruct m as [|m].
    + destruct (W4 ltac:(lia)) as (-> & -> & ->).
      rewrite br_get_fresh by auto.
      split; [exists (concat xss); reflexivity|discriminate].
    + rewrite br_get_vs by auto. cbn [recvd closed stream_st].
      split; [eexists; exact L1|].
      intros Hc. destruct pc; try discriminate. simpl in *.
      specialize (L5 eq_refl). rewrite L5 in L2.
      rewrite (L4 eq_refl) in L1. rewrite <- W2 in L2 at 1.
      rewrite left_over_all in L2.
      rewrite L2 in L1. simpl in L1. rewrite app_nil_r in L1. exact L1.
Qed.



(** *** A complete run *)

Definition br_begin : list choice := [Solo 0 0; Solo 0 0; Solo 0 0; Solo 0 0].
Definition br_round (j : nat) : list choice :=
  [Solo 0 0; Solo (S j) 0; Solo (S j) 1; Sync (S j) 0 0 0; EnvRecv vs 0 0].
Definition br_end (j : nat) : list choice :=
  [Solo 0 0; Solo (S j) 0; Solo (S j) 1; Solo (S j) 0; Solo 0 0].
Definition br_finish : list choice := [Solo 0 0; Solo 0 0; Solo 0 0].

Definition br_ok (sched : list choice) : Prop :=
  forallb (env_may [vs] [done]) sched = true.

Lemma br_ok_app s1 s2 : br_ok s1 -> br_ok s2 -> br_ok (s1 ++ s2).
Proof.
  unfold br_ok. intros H1 H2. rewrite forallb_app, H1, H2. reflexivity.
Qed.

Lemma br_round_ok j : br_ok (br_round j).
Proof.
  unfold br_ok, br_round. cbn. rewrite Nat.eqb_refl. reflexivity.
Qed.

Ltac br_exec :=
  repeat first
    [ progress cbn
    | rewrite Nat.eqb_refl
    | match goal with H : nth_error _ _ = Some _ |- _ => rewrite H end
    | match goal with H : buf _ = _ |- _ => rewrite H end
    | match goal with H : closed _ = _ |- _ => rewrite H end ];
  try reflexivity.

Lemma br_begin_run j od ost ins rc rls rr v rest :
  buf ost = v :: rest ->
  arun br_step br_begin (mkBr 2 BrHead od false j ost ins rc rls rr)
  = Some (mkBr 2 BrIHead OdHead false j (pop_st ost v rest) ins rc rls []).
Proof. intros Hb. unfold br_begin. br_exec. Qed.

Lemma br_round_run j ost ins rc rls rr cs v rest :
  nth_error ins j = Some cs -> buf cs = v :: rest ->
  arun br_step (br_round j) (mkBr 2 BrIHead OdHead false j ost ins rc rls rr)
  = Some (mkBr 2 BrIHead OdHead false j ost (upd j (pop_st cs v rest) ins)
            (rc ++ [v]) rls (rr ++ [v])).
Proof. intros Hn Hb. unfold br_round. br_exec. Qed.

Lemma br_end_run j ost ins rc rls rr cs :
  nth_error ins j = Some cs -> buf cs = [] -> closed cs = true ->
  arun br_step (br_end j) (mkBr 2 BrIHead OdHead false j ost ins rc rls rr)
  = Some (mkBr 2 BrHead OdDone false (S j) ost ins rc (rls ++ [rr]) []).
Proof. intros Hn Hb Hc. unfold br_end. br_exec. Qed.

Lemma br_finish_run j od ost ins rc rls rr :
  buf ost = [] -> closed ost = true ->
  arun br_step br_finish (mkBr 2 BrHead od false j ost ins rc rls rr)
  = Some (mkBr 2 BrDone od false j ost ins rc rls rr).
Proof. intros Hb Hc. unfold br_finish. br_exec. Qed.

Definition all_closed (ins : list chan_state) : Prop :=
  Forall (fun cs => closed cs = true) ins.

Lemma all_closed_upd ins n cs :
  all_closed ins -> closed cs = true -> all_closed (upd n cs ins).
Proof.
  unfold all_closed. intros H Hc. revert n.
  induction H as [|x l Hx Hl IH]; intros [|n]; simpl; auto.
Qed.

Lemma all_closed_nth ins n cs :
  all_closed ins -> nth_error ins n = Some cs -> closed cs = true.
Proof.
  unfold all_closed. intros H Hn. rewrite Forall_forall in H.
  apply H. eapply nth_error_In; eauto.
Qed.

(** The relay of stream [j] passes on what the stream holds, and the bridge
    turns to the next stream. *)
Lemma br_relay_drains len : forall j ost ins rc rls rr cs,
  all_closed ins -> nth_error ins j = Some cs -> length (buf cs) = len ->
  exists sched ins' rc' rls',
    br_ok sched /\ all_closed ins' /\ length ins' = length ins /\
    arun br_step sched (mkBr 2 BrIHead OdHead false j ost ins rc rls rr)
    = Some (mkBr 2 BrHead OdDone false (S j) ost ins' rc' rls' []).
Proof.
  induction len as [|len IH]; intros j ost ins rc rls rr cs Hall Hn Hlen.
  - exists (br_end j), ins, rc, (rls ++ [rr]).
    repeat split; auto.
    apply br_end_run with (cs := cs); auto.
    + destruct (buf cs); [reflexivity|discriminate].
    + eapply all_closed_nth; eauto.
  - destruct (buf cs) as [|v rest] eqn:Hb; [discriminate|].
    simpl in Hlen. injection Hlen as Hlen.
    destruct (IH j ost (upd j (pop_st cs v rest) ins) (rc ++ [v]) rls
                (rr ++ [v]) (pop_st cs v rest))
      as (sched & ins' & rc' & rls' & Hok & Hall' & Hlen' & Hrun).
    + apply all_closed_upd; [assumption|]. simpl.
      eapply all_closed_nth; eauto.
    + apply nth_error_upd_eq. apply nth_error_Some. congruence.
    + exact Hlen.
    + exists (br_round j ++ sched), ins', rc', rls'.
      repeat split; auto.
      * apply br_ok_app; [apply br_round_ok|assumption].
      * rewrite Hlen'. apply upd_length.
      * rewrite arun_app. erewrite br_round_run by eassumption. exact Hrun.
Qed.

(** From the head of the outer loop with [d] streams to go. *)
Lemma br_streams_run d : forall j od ost ins rc rls rr,
  (j + d = K)%nat -> length ins = K -> all_closed ins ->
  buf ost = br_outer_buf j -> closed ost = true ->
  exists sched a,
    br_ok sched /\
    arun br_step sched (mkBr 2 BrHead od false j ost ins rc rls rr) = Some a /\
    b_main a = 2%nat /\ b_pc a = BrDone /\ b_dc a = false.
Proof.
  induction d as [|d IH]; intros j od ost ins rc rls rr Hj Hlen Hall Hb Hc.
  - exists br_finish. eexists. split; [reflexivity|]. split.
    + apply br_finish_run; [|assumption].
      rewrite Hb. unfold br_outer_buf.
      replace (K - j)%nat with O by lia. reflexivity.
    + auto.
  - destruct (br_outer_buf j) as [|v rest] eqn:Ho.
    { unfold br_outer_buf in Ho. replace (K - j)%nat with (S d) in Ho by lia.
      discriminate. }
    destruct (br_outer_buf_pop _ Ho) as (-> & -> & Hlt).
    destruct (nth_error ins j) as [cs|] eqn:Hn.
    2:{ apply nth_error_None in Hn. lia. }
    destruct (@br_relay_drains (length (buf cs)) j
                (pop_st ost (VChan (br_inner j)) (br_outer_buf (S j)))
                ins rc rls [] cs Hall Hn eq_refl)
      as (s1 & ins' & rc' & rls' & Hok1 & Hall' & Hlen' & Hrun1).
    destruct (IH (S j) OdDone
                (pop_st ost (VChan (br_inner j)) (br_outer_buf (S j)))
                ins' rc' rls' [])
      as (s2 & a & Hok2 & Hrun2 & Ha); auto; try lia.
    exists (br_begin ++ s1 ++ s2), a. split; [|split; [|exact Ha]].
    + apply br_ok_app; [reflexivity|]. apply br_ok_app; assumption.
    + rewrite arun_app. erewrite br_begin_run by eassumption.
      rewrite arun_app, Hrun1. exact Hrun2.
Qed.

(** Bridge can run to the end without anybody cancelling; its output is
    closed then. *)
Lemma bridge_completes :
  exists sched c,
    br_ok sched /\ run sched bridge_init = Some c /\
    is_closed c vs = true /\ is_closed c done = false.
Proof.
  destruct (@br_streams_run K O OdHead (source br_outer_vals true)
              (map (fun xs => source xs true) xss) [] [] [])
    as (s & a & Hok & Hrun & Hm & Hpc & Hdc); auto.
  - rewrite length_map. assumption.
  - unfold all_closed. apply Forall_forall. intros cs Hin.
    apply in_map_iff in Hin as (xs & <- & _). reflexivity.
  - assert (Hs : br_ok ([Main 0; Main 0] ++ s))
      by (apply br_ok_app; [reflexivity|assumption]).
    exists ([Main 0; Main 0] ++ s), (br_cfg a). split; [exact Hs|].
    assert (Har : arun br_step ([Main 0; Main 0] ++ s) br_start = Some a)
      by (rewrite arun_app; exact Hrun).
    split.
    + rewrite <- br_start_cfg.
      rewrite (sim_run br_cfg br_step br_inv (env_may [vs] [done]))
        with (a := br_start); auto using br_start_inv.
      * rewrite Har. reflexivity.
      * intros; apply br_sim; auto using br_inv_wf.
      * intros; eapply br_inv_step; eauto.
    + assert (Hwf : br_inv a).
      { apply (arun_wf br_step br_inv (env_may [vs] [done]))
          with (sched := [Main 0; Main 0] ++ s) (a := br_start);
          auto using br_start_inv.
        intros; eapply br_inv_step; eauto. }
      destruct Hwf as [[W1 W2 W3 W4 W5 W6 W7 W8 W9] _].
      destruct a as [m pc od dc k ost ins rc rls rr]; simpl in *. subst.
      unfold is_closed, br_cfg; cbn [st].
      rewrite br_get_done, br_get_vs by auto. split; reflexivity.
Qed.

End Bridge.

(** ** FanIn *)

(** The values of a list of lists, one of them changed in one place. *)
Lemma concat_take A (l : list (list A)) i a v b :
  nth_error l i = Some (a ++ v :: b) ->
  Permutation (concat l) (v :: concat (upd i (a ++ b) l)).
Proof.
  revert i; induction l as [|x l IH]; intros i H.
  - destruct i; discriminate.
  - destruct i as [|i]; simpl in *.
    + injection H as ->. rewrite <- !app_assoc. simpl.
      symmetry. apply Permutation_middle.
    + rewrite (IH _ H). symmetry. apply Permutation_middle.
Qed.

Lemma upd_same A (l : list A) i x : nth_error l i = Some x -> upd i x l = l.
Proof.
  revert i; induction l as [|a l IH]; intros i H.
  - destruct i; discriminate.
  - destruct i; simpl in *; [congruence|]. rewrite IH by assumption.
    reflexivity.
Qed.

Lemma upd_upd A (l : list A) i x y : upd i y (upd i x l) = upd i y l.
Proof.
  revert i; induction l as [|a l IH]; intros i; simpl.
  - destruct i; reflexivity.
  - destruct i; simpl; [reflexivity|]. rewrite IH. reflexivity.
Qed.

Section FanIn.
Variable M : nat.
Let done := Ch 0.
Let out := Ch (1 + M).

Definition fi_source (i : nat) : chan := Ch (1 + i).
Definition fi_channels : list chan := map fi_source (seq 0 M).

Definition mx_sel (v : value) : proc (unit + leave) :=
  Select [OnRecv done (fun _ _ => ret); OnSend out v (continue tt)].
Definition mx_body (c : chan) (_ : unit) : proc (unit + leave) :=
  recv c (fun i ok => if ok then mx_sel i else break).
Definition mx_k (_ : leave) : proc unit := WgDone 0%nat (Ret tt).

Inductive mx_pc : Type :=
| MxHead | MxUnf | MxSel (v : value) | MxLeave | MxDone.

(** A [multiplex] goroutine on source [c]. *)
Definition mx_term (c : chan) (pc : mx_pc) : proc unit :=
  match pc with
  | MxHead => Iter (mx_body c) tt mx_k
  | MxUnf => bind (mx_body c tt) (loop_next (mx_body c) mx_k)
  | MxSel v => bind (mx_sel v) (loop_next (mx_body c) mx_k)
  | MxLeave => mx_k Return
  | MxDone => Ret tt
  end.

Lemma multiplex_unfold c : Utils.multiplex 0%nat done out c = mx_term c MxHead.
Proof. reflexivity. Qed.

Inductive cl_pc : Type := ClWait | ClClose | ClDone.

(** The goroutine that waits for the group and closes the output. *)
Definition cl_term (pc : cl_pc) : proc unit :=
  match pc with
  | ClWait => WgWait 0%nat (Close out (Ret tt))
  | ClClose => Close out (Ret tt)
  | ClDone => Ret tt
  end.

Definition cl_oc (pc : cl_pc) : bool :=
  match pc with
  | ClDone => true
  | _ => false
  end.

Inductive fm_pc : Type := FmNew | FmMake | FmAdd | FmGo | FmRet.

(** The caller, with [g] goroutines started. *)
Definition fi_main (ph : fm_pc) (g : nat) : proc chan :=
  match ph with
  | FmNew => Utils.FanInChannel done fi_channels
  | FmMake =>
      MakeChan VNil 0 (fun multiplexedStream =>
      WgAdd 0%nat (Z.of_nat (length fi_channels))
      (Utils.go_each (Utils.multiplex 0%nat done multiplexedStream) fi_channels
      (Go (WgWait 0%nat (Close multiplexedStream (Ret tt)))
      (Ret multiplexedStream))))
  | FmAdd =>
      WgAdd 0%nat (Z.of_nat (length fi_channels))
      (Utils.go_each (Utils.multiplex 0%nat done out) fi_channels
      (Go (cl_term ClWait) (Ret out)))
  | FmGo =>
      Utils.go_each (Utils.multiplex 0%nat done out) (skipn g fi_channels)
      (Go (cl_term ClWait) (Ret out))
  | FmRet => Ret out
  end.

Definition fm_early (ph : fm_pc) : bool :=
  match ph with
  | FmNew | FmMake | FmAdd => true
  | _ => false
  end.

Definition fm_made (ph : fm_pc) : bool :=
  match ph with
  | FmNew | FmMake => false
  | _ => true
  end.

Definition fm_ret (ph : fm_pc) : bool :=
  match ph with
  | FmRet => true
  | _ => false
  end.

Record fi_abs : Type := mkFi {
  f_ph : fm_pc;
  f_ws : list mx_pc;            (* the multiplexers started so far *)
  f_cl : cl_pc;
  f_dc : bool;
  f_ins : list chan_state;      (* the sources *)
  f_rc : list value;            (* received from the output *)
  f_cnt : Z                     (* the counter of the wait group *)
}.

Fixpoint fi_workers (from : nat) (ws : list mx_pc) : list (proc unit) :=
  match ws with
  | [] => []
  | pc :: rest => mx_term (fi_source from) pc :: fi_workers (S from) rest
  end.

Definition fi_pool (a : fi_abs) : list (proc unit) :=
  fi_workers 0 (f_ws a) ++ (if fm_ret (f_ph a) then [cl_term (f_cl a)] else []).

Definition fi_heap (a : fi_abs) : list chan_state :=
  done_st (f_dc a) :: f_ins a ++
  (if fm_made (f_ph a) then [stream_st (cl_oc (f_cl a)) (f_rc a)] else []).

Definition fi_wgs (a : fi_abs) : list Z :=
  match f_ph a with
  | FmNew => []
  | _ => [f_cnt a]
  end.

Definition fi_cfg (a : fi_abs) : config chan :=
  mkConfig (fi_main (f_ph a) (length (f_ws a))) (fi_pool a)
    (mkWorld (fi_heap a) (fi_wgs a)) false.

Definition mx_solo (a : fi_abs) (i : nat) (pc : mx_pc) (n : nat)
  : option fi_abs :=
  let '(mkFi ph ws cl dc ins rc cnt) := a in
  match pc with
  | MxHead => Some (mkFi ph (upd i MxUnf ws) cl dc ins rc cnt)
  | MxUnf =>
      match n with
      | O =>
          match nth_error ins i with
          | Some cs =>
              match buf cs with
              | v :: rest =>
                  Some (mkFi ph (upd i (MxSel v) ws) cl dc
                          (upd i (pop_st cs v rest) ins) rc cnt)
              | [] =>
                  if closed cs
                  then Some (mkFi ph (upd i MxLeave ws) cl dc ins rc cnt)
                  else None
              end
          | None => None
          end
      | _ => None
      end
  | MxSel v =>
      match n with
      | O => if dc then Some (mkFi ph (upd i MxLeave ws) cl dc ins rc cnt)
             else None
      | _ => None
      end
  | MxLeave => Some (mkFi ph (upd i MxDone ws) cl dc ins rc (cnt + -1))
  | MxDone => None
  end.

Definition cl_solo (a : fi_abs) : option fi_abs :=
  let '(mkFi ph ws cl dc ins rc cnt) := a in
  match cl with
  | ClWait =>
      match cnt with
      | 0 => Some (mkFi ph ws ClClose dc ins rc cnt)
      | _ => None
      end
  | ClClose => Some (mkFi ph ws ClDone dc ins rc cnt)
  | ClDone => None
  end.

Definition fi_step (a : fi_abs) (ch : choice) : option fi_abs :=
  let '(mkFi ph ws cl dc ins rc cnt) := a in
  match ch with
  | Main _ =>
      match ph with
      | FmNew => Some (mkFi FmMake ws cl dc ins rc cnt)
      | FmMake => Some (mkFi FmAdd ws cl dc ins rc cnt)
      | FmAdd => Some (mkFi FmGo ws cl dc ins rc (cnt + Z.of_nat M))
      | FmGo =>
          if (length ws <? M)%nat
          then Some (mkFi FmGo (ws ++ [MxHead]) cl dc ins rc cnt)
          else Some (mkFi FmRet ws cl dc ins rc cnt)
      | FmRet => None
      end
  | Solo i n =>
      match nth_error ws i with
      | Some pc => mx_solo a i pc n
      | None =>
          if fm_ret ph && Nat.eqb i (length ws) then cl_solo a else None
      end
  | Sync _ _ _ _ => None
  | EnvRecv c i n =>
      match nth_error ws i, n with
      | Some (MxSel v), S O =>
          Some (mkFi ph (upd i MxHead ws) cl dc ins (rc ++ [v]) cnt)
      | _, _ => None
      end
  | EnvTake c => None
  | EnvClose c =>
      if dc then None else Some (mkFi ph ws cl true ins rc cnt)
  end.

Definition mx_done (pc : mx_pc) : bool :=
  match pc with
  | MxDone => true
  | _ => false
  end.

(** The multiplexers that have told the group they are done. *)
Definition count_done (ws : list mx_pc) : nat := length (filter mx_done ws).

Record fi_wf (a : fi_abs) : Prop := mk_fi_wf {
  fw_ins : length (f_ins a) = M;
  fw_ws : (length (f_ws a) <= M)%nat;
  fw_early :
    fm_early (f_ph a) = true -> f_ws a = [] /\ f_cnt a = 0 /\ f_rc a = [];
  fw_ret : fm_ret (f_ph a) = true -> length (f_ws a) = M;
  fw_cl : fm_ret (f_ph a) = false -> f_cl a = ClWait;
  fw_cnt :
    fm_early (f_ph a) = false ->
    f_cnt a = Z.of_nat M - Z.of_nat (count_done (f_ws a));
  fw_closed : f_cl a <> ClWait -> count_done (f_ws a) = M
}.

(** *** Counting *)

Lemma count_done_le ws : (count_done ws <= length ws)%nat.
Proof. apply filter_length_le. Qed.

Lemma count_done_snoc ws pc :
  count_done (ws ++ [pc])
  = (count_done ws + (if mx_done pc then 1 else 0))%nat.
Proof.
  unfold count_done. rewrite filter_app, length_app. simpl.
  destruct (mx_done pc); reflexivity.
Qed.

Lemma count_done_upd ws : forall i pc pc',
  nth_error ws i = Some pc ->
  (count_done (upd i pc' ws) + (if mx_done pc then 1 else 0)
   = count_done ws + (if mx_done pc' then 1 else 0))%nat.
Proof.
  unfold count_done.
  induction ws as [|w ws IH]; intros i pc pc' H.
  - destruct i; discriminate.
  - destruct i as [|i]; simpl in *.
    + injection H as ->. destruct (mx_done pc), (mx_done pc'); simpl; lia.
    + specialize (IH _ _ pc' H). destruct (mx_done w); simpl; lia.
Qed.

Lemma count_done_lt ws : forall i pc,
  nth_error ws i = Some pc -> mx_done pc = false ->
  (count_done ws < length ws)%nat.
Proof.
  unfold count_done.
  induction ws as [|w ws IH]; intros i pc H Hd.
  - destruct i; discriminate.
  - destruct i as [|i]; simpl in *.
    + injection H as ->. rewrite Hd.
      pose proof (filter_length_le mx_done ws). lia.
    + specialize (IH _ _ H Hd). destruct (mx_done w); simpl; lia.
Qed.

Lemma count_done_all ws i pc :
  count_done ws = length ws -> nth_error ws i = Some pc -> pc = MxDone.
Proof.
  intros Hc Hn. destruct (mx_done pc) eqn:E.
  - destruct pc; try discriminate. reflexivity.
  - pose proof (count_done_lt _ _ Hn E). lia.
Qed.

(** *** The pool and the heap *)

Lemma fi_workers_lookup ws : forall from i,
  nth_error (fi_workers from ws) i
  = option_map (mx_term (fi_source (from + i))) (nth_error ws i).
Proof.
  induction ws as [|w ws IH]; intros from i; simpl.
  - destruct i; reflexivity.
  - destruct i as [|i]; simpl.
    + rewrite Nat.add_0_r. reflexivity.
    + rewrite IH. replace (S from + i)%nat with (from + S i)%nat by lia.
      reflexivity.
Qed.

Lemma fi_workers_length ws : forall from,
  length (fi_workers from ws) = length ws.
Proof.
  induction ws as [|w ws IH]; intros from; simpl; [reflexivity|].
  rewrite IH. reflexivity.
Qed.

Lemma fi_workers_upd ws : forall from i pc,
  upd i (mx_term (fi_source (from + i)) pc) (fi_workers from ws)
  = fi_workers from (upd i pc ws).
Proof.
  induction ws as [|w ws IH]; intros from i pc; simpl.
  - destruct i; reflexivity.
  - destruct i as [|i]; simpl.
    + rewrite Nat.add_0_r. reflexivity.
    + replace (from + S i)%nat with (S from + i)%nat by lia.
      rewrite IH. reflexivity.
Qed.

Lemma fi_workers_snoc ws : forall from pc,
  fi_workers from (ws ++ [pc])
  = fi_workers from ws ++ [mx_term (fi_source (from + length ws)) pc].
Proof.
  induction ws as [|w ws IH]; intros from pc; simpl.
  - rewrite Nat.add_0_r. reflexivity.
  - rewrite IH. replace (S from + length ws)%nat
      with (from + S (length ws))%nat by lia.
    reflexivity.
Qed.

Lemma fi_pool_lookup a i :
  nth_error (fi_pool a) i
  = match nth_error (f_ws a) i with
    | Some pc => Some (mx_term (fi_source i) pc)
    | None =>
        if fm_ret (f_ph a) && Nat.eqb i (length (f_ws a))
        then Some (cl_term (f_cl a)) else None
    end.
Proof.
  unfold fi_pool.
  destruct (nth_error (f_ws a) i) as [pc|] eqn:E.
  - rewrite nth_error_app1.
    + rewrite fi_workers_lookup, E. reflexivity.
    + rewrite fi_workers_length. apply nth_error_Some. congruence.
  - apply nth_error_None in E.
    rewrite nth_error_app2 by (rewrite fi_workers_length; assumption).
    rewrite fi_workers_length.
    destruct (Nat.eqb_spec i (length (f_ws a))) as [->|Hne].
    + rewrite Nat.sub_diag, andb_true_r.
      destruct (fm_ret (f_ph a)); reflexivity.
    + rewrite andb_false_r.
      destruct (i - length (f_ws a))%nat as [|d] eqn:Ed; [lia|].
      destruct (fm_ret (f_ph a)); simpl; [destruct d|]; reflexivity.
Qed.

Lemma fi_pool_upd ph ws cl dc ins rc cnt i pc pc' :
  nth_error ws i = Some pc ->
  upd i (mx_term (fi_source i) pc') (fi_pool (mkFi ph ws cl dc ins rc cnt))
  = fi_pool (mkFi ph (upd i pc' ws) cl dc ins rc cnt).
Proof.
  intros H. unfold fi_pool; simpl.
  rewrite upd_app1.
  - change (fi_source i) with (fi_source (0 + i)).
    rewrite fi_workers_upd. reflexivity.
  - rewrite fi_workers_length. apply nth_error_Some. congruence.
Qed.

Lemma fi_channels_skipn g :
  (g < M)%nat -> skipn g fi_channels = fi_source g :: skipn (S g) fi_channels.
Proof.
  intros Hg. unfold fi_channels.
  rewrite !skipn_map, !skipn_seq. simpl.
  replace (M - g)%nat with (S (M - S g)) by lia. reflexivity.
Qed.

Lemma fi_channels_skipn_all : skipn M fi_channels = [].
Proof.
  apply skipn_all2. unfold fi_channels. rewrite length_map, length_seq. lia.
Qed.

Lemma fi_channels_length : length fi_channels = M.
Proof. unfold fi_channels. rewrite length_map, length_seq. reflexivity. Qed.

Lemma fi_main_go g :
  (g < M)%nat ->
  fi_main FmGo g = Go (mx_term (fi_source g) MxHead) (fi_main FmGo (S g)).
Proof.
  intros Hg. unfold fi_main. rewrite fi_channels_skipn by assumption.
  reflexivity.
Qed.

Lemma fi_main_go_last :
  fi_main FmGo M = Go (cl_term ClWait) (fi_main FmRet M).
Proof. unfold fi_main. rewrite fi_channels_skipn_all. reflexivity. Qed.

Section FanInHeap.
Variables (ph : fm_pc) (ws : list mx_pc) (cl : cl_pc) (dc : bool)
  (ins : list chan_state) (rc : list value) (cnt : Z) (g : list Z).
Hypothesis Hins : length ins = M.
Let a := mkFi ph ws cl dc ins rc cnt.

Lemma fi_get_done : get_chan (mkWorld (fi_heap a) g) done = Some (done_st dc).
Proof. reflexivity. Qed.

Lemma fi_get_source i :
  (i < M)%nat ->
  get_chan (mkWorld (fi_heap a) g) (fi_source i) = nth_error ins i.
Proof.
  intros Hi. unfold get_chan, fi_source, fi_heap; simpl.
  apply nth_error_app1. lia.
Qed.

Lemma fi_get_out :
  fm_made ph = true ->
  get_chan (mkWorld (fi_heap a) g) out = Some (stream_st (cl_oc cl) rc).
Proof.
  intros Hm. unfold get_chan, out, fi_heap; simpl. rewrite Hm.
  apply nth_error_mid. assumption.
Qed.

Lemma fi_get_fresh :
  fm_made ph = false -> get_chan (mkWorld (fi_heap a) g) out = None.
Proof.
  intros Hm. unfold get_chan, out, fi_heap; simpl. rewrite Hm.
  apply nth_error_None. rewrite app_nil_r. lia.
Qed.

Lemma fi_heap_length :
  length (fi_heap a) = if fm_made ph then (2 + M)%nat else (1 + M)%nat.
Proof.
  unfold fi_heap; simpl. rewrite length_app, Hins.
  destruct (fm_made ph); simpl; lia.
Qed.

Lemma fi_set_done x :
  set_chan (mkWorld (fi_heap a) g) done x = mkWorld (x :: tl (fi_heap a)) g.
Proof. reflexivity. Qed.

Lemma fi_set_source i x :
  (i < M)%nat ->
  set_chan (mkWorld (fi_heap a) g) (fi_source i) x
  = mkWorld (fi_heap (mkFi ph ws cl dc (upd i x ins) rc cnt)) g.
Proof.
  intros Hi. unfold set_chan, fi_source, fi_heap; simpl.
  rewrite upd_app1 by lia. reflexivity.
Qed.

Lemma fi_set_out oc' rc' :
  fm_made ph = true ->
  set_chan (mkWorld (fi_heap a) g) out (mkChan [] 0 oc' VNil rc')
  = mkWorld (done_st dc :: ins ++ [stream_st oc' rc']) g.
Proof.
  intros Hm. unfold set_chan, out, fi_heap; simpl. rewrite Hm.
  rewrite upd_mid by assumption. reflexivity.
Qed.

End FanInHeap.

(** Who offers what in the pool. *)
Lemma fi_send_offer a i t n c v k :
  nth_error (fi_pool a) i = Some t -> send_offer t n = Some (c, v, k) ->
  c = out /\ exists w, nth_error (f_ws a) i = Some (MxSel w).
Proof.
  rewrite fi_pool_lookup. intros Ht Hs.
  destruct (nth_error (f_ws a) i) as [pc|].
  - injection Ht as <-.
    destruct pc; try discriminate.
    + destruct n as [|[|n]]; try discriminate.
    + destruct n as [|[|[|n]]]; try discriminate.
      injection Hs as <- _ _. split; [reflexivity|eauto].
  - destruct (fm_ret (f_ph a) && Nat.eqb i (length (f_ws a)));
      [|discriminate].
    injection Ht as <-. destruct (f_cl a); discriminate.
Qed.

Lemma fi_recv_offer a j t m c k :
  (length (f_ws a) <= M)%nat ->
  nth_error (fi_pool a) j = Some t -> recv_offer t m = Some (c, k) ->
  chan_eqb out c = false.
Proof.
  rewrite fi_pool_lookup. intros Hlen Ht Hr.
  destruct (nth_error (f_ws a) j) as [pc|] eqn:E.
  - assert (Hj : (j < M)%nat).
    { assert (j < length (f_ws a))%nat by (apply nth_error_Some; congruence).
      lia. }
    injection Ht as <-.
    destruct pc; try discriminate.
    + destruct m as [|[|m]]; try discriminate.
      injection Hr as <- _. simpl. apply Nat.eqb_neq. lia.
    + destruct m as [|[|[|m]]]; try discriminate.
      injection Hr as <- _. reflexivity.
  - destruct (fm_ret (f_ph a) && Nat.eqb j (length (f_ws a)));
      [|discriminate].
    injection Ht as <-. destruct (f_cl a); discriminate.
Qed.

Local Arguments get_chan : simpl never.
Local Arguments set_chan : simpl never.
Local Arguments fi_heap : simpl never.
Local Arguments fi_pool : simpl never.
Local Arguments fi_source : simpl never.
Local Arguments fi_main : simpl never.
Local Arguments Z.add : simpl never.
Local Arguments Z.ltb : simpl never.

Ltac fi_fin :=
  rewrite ?app_nil_r, ?upd_length; apply some_config_eq;
  try reflexivity; unfold fi_pool, fi_heap, fi_wgs; cbn;
  repeat match goal with H : fm_made _ = true |- _ => rewrite H end;
  try reflexivity.

Lemma fi_sim a ch :
  fi_wf a -> env_may [out] [done] ch = true ->
  step (fi_cfg a) ch = option_map fi_cfg (fi_step a ch).
Proof.
  intros [W1 W2 W3 W4 W5 W6 W7] Hok.
  destruct a as [ph ws cl dc ins rc cnt]; simpl in *.
  destruct ch as [n|i n|i n j l|c i n|c|c].
  - (* the caller *)
    unfold step, fi_cfg.
    cbn [main pool st panicked f_ph f_ws f_cl f_dc f_ins f_rc f_cnt fi_step].
    destruct ph.
    + destruct (W3 eq_refl) as (-> & -> & ->).
      cbn. apply some_config_eq; try reflexivity.
    + destruct (W3 eq_refl) as (-> & -> & ->).
      rewrite (W5 eq_refl).
      unfold fi_main at 1. cbn [solo Z.ltb Z.compare heap wgs].
      change (0 <? 0) with false. cbv iota.
      rewrite fi_heap_length by assumption. cbn [fm_made].
      apply some_config_eq; try reflexivity.
      unfold fi_heap. cbn. rewrite app_nil_r. reflexivity.
    + destruct (W3 eq_refl) as (-> & -> & ->).
      unfold fi_main at 1. cbn [solo heap wgs fi_wgs f_ph f_cnt nth_error].
      rewrite fi_channels_length.
      replace (0 + Z.of_nat M <? 0) with false
        by (symmetry; apply Z.ltb_ge; lia).
      cbn. apply some_config_eq; try reflexivity.
    + cbn [fm_ret] in *. specialize (W5 eq_refl). subst cl.
      destruct (Nat.ltb_spec (length ws) M) as [Hlt|Hge].
      * rewrite fi_main_go by assumption. cbn.
        apply some_config_eq; try reflexivity.
        -- rewrite length_app. simpl.
           replace (length ws + 1)%nat with (S (length ws)) by lia.
           reflexivity.
        -- unfold fi_pool. cbn. rewrite !app_nil_r.
           rewrite fi_workers_snoc. reflexivity.
      * replace (length ws) with M by lia.
        rewrite fi_main_go_last. cbn.
        apply some_config_eq; try reflexivity.
        unfold fi_pool. cbn. rewrite app_nil_r. reflexivity.
    + reflexivity.
  - (* a goroutine *)
    unfold step, fi_cfg.
    cbn [main pool st panicked f_ph f_ws f_cl f_dc f_ins f_rc f_cnt fi_step].
    rewrite fi_pool_lookup.
    cbn [f_ph f_ws f_cl f_dc f_ins f_rc f_cnt].
    destruct (nth_error ws i) as [pc|] eqn:E.
    + (* a multiplexer *)
      assert (Hi : (i < M)%nat).
      { assert (i < length ws)%nat by (apply nth_error_Some; congruence).
        lia. }
      assert (Hlate : fm_early ph = false).
      { destruct (fm_early ph) eqn:Ee; [|reflexivity].
        destruct (W3 eq_refl) as (-> & _). destruct i; discriminate. }
      assert (Hmade : fm_made ph = true) by (destruct ph; auto; discriminate).
      destruct pc; cbn [mx_solo mx_term].
      * cbn. rewrite (@fi_pool_upd _ _ _ _ _ _ _ _ _ MxUnf E). fi_fin.
      * destruct n as [|n]; cbn; [|destruct n; reflexivity].
        rewrite fi_get_source by assumption.
        destruct (nth_error ins i) as [cs|] eqn:Ecs; [|reflexivity].
        destruct (buf cs) as [|v rest] eqn:Eb.
        -- destruct (closed cs); [|reflexivity]. cbn.
           rewrite (@fi_pool_upd _ _ _ _ _ _ _ _ _ MxLeave E). fi_fin.
        -- cbn. rewrite fi_set_source by assumption.
           rewrite (@fi_pool_upd _ _ _ _ _ _ _ _ _ (MxSel v) E). fi_fin.
      * destruct n as [|[|n]]; cbn.
        -- rewrite fi_get_done. cbn. destruct dc; cbn; [|reflexivity].
           rewrite (@fi_pool_upd _ _ _ _ _ _ _ _ _ MxLeave E). fi_fin.
        -- rewrite fi_get_out by assumption. cbn.
           destruct cl; cbn; try reflexivity.
           exfalso.
           assert (Hd : count_done ws = M) by (apply W7; discriminate).
           pose proof (@count_done_lt ws i (MxSel v) E eq_refl). lia.
        -- destruct n; reflexivity.
      * (* wg.Done() *)
        pose proof (@count_done_lt ws i MxLeave E eq_refl) as Hlt.
        specialize (W6 Hlate).
        unfold mx_k, WgDone. cbn [solo wgs fi_wgs f_ph f_cnt].
        destruct ph; try discriminate; cbn.
        all: replace (cnt + -1 <? 0) with false
               by (symmetry; apply Z.ltb_ge; lia).
        all: cbn.
        all: rewrite (@fi_pool_upd _ _ _ _ _ _ _ _ _ MxDone E); fi_fin.
      * reflexivity.
    + (* the closer, or nobody *)
      destruct (fm_ret ph) eqn:Hret; cbn [andb]; [|reflexivity].
      destruct (Nat.eqb_spec i (length ws)) as [->|Hne]; [|reflexivity].
      destruct ph; try discriminate.
      destruct cl; cbn.
      * destruct cnt; cbn; try reflexivity.
        apply some_config_eq; try reflexivity.
        unfold fi_pool. cbn.
        rewrite upd_mid by apply fi_workers_length. rewrite app_nil_r.
        reflexivity.
      * rewrite fi_get_out by auto. cbn.
        rewrite fi_set_out by auto.
        apply some_config_eq; try reflexivity.
        unfold fi_pool. cbn.
        rewrite upd_mid by apply fi_workers_length. rewrite app_nil_r.
        reflexivity.
      * reflexivity.
  - (* no two goroutines of the pool meet *)
    unfold step, fi_cfg.
    cbn [main pool st panicked f_ph f_ws f_cl f_dc f_ins f_rc f_cnt fi_step
         option_map].
    destruct (Nat.eqb i j); [reflexivity|].
    destruct (nth_error _ i) as [ti|] eqn:Ei; [|reflexivity].
    destruct (nth_error _ j) as [tj|] eqn:Ej; [|reflexivity].
    destruct (send_offer ti n) as [[[c v] k]|] eqn:Es; [|reflexivity].
    destruct (recv_offer tj l) as [[c' k']|] eqn:Er; [|reflexivity].
    destruct (fi_send_offer _ _ _ Ei Es) as [-> _].
    rewrite (@fi_recv_offer (mkFi ph ws cl dc ins rc cnt) _ _ _ _ _ W2 Ej Er).
    reflexivity.
  - (* the environment receives *)
    apply env_recv_is in Hok. subst c.
    unfold step, fi_cfg.
    cbn [main pool st panicked f_ph f_ws f_cl f_dc f_ins f_rc f_cnt fi_step].
    rewrite fi_pool_lookup.
    cbn [f_ph f_ws f_cl f_dc f_ins f_rc f_cnt].
    destruct (nth_error ws i) as [pc|] eqn:E.
    + assert (Hlate : fm_early ph = false).
      { destruct (fm_early ph) eqn:Ee; [|reflexivity].
        destruct (W3 eq_refl) as (-> & _). destruct i; discriminate. }
      assert (Hmade : fm_made ph = true) by (destruct ph; auto; discriminate).
      destruct pc; destruct n as [|[|[|n]]]; cbn; try reflexivity.
      rewrite Nat.eqb_refl. unfold handover.
      rewrite fi_get_out by assumption. cbn.
      destruct cl; cbn.
      1,2: rewrite fi_set_out by assumption.
      1,2: rewrite (@fi_pool_upd _ _ _ _ _ _ _ _ _ MxHead E); fi_fin.
      exfalso.
      assert (Hd : count_done ws = M) by (apply W7; discriminate).
      pose proof (@count_done_lt ws i (MxSel v) E eq_refl). lia.
    + destruct (fm_ret ph && Nat.eqb i (length ws)); [|reflexivity].
      destruct cl; reflexivity.
  - (* the environment looks into a buffer *)
    apply env_take_is in Hok. subst c.
    unfold step, fi_cfg. cbn.
    destruct (fm_made ph) eqn:Hm.
    + rewrite fi_get_out by assumption. reflexivity.
    + rewrite fi_get_fresh by assumption. reflexivity.
  - (* cancellation *)
    apply env_close_is in Hok. subst c.
    unfold step, fi_cfg. cbn.
    rewrite fi_get_done. cbn. destruct dc; cbn; [reflexivity|].
    rewrite fi_set_done. reflexivity.
Qed.


(** *** What FanIn has delivered *)

Definition mx_held (pc : mx_pc) : list value :=
  match pc with
  | MxSel v => [v]
  | _ => []
  end.

(** The multiplexer is past its loop. *)
Definition mx_left (pc : mx_pc) : bool :=
  match pc with
  | MxLeave | MxDone => true
  | _ => false
  end.

Definition fi_held (ws : list mx_pc) : list value := concat (map mx_held ws).

Lemma fi_held_same ws i pc pc' :
  nth_error ws i = Some pc -> mx_held pc' = mx_held pc ->
  fi_held (upd i pc' ws) = fi_held ws.
Proof.
  intros H E. unfold fi_held. rewrite <- upd_map, E.
  rewrite upd_same; [reflexivity|]. rewrite nth_error_map, H. reflexivity.
Qed.

Lemma fi_held_take ws i v pc' :
  nth_error ws i = Some (MxSel v) -> mx_held pc' = [] ->
  Permutation (fi_held ws) (v :: fi_held (upd i pc' ws)).
Proof.
  intros H E. unfold fi_held. rewrite <- upd_map, E.
  apply (@concat_take _ (map mx_held ws) i [] v []).
  rewrite nth_error_map, H. reflexivity.
Qed.

Lemma fi_held_put ws i v pc :
  nth_error ws i = Some pc -> mx_held pc = [] ->
  Permutation (fi_held (upd i (MxSel v) ws)) (v :: fi_held ws).
Proof.
  intros H E.
  assert (Hi : (i < length ws)%nat) by (apply nth_error_Some; congruence).
  rewrite (@fi_held_take (upd i (MxSel v) ws) i v pc).
  - rewrite upd_upd, upd_same by assumption. reflexivity.
  - apply nth_error_upd_eq. assumption.
  - assumption.
Qed.

Lemma fi_held_snoc ws pc : fi_held (ws ++ [pc]) = fi_held ws ++ mx_held pc.
Proof.
  unfold fi_held. rewrite map_app, concat_app. simpl.
  rewrite app_nil_r. reflexivity.
Qed.

Lemma left_over_take ins i cs v rest :
  nth_error ins i = Some cs -> buf cs = v :: rest ->
  Permutation (left_over ins) (v :: left_over (upd i (pop_st cs v rest) ins)).
Proof.
  intros H E. unfold left_over.
  change rest with (buf (pop_st cs v rest)). rewrite <- upd_map.
  apply (@concat_take _ (map buf ins) i [] v rest).
  rewrite nth_error_map, H, <- E. reflexivity.
Qed.

Lemma nth_error_upd ws : forall i j (x : mx_pc),
  nth_error (upd i x ws) j
  = if Nat.eqb i j
    then match nth_error ws j with Some _ => Some x | None => None end
    else nth_error ws j.
Proof.
  induction ws as [|w ws IH]; intros i j x; simpl.
  - destruct i, j; simpl; try reflexivity. destruct (Nat.eqb i j); reflexivity.
  - destruct i, j; simpl; try reflexivity. apply IH.
Qed.

Variable xss : list (list value).

Record fi_law (a : fi_abs) : Prop := mk_fi_law {
  fl_sum :
    Permutation (f_rc a ++ fi_held (f_ws a) ++ left_over (f_ins a))
      (concat xss);
  fl_left : forall i pc cs,
    nth_error (f_ws a) i = Some pc -> mx_left pc = true ->
    nth_error (f_ins a) i = Some cs -> buf cs = []
}.

Definition fi_inv (a : fi_abs) : Prop :=
  fi_wf a /\ (f_dc a = false -> fi_law a).

Ltac fi_some H :=
  repeat match type of H with
    | (if ?b then _ else _) = Some _ => destruct b eqn:?
    | match ?x with _ => _ end = Some _ => destruct x eqn:?
    end;
  try discriminate H; try (injection H as <-).

Ltac use_refl :=
  repeat match goal with
    | H : ?a = ?a -> _ |- _ => specialize (H eq_refl)
    | H : _ /\ _ |- _ => destruct H
    end.

(** What the counting lemmas say about a step of multiplexer [i]. *)
Ltac fi_count :=
  match goal with
  | E : nth_error ?ws ?i = Some ?pc |- _ =>
      match goal with
      | |- context [count_done (upd i ?pc' ws)] =>
          pose proof (@count_done_upd ws i pc pc' E);
          pose proof (count_done_le ws);
          try pose proof (@count_done_lt ws i pc E eq_refl);
          simpl in *
      end
  end.

Ltac fi_mp :=
  repeat match goal with
    | H : ?P, W : ?P -> _ |- _ => specialize (W H)
    | H : nth_error [] ?i = Some _ |- _ => destruct i; discriminate H
    end.

Ltac fi_wf_solve :=
  constructor; simpl in *; intros; use_refl; fi_mp; use_refl; subst;
  fi_mp;
  rewrite ?upd_length, ?length_app, ?count_done_snoc in *; simpl in *;
  try discriminate; try congruence; try tauto; try lia; auto;
  try (fi_count; lia);
  try match goal with W : _ <> _ -> ?G |- ?G => apply W; discriminate end.

Lemma fi_wf_step a ch a' :
  fi_wf a -> fi_step a ch = Some a' -> fi_wf a'.
Proof.
  intros [W1 W2 W3 W4 W5 W6 W7] Hstep.
  destruct a as [ph ws cl dc ins rc cnt]; simpl in *.
  destruct ch as [n|i n|i n j l|c i n|c|c]; unfold fi_step in Hstep.
  - destruct ph; try discriminate;
      [| | |destruct (Nat.ltb_spec (length ws) M)];
      injection Hstep as <-; fi_wf_solve.
  - destruct (nth_error ws i) as [pc|] eqn:E.
    + destruct pc; simpl in Hstep; fi_some Hstep.
      all: fi_wf_solve.
    + destruct ph; simpl in Hstep; try discriminate.
      destruct (Nat.eqb i (length ws)); [|discriminate].
      destruct cl; simpl in Hstep; fi_some Hstep.
      all: fi_wf_solve.
  - discriminate.
  - destruct (nth_error ws i) as [pc|] eqn:E; fi_some Hstep.
    all: fi_wf_solve.
  - discriminate.
  - fi_some Hstep. fi_wf_solve.
Qed.


(** A step of multiplexer [i] that leaves the sources alone. *)
Lemma fi_law_move ph ws cl dc ins rc cnt ph' cl' cnt' i pc pc' :
  fi_law (mkFi ph ws cl dc ins rc cnt) ->
  nth_error ws i = Some pc -> mx_held pc' = mx_held pc ->
  (mx_left pc' = true ->
   mx_left pc = true \/
   exists cs, nth_error ins i = Some cs /\ buf cs = []) ->
  fi_law (mkFi ph' (upd i pc' ws) cl' dc ins rc cnt').
Proof.
  intros [L1 L2] E Hh Hl; simpl in *. constructor; simpl.
  - rewrite (@fi_held_same _ _ _ _ E Hh). exact L1.
  - intros j pcj cs Hj Hleft Hcs. rewrite nth_error_upd in Hj.
    destruct (Nat.eqb_spec i j) as [<-|Hne].
    + rewrite E in Hj. injection Hj as <-.
      destruct (Hl Hleft) as [Hp|(cs' & Hcs' & Hb)].
      * eapply L2; eauto.
      * congruence.
    + eapply L2; eauto.
Qed.

Lemma fi_inv_step a ch a' :
  fi_inv a -> fi_step a ch = Some a' -> fi_inv a'.
Proof.
  intros [W L] Hstep. split; [eapply fi_wf_step; eauto|].
  clear W. intros Hdc.
  destruct a as [ph ws cl dc ins rc cnt]; simpl in *.
  destruct ch as [n|i n|i n j l|c i n|c|c]; unfold fi_step in Hstep.
  - (* the caller *)
    destruct ph; try discriminate;
      [| | |destruct (Nat.ltb (length ws) M)];
      injection Hstep as <-; simpl in *; specialize (L Hdc);
      destruct L as [L1 L2]; simpl in *.
    1-3,5: constructor; assumption.
    constructor; simpl.
    + rewrite fi_held_snoc. simpl. rewrite app_nil_r. exact L1.
    + intros j pcj cs Hj Hleft Hcs.
      destruct (Nat.lt_ge_cases j (length ws)) as [Hlt|Hge].
      * rewrite nth_error_app1 in Hj by assumption. eapply L2; eauto.
      * rewrite nth_error_app2 in Hj by assumption.
        destruct (j - length ws)%nat as [|[|d]]; simpl in Hj;
          try discriminate.
        injection Hj as <-. discriminate.
  - (* a goroutine on its own *)
    destruct (nth_error ws i) as [pc|] eqn:E.
    + destruct pc; simpl in Hstep.
      * injection Hstep as <-. simpl in *.
        eapply fi_law_move; eauto; discriminate.
      * destruct n; [|discriminate].
        destruct (nth_error ins i) as [cs|] eqn:Ecs; [|discriminate].
        destruct (buf cs) as [|v rest] eqn:Eb.
        -- destruct (closed cs); [|discriminate].
           injection Hstep as <-. simpl in *.
           eapply fi_law_move; eauto.
        -- injection Hstep as <-. simpl in *.
           destruct (L Hdc) as [L1 L2]; simpl in *.
           constructor; simpl.
           ++ rewrite (@fi_held_put _ _ v _ E eq_refl).
              rewrite <- L1, (@left_over_take _ _ _ _ _ Ecs Eb).
              apply Permutation_app_head. simpl.
              apply Permutation_middle.
           ++ intros j pcj cs' Hj Hleft Hcs. rewrite nth_error_upd in Hj.
              destruct (Nat.eqb_spec i j) as [<-|Hne].
              ** rewrite E in Hj. injection Hj as <-. discriminate.
              ** rewrite nth_error_upd_neq in Hcs by assumption.
                 eapply L2; eauto.
      * destruct n; [|discriminate].
        destruct dc; [|discriminate].
        injection Hstep as <-. discriminate.
      * injection Hstep as <-. simpl in *.
        eapply fi_law_move; eauto.
      * discriminate.
    + destruct (fm_ret ph && Nat.eqb i (length ws)); [|discriminate].
      destruct cl; simpl in Hstep; try discriminate.
      * destruct cnt; try discriminate. injection Hstep as <-.
        simpl in *. destruct (L Hdc). constructor; assumption.
      * injection Hstep as <-.
        simpl in *. destruct (L Hdc). constructor; assumption.
  - discriminate.
  - (* the environment receives *)
    destruct (nth_error ws i) as [pc|] eqn:E; [|discriminate].
    destruct pc; try discriminate.
    destruct n as [|[|n]]; try discriminate.
    injection Hstep as <-. simpl in *.
    destruct (L Hdc) as [L1 L2]; simpl in *.
    constructor; simpl.
    + rewrite <- L1, <- app_assoc. apply Permutation_app_head. simpl.
      rewrite (@fi_held_take _ _ _ MxHead E eq_refl). reflexivity.
    + intros j pcj cs' Hj Hleft Hcs. rewrite nth_error_upd in Hj.
      destruct (Nat.eqb_spec i j) as [<-|Hne].
      * rewrite E in Hj. injection Hj as <-. discriminate.
      * eapply L2; eauto.
  - discriminate.
  - destruct dc; [discriminate|]. injection Hstep as <-. discriminate.
Qed.


Definition fi_start : fi_abs :=
  mkFi FmNew [] ClWait false (map (fun xs => source xs true) xss) [] 0.

Definition fanin_init : config chan :=
  init (Utils.FanInChannel done fi_channels)
    (open_chan :: map (fun xs => source xs true) xss).

Hypothesis HM : length xss = M.

Lemma fi_start_cfg : fi_cfg fi_start = fanin_init.
Proof.
  unfold fi_cfg, fanin_init, init, fi_heap, fi_start; simpl.
  rewrite app_nil_r. reflexivity.
Qed.

Lemma fi_start_inv : fi_inv fi_start.
Proof.
  split.
  - constructor; simpl; intros; auto; try lia; try discriminate;
      try congruence.
    rewrite length_map. assumption.
  - intros _. constructor; simpl.
    + rewrite left_over_sources. reflexivity.
    + intros i pc cs H. destruct i; discriminate.
Qed.

Lemma fi_held_done ws : count_done ws = length ws -> fi_held ws = [].
Proof.
  unfold count_done, fi_held.
  induction ws as [|w ws IH]; simpl; [reflexivity|].
  pose proof (filter_length_le mx_done ws) as Hle.
  destruct w; simpl; intros Hc; try lia.
  apply IH. lia.
Qed.

Lemma left_over_none ins :
  (forall i cs, nth_error ins i = Some cs -> buf cs = []) ->
  left_over ins = [].
Proof.
  unfold left_over. induction ins as [|c ins IH]; intros H; simpl.
  - reflexivity.
  - rewrite (H O c eq_refl). simpl. apply IH.
    intros i cs Hi. apply (H (S i)). exact Hi.
Qed.

(** What is still queued in a channel. *)
Definition pending (cf : config chan) (c : chan) : list value :=
  match get_chan (st cf) c with
  | Some cs => buf cs
  | None => []
  end.

(** Every run of FanIn.  With nobody having cancelled, what the output
    has delivered is part of the values of the sources, and once the
    output is closed it is all of them and no source holds anything. *)
Lemma fanin_runs sched c :
  forallb (env_may [out] [done]) sched = true ->
  run sched fanin_init = Some c ->
  panicked c = false /\
  (is_closed c done = false ->
   (exists rest, Permutation (received c out ++ rest) (concat xss)) /\
   (is_closed c out = true ->
    Permutation (received c out) (concat xss) /\
    forall i, (i < M)%nat -> pending c (fi_source i) = [])).
Proof.
  intros Hok Hrun. rewrite <- fi_start_cfg in Hrun.
  destruct (sim_reach fi_cfg fi_step fi_inv (env_may [out] [done]))
    with (sched := sched) (a := fi_start) (c := c)
    as (a & -> & [W L]); auto using fi_start_inv.
  - intros a ch [Hw _] Hch. apply fi_sim; assumption.
  - intros; eapply fi_inv_step; eauto.
  - split; [reflexivity|].
    destruct W as [W1 W2 W3 W4 W5 W6 W7].
    destruct a as [ph ws cl dc ins rc cnt]; simpl in *.
    unfold is_closed, received, pending, fi_cfg; cbn [st].
    rewrite fi_get_done. cbn [closed done_st]. intros Hdc.
    destruct (L Hdc) as [L1 L2]; simpl in *.
    destruct (fm_made ph) eqn:Hm.
    + rewrite fi_get_out by assumption. cbn [recvd closed stream_st].
      split; [eexists; exact L1|].
      intros Hc. destruct cl; try discriminate.
      assert (Hret : fm_ret ph = true).
      { destruct (fm_ret ph) eqn:Hr; [reflexivity|].
        specialize (W5 eq_refl). discriminate. }
      specialize (W4 Hret).
      assert (Hall : count_done ws = length ws).
      { rewrite W4. apply W7. discriminate. }
      assert (Hnone : forall i cs, nth_error ins i = Some cs -> buf cs = []).
      { intros i cs Hcs.
        assert (Hi : (i < length ws)%nat).
        { rewrite W4, <- W1. apply nth_error_Some. congruence. }
        destruct (nth_error ws i) as [pc|] eqn:E.
        2:{ apply nth_error_None in E. lia. }
        rewrite (@count_done_all ws i pc Hall E) in E.
        apply (L2 _ _ _ E eq_refl Hcs). }
      split.
      * rewrite (@fi_held_done ws Hall), (@left_over_none ins Hnone) in L1.
        simpl in L1. rewrite app_nil_r in L1. exact L1.
      * intros i Hi. rewrite fi_get_source by assumption.
        destruct (nth_error ins i) as [cs|] eqn:Ecs; [|reflexivity].
        eapply Hnone; eauto.
    + rewrite fi_get_fresh by assumption.
      split; [exists (concat xss); reflexivity|discriminate].
Qed.


(** *** A complete run *)

Definition fi_ok (sched : list choice) : Prop :=
  forallb (env_may [out] [done]) sched = true.

Lemma fi_ok_app s1 s2 : fi_ok s1 -> fi_ok s2 -> fi_ok (s1 ++ s2).
Proof.
  unfold fi_ok. intros H1 H2. rewrite forallb_app, H1, H2. reflexivity.
Qed.

Definition fi_round (i : nat) : list choice :=
  [Solo i 0; Solo i 0; EnvRecv out i 1].
Definition fi_leave (i : nat) : list choice :=
  [Solo i 0; Solo i 0; Solo i 0].

Lemma fi_round_ok i : fi_ok (fi_round i).
Proof. unfold fi_ok, fi_round. cbn. rewrite Nat.eqb_refl. reflexivity. Qed.

Lemma fi_round_run ph ws cl ins rc cnt i cs v rest :
  nth_error ws i = Some MxHead -> nth_error ins i = Some cs ->
  buf cs = v :: rest ->
  arun fi_step (fi_round i) (mkFi ph ws cl false ins rc cnt)
  = Some (mkFi ph ws cl false (upd i (pop_st cs v rest) ins) (rc ++ [v]) cnt).
Proof.
  intros E Ecs Eb.
  assert (Hi : (i < length ws)%nat) by (apply nth_error_Some; congruence).
  unfold fi_round. cbn [arun fi_step]. rewrite E. cbn [arun fi_step mx_solo].
  rewrite nth_error_upd_eq by assumption. cbn [arun fi_step mx_solo].
  rewrite Ecs, Eb. cbn [arun fi_step mx_solo].
  rewrite nth_error_upd_eq by (rewrite upd_length; assumption).
  rewrite !upd_upd, (@upd_same _ ws i MxHead E). reflexivity.
Qed.

Lemma fi_leave_run ph ws cl ins rc cnt i cs :
  nth_error ws i = Some MxHead -> nth_error ins i = Some cs ->
  buf cs = [] -> closed cs = true ->
  arun fi_step (fi_leave i) (mkFi ph ws cl false ins rc cnt)
  = Some (mkFi ph (upd i MxDone ws) cl false ins rc (cnt + -1)).
Proof.
  intros E Ecs Eb Ec.
  assert (Hi : (i < length ws)%nat) by (apply nth_error_Some; congruence).
  unfold fi_leave. cbn [arun fi_step]. rewrite E. cbn [arun fi_step mx_solo].
  rewrite nth_error_upd_eq by assumption. cbn [arun fi_step mx_solo].
  rewrite Ecs, Eb, Ec. cbn [arun fi_step mx_solo].
  rewrite nth_error_upd_eq by (rewrite upd_length; assumption).
  cbn [arun fi_step mx_solo]. rewrite !upd_upd. reflexivity.
Qed.

(** Multiplexer [i] passes on what its source holds, and leaves. *)
Lemma fi_worker_drains len : forall ph ws cl ins rc cnt i cs,
  nth_error ws i = Some MxHead -> all_closed ins ->
  nth_error ins i = Some cs -> length (buf cs) = len ->
  exists sched ins' rc',
    fi_ok sched /\ all_closed ins' /\ length ins' = length ins /\
    arun fi_step sched (mkFi ph ws cl false ins rc cnt)
    = Some (mkFi ph (upd i MxDone ws) cl false ins' rc' (cnt + -1)).
Proof.
  induction len as [|len IH]; intros ph ws cl ins rc cnt i cs E Hall Ecs Hlen.
  - exists (fi_leave i), ins, rc. repeat split; auto.
    apply fi_leave_run with (cs := cs); auto.
    + destruct (buf cs); [reflexivity|discriminate].
    + eapply all_closed_nth; eauto.
  - destruct (buf cs) as [|v rest] eqn:Eb; [discriminate|].
    simpl in Hlen. injection Hlen as Hlen.
    destruct (IH ph ws cl (upd i (pop_st cs v rest) ins) (rc ++ [v]) cnt i
                (pop_st cs v rest) E)
      as (sched & ins' & rc' & Hok & Hall' & Hlen' & Hrun).
    + apply all_closed_upd; [assumption|]. simpl.
      eapply all_closed_nth; eauto.
    + apply nth_error_upd_eq. apply nth_error_Some. congruence.
    + exact Hlen.
    + exists (fi_round i ++ sched), ins', rc'. repeat split; auto.
      * apply fi_ok_app; [apply fi_round_ok|assumption].
      * rewrite Hlen'. apply upd_length.
      * rewrite arun_app.
        rewrite (@fi_round_run ph ws cl ins rc cnt i cs v rest E Ecs Eb).
        exact Hrun.
Qed.

Lemma repeat_shift A (x : A) j l : repeat x j ++ x :: l = repeat x (S j) ++ l.
Proof.
  induction j as [|j IH]; simpl; [reflexivity|]. rewrite IH. reflexivity.
Qed.

(** The multiplexers from [j] on drain their sources one after the other. *)
Lemma fi_workers_run d : forall j ins rc cnt,
  (j + d = M)%nat -> length ins = M -> all_closed ins ->
  exists sched ins' rc' cnt',
    fi_ok sched /\
    arun fi_step sched
      (mkFi FmRet (repeat MxDone j ++ repeat MxHead d) ClWait false ins rc cnt)
    = Some (mkFi FmRet (repeat MxDone M) ClWait false ins' rc' cnt').
Proof.
  induction d as [|d IH]; intros j ins rc cnt Hj Hlen Hall.
  - exists [], ins, rc, cnt. split; [reflexivity|].
    simpl. rewrite app_nil_r. replace j with M by lia. reflexivity.
  - destruct (nth_error ins j) as [cs|] eqn:Ecs.
    2:{ apply nth_error_None in Ecs. lia. }
    assert (E : nth_error (repeat MxDone j ++ repeat MxHead (S d)) j
                = Some MxHead).
    { simpl. apply nth_error_mid. apply repeat_length. }
    destruct (@fi_worker_drains (length (buf cs)) FmRet _ ClWait ins rc cnt
                j cs E Hall Ecs eq_refl)
      as (s1 & ins' & rc' & Hok1 & Hall' & Hlen' & Hrun1).
    destruct (IH (S j) ins' rc' (cnt + -1))
      as (s2 & ins'' & rc'' & cnt'' & Hok2 & Hrun2); try lia; auto.
    exists (s1 ++ s2), ins'', rc'', cnt''. split.
    + apply fi_ok_app; assumption.
    + rewrite arun_app, Hrun1. simpl repeat.
      rewrite upd_mid by apply repeat_length.
      rewrite repeat_shift. exact Hrun2.
Qed.

(** The caller starts the multiplexers. *)
Lemma fi_spawn_run d : forall ws cl ins rc cnt,
  (length ws + d = M)%nat ->
  arun fi_step (repeat (Main 0) d) (mkFi FmGo ws cl false ins rc cnt)
  = Some (mkFi FmGo (ws ++ repeat MxHead d) cl false ins rc cnt).
Proof.
  induction d as [|d IH]; intros ws cl ins rc cnt Hd; simpl.
  - rewrite app_nil_r. reflexivity.
  - replace (length ws <? M)%nat with true
      by (symmetry; apply Nat.ltb_lt; lia).
    rewrite IH by (rewrite length_app; simpl; lia).
    rewrite <- app_assoc. reflexivity.
Qed.

Definition fi_setup : list choice :=
  [Main 0; Main 0; Main 0] ++ repeat (Main 0) M ++ [Main 0].

Lemma fi_setup_ok : fi_ok fi_setup.
Proof.
  unfold fi_ok, fi_setup. simpl. rewrite forallb_app. simpl.
  rewrite andb_true_r. apply forallb_forall.
  intros ch Hin. apply repeat_spec in Hin. subst ch. reflexivity.
Qed.

Lemma fi_setup_run :
  arun fi_step fi_setup fi_start
  = Some (mkFi FmRet (repeat MxDone 0 ++ repeat MxHead M) ClWait false
            (map (fun xs => source xs true) xss) [] (0 + Z.of_nat M)).
Proof.
  unfold fi_setup, fi_start. rewrite arun_app. cbn [arun fi_step].
  rewrite arun_app, fi_spawn_run by reflexivity.
  cbn [arun fi_step app length].
  replace (length (repeat MxHead M) <? M)%nat with false
    by (symmetry; apply Nat.ltb_ge; rewrite repeat_length; lia).
  reflexivity.
Qed.

Lemma fi_closer_step ws cl dc ins rc cnt :
  length ws = M ->
  fi_step (mkFi FmRet ws cl dc ins rc cnt) (Solo M 0)
  = cl_solo (mkFi FmRet ws cl dc ins rc cnt).
Proof.
  intros Hlen. cbn [fi_step].
  replace (nth_error ws M) with (@None mx_pc)
    by (symmetry; apply nth_error_None; lia).
  rewrite Hlen, Nat.eqb_refl. reflexivity.
Qed.

(** FanIn can run to the end without anybody cancelling; its output is
    closed then. *)
Lemma fanin_completes :
  exists sched c,
    fi_ok sched /\ run sched fanin_init = Some c /\
    is_closed c out = true /\ is_closed c done = false.
Proof.
  destruct (@fi_workers_run M O (map (fun xs => source xs true) xss) []
              (0 + Z.of_nat M))
    as (s & ins' & rc' & cnt' & Hok & Hrun); auto.
  - rewrite length_map. assumption.
  - unfold all_closed. apply Forall_forall. intros cs Hin.
    apply in_map_iff in Hin as (xs & <- & _). reflexivity.
  - assert (Hs : fi_ok (fi_setup ++ s))
      by (apply fi_ok_app; [apply fi_setup_ok|assumption]).
    assert (Har : arun fi_step (fi_setup ++ s) fi_start
                  = Some (mkFi FmRet (repeat MxDone M) ClWait false ins' rc'
                            cnt'))
      by (rewrite arun_app, fi_setup_run; exact Hrun).
    assert (Hstep : forall a ch a', fi_inv a ->
              env_may [out] [done] ch = true ->
              fi_step a ch = Some a' -> fi_inv a')
      by (intros; eapply fi_inv_step; eauto).
    assert (Hsim : forall a ch, fi_inv a ->
              env_may [out] [done] ch = true ->
              step (fi_cfg a) ch = option_map fi_cfg (fi_step a ch))
      by (intros a ch [Hw _] Hch; apply fi_sim; assumption).
    assert (Hinv : fi_inv (mkFi FmRet (repeat MxDone M) ClWait false ins' rc'
                             cnt')).
    { apply (arun_wf fi_step fi_inv (env_may [out] [done]))
        with (sched := fi_setup ++ s) (a := fi_start);
        auto using fi_start_inv. }
    destruct Hinv as [W _].
    destruct W as [W1 W2 W3 W4 W5 W6 W7].
    cbn [f_ph f_ws f_cnt f_ins fm_early] in W6, W1.
    specialize (W6 eq_refl).
    assert (Hcnt : cnt' = 0).
    { rewrite W6. unfold count_done.
      replace (filter mx_done (repeat MxDone M)) with (repeat MxDone M).
      - rewrite repeat_length. lia.
      - clear. induction M as [|n IH]; simpl; [reflexivity|].
        rewrite <- IH. reflexivity. }
    clear W6. subst cnt'.
    assert (Hfin : arun fi_step ((fi_setup ++ s) ++ [Solo M 0; Solo M 0])
                     fi_start
                   = Some (mkFi FmRet (repeat MxDone M) ClDone false ins' rc'
                             0)).
    { rewrite arun_app, Har. cbn [arun].
      rewrite fi_closer_step by apply repeat_length. cbn [cl_solo].
      rewrite fi_closer_step by apply repeat_length. reflexivity. }
    exists ((fi_setup ++ s) ++ [Solo M 0; Solo M 0]). eexists.
    split; [apply fi_ok_app; [assumption|reflexivity]|].
    split.
    + rewrite <- fi_start_cfg.
      rewrite (sim_run fi_cfg fi_step fi_inv (env_may [out] [done]))
        with (a := fi_start); auto using fi_start_inv.
      * rewrite Hfin. reflexivity.
      * apply fi_ok_app; [assumption|reflexivity].
    + unfold is_closed, fi_cfg; cbn [st].
      rewrite fi_get_done, fi_get_out by auto. split; reflexivity.
Qed.

End FanIn.

(** ** RepeatValue on a list that is not empty *)

Lemma concat_repeat_snoc {A : Type} (l : list A) r :
  concat (repeat l r) ++ l = concat (repeat l (S r)).
Proof.
  induction r as [|r IH]; simpl.
  - rewrite app_nil_r. reflexivity.
  - rewrite <- app_assoc, IH. reflexivity.
Qed.

Section RepeatCycle.
Variable values : list value.
Let done := Ch 0.
Let out := Ch 1.

Definition rv_body (_ : unit) : proc (unit + leave) :=
  Utils.range_values done out values (continue tt).
Definition rv_k (x : leave) : proc unit := Close out (Ret tt).

Inductive rv_pc : Type :=
| RvHead | RvAt (rest : list value) | RvClose | RvDone.

(** The worker; at [RvAt rest] it is in the inner [range] with [rest]
    still to send. *)
Definition rv_term (pc : rv_pc) : proc unit :=
  match pc with
  | RvHead => Iter rv_body tt rv_k
  | RvAt rest =>
      bind (Utils.range_values done out rest (continue tt))
        (loop_next rv_body rv_k)
  | RvClose => rv_k Return
  | RvDone => Ret tt
  end.

(** [rc] is a start of [values] repeated for ever. *)
Definition cyclic (rc : list value) : Prop :=
  exists r pre post,
    values = pre ++ post /\ rc = concat (repeat values r) ++ pre.

Definition rv_rel (pc : rv_pc) (dc oc : bool) (rc : list value) : Prop :=
  match pc with
  | RvHead => oc = false /\ exists r, rc = concat (repeat values r)
  | RvAt rest =>
      oc = false /\
      exists r pre, values = pre ++ rest /\ rc = concat (repeat values r) ++ pre
  | RvClose => oc = false /\ dc = true /\ cyclic rc
  | RvDone => oc = true /\ dc = true /\ cyclic rc
  end.

Definition rv_init : config chan :=
  init (Utils.RepeatValue done values) [open_chan].

Inductive rv_inv (c : config chan) : Prop :=
| RV_call dc :
    main c = Utils.RepeatValue done values -> pool c = [] ->
    st c = mkWorld [done_st dc] [] -> panicked c = false -> rv_inv c
| RV_go dc :
    main c = Go (rv_term RvHead) (Ret out) -> pool c = [] ->
    st c = mkWorld [done_st dc; stream_st false []] [] ->
    panicked c = false -> rv_inv c
| RV_run pc dc oc rc :
    main c = Ret out -> pool c = [rv_term pc] ->
    st c = mkWorld [done_st dc; stream_st oc rc] [] ->
    panicked c = false -> rv_rel pc dc oc rc -> rv_inv c.

Lemma rv_init_inv : rv_inv rv_init.
Proof. eapply RV_call with (dc := false); reflexivity. Qed.

Lemma rv_rel_cyclic pc dc oc rc : rv_rel pc dc oc rc -> cyclic rc.
Proof.
  destruct pc; simpl.
  - intros (_ & r & ->). exists r, [], values. rewrite app_nil_r. auto.
  - intros (_ & r & pre & Hv & ->). exists r, pre, rest. auto.
  - intros (_ & _ & H). exact H.
  - intros (_ & _ & H). exact H.
Qed.

Lemma rv_rel_cancel pc dc oc rc : rv_rel pc dc oc rc -> rv_rel pc true oc rc.
Proof. destruct pc; simpl; tauto. Qed.

Lemma rv_inv_step c ch c' :
  rv_inv c -> env_may [out] [done] ch = true -> step c ch = Some c' ->
  rv_inv c'.
Proof.
  intros Hinv Hok Hstep. destruct c as [m p w pk].
  destruct Hinv as [dc Hm Hp Hw Hk | dc Hm Hp Hw Hk
                   | pc dc oc rc Hm Hp Hw Hk Hrel];
    simpl in Hm, Hp, Hw, Hk; subst m p w pk;
    unfold step in Hstep; simpl in Hstep.
  - step_cases ch Hstep Hok.
    + injection Hstep as <-. eapply RV_go; reflexivity.
    + destruct dc; simpl in Hstep; [discriminate|]. injection Hstep as <-.
      eapply RV_call with (dc := true); reflexivity.
  - step_cases ch Hstep Hok.
    + injection Hstep as <-.
      eapply RV_run with (pc := RvHead); try reflexivity.
      simpl. split; [reflexivity|]. exists O. reflexivity.
    + destruct dc; simpl in Hstep; [discriminate|]. injection Hstep as <-.
      eapply RV_go with (dc := true); reflexivity.
  - destruct ch as [k | i k | i k j l | ch i k | ch | ch].
    + simpl in Hstep. discriminate.
    + (* the worker on its own *)
      destruct pc as [|rest| |]; simpl in Hrel.
      * simpl in Hstep; break_idx Hstep. injection Hstep as <-.
        destruct Hrel as (Hoc & r & Hrc).
        eapply RV_run with (pc := RvAt values); try reflexivity.
        simpl. split; [assumption|]. exists r, []. rewrite app_nil_r. auto.
      * destruct Hrel as (Hoc & r & pre & Hv & Hrc). subst oc.
        destruct rest as [|v rest].
        -- simpl in Hstep; break_idx Hstep. injection Hstep as <-.
           eapply RV_run with (pc := RvAt values); try reflexivity.
           simpl. split; [reflexivity|]. exists (S r), [].
           split; [reflexivity|].
           rewrite app_nil_r in Hv. rewrite <- Hv in Hrc.
           rewrite app_nil_r, <- concat_repeat_snoc. exact Hrc.
        -- simpl in Hstep; break_idx Hstep.
           destruct dc; simpl in Hstep; [|discriminate].
           injection Hstep as <-.
           eapply RV_run with (pc := RvClose); try reflexivity.
           simpl. repeat split. exists r, pre, (v :: rest). auto.
      * destruct Hrel as (Hoc & Hdc & Hcyc). subst oc dc.
        simpl in Hstep; break_idx Hstep. injection Hstep as <-.
        eapply RV_run with (pc := RvDone); try reflexivity.
        simpl. auto.
      * simpl in Hstep. break_idx Hstep.
    + simpl in Hstep. break_idx Hstep.
    + (* the environment receives *)
      simpl in Hstep. break_idx Hstep; try (simpl in Hok; discriminate Hok).
      destruct pc as [|rest| |]; simpl in Hrel; try (simpl in Hstep; discriminate).
      destruct Hrel as (Hoc & r & pre & Hv & Hrc). subst oc.
      destruct rest as [|v rest]; simpl in Hstep; [discriminate|].
      break_idx Hstep. simpl in Hstep. injection Hstep as <-.
      eapply RV_run with (pc := RvAt rest); try reflexivity.
      simpl. split; [reflexivity|]. exists r, (pre ++ [v]). split.
      * rewrite <- app_assoc. exact Hv.
      * rewrite Hrc, app_assoc. reflexivity.
    + simpl in Hstep. break_idx Hstep; try (simpl in Hok; discriminate Hok).
    + simpl in Hstep. break_idx Hstep; try (simpl in Hok; discriminate Hok).
      destruct dc; simpl in Hstep; [discriminate|]. injection Hstep as <-.
      eapply RV_run with (pc := pc) (dc := true); try reflexivity.
      eapply rv_rel_cancel; eassumption.
Qed.

Lemma rv_inv_sent c :
  rv_inv c ->
  panicked c = false /\ cyclic (received c out) /\
  (is_closed c out = true -> is_closed c done = true).
Proof.
  intros [dc Hm Hp Hw Hk | dc Hm Hp Hw Hk | pc dc oc rc Hm Hp Hw Hk Hrel];
    unfold is_closed, received; rewrite Hw; simpl.
  - repeat split; auto; try discriminate.
    exists O, [], values. auto.
  - repeat split; auto; try discriminate.
    exists O, [], values. auto.
  - split; [assumption|]. split; [eapply rv_rel_cyclic; eauto|].
    intros ->. destruct pc; simpl in Hrel; try (destruct Hrel; discriminate).
    tauto.
Qed.

Lemma repeat_value_runs sched c :
  forallb (env_may [out] [done]) sched = true ->
  run sched rv_init = Some c ->
  panicked c = false /\ cyclic (received c out) /\
  (is_closed c out = true -> is_closed c done = true).
Proof.
  intros Hok Hrun. apply rv_inv_sent.
  eapply run_invariant with (Inv := rv_inv); eauto using rv_init_inv.
  intros; eapply rv_inv_step; eauto.
Qed.

(** *** Rounds *)

Definition rv_cfg (pc : rv_pc) (dc oc : bool) (rc : list value)
  : config chan :=
  mkConfig (Ret out) [rv_term pc]
    (mkWorld [done_st dc; stream_st oc rc] []) false.

Lemma rv_deliver_run rest : forall rc,
  run (repeat (EnvRecv out 0 1) (length rest)) (rv_cfg (RvAt rest) false false rc)
  = Some (rv_cfg (RvAt []) false false (rc ++ rest)).
Proof.
  induction rest as [|v rest IH]; intros rc.
  - simpl. rewrite app_nil_r. reflexivity.
  - change (run (repeat (EnvRecv out 0 1) (length (v :: rest)))
              (rv_cfg (RvAt (v :: rest)) false false rc))
      with (run (repeat (EnvRecv out 0 1) (length rest))
              (rv_cfg (RvAt rest) false false (rc ++ [v]))).
    rewrite IH, <- app_assoc. reflexivity.
Qed.

Definition rv_round : list choice :=
  Solo 0 0 :: repeat (EnvRecv out 0 1) (length values).

Fixpoint rv_rounds (r : nat) : list choice :=
  match r with
  | O => []
  | S r' => rv_round ++ rv_rounds r'
  end.

Lemma rv_rounds_ok r dones :
  forallb (env_may [out] dones) (rv_rounds r) = true.
Proof.
  induction r as [|r IH]; simpl; [reflexivity|].
  rewrite forallb_app, IH, andb_true_r.
  apply forallb_forall. intros ch Hin. apply repeat_spec in Hin.
  subst ch. reflexivity.
Qed.

Lemma rv_round_run rc :
  run rv_round (rv_cfg (RvAt []) false false rc)
  = Some (rv_cfg (RvAt []) false false (rc ++ values)).
Proof.
  unfold rv_round.
  change (run (Solo 0 0 :: ?s) (rv_cfg (RvAt []) false false rc))
    with (run s (rv_cfg (RvAt values) false false rc)).
  apply rv_deliver_run.
Qed.

Lemma rv_rounds_run r : forall rc,
  run (rv_rounds r) (rv_cfg (RvAt []) false false rc)
  = Some (rv_cfg (RvAt []) false false (rc ++ concat (repeat values r))).
Proof.
  induction r as [|r IH]; intros rc.
  - simpl. rewrite app_nil_r. reflexivity.
  - change (rv_rounds (S r)) with (rv_round ++ rv_rounds r).
    rewrite run_app, rv_round_run, IH, <- app_assoc. reflexivity.
Qed.

Lemma rv_setup_run :
  run [Main 0; Main 0] rv_init = Some (rv_cfg (RvAt []) false false []).
Proof. reflexivity. Qed.

(** Any number of rounds can be delivered. *)
Lemma repeat_value_rounds r :
  exists sched c,
    forallb (env_may [out] []) sched = true /\
    run sched rv_init = Some c /\
    is_closed c out = false /\
    received c out = concat (repeat values r).
Proof.
  exists ([Main 0; Main 0] ++ rv_rounds r). eexists.
  split; [rewrite forallb_app, rv_rounds_ok; reflexivity|].
  split; [rewrite run_app, rv_setup_run; apply rv_rounds_run|].
  split; reflexivity.
Qed.

Lemma rv_cancel_run v rest rc :
  run [EnvClose done; Solo 0 0; Solo 0 0]
    (rv_cfg (RvAt (v :: rest)) false false rc)
  = Some (rv_cfg RvDone true true rc).
Proof. reflexivity. Qed.

(** After a cancellation the worker can leave and close the output. *)
Lemma repeat_value_cancel r :
  values <> [] ->
  exists sched c,
    forallb (env_may [out] [done]) sched = true /\
    run sched rv_init = Some c /\
    is_closed c out = true /\
    received c out = concat (repeat values r).
Proof.
  intros Hne.
  assert (exists v0 vs0, values = v0 :: vs0) as (v0 & vs0 & Ev)
    by (destruct values; [congruence|eauto]).
  exists (([Main 0; Main 0] ++ rv_rounds r) ++
          Solo 0 0 :: [EnvClose done; Solo 0 0; Solo 0 0]).
  eexists. split.
  - rewrite !forallb_app, rv_rounds_ok. reflexivity.
  - rewrite run_app, run_app, rv_setup_run, rv_rounds_run.
    change (run (Solo 0 0 :: ?s) (rv_cfg (RvAt []) false false ?rc))
      with (run s (rv_cfg (RvAt values) false false rc)).
    rewrite Ev at 1. rewrite rv_cancel_run.
    split; [|split]; reflexivity.
Qed.

End RepeatCycle.

(** * More of the code *)

(** ** Typed extraction of a stream of the right type *)

Lemma tx_finish_run T xs :
  run [Solo 0 0; Solo 0 0; Solo 0 0]
    (tx_cfg T xs true TxHead false (length xs) false xs false)
  = Some (tx_cfg T xs true TxDone false (length xs) true xs false).
Proof.
  unfold tx_cfg, source_at. rewrite skipn_all, firstn_all. reflexivity.
Qed.

Definition tx_full_schedule (n : nat) : list choice :=
  [Main 0; Main 0] ++ worker_rounds (Ch 2) n ++ [Solo 0 0; Solo 0 0; Solo 0 0].

Lemma tx_full_run T xs :
  forallb (well_typed T) xs = true ->
  run (tx_full_schedule (length xs)) (tx_init T xs true)
  = Some (tx_cfg T xs true TxDone false (length xs) true xs false).
Proof.
  intros Hwt. unfold tx_full_schedule.
  rewrite run_app, tx_setup, run_app.
  change (tx_cfg T xs true TxHead false 0 false [] false)
    with (tx_cfg T xs true TxHead false 0 false (firstn 0 xs) false).
  rewrite (@tx_rounds_run T xs true (length xs) O); simpl Nat.add.
  - rewrite firstn_all. apply tx_finish_run.
  - lia.
  - rewrite firstn_all. assumption.
Qed.

Lemma well_typed_nth T xs m :
  forallb (well_typed T) xs = true -> (m < length xs)%nat ->
  well_typed T (nth m xs VNil) = true.
Proof.
  intros Hwt Hm. rewrite forallb_forall in Hwt. apply Hwt.
  apply nth_In. assumption.
Qed.

(** ** OrDoneChannel on its own *)

Section OrDone.
Variables (xs : list value) (cl : bool).
Let done := Ch 0.
Let src := Ch 1.
Let out := Ch 2.

(** With [n] elements taken from the input and nobody having cancelled,
    the relay has passed on the first [n] of them, or the first [n - 1]
    while it holds the last. *)
Definition odr_rel (pc : od_pc) (dc : bool) (n : nat) (oc : bool)
    (rc : list value) : Prop :=
  match pc with
  | OdHead | OdUnf =>
      oc = false /\ (n <= length xs)%nat /\ (dc = false -> rc = firstn n xs)
  | OdSend v =>
      oc = false /\
      exists k, n = S k /\ (k < length xs)%nat /\ v = nth k xs VNil /\
        (dc = false -> rc = firstn k xs)
  | OdClose =>
      oc = false /\
      (dc = false -> rc = xs /\ cl = true)
  | OdDone =>
      oc = true /\
      (dc = false -> rc = xs /\ cl = true)
  end.

Definition ordone_init : config chan :=
  init (Utils.OrDoneChannel done src) [open_chan; source xs cl].

Inductive odr_inv (c : config chan) : Prop :=
| ODR_call dc :
    main c = Utils.OrDoneChannel done src -> pool c = [] ->
    st c = mkWorld [done_st dc; source_at xs cl 0] [] ->
    panicked c = false -> odr_inv c
| ODR_go dc :
    main c = Go (od_term done src out OdHead) (Ret out) -> pool c = [] ->
    st c = mkWorld [done_st dc; source_at xs cl 0; stream_st false []] [] ->
    panicked c = false -> odr_inv c
| ODR_run pc dc n oc rc :
    main c = Ret out -> pool c = [od_term done src out pc] ->
    st c = mkWorld [done_st dc; source_at xs cl n; stream_st oc rc] [] ->
    panicked c = false -> odr_rel pc dc n oc rc -> odr_inv c.

Lemma odr_init_inv : odr_inv ordone_init.
Proof. eapply ODR_call with (dc := false); reflexivity. Qed.

Lemma odr_rel_cancel pc dc n oc rc :
  odr_rel pc dc n oc rc -> odr_rel pc true n oc rc.
Proof.
  destruct pc; simpl.
  - intros (H1 & H2 & _). repeat split; auto; discriminate.
  - intros (H1 & H2 & _). repeat split; auto; discriminate.
  - intros (H1 & k & H2 & H3 & H4 & _). split; [assumption|].
    exists k. repeat split; auto; discriminate.
  - intros (H1 & _). split; [assumption|discriminate].
  - intros (H1 & _). split; [assumption|discriminate].
Qed.

Lemma odr_inv_step c ch c' :
  odr_inv c -> env_may [out] [done] ch = true -> step c ch = Some c' ->
  odr_inv c'.
Proof.
  intros Hinv Hok Hstep. destruct c as [m p w pk].
  destruct Hinv as [dc Hm Hp Hw Hk | dc Hm Hp Hw Hk
                   | pc dc n oc rc Hm Hp Hw Hk Hrel];
    simpl in Hm, Hp, Hw, Hk; subst m p w pk;
    unfold step in Hstep; simpl in Hstep.
  - step_cases ch Hstep Hok.
    + injection Hstep as <-. eapply ODR_go; reflexivity.
    + destruct dc; simpl in Hstep; [discriminate|]. injection Hstep as <-.
      eapply ODR_call with (dc := true); reflexivity.
  - step_cases ch Hstep Hok.
    + injection Hstep as <-.
      eapply ODR_run with (pc := OdHead) (n := O); try reflexivity.
      simpl. repeat split; lia.
    + destruct dc; simpl in Hstep; [discriminate|]. injection Hstep as <-.
      eapply ODR_go with (dc := true); reflexivity.
  - destruct ch as [a | i a | i a j l | ch i a | ch | ch].
    6:{ simpl in Hstep. break_idx Hstep; try (simpl in Hok; discriminate Hok).
        destruct dc; simpl in Hstep; [discriminate|]. injection Hstep as <-.
        eapply ODR_run with (pc := pc) (dc := true); try reflexivity.
        eapply odr_rel_cancel; eassumption. }
    5:{ simpl in Hstep. break_idx Hstep; try (simpl in Hok; discriminate Hok). }
    1:{ simpl in Hstep. discriminate. }
    + (* the relay on its own *)
      destruct pc as [ | |v| |]; simpl in Hrel.
      * simpl in Hstep; break_idx Hstep. injection Hstep as <-.
        eapply ODR_run with (pc := OdUnf); try reflexivity. exact Hrel.
      * destruct Hrel as (Hoc & Hn & Hrc). subst oc.
        simpl in Hstep; break_idx Hstep.
        -- (* cancelled *)
           destruct dc; simpl in Hstep; [|discriminate].
           injection Hstep as <-.
           eapply ODR_run with (pc := OdClose); try reflexivity.
           simpl. split; [reflexivity|discriminate].
        -- destruct (skipn n xs) as [|v rest] eqn:Esk.
           ++ case_eq cl; intros Ecl; rewrite Ecl in Hstep; [|discriminate].
              injection Hstep as <-.
              replace (source_at xs true n) with (source_at xs cl n)
                by (rewrite Ecl; reflexivity).
              eapply ODR_run with (pc := OdClose); try reflexivity.
              simpl. split; [reflexivity|]. intros Hdc.
              apply skipn_nil_len in Esk.
              rewrite (Hrc Hdc), firstn_all2 by lia. auto.
           ++ injection Hstep as <-. rewrite (@source_at_pop xs cl _ _ _ Esk).
              eapply ODR_run with (pc := OdSend v); try reflexivity.
              simpl.
              destruct (@skipn_cons_nth _ VNil _ _ _ _ Esk) as (Hv & _ & _ & Hl).
              split; [reflexivity|]. exists n. repeat split; auto.
      * destruct Hrel as (Hoc & k & Hn & Hk' & Hv & Hrc). subst oc.
        simpl in Hstep; break_idx Hstep.
        destruct dc; [|discriminate]. injection Hstep as <-.
        eapply ODR_run with (pc := OdHead); try reflexivity.
        simpl. repeat split; try lia; discriminate.
      * destruct Hrel as (Hoc & Hwhy). subst oc.
        simpl in Hstep; break_idx Hstep. injection Hstep as <-.
        eapply ODR_run with (pc := OdDone); try reflexivity.
        simpl. auto.
      * simpl in Hstep. break_idx Hstep.
    + simpl in Hstep. break_idx Hstep.
    + (* the environment receives *)
      simpl in Hstep. break_idx Hstep; try (simpl in Hok; discriminate Hok).
      destruct pc as [ | |v| |]; simpl in Hrel;
        try (simpl in Hstep; break_idx Hstep; fail).
      destruct Hrel as (Hoc & k & Hn & Hk' & Hv & Hrc). subst oc.
      simpl in Hstep; break_idx Hstep.
      injection Hstep as <-.
      eapply ODR_run with (pc := OdHead); try reflexivity.
      simpl. split; [reflexivity|]. split; [lia|].
      intros Hdc. subst n v. rewrite (Hrc Hdc).
      symmetry. apply firstn_snoc_nth. assumption.
Qed.

Lemma odr_inv_sent c :
  odr_inv c ->
  panicked c = false /\
  (is_closed c done = false ->
   (exists m, received c out = firstn m xs) /\
   (is_closed c out = true -> received c out = xs /\ cl = true)).
Proof.
  intros [dc Hm Hp Hw Hk | dc Hm Hp Hw Hk | pc dc n oc rc Hm Hp Hw Hk Hrel];
    unfold received, is_closed; rewrite Hw; simpl;
    (split; [assumption|]); intros Hdc.
  - split; [exists O; reflexivity|discriminate].
  - split; [exists O; reflexivity|discriminate].
  - subst dc. destruct pc as [ | |v| |]; simpl in Hrel.
    + destruct Hrel as (Hoc & Hn & Hrc). rewrite Hoc.
      split; [exists n; auto|discriminate].
    + destruct Hrel as (Hoc & Hn & Hrc). rewrite Hoc.
      split; [exists n; auto|discriminate].
    + destruct Hrel as (Hoc & k & Hn & Hk' & Hv & Hrc). rewrite Hoc.
      split; [exists k; auto|discriminate].
    + destruct Hrel as (Hoc & Hwhy). rewrite Hoc.
      destruct (Hwhy eq_refl) as [-> Hcl].
      split; [exists (length xs); symmetry; apply firstn_all|discriminate].
    + destruct Hrel as (Hoc & Hwhy).
      destruct (Hwhy eq_refl) as [-> Hcl].
      split; [exists (length xs); symmetry; apply firstn_all|auto].
Qed.

Lemma ordone_runs sched c :
  forallb (env_may [out] [done]) sched = true ->
  run sched ordone_init = Some c ->
  panicked c = false /\
  (is_closed c done = false ->
   (exists m, received c out = firstn m xs) /\
   (is_closed c out = true -> received c out = xs /\ cl = true)).
Proof.
  intros Hok Hrun. apply odr_inv_sent.
  eapply run_invariant with (Inv := odr_inv); eauto using odr_init_inv.
  intros; eapply odr_inv_step; eauto.
Qed.

(** *** Runs of the relay *)

Definition odr_cfg (pc : od_pc) (dc : bool) (n : nat) (oc : bool)
    (rc : list value) : config chan :=
  mkConfig (Ret out) [od_term done src out pc]
    (mkWorld [done_st dc; source_at xs cl n; stream_st oc rc] []) false.

Definition odr_round : list choice := [Solo 0 0; Solo 0 1; EnvRecv out 0 0].

Lemma odr_round_run dc n rc :
  (n < length xs)%nat ->
  run odr_round (odr_cfg OdHead dc n false rc)
  = Some (odr_cfg OdHead dc (S n) false (rc ++ [nth n xs VNil])).
Proof.
  intros Hn. unfold odr_round, run, step, odr_cfg; simpl.
  destruct (skipn n xs) as [|v rest] eqn:Esk.
  - apply skipn_nil_len in Esk. lia.
  - destruct (@skipn_cons_nth _ VNil _ _ _ _ Esk) as (Hv & _).
    rewrite Hv, (@source_at_pop xs cl _ _ _ Esk). reflexivity.
Qed.

Fixpoint odr_rounds (k : nat) : list choice :=
  match k with
  | O => []
  | S k' => odr_round ++ odr_rounds k'
  end.

Lemma odr_rounds_ok k dones :
  forallb (env_may [out] dones) (odr_rounds k) = true.
Proof. induction k as [|k IH]; simpl; auto. Qed.

Lemma odr_rounds_run dc k : forall n,
  (n + k <= length xs)%nat ->
  run (odr_rounds k) (odr_cfg OdHead dc n false (firstn n xs))
  = Some (odr_cfg OdHead dc (n + k) false (firstn (n + k) xs)).
Proof.
  induction k as [|k IH]; intros n Hlen.
  - rewrite Nat.add_0_r. reflexivity.
  - change (odr_rounds (S k)) with (odr_round ++ odr_rounds k).
    rewrite run_app, odr_round_run by lia.
    rewrite <- firstn_snoc_nth by lia.
    replace (n + S k)%nat with (S n + k)%nat by lia.
    apply IH. lia.
Qed.

Lemma odr_setup_run :
  run [Main 0; Main 0] ordone_init = Some (odr_cfg OdHead false 0 false []).
Proof. reflexivity. Qed.

(** After [k] deliveries somebody cancels; the relay takes the cancelled
    case of its [select] and closes its stream. *)
Definition odr_cancel_sched (k : nat) : list choice :=
  [Main 0; Main 0] ++ odr_rounds k ++
  [EnvClose done; Solo 0 0; Solo 0 0; Solo 0 0].

Lemma odr_cancel_run k :
  (k <= length xs)%nat ->
  run (odr_cancel_sched k) ordone_init
  = Some (odr_cfg OdDone true k true (firstn k xs)).
Proof.
  intros Hk. unfold odr_cancel_sched.
  rewrite run_app, odr_setup_run, run_app.
  change (odr_cfg OdHead false 0 false [])
    with (odr_cfg OdHead false 0 false (firstn 0 xs)).
  rewrite (odr_rounds_run false k O) by lia. reflexivity.
Qed.

End OrDone.

(** The input is closed after its elements: the relay passes all of them
    on, sees the input closed and closes its stream. *)
Definition odr_schedule (n : nat) : list choice :=
  [Main 0; Main 0] ++ odr_rounds n ++ [Solo 0 0; Solo 0 1; Solo 0 0].

Lemma odr_schedule_run xs :
  run (odr_schedule (length xs)) (ordone_init xs true)
  = Some (odr_cfg xs true OdDone false (length xs) true xs).
Proof.
  unfold odr_schedule.
  rewrite run_app, odr_setup_run, run_app.
  change (odr_cfg xs true OdHead false 0 false [])
    with (odr_cfg xs true OdHead false 0 false (firstn 0 xs)).
  rewrite (odr_rounds_run xs true false (length xs) O) by lia.
  simpl Nat.add. rewrite firstn_all.
  unfold odr_cfg, source_at. rewrite skipn_all, firstn_all. reflexivity.
Qed.


(** The relay takes the first value, somebody cancels, the relay gives the
    value up in its inner select, goes round, takes the second value and
    hands it to the reader. *)
Definition odr_skip_sched : list choice :=
  [Main 0; Main 0; Solo 0 0; Solo 0 1; EnvClose (Ch 0); Solo 0 1;
   Solo 0 0; Solo 0 1; EnvRecv (Ch 2) 0 0].

(** ** RepeatFn *)

Section RepeatFn.
Variable fn : nat -> value.
Let done := Ch 0.
Let out := Ch 1.

Definition rf_body (n : nat) : proc (nat + leave) :=
  Select [OnRecv done (fun _ _ => ret);
          OnSend out (fn n) (continue (S n))].
Definition rf_k (x : leave) : proc unit := Close out (Ret tt).

(** [RfSel n]: the worker has made call [n] of [fn] and is in the
    [select]. *)
Inductive rf_pc : Type :=
| RfHead (n : nat) | RfSel (n : nat) | RfClose | RfDone.

Definition rf_term (pc : rf_pc) : proc unit :=
  match pc with
  | RfHead n => Iter rf_body n rf_k
  | RfSel n => bind (rf_body n) (loop_next rf_body rf_k)
  | RfClose => rf_k Return
  | RfDone => Ret tt
  end.

(** The results of the first [n] calls. *)
Definition calls (n : nat) : list value := map fn (seq 0 n).

Lemma calls_snoc n : calls n ++ [fn n] = calls (S n).
Proof. unfold calls. rewrite seq_S, map_app. reflexivity. Qed.

Definition rf_rel (pc : rf_pc) (dc oc : bool) (rc : list value) : Prop :=
  match pc with
  | RfHead n | RfSel n => oc = false /\ rc = calls n
  | RfClose => oc = false /\ dc = true /\ exists n, rc = calls n
  | RfDone => oc = true /\ dc = true /\ exists n, rc = calls n
  end.

Definition repeatfn_init : config chan :=
  init (Utils.RepeatFn done fn) [open_chan].

Inductive rf_inv (c : config chan) : Prop :=
| RF_call dc :
    main c = Utils.RepeatFn done fn -> pool c = [] ->
    st c = mkWorld [done_st dc] [] -> panicked c = false -> rf_inv c
| RF_go dc :
    main c = Go (rf_term (RfHead 0)) (Ret out) -> pool c = [] ->
    st c = mkWorld [done_st dc; stream_st false []] [] ->
    panicked c = false -> rf_inv c
| RF_run pc dc oc rc :
    main c = Ret out -> pool c = [rf_term pc] ->
    st c = mkWorld [done_st dc; stream_st oc rc] [] ->
    panicked c = false -> rf_rel pc dc oc rc -> rf_inv c.

Lemma rf_init_inv : rf_inv repeatfn_init.
Proof. eapply RF_call with (dc := false); reflexivity. Qed.

Lemma rf_rel_cancel pc dc oc rc : rf_rel pc dc oc rc -> rf_rel pc true oc rc.
Proof. destruct pc; simpl; tauto. Qed.

Lemma rf_inv_step c ch c' :
  rf_inv c -> env_may [out] [done] ch = true -> step c ch = Some c' ->
  rf_inv c'.
Proof.
  intros Hinv Hok Hstep. destruct c as [m p w pk].
  destruct Hinv as [dc Hm Hp Hw Hk | dc Hm Hp Hw Hk
                   | pc dc oc rc Hm Hp Hw Hk Hrel];
    simpl in Hm, Hp, Hw, Hk; subst m p w pk;
    unfold step in Hstep; simpl in Hstep.
  - step_cases ch Hstep Hok.
    + injection Hstep as <-. eapply RF_go; reflexivity.
    + destruct dc; simpl in Hstep; [discriminate|]. injection Hstep as <-.
      eapply RF_call with (dc := true); reflexivity.
  - step_cases ch Hstep Hok.
    + injection Hstep as <-.
      eapply RF_run with (pc := RfHead 0); try reflexivity.
      simpl. split; reflexivity.
    + destruct dc; simpl in Hstep; [discriminate|]. injection Hstep as <-.
      eapply RF_go with (dc := true); reflexivity.
  - destruct ch as [a | i a | i a j l | ch i a | ch | ch].
    + simpl in Hstep. discriminate.
    + (* the worker on its own *)
      destruct pc as [n|n| |]; simpl in Hrel.
      * simpl in Hstep; break_idx Hstep. injection Hstep as <-.
        eapply RF_run with (pc := RfSel n); try reflexivity. exact Hrel.
      * destruct Hrel as (Hoc & Hrc). subst oc.
        simpl in Hstep; break_idx Hstep.
        destruct dc; simpl in Hstep; [|discriminate].
        injection Hstep as <-.
        eapply RF_run with (pc := RfClose); try reflexivity.
        simpl. repeat split. exists n. assumption.
      * destruct Hrel as (Hoc & Hdc & Hn). subst oc dc.
        simpl in Hstep; break_idx Hstep. injection Hstep as <-.
        eapply RF_run with (pc := RfDone); try reflexivity.
        simpl. auto.
      * simpl in Hstep. break_idx Hstep.
    + simpl in Hstep. break_idx Hstep.
    + (* the environment receives *)
      simpl in Hstep. break_idx Hstep; try (simpl in Hok; discriminate Hok).
      destruct pc as [n|n| |]; simpl in Hrel;
        try (simpl in Hstep; break_idx Hstep; fail).
      destruct Hrel as (Hoc & Hrc). subst oc.
      simpl in Hstep; break_idx Hstep. injection Hstep as <-.
      eapply RF_run with (pc := RfHead (S n)); try reflexivity.
      simpl. split; [reflexivity|]. rewrite Hrc. apply calls_snoc.
    + simpl in Hstep. break_idx Hstep; try (simpl in Hok; discriminate Hok).
    + simpl in Hstep. break_idx Hstep; try (simpl in Hok; discriminate Hok).
      destruct dc; simpl in Hstep; [discriminate|]. injection Hstep as <-.
      eapply RF_run with (pc := pc) (dc := true); try reflexivity.
      eapply rf_rel_cancel; eassumption.
Qed.

Lemma rf_inv_sent c :
  rf_inv c ->
  panicked c = false /\ (exists n, received c out = calls n) /\
  (is_closed c out = true -> is_closed c done = true).
Proof.
  intros [dc Hm Hp Hw Hk | dc Hm Hp Hw Hk | pc dc oc rc Hm Hp Hw Hk Hrel];
    unfold is_closed, received; rewrite Hw; simpl.
  - repeat split; auto; try discriminate. exists O. reflexivity.
  - repeat split; auto; try discriminate. exists O. reflexivity.
  - split; [assumption|].
    destruct pc as [n|n| |]; simpl in Hrel.
    + destruct Hrel as (-> & ->). split; [eauto|discriminate].
    + destruct Hrel as (-> & ->). split; [eauto|discriminate].
    + destruct Hrel as (-> & -> & Hn). split; [assumption|discriminate].
    + destruct Hrel as (-> & -> & Hn). split; [assumption|reflexivity].
Qed.

Lemma repeatfn_runs sched c :
  forallb (env_may [out] [done]) sched = true ->
  run sched repeatfn_init = Some c ->
  panicked c = false /\ (exists n, received c out = calls n) /\
  (is_closed c out = true -> is_closed c done = true).
Proof.
  intros Hok Hrun. apply rf_inv_sent.
  eapply run_invariant with (Inv := rf_inv); eauto using rf_init_inv.
  intros; eapply rf_inv_step; eauto.
Qed.

Definition rf_cfg (pc : rf_pc) (dc oc : bool) (rc : list value)
  : config chan :=
  mkConfig (Ret out) [rf_term pc]
    (mkWorld [done_st dc; stream_st oc rc] []) false.

Definition rf_round : list choice := [Solo 0 0; EnvRecv out 0 1].

Fixpoint rf_rounds (k : nat) : list choice :=
  match k with
  | O => []
  | S k' => rf_round ++ rf_rounds k'
  end.

Lemma rf_rounds_ok k dones :
  forallb (env_may [out] dones) (rf_rounds k) = true.
Proof. induction k as [|k IH]; simpl; auto. Qed.

Lemma rf_rounds_run k : forall n,
  run (rf_rounds k) (rf_cfg (RfHead n) false false (calls n))
  = Some (rf_cfg (RfHead (n + k)) false false (calls (n + k))).
Proof.
  induction k as [|k IH]; intros n.
  - rewrite Nat.add_0_r. reflexivity.
  - change (rf_rounds (S k)) with (rf_round ++ rf_rounds k).
    rewrite run_app.
    change (run rf_round (rf_cfg (RfHead n) false false (calls n)))
      with (Some (rf_cfg (RfHead (S n)) false false (calls n ++ [fn n]))).
    rewrite calls_snoc, IH. replace (n + S k)%nat with (S n + k)%nat by lia.
    reflexivity.
Qed.

Lemma rf_setup_run :
  run [Main 0; Main 0] repeatfn_init
  = Some (rf_cfg (RfHead 0) false false (calls 0)).
Proof. reflexivity. Qed.

Lemma rf_cancel_run n rc :
  run [EnvClose done; Solo 0 0; Solo 0 0; Solo 0 0]
    (rf_cfg (RfHead n) false false rc)
  = Some (rf_cfg RfDone true true rc).
Proof. reflexivity. Qed.

Lemma repeatfn_delivers k :
  exists sched c,
    forallb (env_may [out] []) sched = true /\
    run sched repeatfn_init = Some c /\
    is_closed c out = false /\ received c out = calls k.
Proof.
  exists ([Main 0; Main 0] ++ rf_rounds k). eexists.
  split; [rewrite forallb_app, rf_rounds_ok; reflexivity|].
  split; [rewrite run_app, rf_setup_run; apply rf_rounds_run|].
  split; reflexivity.
Qed.

Lemma repeatfn_cancels k :
  exists sched c,
    forallb (env_may [out] [done]) sched = true /\
    run sched repeatfn_init = Some c /\
    is_closed c out = true /\ received c out = calls k.
Proof.
  exists (([Main 0; Main 0] ++ rf_rounds k) ++
          [EnvClose done; Solo 0 0; Solo 0 0; Solo 0 0]). eexists.
  split; [rewrite !forallb_app, rf_rounds_ok; reflexivity|].
  split.
  - rewrite run_app, run_app, rf_setup_run, rf_rounds_run.
    apply rf_cancel_run.
  - split; reflexivity.
Qed.

End RepeatFn.

(** ** Take of RepeatFn *)

Section TakeRepeatFn.
Variables (fn : nat -> value) (num : Z).
Let done := Ch 0.
Let vals := Ch 1.
Let out := Ch 2.
Local Arguments Z.ltb : simpl never.
Local Arguments Z.add : simpl never.

(** [take(done, repeatFn(done, fn), num)]: the argument is evaluated
    first. *)
Definition take_repeatfn : proc chan :=
  bind (Utils.RepeatFn done fn) (fun valStream =>
  Utils.TakeChannel done valStream num).

Definition take_repeatfn_init : config chan := init take_repeatfn [open_chan].

Inductive rf_at : rf_pc -> proc unit -> Prop :=
| rf_at_head n : rf_at (RfHead n) (rf_term fn (RfHead n))
| rf_at_sel n : rf_at (RfSel n) (rf_term fn (RfSel n))
| rf_at_close : rf_at RfClose (rf_term fn RfClose)
| rf_at_done : rf_at RfDone (rf_term fn RfDone).

Inductive tk_at : tk_pc -> proc unit -> Prop :=
| tk_at_head i : tk_at (TkHead i) (tk_term num (TkHead i))
| tk_at_unf i : tk_at (TkUnf i) (tk_term num (TkUnf i))
| tk_at_sel i v : tk_at (TkSel i v) (tk_term num (TkSel i v))
| tk_at_close : tk_at TkClose (tk_term num TkClose)
| tk_at_done : tk_at TkDone (tk_term num TkDone).

(** The number of calls of [fn] whose result has been handed over. *)
Definition rf_count (pc : rf_pc) : option nat :=
  match pc with
  | RfHead n | RfSel n => Some n
  | _ => None
  end.

Definition rf_oc (pc : rf_pc) : bool :=
  match pc with
  | RfDone => true
  | _ => false
  end.

Definition tk_oc (pc : tk_pc) : bool :=
  match pc with
  | TkDone => true
  | _ => false
  end.

(** With nobody having cancelled: Take has counted the values it has
    passed on, and these are the results of the first calls of [fn]. *)
Definition tr_law (rpc : rf_pc) (tpc : tk_pc) (rc : list value) : Prop :=
  match tpc with
  | TkHead i | TkUnf i =>
      0 <= i /\ (i <= num \/ i = 0) /\
      rf_count rpc = Some (Z.to_nat i) /\ rc = calls fn (Z.to_nat i)
  | TkSel i v =>
      0 <= i < num /\ v = fn (Z.to_nat i) /\
      rf_count rpc = Some (S (Z.to_nat i)) /\ rc = calls fn (Z.to_nat i)
  | TkClose | TkDone =>
      (exists n, rf_count rpc = Some n) /\ rc = calls fn (Z.to_nat num)
  end.

Inductive take_repeatfn_inv (c : config chan) : Prop :=
| TR_a dc :
    main c = take_repeatfn -> pool c = [] ->
    st c = mkWorld [done_st dc] [] -> panicked c = false ->
    take_repeatfn_inv c
| TR_b dc :
    main c = Go (rf_term fn (RfHead 0)) (Utils.TakeChannel done vals num) ->
    pool c = [] ->
    st c = mkWorld [done_st dc; stream_st false []] [] ->
    panicked c = false -> take_repeatfn_inv c
| TR_c t1 rpc dc :
    main c = Utils.TakeChannel done vals num -> pool c = [t1] ->
    rf_at rpc t1 ->
    st c = mkWorld [done_st dc; stream_st (rf_oc rpc) []] [] ->
    panicked c = false ->
    (dc = false -> rf_count rpc = Some O) -> take_repeatfn_inv c
| TR_d t1 rpc dc :
    main c = Go (tk_term num (TkHead 0)) (Ret out) -> pool c = [t1] ->
    rf_at rpc t1 ->
    st c = mkWorld [done_st dc; stream_st (rf_oc rpc) [];
                    stream_st false []] [] ->
    panicked c = false ->
    (dc = false -> rf_count rpc = Some O) -> take_repeatfn_inv c
| TR_run t1 t2 rpc tpc dc rr rc :
    main c = Ret out -> pool c = [t1; t2] ->
    rf_at rpc t1 -> tk_at tpc t2 ->
    st c = mkWorld [done_st dc; stream_st (rf_oc rpc) rr;
                    stream_st (tk_oc tpc) rc] [] ->
    panicked c = false ->
    (dc = false -> tr_law rpc tpc rc) -> take_repeatfn_inv c.

Lemma take_repeatfn_init_inv : take_repeatfn_inv take_repeatfn_init.
Proof. eapply TR_a with (dc := false); reflexivity. Qed.

Ltac tr_close_done Hstep dc :=
  destruct dc; simpl in Hstep; [discriminate Hstep|]; injection Hstep as <-.

Ltac tr_rf_at :=
  first [ eassumption | econstructor | apply rf_at_head | apply rf_at_sel
        | apply rf_at_close | apply rf_at_done ].

Ltac tr_tk_at :=
  first [ eassumption | econstructor | apply tk_at_head | apply tk_at_unf
        | apply tk_at_sel | apply tk_at_close | apply tk_at_done ].

(** [i < num], where the worker is at the test. *)
Ltac tr_test Hstep :=
  try (lazymatch type of Hstep with
       | Some _ = Some _ => fail
       | _ => idtac
       end;
       unfold tk_term, tk_body in Hstep;
       match type of Hstep with
       | context [Z.ltb ?a ?b] =>
           let Hcmp := fresh "Hcmp" in
           revert Hstep; destruct (Z.ltb_spec a b) as [Hcmp|Hcmp];
           intros Hstep; simpl in Hstep; break_idx Hstep
       end).

Ltac tr_law_solve :=
  unfold tr_law in *; simpl in *;
  repeat match goal with
    | H : ?a = ?a -> _ |- _ => specialize (H eq_refl)
    | H : _ /\ _ |- _ => destruct H
    | H : exists _, _ |- _ => destruct H
    | H : Some _ = Some _ |- _ => injection H as H
    end;
  try discriminate; subst;
  repeat split; eauto; try lia; try congruence;
  try solve [f_equal; lia];
  try solve [match goal with
             | |- _ ++ [fn (Z.to_nat ?i)] = calls fn (Z.to_nat (?i + 1)) =>
                 replace (Z.to_nat (i + 1)) with (S (Z.to_nat i)) by lia;
                 rewrite <- calls_snoc; reflexivity
             end].

Lemma take_repeatfn_inv_step c ch c' :
  take_repeatfn_inv c -> env_may [out] [done] ch = true ->
  step c ch = Some c' -> take_repeatfn_inv c'.
Proof.
  intros Hinv Hok Hstep. destruct c as [m p w pk].
  destruct Hinv as [dc Hm Hp Hw Hk | dc Hm Hp Hw Hk
                   | t1 rpc dc Hm Hp Hat1 Hw Hk Hrel
                   | t1 rpc dc Hm Hp Hat1 Hw Hk Hrel
                   | t1 t2 rpc tpc dc rr rc Hm Hp Hat1 Hat2 Hw Hk Hrel];
    simpl in Hm, Hp, Hw, Hk; subst m p w pk;
    unfold step in Hstep; simpl in Hstep.
  - step_cases ch Hstep Hok.
    + injection Hstep as <-. eapply TR_b; reflexivity.
    + tr_close_done Hstep dc. eapply TR_a with (dc := true); reflexivity.
  - step_cases ch Hstep Hok.
    + injection Hstep as <-.
      eapply TR_c with (rpc := RfHead 0);
        [reflexivity | reflexivity | apply rf_at_head | reflexivity
        | reflexivity | reflexivity].
    + tr_close_done Hstep dc. eapply TR_b with (dc := true); reflexivity.
  - destruct ch as [k | i k | i k j l | ch i k | ch | ch].
    + simpl in Hstep. injection Hstep as <-.
      eapply TR_d; try reflexivity; eassumption.
    + destruct i as [|i]; simpl in Hstep; [|break_idx Hstep].
      destruct Hat1, dc; simpl in Hstep; break_idx Hstep.
      all: injection Hstep as <-.
      all: eapply TR_c; [reflexivity | reflexivity | tr_rf_at | reflexivity
                        | reflexivity | ].
      all: simpl in *; try discriminate; auto.
    + destruct Hat1; simpl in Hstep; break_idx Hstep.
    + destruct Hat1, dc; simpl in Hstep; break_idx Hstep;
        try (simpl in Hok; discriminate Hok).
    + simpl in Hstep. break_idx Hstep; try (simpl in Hok; discriminate Hok).
    + simpl in Hstep. break_idx Hstep; try (simpl in Hok; discriminate Hok).
      tr_close_done Hstep dc.
      eapply TR_c with (dc := true); try reflexivity; try eassumption.
      discriminate.
  - destruct ch as [k | i k | i k j l | ch i k | ch | ch].
    + simpl in Hstep. injection Hstep as <-.
      eapply TR_run with (tpc := TkHead 0);
        [reflexivity | reflexivity | eassumption | apply tk_at_head
        | reflexivity | reflexivity | ].
      intros Hd. specialize (Hrel Hd). simpl. repeat split; auto; lia.
    + destruct i as [|i]; simpl in Hstep; [|break_idx Hstep].
      destruct Hat1, dc; simpl in Hstep; break_idx Hstep.
      all: injection Hstep as <-.
      all: eapply TR_d; [reflexivity | reflexivity | tr_rf_at | reflexivity
                        | reflexivity | ].
      all: simpl in *; try discriminate; auto.
    + destruct Hat1; simpl in Hstep; break_idx Hstep.
    + destruct Hat1, dc; simpl in Hstep; break_idx Hstep;
        try (simpl in Hok; discriminate Hok).
    + simpl in Hstep. break_idx Hstep; try (simpl in Hok; discriminate Hok).
    + simpl in Hstep. break_idx Hstep; try (simpl in Hok; discriminate Hok).
      tr_close_done Hstep dc.
      eapply TR_d with (dc := true); try reflexivity; try eassumption.
      discriminate.
  - destruct ch as [k | i k | i k j l | ch i k | ch | ch].
    + simpl in Hstep; discriminate.
    + destruct i as [|[|i]]; simpl in Hstep; [ | | break_idx Hstep].
      * destruct Hat1, Hat2, dc; simpl in Hstep; break_idx Hstep.
        all: injection Hstep as <-.
        all: eapply TR_run; [reflexivity | reflexivity | tr_rf_at | tr_tk_at
                            | reflexivity | reflexivity | ].
        all: try (intros Hd; discriminate Hd).
        all: intros _; tr_law_solve.
      * destruct Hat1, Hat2, dc; simpl in Hstep; break_idx Hstep;
          tr_test Hstep.
        all: injection Hstep as <-.
        all: eapply TR_run; [reflexivity | reflexivity | tr_rf_at | tr_tk_at
                            | reflexivity | reflexivity | ].
        all: try (intros Hd; discriminate Hd).
        all: intros _; tr_law_solve.
    + destruct Hat1, Hat2, dc; simpl in Hstep; break_idx Hstep;
        tr_test Hstep.
      all: injection Hstep as <-.
      all: eapply TR_run; [reflexivity | reflexivity | tr_rf_at | tr_tk_at
                          | reflexivity | reflexivity | ].
      all: try (intros Hd; discriminate Hd).
      all: intros _; tr_law_solve.
    + destruct Hat1, Hat2, dc; simpl in Hstep; break_idx Hstep;
        try (simpl in Hok; discriminate Hok); tr_test Hstep.
      all: injection Hstep as <-.
      all: eapply TR_run; [reflexivity | reflexivity | tr_rf_at | tr_tk_at
                          | reflexivity | reflexivity | ].
      all: try (intros Hd; discriminate Hd).
      all: intros _; tr_law_solve.
    + simpl in Hstep. break_idx Hstep; try (simpl in Hok; discriminate Hok).
    + simpl in Hstep. break_idx Hstep; try (simpl in Hok; discriminate Hok).
      tr_close_done Hstep dc.
      eapply TR_run with (dc := true); try reflexivity; try eassumption.
      discriminate.
Qed.

Lemma take_repeatfn_inv_sent c :
  take_repeatfn_inv c ->
  panicked c = false /\
  (is_closed c done = false ->
   (exists m, (m <= Z.to_nat num)%nat /\ received c out = calls fn m) /\
   (is_closed c out = true -> received c out = calls fn (Z.to_nat num))).
Proof.
  intros [dc Hm Hp Hw Hk | dc Hm Hp Hw Hk
         | t1 rpc dc Hm Hp Hat1 Hw Hk Hrel
         | t1 rpc dc Hm Hp Hat1 Hw Hk Hrel
         | t1 t2 rpc tpc dc rr rc Hm Hp Hat1 Hat2 Hw Hk Hrel];
    unfold is_closed, received; rewrite Hw; simpl;
    try (split; [assumption|]; intros _;
         split; [exists O; split; [lia|reflexivity]|discriminate]).
  split; [assumption|]. intros ->. specialize (Hrel eq_refl).
  destruct tpc; simpl in Hrel.
  - destruct Hrel as (H1 & H2 & H3 & H4).
    split; [exists (Z.to_nat i); split; [lia|assumption]|discriminate].
  - destruct Hrel as (H1 & H2 & H3 & H4).
    split; [exists (Z.to_nat i); split; [lia|assumption]|discriminate].
  - destruct Hrel as (H1 & H2 & H3 & H4).
    split; [exists (Z.to_nat i); split; [lia|assumption]|discriminate].
  - destruct Hrel as (H1 & H2).
    split; [exists (Z.to_nat num); split; [lia|assumption]|discriminate].
  - destruct Hrel as (H1 & H2).
    split; [exists (Z.to_nat num); split; [lia|assumption]|auto].
Qed.

Lemma take_repeatfn_runs sched c :
  forallb (env_may [out] [done]) sched = true ->
  run sched take_repeatfn_init = Some c ->
  panicked c = false /\
  (is_closed c done = false ->
   (exists m, (m <= Z.to_nat num)%nat /\ received c out = calls fn m) /\
   (is_closed c out = true -> received c out = calls fn (Z.to_nat num))).
Proof.
  intros Hok Hrun. apply take_repeatfn_inv_sent.
  eapply run_invariant with (Inv := take_repeatfn_inv);
    eauto using take_repeatfn_init_inv.
  intros; eapply take_repeatfn_inv_step; eauto.
Qed.

(** The two workers at their control points. *)
Definition tr_cfg (rpc : rf_pc) (tpc : tk_pc) (dc : bool)
    (rr rc : list value) : config chan :=
  mkConfig (Ret out) [rf_term fn rpc; tk_term num tpc]
    (mkWorld [done_st dc; stream_st (rf_oc rpc) rr;
              stream_st (tk_oc tpc) rc] []) false.

Lemma tr_setup_run :
  run [Main 0; Main 0; Main 0; Main 0] take_repeatfn_init
  = Some (tr_cfg (RfHead 0) (TkHead 0) false [] []).
Proof. reflexivity. Qed.

(** [fn] is called, its result goes to Take and from there to the
    reader. *)
Definition tr_round : list choice :=
  [Solo 0 0; Solo 1 0; Sync 0 1 1 0; EnvRecv out 1 1].

Lemma tr_round_run n rr rc :
  Z.of_nat n < num ->
  run tr_round (tr_cfg (RfHead n) (TkHead (Z.of_nat n)) false rr rc)
  = Some (tr_cfg (RfHead (S n)) (TkHead (Z.of_nat (S n))) false
            (rr ++ [fn n]) (rc ++ [fn n])).
Proof.
  intros Hlt. apply Z.ltb_lt in Hlt.
  unfold run, step, tr_round, tr_cfg; simpl.
  unfold tk_body. rewrite Hlt. simpl.
  replace (Z.of_nat n + 1) with (Z.of_nat (S n)) by lia. reflexivity.
Qed.

Fixpoint tr_rounds (k : nat) : list choice :=
  match k with
  | O => []
  | S k' => tr_round ++ tr_rounds k'
  end.

Lemma tr_rounds_ok k dones :
  forallb (env_may [out] dones) (tr_rounds k) = true.
Proof. induction k as [|k IH]; simpl; auto. Qed.

Lemma tr_rounds_run k : forall n rr,
  k = O \/ Z.of_nat (n + k) <= num ->
  run (tr_rounds k) (tr_cfg (RfHead n) (TkHead (Z.of_nat n)) false rr (calls fn n))
  = Some (tr_cfg (RfHead (n + k)) (TkHead (Z.of_nat (n + k))) false
            (rr ++ map fn (seq n k)) (calls fn (n + k))).
Proof.
  induction k as [|k IH]; intros n rr Hle.
  - simpl. rewrite Nat.add_0_r, app_nil_r. reflexivity.
  - destruct Hle as [Hle|Hle]; [discriminate|].
    change (tr_rounds (S k)) with (tr_round ++ tr_rounds k).
    rewrite run_app, tr_round_run by lia.
    rewrite calls_snoc, IH by (right; lia).
    replace (S n + k)%nat with (n + S k)%nat by lia.
    simpl. rewrite <- app_assoc. reflexivity.
Qed.

Lemma tr_finish_run n rr rc :
  num <= Z.of_nat n ->
  run [Solo 1 0; Solo 1 0] (tr_cfg (RfHead n) (TkHead (Z.of_nat n)) false rr rc)
  = Some (tr_cfg (RfHead n) TkDone false rr rc).
Proof.
  intros Hge. apply Z.ltb_ge in Hge.
  unfold run, step, tr_cfg; simpl. unfold tk_body. rewrite Hge. reflexivity.
Qed.

Definition tr_schedule : list choice :=
  [Main 0; Main 0; Main 0; Main 0] ++ tr_rounds (Z.to_nat num) ++
  [Solo 1 0; Solo 1 0].

Lemma tr_schedule_ok dones :
  forallb (env_may [out] dones) tr_schedule = true.
Proof.
  unfold tr_schedule. rewrite !forallb_app, tr_rounds_ok. reflexivity.
Qed.

Lemma tr_schedule_run :
  run tr_schedule take_repeatfn_init
  = Some (tr_cfg (RfHead (Z.to_nat num)) TkDone false
            (calls fn (Z.to_nat num)) (calls fn (Z.to_nat num))).
Proof.
  unfold tr_schedule. rewrite run_app, tr_setup_run, run_app.
  change (tr_cfg (RfHead 0) (TkHead 0) false [] [])
    with (tr_cfg (RfHead 0) (TkHead (Z.of_nat 0)) false [] (calls fn 0)).
  rewrite tr_rounds_run by (simpl; lia). simpl Nat.add. simpl app.
  apply tr_finish_run. lia.
Qed.

End TakeRepeatFn.

(** ** The generators *)

Section Generator.
Variable slice : list value.
Let done := Ch 0.
Let out := Ch 1.

(** [GnAt rest]: in the [range] with [rest] still to send; [GnClose]: the
    loop is over or left, the deferred [close] is next. *)
Inductive gn_pc : Type := GnAt (rest : list value) | GnClose | GnDone.

Definition gn_term (pc : gn_pc) : proc unit :=
  match pc with
  | GnAt rest =>
      defer_close out (UtilsGenerics.range_slice done out rest)
  | GnClose => Close out (Ret tt)
  | GnDone => Ret tt
  end.

(** The buffered channel of the generator. *)
Definition gen_st (bf : list value) (oc : bool) (rc : list value)
  : chan_state :=
  mkChan bf (length slice) oc VNil rc.

Definition gn_rel (pc : gn_pc) (dc oc : bool) (bf rc : list value) : Prop :=
  match pc with
  | GnAt rest => oc = false /\ slice = rc ++ bf ++ rest
  | GnClose =>
      oc = false /\
      exists tail, slice = rc ++ bf ++ tail /\ (dc = false -> tail = [])
  | GnDone =>
      oc = true /\
      exists tail, slice = rc ++ bf ++ tail /\ (dc = false -> tail = [])
  end.

Definition generator_init : config chan :=
  init (UtilsGenerics.GeneratorToChannel done slice) [open_chan].

Inductive gn_inv (c : config chan) : Prop :=
| GN_call dc :
    main c = UtilsGenerics.GeneratorToChannel done slice -> pool c = [] ->
    st c = mkWorld [done_st dc] [] -> panicked c = false -> gn_inv c
| GN_go dc :
    main c = Go (gn_term (GnAt slice)) (Ret out) -> pool c = [] ->
    st c = mkWorld [done_st dc; gen_st [] false []] [] ->
    panicked c = false -> gn_inv c
| GN_run pc dc oc bf rc :
    main c = Ret out -> pool c = [gn_term pc] ->
    st c = mkWorld [done_st dc; gen_st bf oc rc] [] ->
    panicked c = false -> gn_rel pc dc oc bf rc -> gn_inv c.

Lemma gn_init_inv : gn_inv generator_init.
Proof. eapply GN_call with (dc := false); reflexivity. Qed.

Lemma gn_rel_cancel pc dc oc bf rc :
  gn_rel pc dc oc bf rc -> gn_rel pc true oc bf rc.
Proof.
  destruct pc; simpl; auto.
  - intros (H & tail & Ht & _). split; [assumption|].
    exists tail. split; [assumption|discriminate].
  - intros (H & tail & Ht & _). split; [assumption|].
    exists tail. split; [assumption|discriminate].
Qed.

Lemma gn_room rc bf v rest :
  slice = rc ++ bf ++ v :: rest -> (length bf <? length slice)%nat = true.
Proof.
  intros ->. apply Nat.ltb_lt. rewrite !length_app. simpl. lia.
Qed.

Lemma gn_inv_step c ch c' :
  gn_inv c -> env_may [out] [done] ch = true -> step c ch = Some c' ->
  gn_inv c'.
Proof.
  intros Hinv Hok Hstep. destruct c as [m p w pk].
  destruct Hinv as [dc Hm Hp Hw Hk | dc Hm Hp Hw Hk
                   | pc dc oc bf rc Hm Hp Hw Hk Hrel];
    simpl in Hm, Hp, Hw, Hk; subst m p w pk;
    unfold step in Hstep; simpl in Hstep.
  - step_cases ch Hstep Hok.
    + destruct (Z.of_nat (length slice) <? 0) eqn:E;
        [apply Z.ltb_lt in E; lia|].
      injection Hstep as <-. rewrite Nat2Z.id.
      eapply GN_go; reflexivity.
    + destruct dc; simpl in Hstep; [discriminate|]. injection Hstep as <-.
      eapply GN_call with (dc := true); reflexivity.
  - step_cases ch Hstep Hok.
    + injection Hstep as <-.
      eapply GN_run with (pc := GnAt slice); try reflexivity.
      simpl. split; reflexivity.
    + destruct dc; simpl in Hstep; [discriminate|]. injection Hstep as <-.
      eapply GN_go with (dc := true); reflexivity.
  - destruct ch as [a | i a | i a j l | ch i a | ch | ch].
    + simpl in Hstep. discriminate.
    + (* the worker on its own *)
      destruct pc as [rest| |]; simpl in Hrel.
      * destruct Hrel as (Hoc & Hsl). subst oc.
        destruct rest as [|v rest].
        -- simpl in Hstep; break_idx Hstep. injection Hstep as <-.
           eapply GN_run with (pc := GnDone); try reflexivity.
           simpl. split; [reflexivity|]. exists []. auto.
        -- simpl in Hstep; break_idx Hstep.
           ++ destruct dc; simpl in Hstep; [|discriminate].
              injection Hstep as <-.
              eapply GN_run with (pc := GnClose); try reflexivity.
              simpl. split; [reflexivity|]. exists (v :: rest).
              split; [assumption|discriminate].
           ++ rewrite (gn_room _ _ _ _ Hsl) in Hstep.
              injection Hstep as <-.
              eapply GN_run with (pc := GnAt rest); try reflexivity.
              simpl. split; [reflexivity|].
              rewrite <- app_assoc. exact Hsl.
      * destruct Hrel as (Hoc & Hwhy). subst oc.
        simpl in Hstep; break_idx Hstep. injection Hstep as <-.
        eapply GN_run with (pc := GnDone); try reflexivity.
        simpl. auto.
      * simpl in Hstep. break_idx Hstep.
    + simpl in Hstep. break_idx Hstep.
    + (* the environment receives from the worker *)
      simpl in Hstep. break_idx Hstep; try (simpl in Hok; discriminate Hok).
      destruct pc as [rest| |]; simpl in Hrel;
        try (simpl in Hstep; break_idx Hstep; fail).
      destruct Hrel as (Hoc & Hsl). subst oc.
      destruct rest as [|v rest]; simpl in Hstep; break_idx Hstep.
      simpl in Hstep.
      destruct bf as [|b bf]; simpl in Hstep; [|discriminate].
      injection Hstep as <-.
      eapply GN_run with (pc := GnAt rest) (bf := []); try reflexivity.
      simpl. split; [reflexivity|]. rewrite <- app_assoc. exact Hsl.
    + (* the environment takes from the buffer *)
      simpl in Hstep. break_idx Hstep; try (simpl in Hok; discriminate Hok).
      injection Hstep as <-.
      eapply GN_run with (pc := pc) (dc := dc); try reflexivity.
      destruct pc; simpl in *.
      * destruct Hrel as (Hoc & Hsl). split; [assumption|].
        rewrite <- app_assoc. exact Hsl.
      * destruct Hrel as (Hoc & tail & Hsl & Hd). split; [assumption|].
        exists tail. rewrite <- app_assoc. auto.
      * destruct Hrel as (Hoc & tail & Hsl & Hd). split; [assumption|].
        exists tail. rewrite <- app_assoc. auto.
    + simpl in Hstep. break_idx Hstep; try (simpl in Hok; discriminate Hok).
      destruct dc; simpl in Hstep; [discriminate|]. injection Hstep as <-.
      eapply GN_run with (pc := pc) (dc := true); try reflexivity.
      eapply gn_rel_cancel; eassumption.
Qed.

Lemma gn_inv_sent c :
  gn_inv c ->
  panicked c = false /\
  (exists tail, slice = received c out ++ pending c out ++ tail) /\
  (length (pending c out) <= length slice)%nat /\
  (is_closed c out = true -> is_closed c done = false ->
   slice = received c out ++ pending c out).
Proof.
  intros [dc Hm Hp Hw Hk | dc Hm Hp Hw Hk | pc dc oc bf rc Hm Hp Hw Hk Hrel];
    unfold is_closed, received, pending; rewrite Hw; simpl.
  - repeat split; auto; try discriminate; try lia. exists slice. reflexivity.
  - repeat split; auto; try discriminate; try lia. exists slice. reflexivity.
  - split; [assumption|].
    assert (Hpre : exists tail, slice = rc ++ bf ++ tail).
    { destruct pc; simpl in Hrel.
      - destruct Hrel as (_ & Hsl). eauto.
      - destruct Hrel as (_ & tail & Hsl & _). eauto.
      - destruct Hrel as (_ & tail & Hsl & _). eauto. }
    split; [assumption|]. split.
    + destruct Hpre as (tail & ->). rewrite !length_app. lia.
    + intros -> ->. destruct pc; simpl in Hrel.
      * destruct Hrel; discriminate.
      * destruct Hrel; discriminate.
      * destruct Hrel as (_ & tail & Hsl & Hd).
        rewrite (Hd eq_refl), app_nil_r in Hsl. exact Hsl.
Qed.

Lemma generator_runs sched c :
  forallb (env_may [out] [done]) sched = true ->
  run sched generator_init = Some c ->
  panicked c = false /\
  (exists tail, slice = received c out ++ pending c out ++ tail) /\
  (length (pending c out) <= length slice)%nat /\
  (is_closed c out = true -> is_closed c done = false ->
   slice = received c out ++ pending c out).
Proof.
  intros Hok Hrun. apply gn_inv_sent.
  eapply run_invariant with (Inv := gn_inv); eauto using gn_init_inv.
  intros; eapply gn_inv_step; eauto.
Qed.

(** *** The generator needs no reader *)

Definition gn_cfg (pc : gn_pc) (dc oc : bool) (bf rc : list value)
  : config chan :=
  mkConfig (Ret out) [gn_term pc]
    (mkWorld [done_st dc; gen_st bf oc rc] []) false.

Lemma gn_setup_run :
  run [Main 0; Main 0] generator_init
  = Some (gn_cfg (GnAt slice) false false [] []).
Proof.
  unfold run, step, generator_init; simpl.
  destruct (Z.of_nat (length slice) <? 0) eqn:E;
    [apply Z.ltb_lt in E; lia|].
  simpl. unfold gn_cfg, gen_st. rewrite Nat2Z.id. reflexivity.
Qed.

Lemma gn_fill_run rest : forall bf,
  slice = bf ++ rest ->
  run (repeat (Solo 0 1) (length rest)) (gn_cfg (GnAt rest) false false bf [])
  = Some (gn_cfg (GnAt []) false false slice []).
Proof.
  induction rest as [|v rest IH]; intros bf Hsl.
  - rewrite app_nil_r in Hsl. subst bf. reflexivity.
  - simpl repeat. unfold run; fold (@run chan).
    assert (Hstep : step (gn_cfg (GnAt (v :: rest)) false false bf [])
                      (Solo 0 1)
                    = Some (gn_cfg (GnAt rest) false false (bf ++ [v]) [])).
    { unfold step, gn_cfg; simpl.
      rewrite (gn_room [] bf v rest) by exact Hsl. reflexivity. }
    rewrite Hstep. apply IH. rewrite <- app_assoc. exact Hsl.
Qed.

Lemma gn_close_run bf rc :
  run [Solo 0 0] (gn_cfg (GnAt []) false false bf rc)
  = Some (gn_cfg GnDone false true bf rc).
Proof. reflexivity. Qed.

Lemma gn_drain_run bf : forall rc,
  run (repeat (EnvTake out) (length bf)) (gn_cfg GnDone false true bf rc)
  = Some (gn_cfg GnDone false true [] (rc ++ bf)).
Proof.
  induction bf as [|b bf IH]; intros rc.
  - simpl. rewrite app_nil_r. reflexivity.
  - simpl repeat. unfold run; fold (@run chan).
    replace (rc ++ b :: bf) with ((rc ++ [b]) ++ bf)
      by (rewrite <- app_assoc; reflexivity).
    apply IH.
Qed.

(** The generator working alone. *)
Definition gn_alone : list choice :=
  [Main 0; Main 0] ++ repeat (Solo 0 1) (length slice) ++ [Solo 0 0].

Lemma gn_alone_run :
  run gn_alone generator_init = Some (gn_cfg GnDone false true slice []).
Proof.
  unfold gn_alone.
  rewrite run_app, gn_setup_run, run_app, (gn_fill_run slice []) by reflexivity.
  apply gn_close_run.
Qed.

Lemma gn_alone_ok outs dones : forallb (env_may outs dones) gn_alone = true.
Proof.
  unfold gn_alone. rewrite !forallb_app. simpl. rewrite andb_true_r.
  apply forallb_forall. intros ch Hin. apply repeat_spec in Hin.
  subst ch. reflexivity.
Qed.

Lemma gn_drained_run :
  run (gn_alone ++ repeat (EnvTake out) (length slice)) generator_init
  = Some (gn_cfg GnDone false true [] slice).
Proof. rewrite run_app, gn_alone_run. apply gn_drain_run. Qed.

End Generator.

Lemma gn_drained_ok (slice : list value) :
  forallb (env_may [Ch 1] [])
    (gn_alone slice ++ repeat (EnvTake (Ch 1)) (length slice)) = true.
Proof.
  rewrite forallb_app, gn_alone_ok. simpl.
  induction (length slice); simpl; auto.
Qed.


(** ** The generator of strings, and its conversion *)

Lemma string_generator_is_generator (done : chan) (slice : list string) :
  UtilsGenerics.GeneratorFromStringArrayToChannel done slice
  = UtilsGenerics.GeneratorToChannel done (map VStr slice).
Proof.
  unfold UtilsGenerics.GeneratorFromStringArrayToChannel,
    UtilsGenerics.GeneratorToChannel.
  rewrite length_map. reflexivity.
Qed.

Lemma strings_well_typed (slice : list string) :
  forallb (well_typed TString) (map VStr slice) = true.
Proof. induction slice; simpl; auto. Qed.

(** ** Or of two and of three channels *)

Inductive or_pc : Type := OrSel | OrClose | OrDone.

Section OrTwo.
Let c0 := Ch 0.
Let c1 := Ch 1.
Let out := Ch 2.

Definition or2_term (pc : or_pc) : proc unit :=
  match pc with
  | OrSel =>
      defer_close out
        (Select [OnRecv c0 (fun _ _ => Ret tt);
                 OnRecv c1 (fun _ _ => Ret tt)])
  | OrClose => Close out (Ret tt)
  | OrDone => Ret tt
  end.

Definition or2_rel (pc : or_pc) (d0 d1 oc : bool) : Prop :=
  match pc with
  | OrSel => oc = false
  | OrClose => oc = false /\ (d0 = true \/ d1 = true)
  | OrDone => oc = true /\ (d0 = true \/ d1 = true)
  end.

Definition or2_init : config chan :=
  init (Utils.OrChannel [c0; c1]) [open_chan; open_chan].

Inductive or2_inv (c : config chan) : Prop :=
| OR2_call d0 d1 :
    main c = Utils.OrChannel [c0; c1] -> pool c = [] ->
    st c = mkWorld [done_st d0; done_st d1] [] -> panicked c = false ->
    or2_inv c
| OR2_go d0 d1 :
    main c = Go (or2_term OrSel) (Ret out) -> pool c = [] ->
    st c = mkWorld [done_st d0; done_st d1; stream_st false []] [] ->
    panicked c = false -> or2_inv c
| OR2_run pc d0 d1 oc :
    main c = Ret out -> pool c = [or2_term pc] ->
    st c = mkWorld [done_st d0; done_st d1; stream_st oc []] [] ->
    panicked c = false -> or2_rel pc d0 d1 oc -> or2_inv c.

Lemma or2_init_inv : or2_inv or2_init.
Proof. eapply OR2_call with (d0 := false) (d1 := false); reflexivity. Qed.

Lemma or2_rel_fire0 pc d0 d1 oc : or2_rel pc d0 d1 oc -> or2_rel pc true d1 oc.
Proof. destruct pc; simpl; tauto. Qed.

Lemma or2_rel_fire1 pc d0 d1 oc : or2_rel pc d0 d1 oc -> or2_rel pc d0 true oc.
Proof. destruct pc; simpl; tauto. Qed.

Lemma or2_inv_step c ch c' :
  or2_inv c -> env_may [out] [c0; c1] ch = true -> step c ch = Some c' ->
  or2_inv c'.
Proof.
  intros Hinv Hok Hstep. destruct c as [m p w pk].
  destruct Hinv as [d0 d1 Hm Hp Hw Hk | d0 d1 Hm Hp Hw Hk
                   | pc d0 d1 oc Hm Hp Hw Hk Hrel];
    simpl in Hm, Hp, Hw, Hk; subst m p w pk;
    unfold step in Hstep; simpl in Hstep.
  - step_cases ch Hstep Hok.
    + injection Hstep as <-. eapply OR2_go; reflexivity.
    + destruct d0; simpl in Hstep; [discriminate|]. injection Hstep as <-.
      eapply OR2_call with (d0 := true); reflexivity.
    + destruct d1; simpl in Hstep; [discriminate|]. injection Hstep as <-.
      eapply OR2_call with (d1 := true); reflexivity.
  - step_cases ch Hstep Hok.
    + injection Hstep as <-.
      eapply OR2_run with (pc := OrSel); try reflexivity.
    + destruct d0; simpl in Hstep; [discriminate|]. injection Hstep as <-.
      eapply OR2_go with (d0 := true); reflexivity.
    + destruct d1; simpl in Hstep; [discriminate|]. injection Hstep as <-.
      eapply OR2_go with (d1 := true); reflexivity.
  - destruct ch as [a | i a | i a j l | ch i a | ch | ch].
    + simpl in Hstep. discriminate.
    + destruct pc; simpl in Hrel.
      * subst oc. simpl in Hstep; break_idx Hstep.
        -- destruct d0; simpl in Hstep; [|discriminate].
           injection Hstep as <-.
           eapply OR2_run with (pc := OrClose); try reflexivity.
           simpl. auto.
        -- destruct d1; simpl in Hstep; [|discriminate].
           injection Hstep as <-.
           eapply OR2_run with (pc := OrClose); try reflexivity.
           simpl. auto.
      * destruct Hrel as (-> & Hwhy).
        simpl in Hstep; break_idx Hstep. injection Hstep as <-.
        eapply OR2_run with (pc := OrDone); try reflexivity.
        simpl. auto.
      * simpl in Hstep. break_idx Hstep.
    + simpl in Hstep. break_idx Hstep.
    + simpl in Hstep. break_idx Hstep; try (simpl in Hok; discriminate Hok).
      destruct pc; simpl in Hstep; break_idx Hstep.
    + simpl in Hstep. break_idx Hstep; try (simpl in Hok; discriminate Hok).
    + simpl in Hstep. break_idx Hstep; try (simpl in Hok; discriminate Hok).
      * destruct d0; simpl in Hstep; [discriminate|]. injection Hstep as <-.
        eapply OR2_run with (pc := pc) (d0 := true); try reflexivity.
        eapply or2_rel_fire0; eassumption.
      * destruct d1; simpl in Hstep; [discriminate|]. injection Hstep as <-.
        eapply OR2_run with (pc := pc) (d1 := true); try reflexivity.
        eapply or2_rel_fire1; eassumption.
Qed.

Lemma or2_inv_fired c :
  or2_inv c ->
  panicked c = false /\ received c out = [] /\
  (is_closed c out = true ->
   is_closed c c0 = true \/ is_closed c c1 = true).
Proof.
  intros [d0 d1 Hm Hp Hw Hk | d0 d1 Hm Hp Hw Hk | pc d0 d1 oc Hm Hp Hw Hk Hrel];
    unfold is_closed, received; rewrite Hw; simpl;
    repeat split; auto; try discriminate.
  intros ->. destruct pc; simpl in Hrel; try discriminate; tauto.
Qed.

Lemma or2_runs sched c :
  forallb (env_may [out] [c0; c1]) sched = true ->
  run sched or2_init = Some c ->
  panicked c = false /\ received c out = [] /\
  (is_closed c out = true ->
   is_closed c c0 = true \/ is_closed c c1 = true).
Proof.
  intros Hok Hrun. apply or2_inv_fired.
  eapply run_invariant with (Inv := or2_inv); eauto using or2_init_inv.
  intros; eapply or2_inv_step; eauto.
Qed.

End OrTwo.

Section OrThree.
Let c0 := Ch 0.
Let c1 := Ch 1.
Let c2 := Ch 2.
Let out := Ch 3.

(** With three channels the recursive call is [OrChannel(orDone)], which
    returns [orDone] itself: the fourth case waits for the output. *)
Definition or3_term (pc : or_pc) : proc unit :=
  match pc with
  | OrSel =>
      defer_close out
        (Select [OnRecv c0 (fun _ _ => Ret tt);
                 OnRecv c1 (fun _ _ => Ret tt);
                 OnRecv c2 (fun _ _ => Ret tt);
                 OnRecv out (fun _ _ => Ret tt)])
  | OrClose => Close out (Ret tt)
  | OrDone => Ret tt
  end.

Definition or3_rel (pc : or_pc) (d0 d1 d2 oc : bool) : Prop :=
  match pc with
  | OrSel => oc = false
  | OrClose => oc = false /\ (d0 = true \/ d1 = true \/ d2 = true)
  | OrDone => oc = true /\ (d0 = true \/ d1 = true \/ d2 = true)
  end.

Definition or3_init : config chan :=
  init (Utils.OrChannel [c0; c1; c2]) [open_chan; open_chan; open_chan].

Inductive or3_inv (c : config chan) : Prop :=
| OR3_call d0 d1 d2 :
    main c = Utils.OrChannel [c0; c1; c2] -> pool c = [] ->
    st c = mkWorld [done_st d0; done_st d1; done_st d2] [] ->
    panicked c = false -> or3_inv c
| OR3_go d0 d1 d2 :
    main c = Go (or3_term OrSel) (Ret out) -> pool c = [] ->
    st c = mkWorld [done_st d0; done_st d1; done_st d2;
                    stream_st false []] [] ->
    panicked c = false -> or3_inv c
| OR3_run pc d0 d1 d2 oc :
    main c = Ret out -> pool c = [or3_term pc] ->
    st c = mkWorld [done_st d0; done_st d1; done_st d2;
                    stream_st oc []] [] ->
    panicked c = false -> or3_rel pc d0 d1 d2 oc -> or3_inv c.

Lemma or3_init_inv : or3_inv or3_init.
Proof.
  eapply OR3_call with (d0 := false) (d1 := false) (d2 := false);
    reflexivity.
Qed.

Lemma or3_rel_fire pc d0 d1 d2 e0 e1 e2 oc :
  (d0 = true -> e0 = true) -> (d1 = true -> e1 = true) ->
  (d2 = true -> e2 = true) ->
  or3_rel pc d0 d1 d2 oc -> or3_rel pc e0 e1 e2 oc.
Proof. destruct pc; simpl; tauto. Qed.

Lemma or3_inv_step c ch c' :
  or3_inv c -> env_may [out] [c0; c1; c2] ch = true -> step c ch = Some c' ->
  or3_inv c'.
Proof.
  intros Hinv Hok Hstep. destruct c as [m p w pk].
  destruct Hinv as [d0 d1 d2 Hm Hp Hw Hk | d0 d1 d2 Hm Hp Hw Hk
                   | pc d0 d1 d2 oc Hm Hp Hw Hk Hrel];
    simpl in Hm, Hp, Hw, Hk; subst m p w pk;
    unfold step in Hstep; simpl in Hstep.
  - step_cases ch Hstep Hok.
    + injection Hstep as <-. eapply OR3_go; reflexivity.
    + destruct d0; simpl in Hstep; [discriminate|]. injection Hstep as <-.
      eapply OR3_call with (d0 := true); reflexivity.
    + destruct d1; simpl in Hstep; [discriminate|]. injection Hstep as <-.
      eapply OR3_call with (d1 := true); reflexivity.
    + destruct d2; simpl in Hstep; [discriminate|]. injection Hstep as <-.
      eapply OR3_call with (d2 := true); reflexivity.
  - step_cases ch Hstep Hok.
    + injection Hstep as <-.
      eapply OR3_run with (pc := OrSel); try reflexivity.
    + destruct d0; simpl in Hstep; [discriminate|]. injection Hstep as <-.
      eapply OR3_go with (d0 := true); reflexivity.
    + destruct d1; simpl in Hstep; [discriminate|]. injection Hstep as <-.
      eapply OR3_go with (d1 := true); reflexivity.
    + destruct d2; simpl in Hstep; [discriminate|]. injection Hstep as <-.
      eapply OR3_go with (d2 := true); reflexivity.
  - destruct ch as [a | i a | i a j l | ch i a | ch | ch].
    + simpl in Hstep. discriminate.
    + destruct pc; simpl in Hrel.
      * subst oc. simpl in Hstep; break_idx Hstep.
        -- destruct d0; simpl in Hstep; [|discriminate].
           injection Hstep as <-.
           eapply OR3_run with (pc := OrClose); try reflexivity.
           simpl. auto.
        -- destruct d1; simpl in Hstep; [|discriminate].
           injection Hstep as <-.
           eapply OR3_run with (pc := OrClose); try reflexivity.
           simpl. auto.
        -- destruct d2; simpl in Hstep; [|discriminate].
           injection Hstep as <-.
           eapply OR3_run with (pc := OrClose); try reflexivity.
           simpl. auto.
      * destruct Hrel as (-> & Hwhy).
        simpl in Hstep; break_idx Hstep. injection Hstep as <-.
        eapply OR3_run with (pc := OrDone); try reflexivity.
        simpl. auto.
      * simpl in Hstep. break_idx Hstep.
    + simpl in Hstep. break_idx Hstep.
    + simpl in Hstep. break_idx Hstep; try (simpl in Hok; discriminate Hok).
      destruct pc; simpl in Hstep; break_idx Hstep.
    + simpl in Hstep. break_idx Hstep; try (simpl in Hok; discriminate Hok).
    + simpl in Hstep. break_idx Hstep; try (simpl in Hok; discriminate Hok).
      * destruct d0; simpl in Hstep; [discriminate|]. injection Hstep as <-.
        eapply OR3_run with (pc := pc) (d0 := true); try reflexivity.
        eapply or3_rel_fire; try eassumption; auto.
      * destruct d1; simpl in Hstep; [discriminate|]. injection Hstep as <-.
        eapply OR3_run with (pc := pc) (d1 := true); try reflexivity.
        eapply or3_rel_fire; try eassumption; auto.
      * destruct d2; simpl in Hstep; [discriminate|]. injection Hstep as <-.
        eapply OR3_run with (pc := pc) (d2 := true); try reflexivity.
        eapply or3_rel_fire; try eassumption; auto.
Qed.

Lemma or3_inv_fired c :
  or3_inv c ->
  panicked c = false /\ received c out = [] /\
  (is_closed c out = true ->
   is_closed c c0 = true \/ is_closed c c1 = true \/ is_closed c c2 = true).
Proof.
  intros [d0 d1 d2 Hm Hp Hw Hk | d0 d1 d2 Hm Hp Hw Hk
         | pc d0 d1 d2 oc Hm Hp Hw Hk Hrel];
    unfold is_closed, received; rewrite Hw; simpl;
    repeat split; auto; try discriminate.
  intros ->. destruct pc; simpl in Hrel; try discriminate; tauto.
Qed.

Lemma or3_runs sched c :
  forallb (env_may [out] [c0; c1; c2]) sched = true ->
  run sched or3_init = Some c ->
  panicked c = false /\ received c out = [] /\
  (is_closed c out = true ->
   is_closed c c0 = true \/ is_closed c c1 = true \/ is_closed c c2 = true).
Proof.
  intros Hok Hrun. apply or3_inv_fired.
  eapply run_invariant with (Inv := or3_inv); eauto using or3_init_inv.
  intros; eapply or3_inv_step; eauto.
Qed.

End OrThree.

(** The input [i] is closed; the worker takes its case and closes the
    output. *)
Definition or_fire_sched (i : nat) : list choice :=
  [Main 0; Main 0; EnvClose (Ch i); Solo 0 i; Solo 0 0].

(** ** Or of five channels *)

Section OrFive.
Let c0 := Ch 0.
Let c1 := Ch 1.
Let c2 := Ch 2.
Let c3 := Ch 3.
Let c4 := Ch 4.
Let outer := Ch 5.
Let inner := Ch 6.

(** Control points of the goroutine of the call, which makes the
    recursive call when it enters its select, and of the goroutine of the
    recursive call. *)
Inductive or5_outer_pc : Type :=
| OaCall | OaGo | OaSel | OaClose | OaDone.
Inductive or5_inner_pc : Type :=
| ObSel | ObClose | ObDone.

Definition or5_inner (pc : or5_inner_pc) : proc unit :=
  match pc with
  | ObSel =>
      defer_close inner
        (Select [OnRecv c3 (fun _ _ => Ret tt);
                 OnRecv c4 (fun _ _ => Ret tt);
                 OnRecv outer (fun _ _ => Ret tt);
                 OnRecv inner (fun _ _ => Ret tt)])
  | ObClose => Close inner (Ret tt)
  | ObDone => Ret tt
  end.

Definition or5_select (c : chan) : proc unit :=
  defer_close outer
    (Select [OnRecv c0 (fun _ _ => Ret tt);
             OnRecv c1 (fun _ _ => Ret tt);
             OnRecv c2 (fun _ _ => Ret tt);
             OnRecv c (fun _ _ => Ret tt)]).

Definition or5_outer (pc : or5_outer_pc) : proc unit :=
  match pc with
  | OaCall =>
      defer_close outer
        (bind (Utils.OrChannel_rec 4 [c3; c4; outer]) (fun c =>
         Select [OnRecv c0 (fun _ _ => Ret tt);
                 OnRecv c1 (fun _ _ => Ret tt);
                 OnRecv c2 (fun _ _ => Ret tt);
                 OnRecv c (fun _ _ => Ret tt)]))
  | OaGo => Go (or5_inner ObSel) (or5_select inner)
  | OaSel => or5_select inner
  | OaClose => Close outer (Ret tt)
  | OaDone => Ret tt
  end.

Definition oa_oc (pc : or5_outer_pc) : bool :=
  match pc with
  | OaDone => true
  | _ => false
  end.

Definition ob_oc (pc : or5_inner_pc) : bool :=
  match pc with
  | ObDone => true
  | _ => false
  end.

Definition oa_left (pc : or5_outer_pc) : bool :=
  match pc with
  | OaClose | OaDone => true
  | _ => false
  end.

Definition ob_left (pc : or5_inner_pc) : bool :=
  match pc with
  | ObClose | ObDone => true
  | _ => false
  end.

(** One of the five inputs is closed. *)
Definition or5_why (d0 d1 d2 d3 d4 : bool) : Prop :=
  d0 = true \/ d1 = true \/ d2 = true \/ d3 = true \/ d4 = true.

Definition or5_inputs (d0 d1 d2 d3 d4 : bool) : list chan_state :=
  [done_st d0; done_st d1; done_st d2; done_st d3; done_st d4].

Definition or5_init : config chan :=
  init (Utils.OrChannel [c0; c1; c2; c3; c4])
    (or5_inputs false false false false false).

Inductive or5_inv (c : config chan) : Prop :=
| O5_call d0 d1 d2 d3 d4 :
    main c = Utils.OrChannel [c0; c1; c2; c3; c4] -> pool c = [] ->
    st c = mkWorld (or5_inputs d0 d1 d2 d3 d4) [] ->
    panicked c = false -> or5_inv c
| O5_go d0 d1 d2 d3 d4 :
    main c = Go (or5_outer OaCall) (Ret outer) -> pool c = [] ->
    st c = mkWorld (or5_inputs d0 d1 d2 d3 d4 ++ [stream_st false []]) [] ->
    panicked c = false -> or5_inv c
| O5_one d0 d1 d2 d3 d4 :
    main c = Ret outer -> pool c = [or5_outer OaCall] ->
    st c = mkWorld (or5_inputs d0 d1 d2 d3 d4 ++ [stream_st false []]) [] ->
    panicked c = false -> or5_inv c
| O5_two d0 d1 d2 d3 d4 :
    main c = Ret outer -> pool c = [or5_outer OaGo] ->
    st c = mkWorld (or5_inputs d0 d1 d2 d3 d4 ++
                    [stream_st false []; stream_st false []]) [] ->
    panicked c = false -> or5_inv c
| O5_run apc bpc d0 d1 d2 d3 d4 :
    main c = Ret outer -> pool c = [or5_outer apc; or5_inner bpc] ->
    st c = mkWorld (or5_inputs d0 d1 d2 d3 d4 ++
                    [stream_st (oa_oc apc) []; stream_st (ob_oc bpc) []])
             [] ->
    panicked c = false ->
    apc <> OaCall -> apc <> OaGo ->
    (oa_left apc = true -> or5_why d0 d1 d2 d3 d4) ->
    (ob_left bpc = true -> or5_why d0 d1 d2 d3 d4) ->
    or5_inv c.

Lemma or5_init_inv : or5_inv or5_init.
Proof.
  eapply O5_call with (d0 := false) (d1 := false) (d2 := false)
    (d3 := false) (d4 := false); reflexivity.
Qed.

(** The flag the step depends on. *)
Ltac or5_flag Hstep :=
  repeat match type of Hstep with
    | context [if ?b then _ else _] =>
        is_var b; destruct b; simpl in Hstep; try discriminate Hstep
    end.

Ltac or5_try a b :=
  eapply O5_run with (apc := a) (bpc := b);
  [reflexivity | reflexivity | reflexivity | reflexivity | | | |].

Ltac or5_finish :=
  first [ or5_try OaSel ObSel | or5_try OaSel ObClose | or5_try OaSel ObDone
        | or5_try OaClose ObSel | or5_try OaClose ObClose
        | or5_try OaClose ObDone
        | or5_try OaDone ObSel | or5_try OaDone ObClose
        | or5_try OaDone ObDone ].

Ltac or5_why_solve :=
  unfold or5_why in *; simpl in *;
  try congruence; try tauto;
  try solve [intuition congruence].

Lemma or5_inv_step c ch c' :
  or5_inv c -> env_may [outer] [c0; c1; c2; c3; c4] ch = true ->
  step c ch = Some c' -> or5_inv c'.
Proof.
  intros Hinv Hok Hstep. destruct c as [m p w pk].
  destruct Hinv as [d0 d1 d2 d3 d4 Hm Hp Hw Hk
                   | d0 d1 d2 d3 d4 Hm Hp Hw Hk
                   | d0 d1 d2 d3 d4 Hm Hp Hw Hk
                   | d0 d1 d2 d3 d4 Hm Hp Hw Hk
                   | apc bpc d0 d1 d2 d3 d4 Hm Hp Hw Hk Ha1 Ha2 Ra Rb];
    simpl in Hm, Hp, Hw, Hk; subst m p w pk;
    unfold step in Hstep; simpl in Hstep.
  - step_cases ch Hstep Hok; or5_flag Hstep; injection Hstep as <-.
    + eapply O5_go; reflexivity.
    + eapply O5_call with (d0 := true); reflexivity.
    + eapply O5_call with (d1 := true); reflexivity.
    + eapply O5_call with (d2 := true); reflexivity.
    + eapply O5_call with (d3 := true); reflexivity.
    + eapply O5_call with (d4 := true); reflexivity.
  - step_cases ch Hstep Hok; or5_flag Hstep; injection Hstep as <-.
    + eapply O5_one; reflexivity.
    + eapply O5_go with (d0 := true); reflexivity.
    + eapply O5_go with (d1 := true); reflexivity.
    + eapply O5_go with (d2 := true); reflexivity.
    + eapply O5_go with (d3 := true); reflexivity.
    + eapply O5_go with (d4 := true); reflexivity.
  - step_cases ch Hstep Hok; or5_flag Hstep; injection Hstep as <-.
    + eapply O5_two; reflexivity.
    + eapply O5_one with (d0 := true); reflexivity.
    + eapply O5_one with (d1 := true); reflexivity.
    + eapply O5_one with (d2 := true); reflexivity.
    + eapply O5_one with (d3 := true); reflexivity.
    + eapply O5_one with (d4 := true); reflexivity.
  - step_cases ch Hstep Hok; or5_flag Hstep; injection Hstep as <-.
    + eapply O5_run with (apc := OaSel) (bpc := ObSel); try reflexivity;
        try discriminate.
    + eapply O5_two with (d0 := true); reflexivity.
    + eapply O5_two with (d1 := true); reflexivity.
    + eapply O5_two with (d2 := true); reflexivity.
    + eapply O5_two with (d3 := true); reflexivity.
    + eapply O5_two with (d4 := true); reflexivity.
  - destruct ch as [k | i k | i k j l | ch i k | ch | ch].
    + simpl in Hstep; discriminate.
    + destruct i as [|[|i]]; simpl in Hstep; [ | | break_idx Hstep].
      * destruct apc, bpc; try congruence; simpl in Hstep;
          break_idx Hstep; or5_flag Hstep; injection Hstep as <-.
        all: or5_finish.
        all: try discriminate; or5_why_solve.
      * destruct apc, bpc; try congruence; simpl in Hstep;
          break_idx Hstep; or5_flag Hstep; injection Hstep as <-.
        all: or5_finish.
        all: try discriminate; or5_why_solve.
    + destruct apc, bpc; simpl in Hstep; break_idx Hstep.
    + destruct apc, bpc; simpl in Hstep; break_idx Hstep;
        try (simpl in Hok; discriminate Hok).
    + simpl in Hstep. break_idx Hstep; try (simpl in Hok; discriminate Hok).
    + simpl in Hstep. break_idx Hstep; try (simpl in Hok; discriminate Hok);
        or5_flag Hstep; injection Hstep as <-.
      * eapply O5_run with (d0 := true); try reflexivity; try assumption;
          or5_why_solve.
      * eapply O5_run with (d1 := true); try reflexivity; try assumption;
          or5_why_solve.
      * eapply O5_run with (d2 := true); try reflexivity; try assumption;
          or5_why_solve.
      * eapply O5_run with (d3 := true); try reflexivity; try assumption;
          or5_why_solve.
      * eapply O5_run with (d4 := true); try reflexivity; try assumption;
          or5_why_solve.
Qed.

Lemma or5_inv_fired c :
  or5_inv c ->
  panicked c = false /\ received c outer = [] /\
  (is_closed c outer = true ->
   is_closed c c0 = true \/ is_closed c c1 = true \/
   is_closed c c2 = true \/ is_closed c c3 = true \/
   is_closed c c4 = true).
Proof.
  intros [d0 d1 d2 d3 d4 Hm Hp Hw Hk | d0 d1 d2 d3 d4 Hm Hp Hw Hk
         | d0 d1 d2 d3 d4 Hm Hp Hw Hk | d0 d1 d2 d3 d4 Hm Hp Hw Hk
         | apc bpc d0 d1 d2 d3 d4 Hm Hp Hw Hk Ha1 Ha2 Ra Rb];
    unfold is_closed, received; rewrite Hw; simpl;
    repeat split; auto; try discriminate.
  intros Hc. apply Ra. destruct apc; simpl in *; congruence.
Qed.

Lemma or5_runs sched c :
  forallb (env_may [outer] [c0; c1; c2; c3; c4]) sched = true ->
  run sched or5_init = Some c ->
  panicked c = false /\ received c outer = [] /\
  (is_closed c outer = true ->
   is_closed c c0 = true \/ is_closed c c1 = true \/
   is_closed c c2 = true \/ is_closed c c3 = true \/
   is_closed c c4 = true).
Proof.
  intros Hok Hrun. apply or5_inv_fired.
  eapply run_invariant with (Inv := or5_inv); eauto using or5_init_inv.
  intros; eapply or5_inv_step; eauto.
Qed.

End OrFive.

(** Both goroutines are started, input [i] is closed; the goroutine that
    waits for it closes its own channel, on which the other one waits in
    turn. *)
Definition or5_fire_sched (i : nat) : list choice :=
  [Main 0; Main 0; Solo 0 0; Solo 0 0; EnvClose (Ch i)] ++
  (if (i <? 3)%nat
   then [Solo 0 i; Solo 0 0; Solo 1 2; Solo 1 0]
   else [Solo 1 (i - 3); Solo 1 0; Solo 0 3; Solo 0 0]).

Lemma or5_fire_run i :
  (i < 5)%nat ->
  run (or5_fire_sched i) or5_init
  = Some (mkConfig (Ret (Ch 5)) [Ret tt; Ret tt]
            (mkWorld (or5_inputs (Nat.eqb 0 i) (Nat.eqb 1 i) (Nat.eqb 2 i)
                        (Nat.eqb 3 i) (Nat.eqb 4 i) ++
                      [stream_st true []; stream_st true []]) []) false).
Proof.
  intros Hi.
  destruct i as [|[|[|[|[|i]]]]]; [| | | | |lia]; vm_compute; reflexivity.
Qed.

(** ** The helpers of the tests *)

(** [for i, v := range a { if v != b[i] { return false } }; return true],
    from index [i] on; [b[i]] out of range is a panic, [None]. *)
Fixpoint IntArrayEquals_from (i : nat) (a b : list Z) : option bool :=
  match a with
  | [] => Some true
  | v :: rest =>
      match nth_error b i with
      | None => None
      | Some w =>
          if negb (v =? w) then Some false
          else IntArrayEquals_from (S i) rest b
      end
  end.

Definition IntArrayEquals (a b : list Z) : option bool :=
  if negb (Nat.eqb (length a) (length b)) then Some false
  else IntArrayEquals_from 0 a b.

Lemma IntArrayEquals_from_spec (a : list Z) : forall pre b',
  length a = length b' ->
  exists r, IntArrayEquals_from (length pre) a (pre ++ b') = Some r /\
            (r = true <-> a = b').
Proof.
  induction a as [|v a IH]; intros pre b' Hlen.
  - destruct b'; [|discriminate]. exists true. simpl. tauto.
  - destruct b' as [|w b']; [discriminate|]. simpl.
    rewrite nth_error_app2 by lia. rewrite Nat.sub_diag. simpl.
    destruct (Z.eqb_spec v w) as [->|Hne]; simpl.
    + replace (pre ++ w :: b') with ((pre ++ [w]) ++ b')
        by (rewrite <- app_assoc; reflexivity).
      replace (S (length pre)) with (length (pre ++ [w]))
        by (rewrite length_app; simpl; lia).
      destruct (IH (pre ++ [w]) b') as (r & Hr & Hiff);
        [simpl in Hlen; lia|].
      exists r. split; [exact Hr|].
      rewrite Hiff. split; [intros ->; reflexivity|].
      intros H. injection H as H. exact H.
    + exists false. split; [reflexivity|].
      split; [discriminate|]. intros H. injection H as H _. contradiction.
Qed.

(** ** The primality loop of [primeFinder] *)

(** A Go [int] is 64 bits wide and wraps around. *)
Definition wrap_int (z : Z) : Z := (z + 2 ^ 63) mod 2 ^ 64 - 2 ^ 63.

(** [for ; divisor > 1; divisor-- { if integer%divisor == 0 { prime = false;
    break } }], the value of [prime] at the end; [fuel] bounds the
    rounds. *)
Fixpoint prime_loop (fuel : nat) (integer divisor : Z) : bool :=
  match fuel with
  | O => true
  | S fuel' =>
      if divisor >? 1 then
        if Z.rem integer divisor =? 0 then false
        else prime_loop fuel' integer (wrap_int (divisor - 1))
      else true
  end.

(** [prime := true; for divisor := (integer + 1)/2; ...]: whether
    [primeFinder] sends [integer] on. *)
Definition prime_flag (integer : Z) : bool :=
  let divisor := Z.quot (wrap_int (integer + 1)) 2 in
  prime_loop (Z.to_nat divisor) integer divisor.

Lemma wrap_int_small z : - 2 ^ 63 <= z < 2 ^ 63 -> wrap_int z = z.
Proof.
  intros H. unfold wrap_int. rewrite Z.mod_small; lia.
Qed.

Lemma prime_loop_spec (n : Z) : forall fuel d,
  d <= Z.of_nat fuel -> d < 2 ^ 63 ->
  (prime_loop fuel n d = true <->
   forall k, 1 < k <= d -> Z.rem n k <> 0).
Proof.
  induction fuel as [|fuel IH]; intros d Hd Hmax.
  - simpl. split; [|reflexivity]. intros _ k Hk. lia.
  - simpl prime_loop. destruct (Z.gtb_spec d 1) as [Hgt|Hle].
    + destruct (Z.eqb_spec (Z.rem n d) 0) as [Hz|Hnz].
      * split; [discriminate|]. intros H. exfalso. apply (H d); [lia|exact Hz].
      * rewrite wrap_int_small by lia. rewrite IH by lia.
        split; intros H k Hk.
        -- destruct (Z.eq_dec k d) as [->|Hne]; [exact Hnz|].
           apply H. lia.
        -- apply H. lia.
    + split; [|reflexivity]. intros _ k Hk. lia.
Qed.

Lemma prime_flag_spec (n : Z) :
  - 2 ^ 63 <= n < 2 ^ 63 - 1 ->
  (prime_flag n = true <->
   forall k, 1 < k <= Z.quot (n + 1) 2 -> Z.rem n k <> 0).
Proof.
  intros Hn. unfold prime_flag. rewrite wrap_int_small by lia.
  assert (Hq : Z.quot (n + 1) 2 <= Z.of_nat (Z.to_nat (Z.quot (n + 1) 2)))
    by lia.
  assert (Hm : Z.quot (n + 1) 2 < 2 ^ 63).
  { destruct (Z_lt_le_dec (n + 1) 0) as [Hneg|Hpos].
    - pose proof (Z.quot_opp_l (- (n + 1)) 2 ltac:(lia)) as Ho.
      rewrite Z.opp_involutive in Ho.
      pose proof (Z.quot_pos (- (n + 1)) 2 ltac:(lia) ltac:(lia)). lia.
    - rewrite Z.quot_div_nonneg by lia.
      apply Z.div_lt_upper_bound; lia. }
  apply prime_loop_spec; assumption.
Qed.

(** ** The prime finder *)

(** The [int] a value of a [chan int] holds. *)
Definition int_of (v : value) : Z :=
  match v with
  | VNum _ z => z
  | _ => 0
  end.

(** [primeFinder(done, intStream)]: the integers that pass the loop are
    sent on, the others are dropped. *)
Definition primeFinder (done intStream : chan) : proc chan :=
  MakeChan VNil 0 (fun primeStream =>
  Go (defer_close primeStream
        (Iter (fun _ : unit =>
                 recv intStream (fun integer ok =>
                   if ok then
                     if prime_flag (int_of integer) then
                       Select [OnRecv done (fun _ _ => ret);
                               OnSend primeStream integer (continue tt)]
                     else continue tt
                   else break))
           tt (fun _ => Ret tt)))
     (Ret primeStream)).

Definition passes (v : value) : bool := prime_flag (int_of v).

Lemma filter_passes (zs : list Z) :
  filter passes (map VInt zs) = map VInt (filter prime_flag zs).
Proof.
  induction zs as [|z zs IH]; simpl; [reflexivity|].
  unfold passes at 1. simpl. destruct (prime_flag z); simpl; congruence.
Qed.

Section PrimeFinder.
Variable xs : list value.
Let done := Ch 0.
Let src := Ch 1.
Let out := Ch 2.

Definition pf_sel (v : value) : proc (unit + leave) :=
  Select [OnRecv done (fun _ _ => ret); OnSend out v (continue tt)].
Definition pf_got (v : value) : proc (unit + leave) :=
  if prime_flag (int_of v) then pf_sel v else continue tt.
Definition pf_body (_ : unit) : proc (unit + leave) :=
  recv src (fun integer ok => if ok then pf_got integer else break).
Definition pf_k (x : leave) : proc unit := Close out (Ret tt).

Inductive pf_pc : Type :=
| PfHead | PfUnf | PfSel (v : value) | PfClose | PfDone.

Definition pf_term (pc : pf_pc) : proc unit :=
  match pc with
  | PfHead => Iter pf_body tt pf_k
  | PfUnf => bind (pf_body tt) (loop_next pf_body pf_k)
  | PfSel v => bind (pf_sel v) (loop_next pf_body pf_k)
  | PfClose => pf_k Break
  | PfDone => Ret tt
  end.

Inductive pf_at : pf_pc -> proc unit -> Prop :=
| pf_at_head : pf_at PfHead (pf_term PfHead)
| pf_at_unf : pf_at PfUnf (pf_term PfUnf)
| pf_at_sel v : pf_at (PfSel v) (pf_term (PfSel v))
| pf_at_close : pf_at PfClose (pf_term PfClose)
| pf_at_done : pf_at PfDone (pf_term PfDone).

Definition pf_held (pc : pf_pc) : list value :=
  match pc with
  | PfSel v => [v]
  | _ => []
  end.

Definition pf_oc (pc : pf_pc) : bool :=
  match pc with
  | PfDone => true
  | _ => false
  end.

Definition pf_left (pc : pf_pc) : bool :=
  match pc with
  | PfClose | PfDone => true
  | _ => false
  end.

(** In its loop the worker has sent on all that passes of what it has
    consumed, but for the value in hand; a worker that has left on
    cancellation has dropped that value. *)
Definition pf_sent (pc : pf_pc) (dc : bool) (sr rc : list value) : Prop :=
  if pf_left pc then
    exists tail, filter passes sr = rc ++ tail /\ (dc = false -> tail = [])
  else rc ++ pf_held pc = filter passes sr.

Record pf_rel (cl : bool) (pc : pf_pc) (dc : bool) (sb sr rc : list value)
  : Prop := mk_pf_rel {
  pf_consumed : sr ++ sb = xs;
  pf_law : pf_sent pc dc sr rc;
  pf_src_done : dc = false -> pf_left pc = true -> sb = [] /\ cl = true
}.

Definition primefinder_init (cl : bool) : config chan :=
  init (primeFinder done src) [open_chan; source xs cl].

Inductive primefinder_inv (cl : bool) (c : config chan) : Prop :=
| PF_a dc :
    main c = primeFinder done src -> pool c = [] ->
    st c = mkWorld [done_st dc; src_st xs cl xs []] [] ->
    panicked c = false -> primefinder_inv cl c
| PF_b dc :
    main c = Go (pf_term PfHead) (Ret out) -> pool c = [] ->
    st c = mkWorld [done_st dc; src_st xs cl xs []; stream_st false []] [] ->
    panicked c = false -> primefinder_inv cl c
| PF_run t pc dc sb sr rc :
    main c = Ret out -> pool c = [t] -> pf_at pc t ->
    st c = mkWorld [done_st dc; src_st xs cl sb sr;
                    stream_st (pf_oc pc) rc] [] ->
    panicked c = false ->
    pf_rel cl pc dc sb sr rc -> primefinder_inv cl c.

Lemma primefinder_init_inv cl : primefinder_inv cl (primefinder_init cl).
Proof. eapply PF_a with (dc := false); reflexivity. Qed.

Lemma pf_rel_cancel cl pc dc sb sr rc :
  pf_rel cl pc dc sb sr rc -> pf_rel cl pc true sb sr rc.
Proof.
  intros [H1 H2 H3]. constructor; auto; try discriminate.
  unfold pf_sent in *. destruct (pf_left pc); [|assumption].
  destruct H2 as (tail & H2 & _). exists tail. split; [assumption|discriminate].
Qed.

Lemma pf_at_kept v :
  prime_flag (int_of v) = true ->
  pf_at (PfSel v) (bind (pf_got v) (loop_next pf_body pf_k)).
Proof. intros H. unfold pf_got. rewrite H. apply pf_at_sel. Qed.

Lemma pf_at_dropped v :
  prime_flag (int_of v) = false ->
  pf_at PfHead (bind (pf_got v) (loop_next pf_body pf_k)).
Proof. intros H. unfold pf_got. rewrite H. apply pf_at_head. Qed.

Ltac pf_close_done Hstep dc :=
  destruct dc; simpl in Hstep; [discriminate Hstep|]; injection Hstep as <-.

Ltac pf_use_refl :=
  repeat match goal with
    | H : ?a = ?a -> _ |- _ => specialize (H eq_refl)
    | H : _ /\ _ |- _ => destruct H
    end.

Ltac pf_rel_solve Hrel :=
  destruct Hrel as [R1 R2 R3]; unfold pf_sent in *; simpl in *; pf_use_refl;
  try discriminate;
  constructor; unfold pf_sent; simpl in *; intros; pf_use_refl;
  try discriminate; auto;
  try solve [destruct R2 as (tail & R2 & R2'); exists tail; auto];
  try solve [eexists; split; [symmetry; eassumption|discriminate]];
  try solve [exists []; rewrite ?app_nil_r in *; auto];
  try solve [rewrite <- ?app_assoc; simpl; auto];
  try solve [exfalso; intuition discriminate];
  try solve [rewrite ?app_nil_r in *; rewrite filter_app; simpl;
             unfold passes at 2;
             match goal with
             | E : prime_flag _ = _ |- _ => rewrite E
             end;
             rewrite ?app_nil_r; congruence].

Lemma primefinder_inv_step cl c ch c' :
  primefinder_inv cl c -> env_may [out] [done] ch = true ->
  step c ch = Some c' -> primefinder_inv cl c'.
Proof.
  intros Hinv Hok Hstep. destruct c as [m p w pk].
  destruct Hinv as [dc Hm Hp Hw Hk | dc Hm Hp Hw Hk
                   | t pc dc sb sr rc Hm Hp Hat Hw Hk Hrel];
    simpl in Hm, Hp, Hw, Hk; subst m p w pk;
    unfold step in Hstep; simpl in Hstep.
  - step_cases ch Hstep Hok.
    + injection Hstep as <-. eapply PF_b; reflexivity.
    + pf_close_done Hstep dc. eapply PF_a with (dc := true); reflexivity.
  - step_cases ch Hstep Hok.
    + injection Hstep as <-.
      eapply PF_run with (pc := PfHead) (sb := xs) (sr := []) (rc := []);
        [ reflexivity | reflexivity | apply pf_at_head
        | reflexivity | reflexivity | ].
      constructor; [reflexivity | reflexivity | intros _ H; discriminate H].
    + pf_close_done Hstep dc. eapply PF_b with (dc := true); reflexivity.
  - destruct ch as [k | i k | i k j l | ch i k | ch | ch].
    + simpl in Hstep; discriminate.
    + destruct i as [|i]; simpl in Hstep; [ | break_idx Hstep].
      destruct Hat, dc, cl; simpl in Hstep; break_idx Hstep.
      all: injection Hstep as <-.
      all: try match goal with
           | |- context [pf_got ?v] =>
               destruct (prime_flag (int_of v)) eqn:Hflag;
               [ eapply PF_run;
                 [reflexivity | reflexivity | apply pf_at_kept; exact Hflag
                 | reflexivity | reflexivity | idtac]
               | eapply PF_run;
                 [reflexivity | reflexivity | apply pf_at_dropped; exact Hflag
                 | reflexivity | reflexivity | idtac] ]
           | _ =>
               eapply PF_run;
               [ reflexivity | reflexivity
               | first [ eassumption | econstructor | apply pf_at_head
                       | apply pf_at_unf | apply pf_at_sel
                       | apply pf_at_close | apply pf_at_done ]
               | reflexivity | reflexivity | idtac ]
           end.
      all: pf_rel_solve Hrel.
    + simpl in Hstep. break_idx Hstep.
    + destruct Hat, dc, cl; simpl in Hstep; break_idx Hstep;
        try (simpl in Hok; discriminate Hok).
      all: injection Hstep as <-.
      all: eapply PF_run;
        [ reflexivity | reflexivity
        | first [ eassumption | econstructor | apply pf_at_head ]
        | reflexivity | reflexivity | idtac ].
      all: pf_rel_solve Hrel.
    + simpl in Hstep. break_idx Hstep; try (simpl in Hok; discriminate Hok).
    + simpl in Hstep. break_idx Hstep; try (simpl in Hok; discriminate Hok).
      pf_close_done Hstep dc.
      eapply PF_run with (dc := true); try reflexivity; try eassumption.
      eapply pf_rel_cancel; eassumption.
Qed.

Lemma primefinder_inv_sent cl c :
  primefinder_inv cl c ->
  panicked c = false /\
  (exists tail, filter passes xs = received c out ++ tail) /\
  (is_closed c out = true -> is_closed c done = false ->
   received c out = filter passes xs /\ cl = true).
Proof.
  intros [dc Hm Hp Hw Hk | dc Hm Hp Hw Hk
         | t pc dc sb sr rc Hm Hp Hat Hw Hk Hrel];
    unfold is_closed, received; rewrite Hw; simpl;
    try (repeat split; auto; try discriminate; eexists; reflexivity).
  destruct Hrel as [R1 R2 R3]. unfold pf_sent in R2.
  split; [assumption|]. split.
  - rewrite <- R1, filter_app.
    destruct (pf_left pc).
    + destruct R2 as (tail & R2 & _). rewrite R2, <- app_assoc. eauto.
    + rewrite <- R2, <- app_assoc. eauto.
  - intros Hc ->. destruct pc; simpl in Hc; try discriminate.
    simpl in R2, R3. destruct (R3 eq_refl eq_refl) as [-> ->].
    destruct R2 as (tail & R2 & Ht). rewrite (Ht eq_refl) in R2.
    rewrite !app_nil_r in *. subst sr. auto.
Qed.

Lemma primefinder_runs cl sched c :
  forallb (env_may [out] [done]) sched = true ->
  run sched (primefinder_init cl) = Some c ->
  panicked c = false /\
  (exists tail, filter passes xs = received c out ++ tail) /\
  (is_closed c out = true -> is_closed c done = false ->
   received c out = filter passes xs /\ cl = true).
Proof.
  intros Hok Hrun. apply primefinder_inv_sent.
  eapply run_invariant with (Inv := primefinder_inv cl);
    eauto using primefinder_init_inv.
  intros; eapply primefinder_inv_step; eauto.
Qed.

Definition pf_cfg (cl : bool) (pc : pf_pc) (dc : bool)
    (sb sr rc : list value) : config chan :=
  mkConfig (Ret out) [pf_term pc]
    (mkWorld [done_st dc; src_st xs cl sb sr; stream_st (pf_oc pc) rc] [])
    false.

Lemma pf_setup_run cl :
  run [Main 0; Main 0] (primefinder_init cl)
  = Some (pf_cfg cl PfHead false xs [] []).
Proof. reflexivity. Qed.

(** The worker takes a value; a reader takes it when it passes. *)
Definition pf_round (v : value) : list choice :=
  if passes v then [Solo 0 0; Solo 0 0; EnvRecv out 0 1]
  else [Solo 0 0; Solo 0 0].

Lemma pf_round_run cl v sb sr rc :
  run (pf_round v) (pf_cfg cl PfHead false (v :: sb) sr rc)
  = Some (pf_cfg cl PfHead false sb (sr ++ [v]) (rc ++ filter passes [v])).
Proof.
  unfold pf_round, passes.
  destruct (prime_flag (int_of v)) eqn:E;
    unfold run, step, pf_cfg; simpl; unfold pf_got; rewrite E; simpl.
  - reflexivity.
  - rewrite app_nil_r. reflexivity.
Qed.

Fixpoint pf_deliver (l : list value) : list choice :=
  match l with
  | [] => []
  | v :: l' => pf_round v ++ pf_deliver l'
  end.

Lemma pf_deliver_ok l dones :
  forallb (env_may [out] dones) (pf_deliver l) = true.
Proof.
  induction l as [|v l IH]; simpl; auto.
  rewrite forallb_app, IH. unfold pf_round. destruct (passes v); reflexivity.
Qed.

Lemma pf_deliver_run cl sb : forall sr rc,
  run (pf_deliver sb) (pf_cfg cl PfHead false sb sr rc)
  = Some (pf_cfg cl PfHead false [] (sr ++ sb) (rc ++ filter passes sb)).
Proof.
  induction sb as [|v sb IH]; intros sr rc.
  - simpl. rewrite !app_nil_r. reflexivity.
  - simpl pf_deliver. rewrite run_app, pf_round_run, IH.
    rewrite <- !app_assoc.
    change (v :: sb) with ([v] ++ sb). rewrite filter_app. reflexivity.
Qed.

Lemma pf_finish_run sr rc :
  run [Solo 0 0; Solo 0 0; Solo 0 0] (pf_cfg true PfHead false [] sr rc)
  = Some (pf_cfg true PfDone false [] sr rc).
Proof. reflexivity. Qed.

Definition pf_schedule : list choice :=
  [Main 0; Main 0] ++ pf_deliver xs ++ [Solo 0 0; Solo 0 0; Solo 0 0].

Lemma pf_schedule_ok dones :
  forallb (env_may [out] dones) pf_schedule = true.
Proof.
  unfold pf_schedule. rewrite !forallb_app, pf_deliver_ok. reflexivity.
Qed.

Lemma pf_schedule_run :
  run pf_schedule (primefinder_init true)
  = Some (pf_cfg true PfDone false [] xs (filter passes xs)).
Proof.
  unfold pf_schedule.
  rewrite run_app, pf_setup_run, run_app, pf_deliver_run. apply pf_finish_run.
Qed.

End PrimeFinder.

(** ** The conversion to strings, which reads through orDone *)

Section ToString.
Variable xs : list value.
Let done := Ch 0.
Let inp := Ch 1.
Let out := Ch 2.
Let relay := Ch 3.

(** [select { case <-done: return; case stringStream <- v.(string): }]. *)
Definition ts_try (v : value) : proc (unit + leave) :=
  match type_assert TString v with
  | Some tv =>
      Select [OnRecv done (fun _ _ => ret); OnSend out tv (continue tt)]
  | None => Panic
  end.
(** The same in the goroutine, which has deferred [close(stringStream)]. *)
Definition ts_sel (v : value) : proc (unit + leave) :=
  unwinding out (ts_try v).
Definition ts_body (_ : unit) : proc (unit + leave) :=
  recv relay (fun v ok => unwinding out (if ok then ts_try v else break)).
Definition ts_k (x : leave) : proc unit := Close out (Ret tt).

(** Control points of the worker; at [TsPanic v] the assertion on [v]
    has failed, the deferred close has run and the panic is about to end
    the program. *)
Inductive ts_pc : Type :=
| TsCall | TsGo
| TsHead | TsUnf
| TsGot (v : value)       (* [v] received, at [v.(string)] or in the select *)
| TsPanic (v : value)
| TsClose | TsDone.

Definition ts_term (pc : ts_pc) : proc unit :=
  match pc with
  | TsCall =>
      defer_close_unwinding out
        (bind (UtilsTyped.OrDoneChannel done inp) (fun orDoneStream =>
         Iter (fun _ : unit =>
                 recv orDoneStream (fun v ok =>
                   if ok then
                     match type_assert TString v with
                     | Some tv =>
                         Select [OnRecv done (fun _ _ => ret);
                                 OnSend out tv (continue tt)]
                     | None => Panic
                     end
                   else break))
           tt (fun _ => Ret tt)))
  | TsGo => Go (od_term done inp relay OdHead) (Iter ts_body tt ts_k)
  | TsHead => Iter ts_body tt ts_k
  | TsUnf => bind (ts_body tt) (loop_next ts_body ts_k)
  | TsGot v => bind (ts_sel v) (loop_next ts_body ts_k)
  | TsPanic _ => Panic
  | TsClose => ts_k Break
  | TsDone => Ret tt
  end.

Inductive ts_at : ts_pc -> proc unit -> Prop :=
| ts_at_head : ts_at TsHead (ts_term TsHead)
| ts_at_unf : ts_at TsUnf (ts_term TsUnf)
| ts_at_got v : ts_at (TsGot v) (ts_term (TsGot v))
| ts_at_panic v : ts_at (TsPanic v) (ts_term (TsPanic v))
| ts_at_close : ts_at TsClose (ts_term TsClose)
| ts_at_done : ts_at TsDone (ts_term TsDone).

Definition ts_held (pc : ts_pc) : list value :=
  match pc with
  | TsGot v | TsPanic v => [v]
  | _ => []
  end.

Definition ts_oc (pc : ts_pc) : bool :=
  match pc with
  | TsPanic _ | TsDone => true
  | _ => false
  end.

Definition ts_left (pc : ts_pc) : bool :=
  match pc with
  | TsClose | TsDone => true
  | _ => false
  end.

(** The program has ended only by the panic of the worker, and the
    worker panics only at a value that is not a string. *)
Definition ts_panic_ok (pc : ts_pc) (pk : bool) : Prop :=
  pk = true -> exists v, pc = TsPanic v.

Definition ts_bad (pc : ts_pc) : Prop :=
  match pc with
  | TsPanic v => well_typed TString v = false
  | _ => True
  end.

Record ts_rel (cl : bool) (tpc : ts_pc) (opc : od_pc) (dc : bool)
    (sb rc : list value) (pk : bool) : Prop := mk_ts_rel {
  ts_relay_closed : dc = false -> ts_left tpc = true -> opc = OdDone;
  ts_law : dc = false -> rc ++ ts_held tpc ++ od_held opc ++ sb = xs;
  ts_src_done : dc = false -> od_left opc = true -> sb = [] /\ cl = true;
  ts_strings : forallb (well_typed TString) rc = true;
  ts_from_input :
    forall x, In x (ts_held tpc ++ od_held opc ++ sb) -> In x xs;
  ts_panic : ts_panic_ok tpc pk;
  ts_not_string : ts_bad tpc
}.

Definition tostring_init (cl : bool) : config chan :=
  init (UtilsTyped.ToStringChannel done inp) [open_chan; source xs cl].

Inductive tostring_inv (cl : bool) (c : config chan) : Prop :=
| TS_a dc :
    main c = UtilsTyped.ToStringChannel done inp -> pool c = [] ->
    st c = mkWorld [done_st dc; src_st xs cl xs []] [] ->
    panicked c = false -> tostring_inv cl c
| TS_b dc :
    main c = Go (ts_term TsCall) (Ret out) -> pool c = [] ->
    st c = mkWorld [done_st dc; src_st xs cl xs [];
                    typed_st TString false []] [] ->
    panicked c = false -> tostring_inv cl c
| TS_c dc :
    main c = Ret out -> pool c = [ts_term TsCall] ->
    st c = mkWorld [done_st dc; src_st xs cl xs [];
                    typed_st TString false []] [] ->
    panicked c = false -> tostring_inv cl c
| TS_d dc :
    main c = Ret out -> pool c = [ts_term TsGo] ->
    st c = mkWorld [done_st dc; src_st xs cl xs [];
                    typed_st TString false []; stream_st false []] [] ->
    panicked c = false -> tostring_inv cl c
| TS_run t1 t2 tpc opc dc sb sr rc rr :
    main c = Ret out -> pool c = [t1; t2] ->
    ts_at tpc t1 -> od_at done inp relay opc t2 ->
    st c = mkWorld [done_st dc; src_st xs cl sb sr;
                    typed_st TString (ts_oc tpc) rc;
                    stream_st (od_closed opc) rr] [] ->
    ts_rel cl tpc opc dc sb rc (panicked c) -> tostring_inv cl c.

Lemma tostring_init_inv cl : tostring_inv cl (tostring_init cl).
Proof. eapply TS_a with (dc := false); reflexivity. Qed.

Lemma ts_rel_cancel cl tpc opc dc sb rc pk :
  ts_rel cl tpc opc dc sb rc pk -> ts_rel cl tpc opc true sb rc pk.
Proof. intros [H1 H2 H3 H4 H5 H6 H7]. constructor; auto; discriminate. Qed.

Lemma ts_at_got_some v :
  type_assert TString v = Some v ->
  ts_at (TsGot v)
    (bind (Select [OnRecv done (fun _ _ => ret);
                   OnSend out v (continue tt)])
       (loop_next ts_body ts_k)).
Proof.
  intros H. pose proof (ts_at_got v) as A.
  unfold ts_term, ts_sel, ts_try in A. rewrite H in A. exact A.
Qed.

Lemma ts_at_got_none v :
  type_assert TString v = None ->
  ts_at (TsGot v) (bind (Close out Panic) (loop_next ts_body ts_k)).
Proof.
  intros H. pose proof (ts_at_got v) as A.
  unfold ts_term, ts_sel, ts_try in A. rewrite H in A. exact A.
Qed.

Ltac ts_close_done Hstep dc :=
  destruct dc; simpl in Hstep; [discriminate Hstep|]; injection Hstep as <-.

(** [v.(string)] at the value in hand. *)
Ltac ts_assert Hstep :=
  try match type of Hstep with
      | context [ts_sel ?v] =>
          let Hty := fresh "Hty" in
          let Hsame := fresh "Hsame" in
          let tv := fresh "tv" in
          unfold ts_sel, ts_try in Hstep; revert Hstep;
          destruct (type_assert TString v) as [tv|] eqn:Hty;
          intros Hstep;
          [pose proof (type_assert_some _ _ Hty) as Hsame; subst tv|];
          simpl in Hstep; break_idx Hstep
      end.

Ltac ts_relay_at :=
  first [ eassumption | econstructor
        | apply od_at_head | apply od_at_unf | apply od_at_send
        | apply od_at_close | apply od_at_done ].

Ltac ts_finish Hstep :=
  injection Hstep as <-;
  first
    [ match goal with
      | Hty : type_assert TString ?v = None |- _ =>
          eapply TS_run with (tpc := TsPanic v);
          [ reflexivity | reflexivity | apply ts_at_panic | ts_relay_at
          | reflexivity | idtac ]
      | Hrel : ts_rel _ (TsPanic ?v) _ _ _ _ _ |- _ =>
          eapply TS_run with (tpc := TsPanic v);
          [ reflexivity | reflexivity | apply ts_at_panic | ts_relay_at
          | reflexivity | idtac ]
      end
    | eapply TS_run;
      [ reflexivity | reflexivity
      | first [ eassumption | econstructor
              | apply ts_at_head | apply ts_at_unf | apply ts_at_got
              | apply ts_at_close | apply ts_at_done
              | apply ts_at_got_some; eassumption
              | apply ts_at_got_none; eassumption ]
      | ts_relay_at
      | reflexivity | idtac ] ].

Ltac ts_use_refl :=
  repeat match goal with
    | H : ?a = ?a -> _ |- _ => specialize (H eq_refl)
    | H : _ /\ _ |- _ => destruct H
    end.

Ltac ts_rel_solve Hrel :=
  destruct Hrel as [R1 R2 R3 R4 R5 R6 R7]; unfold ts_panic_ok in *;
  simpl in *; ts_use_refl; try discriminate;
  constructor; unfold ts_panic_ok; simpl in *; intros; ts_use_refl;
  try discriminate; auto;
  try solve [eexists; reflexivity];
  try solve [unfold well_typed;
             match goal with
             | E : type_assert _ _ = None |- _ => rewrite E; reflexivity
             end];
  try solve [rewrite <- ?app_assoc; simpl; auto];
  try solve [exfalso; intuition discriminate];
  try solve [match goal with
             | H : forall x, _ -> In x xs |- In ?y xs =>
                 apply H; simpl in *; rewrite ?in_app_iff in *;
                 simpl in *; tauto
             end];
  try solve [rewrite forallb_app;
             match goal with
             | H : forallb _ _ = true, E : type_assert _ _ = _ |- _ =>
                 rewrite H; simpl; unfold well_typed; rewrite E; reflexivity
             end];
  idtac.

Lemma tostring_inv_step cl c ch c' :
  tostring_inv cl c -> env_may [out] [done] ch = true ->
  step c ch = Some c' -> tostring_inv cl c'.
Proof.
  intros Hinv Hok Hstep. destruct c as [m p w pk].
  destruct Hinv as [dc Hm Hp Hw Hk | dc Hm Hp Hw Hk | dc Hm Hp Hw Hk
                   | dc Hm Hp Hw Hk
                   | t1 t2 tpc opc dc sb sr rc rr Hm Hp Hat1 Hat2 Hw Hrel];
    simpl in Hm, Hp, Hw; try (simpl in Hk; subst pk); subst m p w;
    unfold step in Hstep; simpl in Hstep.
  - step_cases ch Hstep Hok.
    + injection Hstep as <-. eapply TS_b; reflexivity.
    + ts_close_done Hstep dc. eapply TS_a with (dc := true); reflexivity.
  - step_cases ch Hstep Hok.
    + injection Hstep as <-. eapply TS_c; reflexivity.
    + ts_close_done Hstep dc. eapply TS_b with (dc := true); reflexivity.
  - step_cases ch Hstep Hok.
    + injection Hstep as <-. eapply TS_d; reflexivity.
    + ts_close_done Hstep dc. eapply TS_c with (dc := true); reflexivity.
  - step_cases ch Hstep Hok.
    + injection Hstep as <-.
      eapply TS_run with (tpc := TsHead) (opc := OdHead) (sb := xs);
        try reflexivity; try constructor; simpl; auto; try discriminate.
      all: intros; rewrite ?app_nil_r; auto.
    + ts_close_done Hstep dc. eapply TS_d with (dc := true); reflexivity.
  - simpl in Hrel. destruct pk; [discriminate Hstep|].
    destruct ch as [k | i k | i k j l | ch i k | ch | ch].
    + simpl in Hstep; discriminate.
    + destruct i as [|[|i]]; simpl in Hstep; [ | | break_idx Hstep].
      * destruct Hat1, Hat2, dc, cl; simpl in Hstep; break_idx Hstep;
          ts_assert Hstep.
        all: ts_finish Hstep.
        all: ts_rel_solve Hrel.
      * destruct Hat1, Hat2, dc, cl; simpl in Hstep; break_idx Hstep.
        all: ts_finish Hstep.
        all: ts_rel_solve Hrel.
    + destruct Hat1, Hat2, dc, cl; simpl in Hstep; break_idx Hstep;
        ts_assert Hstep.
      all: ts_finish Hstep.
      all: ts_rel_solve Hrel.
    + destruct Hat1, Hat2, dc, cl; simpl in Hstep; break_idx Hstep;
        try (simpl in Hok; discriminate Hok); ts_assert Hstep.
      all: ts_finish Hstep.
      all: ts_rel_solve Hrel.
    + simpl in Hstep. break_idx Hstep; try (simpl in Hok; discriminate Hok).
    + simpl in Hstep. break_idx Hstep; try (simpl in Hok; discriminate Hok).
      ts_close_done Hstep dc.
      eapply TS_run with (dc := true); try reflexivity; try eassumption.
      eapply ts_rel_cancel; eassumption.
Qed.

Lemma tostring_inv_sent cl c :
  tostring_inv cl c ->
  forallb (well_typed TString) (received c out) = true /\
  (panicked c = true ->
   is_closed c out = true /\
   exists v, In v xs /\ well_typed TString v = false) /\
  (is_closed c done = false ->
   (exists tail, xs = received c out ++ tail) /\
   (panicked c = true ->
    exists v tail,
      xs = received c out ++ v :: tail /\ well_typed TString v = false) /\
   (is_closed c out = true ->
    (xs = received c out /\ cl = true /\ panicked c = false) \/
    (exists v tail,
       xs = received c out ++ v :: tail /\
       well_typed TString v = false))).
Proof.
  intros [dc Hm Hp Hw Hk | dc Hm Hp Hw Hk | dc Hm Hp Hw Hk | dc Hm Hp Hw Hk
         | t1 t2 tpc opc dc sb sr rc rr Hm Hp Hat1 Hat2 Hw Hrel];
    unfold is_closed, received; rewrite Hw; simpl;
    try (rewrite Hk; repeat split; auto; try discriminate;
         exists xs; reflexivity).
  destruct Hrel as [R1 R2 R3 R4 R5 R6 R7]. unfold ts_panic_ok in R6.
  split; [assumption|]. split.
  - intros Hpk. destruct (R6 Hpk) as (v & ->). simpl in R7.
    split; [reflexivity|].
    exists v. split; [|assumption]. apply R5. simpl. auto.
  - intros ->. specialize (R1 eq_refl). specialize (R2 eq_refl).
    specialize (R3 eq_refl). split; [|split].
    + eexists. symmetry. exact R2.
    + intros Hpk. destruct (R6 Hpk) as (v & ->). simpl in R7.
      simpl in R2. exists v. eexists. split; [symmetry; exact R2|assumption].
    + intros Hc. destruct tpc as [ | | | |v|v| | ]; simpl in Hc;
        try discriminate.
      * right. simpl in R2, R7. exists v. eexists.
        split; [symmetry; exact R2|assumption].
      * left. specialize (R1 eq_refl). subst opc. simpl in *.
        destruct (R3 eq_refl) as [-> ->].
        rewrite !app_nil_r in R2. repeat split; auto.
        destruct (panicked c) eqn:Hpk; [|reflexivity].
        destruct (R6 eq_refl) as (v & Hv). discriminate Hv.
Qed.

Lemma tostring_runs cl sched c :
  forallb (env_may [out] [done]) sched = true ->
  run sched (tostring_init cl) = Some c ->
  forallb (well_typed TString) (received c out) = true /\
  (panicked c = true ->
   is_closed c out = true /\
   exists v, In v xs /\ well_typed TString v = false) /\
  (is_closed c done = false ->
   (exists tail, xs = received c out ++ tail) /\
   (panicked c = true ->
    exists v tail,
      xs = received c out ++ v :: tail /\ well_typed TString v = false) /\
   (is_closed c out = true ->
    (xs = received c out /\ cl = true /\ panicked c = false) \/
    (exists v tail,
       xs = received c out ++ v :: tail /\
       well_typed TString v = false))).
Proof.
  intros Hok Hrun. apply tostring_inv_sent.
  eapply run_invariant with (Inv := tostring_inv cl);
    eauto using tostring_init_inv.
  intros; eapply tostring_inv_step; eauto.
Qed.

(** The worker and its relay at their control points. *)
Definition ts_cfg (cl : bool) (tpc : ts_pc) (opc : od_pc) (dc : bool)
    (sb sr rc rr : list value) (pk : bool) : config chan :=
  mkConfig (Ret out) [ts_term tpc; od_term done inp relay opc]
    (mkWorld [done_st dc; src_st xs cl sb sr;
              typed_st TString (ts_oc tpc) rc;
              stream_st (od_closed opc) rr] []) pk.

Definition ts_setup : list choice := [Main 0; Main 0; Solo 0 0; Solo 0 0].

Lemma ts_setup_run cl :
  run ts_setup (tostring_init cl)
  = Some (ts_cfg cl TsHead OdHead false xs [] [] [] false).
Proof. reflexivity. Qed.

(** A value travels from the source through the relay to the worker. *)
Definition ts_fetch : list choice :=
  [Solo 0 0; Solo 1 0; Solo 1 1; Sync 1 0 0 0].

Lemma ts_fetch_run cl v sb sr rc rr :
  run ts_fetch (ts_cfg cl TsHead OdHead false (v :: sb) sr rc rr false)
  = Some (ts_cfg cl (TsGot v) OdHead false sb (sr ++ [v]) rc (rr ++ [v])
            false).
Proof. reflexivity. Qed.

Lemma ts_pass_run cl v sb sr rc rr :
  well_typed TString v = true ->
  run [EnvRecv out 0 1] (ts_cfg cl (TsGot v) OdHead false sb sr rc rr false)
  = Some (ts_cfg cl TsHead OdHead false sb sr (rc ++ [v]) rr false).
Proof.
  unfold well_typed. intros Hv.
  destruct (type_assert TString v) as [tv|] eqn:Hty; [|discriminate].
  pose proof (type_assert_some _ _ Hty). subst tv.
  unfold run, step, ts_cfg, ts_term, ts_sel, ts_try; simpl.
  rewrite Hty. reflexivity.
Qed.

(** The assertion fails: the deferred close runs, then the panic ends
    the program. *)
Lemma ts_crash_run cl v sb sr rc rr :
  well_typed TString v = false ->
  run [Solo 0 0; Solo 0 0]
    (ts_cfg cl (TsGot v) OdHead false sb sr rc rr false)
  = Some (ts_cfg cl (TsPanic v) OdHead false sb sr rc rr true).
Proof.
  unfold well_typed. intros Hv.
  destruct (type_assert TString v) as [tv|] eqn:Hty; [discriminate|].
  unfold run, step, ts_cfg, ts_term, ts_sel, ts_try; simpl.
  rewrite Hty. reflexivity.
Qed.

Definition ts_round : list choice := ts_fetch ++ [EnvRecv out 0 1].

Fixpoint ts_deliver (k : nat) : list choice :=
  match k with
  | O => []
  | S k' => ts_round ++ ts_deliver k'
  end.

Lemma ts_deliver_ok k dones :
  forallb (env_may [out] dones) (ts_deliver k) = true.
Proof. induction k as [|k IH]; simpl; auto. Qed.

Lemma ts_deliver_run cl pre : forall sb sr rc rr,
  forallb (well_typed TString) pre = true ->
  run (ts_deliver (length pre))
    (ts_cfg cl TsHead OdHead false (pre ++ sb) sr rc rr false)
  = Some (ts_cfg cl TsHead OdHead false sb (sr ++ pre) (rc ++ pre)
            (rr ++ pre) false).
Proof.
  induction pre as [|v pre IH]; intros sb sr rc rr Hwt.
  - simpl. rewrite !app_nil_r. reflexivity.
  - simpl in Hwt. apply andb_prop in Hwt as [Hv Hwt].
    change (ts_deliver (length (v :: pre)))
      with ((ts_fetch ++ [EnvRecv out 0 1]) ++ ts_deliver (length pre)).
    change ((v :: pre) ++ sb) with (v :: (pre ++ sb)).
    rewrite !run_app, ts_fetch_run, ts_pass_run by assumption.
    rewrite IH by assumption. rewrite <- !app_assoc. reflexivity.
Qed.

(** The source is exhausted and closed: the relay closes its stream, the
    worker leaves its loop and closes the output. *)
Definition ts_finish_sched : list choice :=
  [Solo 1 0; Solo 1 1; Solo 1 0; Solo 0 0; Solo 0 0; Solo 0 0].

Lemma ts_finish_run sr rc rr :
  run ts_finish_sched (ts_cfg true TsHead OdHead false [] sr rc rr false)
  = Some (ts_cfg true TsDone OdDone false [] sr rc rr false).
Proof. reflexivity. Qed.

Definition ts_schedule : list choice :=
  ts_setup ++ ts_deliver (length xs) ++ ts_finish_sched.

Lemma ts_schedule_ok dones :
  forallb (env_may [out] dones) ts_schedule = true.
Proof.
  unfold ts_schedule. rewrite !forallb_app, ts_deliver_ok. reflexivity.
Qed.

Lemma ts_schedule_run :
  forallb (well_typed TString) xs = true ->
  run ts_schedule (tostring_init true)
  = Some (ts_cfg true TsDone OdDone false [] xs xs xs false).
Proof.
  intros Hwt. unfold ts_schedule.
  rewrite run_app, ts_setup_run, run_app.
  rewrite <- (app_nil_r xs) at 2.
  rewrite ts_deliver_run by assumption. apply ts_finish_run.
Qed.

(** The strings in front are delivered, then the worker asserts the type
    of the next value, closes the output while the panic unwinds and ends
    the program. *)
Definition ts_panic_sched (k : nat) : list choice :=
  ts_setup ++ ts_deliver k ++ ts_fetch ++ [Solo 0 0; Solo 0 0].

Lemma ts_panic_run cl pre v post :
  xs = pre ++ v :: post ->
  forallb (well_typed TString) pre = true ->
  well_typed TString v = false ->
  run (ts_panic_sched (length pre)) (tostring_init cl)
  = Some (ts_cfg cl (TsPanic v) OdHead false post (pre ++ [v]) pre
            (pre ++ [v]) true).
Proof.
  intros Hx Hpre Hv. unfold ts_panic_sched.
  rewrite run_app, ts_setup_run, run_app, Hx.
  rewrite ts_deliver_run by assumption.
  rewrite run_app, ts_fetch_run. simpl app.
  apply ts_crash_run. assumption.
Qed.

End ToString.

(** ** Buffer *)


Section Buffer.
Local Arguments Nat.ltb : simpl never.
Variables (xs : list value) (limit : nat).
Let done := Ch 0.
Let inp := Ch 1.
Let out := Ch 2.
Let relay := Ch 3.

Definition bf_sel (v : value) : proc (unit + leave) :=
  Select [OnRecv done (fun _ _ => ret); OnSend out v (continue tt)].
Definition bf_body (_ : unit) : proc (unit + leave) :=
  recv relay (fun val ok => if ok then bf_sel val else break).
Definition bf_k (x : leave) : proc unit := Close out (Ret tt).

(** Control points of the Buffer worker. *)
Inductive bf_pc : Type :=
| BfCall                  (* about to call orDone *)
| BfGo                    (* orDone has made its stream *)
| BfHead | BfUnf
| BfSel (v : value)       (* in the [select], holding [v] *)
| BfClose | BfDone.

Definition bf_term (pc : bf_pc) : proc unit :=
  match pc with
  | BfCall =>
      defer_close out
        (bind (UtilsGenerics.OrDoneChannel done inp) (fun orDoneStream =>
         Iter (fun _ : unit =>
                 recv orDoneStream (fun val ok =>
                   if ok then
                     Select [OnRecv done (fun _ _ => ret);
                             OnSend out val (continue tt)]
                   else break))
           tt (fun _ => Ret tt)))
  | BfGo => Go (od_term done inp relay OdHead) (Iter bf_body tt bf_k)
  | BfHead => Iter bf_body tt bf_k
  | BfUnf => bind (bf_body tt) (loop_next bf_body bf_k)
  | BfSel v => bind (bf_sel v) (loop_next bf_body bf_k)
  | BfClose => bf_k Break
  | BfDone => Ret tt
  end.

Inductive bf_at : bf_pc -> proc unit -> Prop :=
| bf_at_head : bf_at BfHead (bf_term BfHead)
| bf_at_unf : bf_at BfUnf (bf_term BfUnf)
| bf_at_sel v : bf_at (BfSel v) (bf_term (BfSel v))
| bf_at_close : bf_at BfClose (bf_term BfClose)
| bf_at_done : bf_at BfDone (bf_term BfDone).

(** The value the worker has taken from the relay and not put out. *)
Definition bf_held (pc : bf_pc) : list value :=
  match pc with
  | BfSel v => [v]
  | _ => []
  end.

Definition bf_oc (pc : bf_pc) : bool :=
  match pc with
  | BfDone => true
  | _ => false
  end.

Definition bf_left (pc : bf_pc) : bool :=
  match pc with
  | BfClose | BfDone => true
  | _ => false
  end.

(** The output: [bf] waits in its buffer of capacity [limit]. *)
Definition buf_st (bf : list value) (oc : bool) (rc : list value)
  : chan_state :=
  mkChan bf limit oc VNil rc.

Record bf_rel (cl : bool) (bpc : bf_pc) (opc : od_pc) (dc : bool)
    (sb bf rc : list value) : Prop := mk_bf_rel {
  bf_relay_closed : dc = false -> bf_left bpc = true -> opc = OdDone;
  bf_law : dc = false -> rc ++ bf ++ bf_held bpc ++ od_held opc ++ sb = xs;
  bf_src_done : dc = false -> od_left opc = true -> sb = [] /\ cl = true;
  bf_cap : (length bf <= limit)%nat
}.

Definition buffer_init (cl : bool) : config chan :=
  init (UtilsGenerics.BufferChannel done inp (Z.of_nat limit))
    [open_chan; source xs cl].

Inductive buffer_inv (cl : bool) (c : config chan) : Prop :=
| BF_a dc :
    main c = UtilsGenerics.BufferChannel done inp (Z.of_nat limit) ->
    pool c = [] ->
    st c = mkWorld [done_st dc; src_st xs cl xs []] [] ->
    panicked c = false -> buffer_inv cl c
| BF_b dc :
    main c = Go (bf_term BfCall) (Ret out) -> pool c = [] ->
    st c = mkWorld [done_st dc; src_st xs cl xs []; buf_st [] false []] [] ->
    panicked c = false -> buffer_inv cl c
| BF_c dc :
    main c = Ret out -> pool c = [bf_term BfCall] ->
    st c = mkWorld [done_st dc; src_st xs cl xs []; buf_st [] false []] [] ->
    panicked c = false -> buffer_inv cl c
| BF_d dc :
    main c = Ret out -> pool c = [bf_term BfGo] ->
    st c = mkWorld [done_st dc; src_st xs cl xs []; buf_st [] false [];
                    stream_st false []] [] ->
    panicked c = false -> buffer_inv cl c
| BF_run t1 t2 bpc opc dc sb sr bf rc rr :
    main c = Ret out -> pool c = [t1; t2] ->
    bf_at bpc t1 -> od_at done inp relay opc t2 ->
    st c = mkWorld [done_st dc; src_st xs cl sb sr;
                    buf_st bf (bf_oc bpc) rc;
                    stream_st (od_closed opc) rr] [] ->
    panicked c = false ->
    bf_rel cl bpc opc dc sb bf rc -> buffer_inv cl c.

Lemma buffer_init_inv cl : buffer_inv cl (buffer_init cl).
Proof. eapply BF_a with (dc := false); reflexivity. Qed.

Lemma bf_rel_cancel cl bpc opc dc sb bf rc :
  bf_rel cl bpc opc dc sb bf rc -> bf_rel cl bpc opc true sb bf rc.
Proof. intros [H1 H2 H3 H4]. constructor; auto; discriminate. Qed.

Ltac bf_close_done Hstep dc :=
  destruct dc; simpl in Hstep; [discriminate Hstep|]; injection Hstep as <-.

Ltac bf_room Hstep :=
  try match type of Hstep with
      | context [Nat.ltb ?a ?b] =>
          let Hroom := fresh "Hroom" in
          destruct (Nat.ltb a b) eqn:Hroom;
          [apply Nat.ltb_lt in Hroom | discriminate Hstep]
      end.

Ltac bf_finish Hstep :=
  injection Hstep as <-;
  eapply BF_run;
  [ reflexivity | reflexivity
  | first [eassumption | econstructor]
  | first [eassumption | econstructor]
  | reflexivity | reflexivity | idtac ].

Ltac bf_use_refl :=
  repeat match goal with
    | H : ?a = ?a -> _ |- _ => specialize (H eq_refl)
    | H : _ /\ _ |- _ => destruct H
    end.

Ltac bf_rel_solve Hrel :=
  destruct Hrel as [R1 R2 R3 R4]; simpl in *; bf_use_refl;
  try discriminate;
  constructor; simpl in *; intros; bf_use_refl;
  try discriminate; auto;
  try solve [rewrite <- ?app_assoc; simpl; auto];
  try solve [exfalso; intuition discriminate];
  try solve [rewrite ?length_app in *; simpl in *; lia].

Lemma buffer_inv_step cl c ch c' :
  buffer_inv cl c -> env_may [out] [done] ch = true ->
  step c ch = Some c' -> buffer_inv cl c'.
Proof.
  intros Hinv Hok Hstep. destruct c as [m p w pk].
  destruct Hinv as [dc Hm Hp Hw Hk | dc Hm Hp Hw Hk | dc Hm Hp Hw Hk
                   | dc Hm Hp Hw Hk
                   | t1 t2 bpc opc dc sb sr bf rc rr Hm Hp Hat1 Hat2 Hw Hk Hrel];
    simpl in Hm, Hp, Hw, Hk; subst m p w pk;
    unfold step in Hstep; simpl in Hstep.
  - step_cases ch Hstep Hok.
    + destruct (Z.of_nat limit <? 0) eqn:E; [apply Z.ltb_lt in E; lia|].
      injection Hstep as <-. rewrite Nat2Z.id.
      eapply BF_b; reflexivity.
    + bf_close_done Hstep dc. eapply BF_a with (dc := true); reflexivity.
  - step_cases ch Hstep Hok.
    + injection Hstep as <-. eapply BF_c; reflexivity.
    + bf_close_done Hstep dc. eapply BF_b with (dc := true); reflexivity.
  - step_cases ch Hstep Hok.
    + injection Hstep as <-. eapply BF_d; reflexivity.
    + bf_close_done Hstep dc. eapply BF_c with (dc := true); reflexivity.
  - step_cases ch Hstep Hok.
    + injection Hstep as <-.
      eapply BF_run with (bpc := BfHead) (opc := OdHead) (sb := xs);
        try reflexivity; try constructor; simpl; auto; try discriminate.
      all: intros; rewrite ?app_nil_r; auto; lia.
    + bf_close_done Hstep dc. eapply BF_d with (dc := true); reflexivity.
  - destruct ch as [k | i k | i k j l | ch i k | ch | ch].
    + simpl in Hstep; discriminate.
    + destruct i as [|[|i]]; simpl in Hstep; [ | | break_idx Hstep].
      * destruct Hat1, Hat2, dc, cl; simpl in Hstep; break_idx Hstep;
          bf_room Hstep.
        all: bf_finish Hstep.
        all: bf_rel_solve Hrel.
      * destruct Hat1, Hat2, dc, cl; simpl in Hstep; break_idx Hstep;
          bf_room Hstep.
        all: bf_finish Hstep.
        all: bf_rel_solve Hrel.
    + destruct Hat1, Hat2, dc, cl; simpl in Hstep; break_idx Hstep.
      all: bf_finish Hstep.
      all: bf_rel_solve Hrel.
    + destruct Hat1, Hat2, dc, cl; simpl in Hstep; break_idx Hstep;
        try (simpl in Hok; discriminate Hok).
      all: unfold handover in Hstep; simpl in Hstep; break_idx Hstep.
      all: bf_finish Hstep.
      all: bf_rel_solve Hrel.
    + simpl in Hstep. break_idx Hstep; try (simpl in Hok; discriminate Hok).
      injection Hstep as <-.
      eapply BF_run with (dc := dc); try reflexivity; try eassumption.
      bf_rel_solve Hrel.
    + simpl in Hstep. break_idx Hstep; try (simpl in Hok; discriminate Hok).
      bf_close_done Hstep dc.
      eapply BF_run with (dc := true); try reflexivity; try eassumption.
      eapply bf_rel_cancel; eassumption.
Qed.

Lemma buffer_inv_sent cl c :
  buffer_inv cl c ->
  panicked c = false /\
  (length (pending c out) <= limit)%nat /\
  (is_closed c done = false ->
   (exists tail, xs = received c out ++ pending c out ++ tail) /\
   (is_closed c out = true ->
    xs = received c out ++ pending c out /\ cl = true)).
Proof.
  intros [dc Hm Hp Hw Hk | dc Hm Hp Hw Hk | dc Hm Hp Hw Hk | dc Hm Hp Hw Hk
         | t1 t2 bpc opc dc sb sr bf rc rr Hm Hp Hat1 Hat2 Hw Hk Hrel];
    unfold is_closed, received, pending; rewrite Hw; simpl;
    try (repeat split; auto; try lia; try discriminate;
         exists xs; reflexivity).
  destruct Hrel as [R1 R2 R3 R4].
  split; [assumption|]. split; [assumption|].
  intros ->. specialize (R1 eq_refl). specialize (R2 eq_refl).
  specialize (R3 eq_refl). split.
  - eexists. symmetry. exact R2.
  - intros Hc. destruct bpc; simpl in Hc; try discriminate.
    specialize (R1 eq_refl). subst opc. simpl in *.
    destruct (R3 eq_refl) as [-> ->].
    rewrite !app_nil_r in R2. auto.
Qed.

Lemma buffer_runs cl sched c :
  forallb (env_may [out] [done]) sched = true ->
  run sched (buffer_init cl) = Some c ->
  panicked c = false /\
  (length (pending c out) <= limit)%nat /\
  (is_closed c done = false ->
   (exists tail, xs = received c out ++ pending c out ++ tail) /\
   (is_closed c out = true ->
    xs = received c out ++ pending c out /\ cl = true)).
Proof.
  intros Hok Hrun. apply buffer_inv_sent.
  eapply run_invariant with (Inv := buffer_inv cl);
    eauto using buffer_init_inv.
  intros; eapply buffer_inv_step; eauto.
Qed.

(** Buffer and its relay at their control points. *)
Definition bf_cfg (cl : bool) (bpc : bf_pc) (opc : od_pc) (dc : bool)
    (sb sr bf rc rr : list value) : config chan :=
  mkConfig (Ret out) [bf_term bpc; od_term done inp relay opc]
    (mkWorld [done_st dc; src_st xs cl sb sr; buf_st bf (bf_oc bpc) rc;
              stream_st (od_closed opc) rr] []) false.

Definition bf_setup : list choice := [Main 0; Main 0; Solo 0 0; Solo 0 0].

Lemma bf_setup_run cl :
  run bf_setup (buffer_init cl)
  = Some (bf_cfg cl BfHead OdHead false xs [] [] [] []).
Proof.
  unfold run, step, buffer_init, bf_setup; simpl.
  destruct (Z.of_nat limit <? 0) eqn:E; [apply Z.ltb_lt in E; lia|].
  simpl. unfold bf_cfg, buf_st. rewrite Nat2Z.id. reflexivity.
Qed.

(** One value travels from the source through the relay and the worker
    to a reader that waits for it. *)
Definition bf_round : list choice :=
  [Solo 0 0; Solo 1 0; Solo 1 1; Sync 1 0 0 0; EnvRecv out 0 1].

Lemma bf_round_run cl v sb sr rc rr :
  run bf_round (bf_cfg cl BfHead OdHead false (v :: sb) sr [] rc rr)
  = Some (bf_cfg cl BfHead OdHead false sb (sr ++ [v]) [] (rc ++ [v])
            (rr ++ [v])).
Proof. reflexivity. Qed.

Fixpoint bf_deliver (k : nat) : list choice :=
  match k with
  | O => []
  | S k' => bf_round ++ bf_deliver k'
  end.

Lemma bf_deliver_ok k dones :
  forallb (env_may [out] dones) (bf_deliver k) = true.
Proof. induction k as [|k IH]; simpl; auto. Qed.

Lemma bf_deliver_run cl sb : forall sr rc rr,
  run (bf_deliver (length sb)) (bf_cfg cl BfHead OdHead false sb sr [] rc rr)
  = Some (bf_cfg cl BfHead OdHead false [] (sr ++ sb) [] (rc ++ sb)
            (rr ++ sb)).
Proof.
  induction sb as [|v sb IH]; intros sr rc rr.
  - simpl. rewrite !app_nil_r. reflexivity.
  - change (bf_deliver (length (v :: sb)))
      with (bf_round ++ bf_deliver (length sb)).
    rewrite run_app, bf_round_run, IH, <- !app_assoc. reflexivity.
Qed.

(** The source is exhausted and closed: the relay closes its stream, the
    worker leaves its loop and closes the output. *)
Definition bf_finish_sched : list choice :=
  [Solo 1 0; Solo 1 1; Solo 1 0; Solo 0 0; Solo 0 0; Solo 0 0].

Lemma bf_finish_run sr bf rc rr :
  run bf_finish_sched (bf_cfg true BfHead OdHead false [] sr bf rc rr)
  = Some (bf_cfg true BfDone OdDone false [] sr bf rc rr).
Proof. reflexivity. Qed.

Definition bf_schedule : list choice :=
  bf_setup ++ bf_deliver (length xs) ++ bf_finish_sched.

Lemma bf_schedule_ok dones :
  forallb (env_may [out] dones) bf_schedule = true.
Proof.
  unfold bf_schedule. rewrite !forallb_app, bf_deliver_ok. reflexivity.
Qed.

Lemma bf_schedule_run :
  run bf_schedule (buffer_init true)
  = Some (bf_cfg true BfDone OdDone false [] xs [] xs xs).
Proof.
  unfold bf_schedule.
  rewrite run_app, bf_setup_run, run_app, bf_deliver_run, bf_finish_run.
  reflexivity.
Qed.

(** With no reader, one value travels from the source into the buffer. *)
Definition bf_fill_round : list choice :=
  [Solo 0 0; Solo 1 0; Solo 1 1; Sync 1 0 0 0; Solo 0 1].

Lemma bf_fill_round_run cl v sb sr bf rr :
  (length bf < limit)%nat ->
  run bf_fill_round (bf_cfg cl BfHead OdHead false (v :: sb) sr bf [] rr)
  = Some (bf_cfg cl BfHead OdHead false sb (sr ++ [v]) (bf ++ [v]) []
            (rr ++ [v])).
Proof.
  intros Hroom. apply Nat.ltb_lt in Hroom.
  unfold run, step, bf_fill_round, bf_cfg; simpl.
  rewrite Hroom. reflexivity.
Qed.

Fixpoint bf_fill (k : nat) : list choice :=
  match k with
  | O => []
  | S k' => bf_fill_round ++ bf_fill k'
  end.

Lemma bf_fill_ok k : forallb (env_may [] []) (bf_fill k) = true.
Proof. induction k as [|k IH]; simpl; auto. Qed.

Lemma bf_fill_run cl k : forall sb sr bf rr,
  (k <= length sb)%nat -> (length bf + k <= limit)%nat ->
  run (bf_fill k) (bf_cfg cl BfHead OdHead false sb sr bf [] rr)
  = Some (bf_cfg cl BfHead OdHead false (skipn k sb) (sr ++ firstn k sb)
            (bf ++ firstn k sb) [] (rr ++ firstn k sb)).
Proof.
  induction k as [|k IH]; intros sb sr bf rr Hk Hl.
  - simpl. rewrite !app_nil_r. reflexivity.
  - destruct sb as [|v sb]; simpl in Hk; [lia|].
    change (bf_fill (S k)) with (bf_fill_round ++ bf_fill k).
    rewrite run_app, bf_fill_round_run by lia.
    rewrite IH by (rewrite ?length_app; simpl; lia).
    simpl. rewrite <- !app_assoc. reflexivity.
Qed.

Lemma bf_ahead_run cl k :
  (k <= length xs)%nat -> (k <= limit)%nat ->
  run (bf_setup ++ bf_fill k) (buffer_init cl)
  = Some (bf_cfg cl BfHead OdHead false (skipn k xs) (firstn k xs)
            (firstn k xs) [] (firstn k xs)).
Proof.
  intros Hk Hl. rewrite run_app, bf_setup_run.
  rewrite bf_fill_run by (simpl; lia). reflexivity.
Qed.

End Buffer.

(** ** Throttle *)

Section Throttle.
Local Arguments Nat.ltb : simpl never.
Variables (xs : list value) (limit : nat).
Let done := Ch 0.
Let inp := Ch 1.
Let out := Ch 2.
Let tokens := Ch 3.
Let relay := Ch 4.

Definition th_back : proc (unit + leave) :=
  recv tokens (fun _ _ => continue tt).
Definition th_sel (v : value) : proc (unit + leave) :=
  Select [OnRecv done (fun _ _ => ret); OnSend out v th_back].
Definition th_tok (v : value) : proc (unit + leave) :=
  send tokens UtilsTyped.token (th_sel v).
Definition th_body (_ : unit) : proc (unit + leave) :=
  recv relay (fun val ok => if ok then th_tok val else break).
Definition th_k (x : leave) : proc unit :=
  Close out (Close tokens (Ret tt)).

(** The goroutine of [ThrottleChannel] for the channels [o] and [tk]. *)
Definition th_worker (o tk : chan) : proc unit :=
  bind
    (bind (UtilsTyped.OrDoneChannel done inp) (fun orDoneStream =>
     Iter (fun _ : unit =>
             recv orDoneStream (fun val ok =>
               if ok then
                 send tk UtilsTyped.token
                   (Select [OnRecv done (fun _ _ => ret);
                            OnSend o val
                              (recv tk (fun _ _ => continue tt))])
               else break))
       tt (fun _ => Ret tt)))
    (fun _ => Close o (Close tk (Ret tt))).

(** What [ThrottleChannel] still has to do once [out] exists. *)
Definition th_main1 (o : chan) : proc chan :=
  MakeChan VNil (Z.of_nat limit) (fun tk =>
  Go (th_worker o tk) (Ret o)).

(** Control points of the Throttle worker. *)
Inductive th_pc : Type :=
| ThCall | ThGo
| ThHead | ThUnf
| ThTok (v : value)       (* at [tokens <- struct{}{}], holding [v] *)
| ThSel (v : value)       (* in the [select], holding [v] *)
| ThBack                  (* at [<-tokens] *)
| ThClose1 | ThClose2 | ThDone.

Definition th_term (pc : th_pc) : proc unit :=
  match pc with
  | ThCall => th_worker out tokens
  | ThGo => Go (od_term done inp relay OdHead) (Iter th_body tt th_k)
  | ThHead => Iter th_body tt th_k
  | ThUnf => bind (th_body tt) (loop_next th_body th_k)
  | ThTok v => bind (th_tok v) (loop_next th_body th_k)
  | ThSel v => bind (th_sel v) (loop_next th_body th_k)
  | ThBack => bind th_back (loop_next th_body th_k)
  | ThClose1 => th_k Break
  | ThClose2 => Close tokens (Ret tt)
  | ThDone => Ret tt
  end.

Inductive th_at : th_pc -> proc unit -> Prop :=
| th_at_head : th_at ThHead (th_term ThHead)
| th_at_unf : th_at ThUnf (th_term ThUnf)
| th_at_tok v : th_at (ThTok v) (th_term (ThTok v))
| th_at_sel v : th_at (ThSel v) (th_term (ThSel v))
| th_at_back : th_at ThBack (th_term ThBack)
| th_at_close1 : th_at ThClose1 (th_term ThClose1)
| th_at_close2 : th_at ThClose2 (th_term ThClose2)
| th_at_done : th_at ThDone (th_term ThDone).

(** The value the worker has taken from the relay and not put out. *)
Definition th_held (pc : th_pc) : list value :=
  match pc with
  | ThTok v | ThSel v => [v]
  | _ => []
  end.

Definition th_oc (pc : th_pc) : bool :=
  match pc with
  | ThClose2 | ThDone => true
  | _ => false
  end.

Definition th_tc (pc : th_pc) : bool :=
  match pc with
  | ThDone => true
  | _ => false
  end.

Definition th_left (pc : th_pc) : bool :=
  match pc with
  | ThClose1 | ThClose2 | ThDone => true
  | _ => false
  end.

(** The tokens in the buffer at each control point. *)
Definition th_tk_ok (pc : th_pc) (tk : list value) : Prop :=
  match pc with
  | ThSel _ | ThBack => tk = [UtilsTyped.token] /\ (1 <= limit)%nat
  | ThClose1 | ThClose2 | ThDone => (length tk <= 1)%nat
  | _ => tk = []
  end.

Definition tok_st (tk : list value) (tc : bool) (tr : list value)
  : chan_state :=
  mkChan tk limit tc VNil tr.

Record th_rel (cl : bool) (tpc : th_pc) (opc : od_pc) (dc : bool)
    (sb tk rc : list value) : Prop := mk_th_rel {
  th_relay_closed : dc = false -> th_left tpc = true -> opc = OdDone;
  th_law : dc = false -> rc ++ th_held tpc ++ od_held opc ++ sb = xs;
  th_src_done : dc = false -> od_left opc = true -> sb = [] /\ cl = true;
  th_tokens : th_tk_ok tpc tk;
  th_none : limit = O -> rc = []
}.

Definition throttle_init (cl : bool) : config chan :=
  init (UtilsTyped.ThrottleChannel done inp (Z.of_nat limit))
    [open_chan; source xs cl].

Inductive throttle_inv (cl : bool) (c : config chan) : Prop :=
| TH_a dc :
    main c = UtilsTyped.ThrottleChannel done inp (Z.of_nat limit) ->
    pool c = [] ->
    st c = mkWorld [done_st dc; src_st xs cl xs []] [] ->
    panicked c = false -> throttle_inv cl c
| TH_b dc :
    main c = th_main1 out -> pool c = [] ->
    st c = mkWorld [done_st dc; src_st xs cl xs []; stream_st false []] [] ->
    panicked c = false -> throttle_inv cl c
| TH_c dc :
    main c = Go (th_term ThCall) (Ret out) -> pool c = [] ->
    st c = mkWorld [done_st dc; src_st xs cl xs []; stream_st false [];
                    tok_st [] false []] [] ->
    panicked c = false -> throttle_inv cl c
| TH_d dc :
    main c = Ret out -> pool c = [th_term ThCall] ->
    st c = mkWorld [done_st dc; src_st xs cl xs []; stream_st false [];
                    tok_st [] false []] [] ->
    panicked c = false -> throttle_inv cl c
| TH_e dc :
    main c = Ret out -> pool c = [th_term ThGo] ->
    st c = mkWorld [done_st dc; src_st xs cl xs []; stream_st false [];
                    tok_st [] false []; stream_st false []] [] ->
    panicked c = false -> throttle_inv cl c
| TH_run t1 t2 tpc opc dc sb sr tk tr rc rr :
    main c = Ret out -> pool c = [t1; t2] ->
    th_at tpc t1 -> od_at done inp relay opc t2 ->
    st c = mkWorld [done_st dc; src_st xs cl sb sr;
                    stream_st (th_oc tpc) rc;
                    tok_st tk (th_tc tpc) tr;
                    stream_st (od_closed opc) rr] [] ->
    panicked c = false ->
    th_rel cl tpc opc dc sb tk rc -> throttle_inv cl c.

Lemma throttle_init_inv cl : throttle_inv cl (throttle_init cl).
Proof. eapply TH_a with (dc := false); reflexivity. Qed.

Lemma th_rel_cancel cl tpc opc dc sb tk rc :
  th_rel cl tpc opc dc sb tk rc -> th_rel cl tpc opc true sb tk rc.
Proof. intros [H1 H2 H3 H4 H5]. constructor; auto; discriminate. Qed.

Ltac th_close_done Hstep dc :=
  destruct dc; simpl in Hstep; [discriminate Hstep|]; injection Hstep as <-.

Ltac th_room Hstep :=
  try match type of Hstep with
      | context [Nat.ltb ?a ?b] =>
          let Hroom := fresh "Hroom" in
          destruct (Nat.ltb a b) eqn:Hroom;
          [apply Nat.ltb_lt in Hroom | discriminate Hstep]
      end.

Ltac th_finish Hstep :=
  injection Hstep as <-;
  eapply TH_run;
  [ reflexivity | reflexivity
  | first [eassumption | econstructor]
  | first [eassumption | econstructor]
  | reflexivity | reflexivity | idtac ].

Ltac th_use_refl :=
  repeat match goal with
    | H : ?a = ?a -> _ |- _ => specialize (H eq_refl)
    | H : _ /\ _ |- _ => destruct H
    | H : _ :: _ = _ :: _ |- _ => injection H as ? ?; subst
    end.

Ltac th_rel_solve Hrel :=
  destruct Hrel as [R1 R2 R3 R4 R5]; unfold th_tk_ok in *; simpl in *;
  th_use_refl; try discriminate;
  constructor; unfold th_tk_ok; simpl in *; intros; th_use_refl;
  try discriminate; auto;
  try solve [rewrite <- ?app_assoc; simpl; auto];
  try solve [exfalso; intuition discriminate];
  try solve [subst; simpl in *; auto; lia];
  try solve [rewrite ?length_app in *; simpl in *; lia].

Lemma throttle_inv_step cl c ch c' :
  throttle_inv cl c -> env_may [out] [done] ch = true ->
  step c ch = Some c' -> throttle_inv cl c'.
Proof.
  intros Hinv Hok Hstep. destruct c as [m p w pk].
  destruct Hinv as [dc Hm Hp Hw Hk | dc Hm Hp Hw Hk | dc Hm Hp Hw Hk
                   | dc Hm Hp Hw Hk | dc Hm Hp Hw Hk
                   | t1 t2 tpc opc dc sb sr tk tr rc rr
                       Hm Hp Hat1 Hat2 Hw Hk Hrel];
    simpl in Hm, Hp, Hw, Hk; subst m p w pk;
    unfold step in Hstep; simpl in Hstep.
  - step_cases ch Hstep Hok.
    + injection Hstep as <-. eapply TH_b; reflexivity.
    + th_close_done Hstep dc. eapply TH_a with (dc := true); reflexivity.
  - step_cases ch Hstep Hok.
    + destruct (Z.of_nat limit <? 0) eqn:E; [apply Z.ltb_lt in E; lia|].
      injection Hstep as <-. rewrite Nat2Z.id.
      eapply TH_c; reflexivity.
    + th_close_done Hstep dc. eapply TH_b with (dc := true); reflexivity.
  - step_cases ch Hstep Hok.
    + injection Hstep as <-. eapply TH_d; reflexivity.
    + th_close_done Hstep dc. eapply TH_c with (dc := true); reflexivity.
  - step_cases ch Hstep Hok.
    + injection Hstep as <-. eapply TH_e; reflexivity.
    + th_close_done Hstep dc. eapply TH_d with (dc := true); reflexivity.
  - step_cases ch Hstep Hok.
    + injection Hstep as <-.
      eapply TH_run with (tpc := ThHead) (opc := OdHead) (sb := xs);
        try reflexivity; try constructor; simpl; auto; try discriminate.
      all: intros; rewrite ?app_nil_r; auto.
    + th_close_done Hstep dc. eapply TH_e with (dc := true); reflexivity.
  - destruct ch as [k | i k | i k j l | ch i k | ch | ch].
    + simpl in Hstep; discriminate.
    + destruct i as [|[|i]]; simpl in Hstep; [ | | break_idx Hstep].
      * destruct Hat1, Hat2, dc, cl; simpl in Hstep; break_idx Hstep;
          th_room Hstep.
        all: th_finish Hstep.
        all: th_rel_solve Hrel.
      * destruct Hat1, Hat2, dc, cl; simpl in Hstep; break_idx Hstep;
          th_room Hstep.
        all: th_finish Hstep.
        all: th_rel_solve Hrel.
    + destruct Hat1, Hat2, dc, cl; simpl in Hstep; break_idx Hstep.
      all: th_finish Hstep.
      all: th_rel_solve Hrel.
    + destruct Hat1, Hat2, dc, cl; simpl in Hstep; break_idx Hstep;
        try (simpl in Hok; discriminate Hok).
      all: unfold handover in Hstep; simpl in Hstep; break_idx Hstep.
      all: th_finish Hstep.
      all: th_rel_solve Hrel.
    + simpl in Hstep. break_idx Hstep; try (simpl in Hok; discriminate Hok).
    + simpl in Hstep. break_idx Hstep; try (simpl in Hok; discriminate Hok).
      th_close_done Hstep dc.
      eapply TH_run with (dc := true); try reflexivity; try eassumption.
      eapply th_rel_cancel; eassumption.
Qed.

Lemma throttle_inv_sent cl c :
  throttle_inv cl c ->
  panicked c = false /\
  (length (pending c tokens) <= 1)%nat /\
  (limit = O -> received c out = []) /\
  (is_closed c tokens = true -> is_closed c out = true) /\
  (is_closed c done = false ->
   (exists tail, xs = received c out ++ tail) /\
   (is_closed c out = true -> xs = received c out /\ cl = true)).
Proof.
  intros [dc Hm Hp Hw Hk | dc Hm Hp Hw Hk | dc Hm Hp Hw Hk | dc Hm Hp Hw Hk
         | dc Hm Hp Hw Hk
         | t1 t2 tpc opc dc sb sr tk tr rc rr Hm Hp Hat1 Hat2 Hw Hk Hrel];
    unfold is_closed, received, pending; rewrite Hw; simpl;
    try (repeat split; auto; try lia; try discriminate;
         exists xs; reflexivity).
  destruct Hrel as [R1 R2 R3 R4 R5].
  split; [assumption|]. split; [|split; [assumption|split]].
  - unfold th_tk_ok in R4.
    destruct tpc; cbv iota in R4;
      match type of R4 with
      | _ /\ _ => destruct R4 as [-> _]; simpl; lia
      | _ = _ => rewrite R4; simpl; lia
      | _ => exact R4
      end.
  - destruct tpc; simpl; auto.
  - intros ->. specialize (R1 eq_refl). specialize (R2 eq_refl).
    specialize (R3 eq_refl). split.
    + eexists. symmetry. exact R2.
    + intros Hc.
      assert (Hl : th_left tpc = true)
        by (destruct tpc; simpl in Hc; try discriminate; reflexivity).
      specialize (R1 Hl). subst opc. simpl in *.
      destruct (R3 eq_refl) as [-> ->].
      destruct tpc; simpl in Hl; try discriminate; simpl in R2;
        rewrite !app_nil_r in R2; auto.
Qed.

Lemma throttle_runs cl sched c :
  forallb (env_may [out] [done]) sched = true ->
  run sched (throttle_init cl) = Some c ->
  panicked c = false /\
  (length (pending c tokens) <= 1)%nat /\
  (limit = O -> received c out = []) /\
  (is_closed c tokens = true -> is_closed c out = true) /\
  (is_closed c done = false ->
   (exists tail, xs = received c out ++ tail) /\
   (is_closed c out = true -> xs = received c out /\ cl = true)).
Proof.
  intros Hok Hrun. apply throttle_inv_sent.
  eapply run_invariant with (Inv := throttle_inv cl);
    eauto using throttle_init_inv.
  intros; eapply throttle_inv_step; eauto.
Qed.

(** Throttle and its relay at their control points. *)
Definition th_cfg (cl : bool) (tpc : th_pc) (opc : od_pc) (dc : bool)
    (sb sr tk tr rc rr : list value) : config chan :=
  mkConfig (Ret out) [th_term tpc; od_term done inp relay opc]
    (mkWorld [done_st dc; src_st xs cl sb sr; stream_st (th_oc tpc) rc;
              tok_st tk (th_tc tpc) tr;
              stream_st (od_closed opc) rr] []) false.

Definition th_setup : list choice :=
  [Main 0; Main 0; Main 0; Solo 0 0; Solo 0 0].

Lemma th_setup_run cl :
  run th_setup (throttle_init cl)
  = Some (th_cfg cl ThHead OdHead false xs [] [] [] [] []).
Proof.
  unfold run, step, throttle_init, th_setup; simpl.
  destruct (Z.of_nat limit <? 0) eqn:E; [apply Z.ltb_lt in E; lia|].
  simpl. unfold th_cfg, tok_st. rewrite Nat2Z.id. reflexivity.
Qed.

(** The first value reaches the worker, which goes to put its token. *)
Definition th_fetch : list choice :=
  [Solo 0 0; Solo 1 0; Solo 1 1; Sync 1 0 0 0].

Lemma th_fetch_run cl v sb sr tr rc rr :
  run th_fetch (th_cfg cl ThHead OdHead false (v :: sb) sr [] tr rc rr)
  = Some (th_cfg cl (ThTok v) OdHead false sb (sr ++ [v]) [] tr rc
            (rr ++ [v])).
Proof. reflexivity. Qed.

(** The token is put, the reader takes the value, the token is taken
    back. *)
Definition th_pass : list choice := [Solo 0 0; EnvRecv out 0 1; Solo 0 0].

Lemma th_pass_run cl v sb sr tr rc rr :
  (0 < limit)%nat ->
  run th_pass (th_cfg cl (ThTok v) OdHead false sb sr [] tr rc rr)
  = Some (th_cfg cl ThHead OdHead false sb sr [] (tr ++ [UtilsTyped.token])
            (rc ++ [v]) rr).
Proof.
  intros Hroom. apply Nat.ltb_lt in Hroom.
  unfold run, step, th_pass, th_cfg; simpl.
  rewrite Hroom. reflexivity.
Qed.

Definition th_round : list choice := th_fetch ++ th_pass.

Fixpoint th_deliver (k : nat) : list choice :=
  match k with
  | O => []
  | S k' => th_round ++ th_deliver k'
  end.

Lemma th_deliver_ok k dones :
  forallb (env_may [out] dones) (th_deliver k) = true.
Proof. induction k as [|k IH]; simpl; auto. Qed.

Lemma th_deliver_run cl sb : forall sr tr rc rr,
  (0 < limit)%nat ->
  run (th_deliver (length sb)) (th_cfg cl ThHead OdHead false sb sr [] tr rc rr)
  = Some (th_cfg cl ThHead OdHead false [] (sr ++ sb) []
            (tr ++ map (fun _ => UtilsTyped.token) sb) (rc ++ sb)
            (rr ++ sb)).
Proof.
  induction sb as [|v sb IH]; intros sr tr rc rr Hl.
  - simpl. rewrite !app_nil_r. reflexivity.
  - change (th_deliver (length (v :: sb)))
      with ((th_fetch ++ th_pass) ++ th_deliver (length sb)).
    rewrite !run_app, th_fetch_run, th_pass_run by assumption.
    rewrite IH by assumption. simpl. rewrite <- !app_assoc. reflexivity.
Qed.

(** The source is exhausted and closed: the relay closes its stream, the
    worker leaves its loop and closes the output and the tokens. *)
Definition th_finish_sched : list choice :=
  [Solo 1 0; Solo 1 1; Solo 1 0; Solo 0 0; Solo 0 0; Solo 0 0; Solo 0 0].

Lemma th_finish_run sr tr rc rr :
  run th_finish_sched (th_cfg true ThHead OdHead false [] sr [] tr rc rr)
  = Some (th_cfg true ThDone OdDone false [] sr [] tr rc rr).
Proof. reflexivity. Qed.

Definition th_schedule : list choice :=
  th_setup ++ th_deliver (length xs) ++ th_finish_sched.

Lemma th_schedule_ok dones :
  forallb (env_may [out] dones) th_schedule = true.
Proof.
  unfold th_schedule. rewrite !forallb_app, th_deliver_ok. reflexivity.
Qed.

Lemma th_schedule_run :
  (0 < limit)%nat ->
  run th_schedule (throttle_init true)
  = Some (th_cfg true ThDone OdDone false [] xs []
            (map (fun _ => UtilsTyped.token) xs) xs xs).
Proof.
  intros Hl. unfold th_schedule.
  rewrite run_app, th_setup_run, run_app, th_deliver_run by assumption.
  apply th_finish_run.
Qed.

(** *** No room for a token *)

(** The worker waits at [tokens <- struct{}{}] with a value in hand. *)
Inductive th_stuck (cl : bool) (c : config chan) : Prop :=
| TH_stuck v t2 opc dc sb sr tr rr :
    main c = Ret out -> pool c = [th_term (ThTok v); t2] ->
    od_at done inp relay opc t2 ->
    st c = mkWorld [done_st dc; src_st xs cl sb sr; stream_st false [];
                    tok_st [] false tr;
                    stream_st (od_closed opc) rr] [] ->
    panicked c = false -> th_stuck cl c.

Lemma th_stuck_step cl c ch c' :
  limit = O ->
  th_stuck cl c -> env_may [out] [done] ch = true ->
  step c ch = Some c' -> th_stuck cl c'.
Proof.
  intros Hz [v t2 opc dc sb sr tr rr Hm Hp Hat2 Hw Hk] Hok Hstep.
  destruct c as [m p w pk].
  simpl in Hm, Hp, Hw, Hk; subst m p w pk.
  unfold step in Hstep; simpl in Hstep.
  destruct ch as [k | i k | i k j l | ch i k | ch | ch].
  - simpl in Hstep; discriminate.
  - destruct i as [|[|i]]; simpl in Hstep; [ | | break_idx Hstep].
    + break_idx Hstep. unfold tok_st in Hstep. simpl in Hstep.
      rewrite Hz in Hstep. discriminate.
    + destruct Hat2, dc, cl; simpl in Hstep; break_idx Hstep.
      all: injection Hstep as <-.
      all: eapply TH_stuck;
        [reflexivity | reflexivity | econstructor | reflexivity
        | reflexivity].
  - destruct Hat2, dc, cl; simpl in Hstep; break_idx Hstep.
  - destruct Hat2, dc, cl; simpl in Hstep; break_idx Hstep;
      try (simpl in Hok; discriminate Hok).
  - simpl in Hstep. break_idx Hstep; try (simpl in Hok; discriminate Hok).
  - simpl in Hstep. break_idx Hstep; try (simpl in Hok; discriminate Hok).
    th_close_done Hstep dc.
    eapply TH_stuck with (dc := true); try reflexivity; eassumption.
Qed.

Lemma th_stuck_seen cl c :
  th_stuck cl c ->
  panicked c = false /\ is_closed c out = false /\ received c out = [] /\
  nth_error (pool c) 0 <> Some (Ret tt).
Proof.
  intros [v t2 opc dc sb sr tr rr Hm Hp Hat2 Hw Hk].
  unfold is_closed, received. rewrite Hw, Hp. simpl.
  repeat split; auto. discriminate.
Qed.

Lemma th_stuck_runs cl c sched c' :
  limit = O -> th_stuck cl c ->
  forallb (env_may [out] [done]) sched = true ->
  run sched c = Some c' ->
  panicked c' = false /\ is_closed c' out = false /\ received c' out = [] /\
  nth_error (pool c') 0 <> Some (Ret tt).
Proof.
  intros Hz Hs Hok Hrun. apply (@th_stuck_seen cl).
  eapply run_invariant with (Inv := th_stuck cl); eauto.
  intros; eapply th_stuck_step; eauto.
Qed.

Lemma th_fetched_run cl v sb :
  xs = v :: sb ->
  run (th_setup ++ th_fetch) (throttle_init cl)
  = Some (th_cfg cl (ThTok v) OdHead false sb [v] [] [] [] [v]).
Proof.
  intros Hx. rewrite run_app, th_setup_run, Hx. reflexivity.
Qed.

Lemma th_fetched_stuck cl v sb :
  th_stuck cl (th_cfg cl (ThTok v) OdHead false sb [v] [] [] [] [v]).
Proof.
  eapply TH_stuck with (opc := OdHead); try reflexivity. constructor.
Qed.

End Throttle.



(** * What the combinators guarantee *)

(** ** Calls *)

(** The caller's own steps, up to the [return]. *)
Definition call_steps (n : nat) : list choice := repeat (Main 0) n.

(** The call fails before it has started a goroutine. *)
Definition rejected {R : Type} (cf : config R) : Prop :=
  exists n c,
    run (call_steps n) cf = Some c /\ panicked c = true /\ pool c = [].

(** The call returns to its caller. *)
Definition accepted {R : Type} (cf : config R) : Prop :=
  exists n c r,
    run (call_steps n) cf = Some c /\ main c = Ret r /\ panicked c = false.

Lemma call_steps_add {R : Type} n d (cf : config R) :
  run (call_steps (n + d)) cf
  = match run (call_steps n) cf with
    | Some c => run (call_steps d) c
    | None => None
    end.
Proof. unfold call_steps. rewrite repeat_app. apply run_app. Qed.

Lemma returned_is_final {R : Type} (c : config R) r d :
  main c = Ret r -> run (call_steps (S d)) c = None.
Proof.
  intros Hm. simpl. unfold step. rewrite Hm.
  destruct (panicked c); reflexivity.
Qed.

Lemma panicked_is_final {R : Type} (c : config R) d :
  panicked c = true -> run (call_steps (S d)) c = None.
Proof. intros Hp. simpl. unfold step. rewrite Hp. reflexivity. Qed.

(** A call does one or the other. *)
Lemma accepted_not_rejected {R : Type} (cf : config R) :
  accepted cf -> ~ rejected cf.
Proof.
  intros (n & c & r & Hrun & Hm & Hp) (n' & c' & Hrun' & Hp' & _).
  destruct (Nat.lt_trichotomy n n') as [Hlt|[Heq|Hgt]].
  - replace n' with (n + S (n' - n - 1))%nat in Hrun' by lia.
    rewrite call_steps_add, Hrun, (returned_is_final _ _ Hm) in Hrun'.
    discriminate.
  - subst n'. congruence.
  - replace n with (n' + S (n - n' - 1))%nat in Hrun by lia.
    rewrite call_steps_add, Hrun', (panicked_is_final _ _ Hp') in Hrun.
    discriminate.
Qed.

(** ** Take *)

Lemma firstn_repeat_le {A : Type} (x : A) k n :
  (k <= n)%nat -> firstn k (repeat x n) = repeat x k.
Proof.
  revert n; induction k as [|k IH]; intros n Hk; [reflexivity|].
  destruct n as [|n]; [lia|]. simpl. rewrite IH by lia. reflexivity.
Qed.

Lemma take_feed_padded xs num :
  (length xs <= take_count num)%nat ->
  firstn (take_count num) (take_feed xs true num)
  = xs ++ repeat VNil (take_count num - length xs).
Proof.
  intros Hlen. unfold take_feed.
  rewrite firstn_app, firstn_all2 by assumption.
  rewrite firstn_repeat_le by lia. reflexivity.
Qed.

Lemma take_feed_prefix xs cl num j :
  (j <= length xs)%nat -> firstn j (take_feed xs cl num) = firstn j xs.
Proof.
  intros Hj. unfold take_feed. destruct cl; [|reflexivity].
  rewrite firstn_app. replace (j - length xs)%nat with O by lia.
  simpl. apply app_nil_r.
Qed.

Lemma take_feed_length xs cl num :
  (length xs <= length (take_feed xs cl num))%nat.
Proof.
  unfold take_feed. destruct cl; [|lia]. rewrite length_app. lia.
Qed.

(** Claim C1: Take is to deliver the first min(K, available) elements of its
    source and then close, with nothing further emitted when the source
    closes early.  The code does not look at the closed flag of the source
    ([takeStream <- <-valueStream]): on a source that has been closed after
    fewer than K elements, and with nobody cancelling, Take delivers the
    elements of the source followed by nil values up to K deliveries, and
    only then closes.  There is such a run, and every run that ends with
    the output closed has delivered exactly that. *)
Theorem take_pads_closed_source (xs : list value) (num : Z) :
  (length xs < take_count num)%nat ->
  (exists sched c,
     forallb (env_may [Ch 2] []) sched = true /\
     run sched (take_init xs true num) = Some c /\
     panicked c = false /\ is_closed c (Ch 2) = true /\
     received c (Ch 2) = xs ++ repeat VNil (take_count num - length xs)) /\
  (forall sched c,
     forallb (env_may [Ch 2] [Ch 0]) sched = true ->
     run sched (take_init xs true num) = Some c ->
     is_closed c (Ch 2) = true -> is_closed c (Ch 0) = false ->
     received c (Ch 2) = xs ++ repeat VNil (take_count num - length xs)).
Proof.
  intros Hshort. split.
  - exists (tk_schedule num). eexists.
    split; [apply tk_schedule_ok|]. split.
    + apply tk_schedule_run. unfold take_feed.
      rewrite length_app, repeat_length. lia.
    + rewrite take_feed_padded by lia. repeat split.
  - intros sched c Hok Hrun Hclosed Hdone.
    destruct (take_runs xs true num sched Hok Hrun)
      as (_ & j & Hrc & _ & _ & Hj).
    rewrite Hrc, (Hj Hclosed Hdone).
    apply take_feed_padded. lia.
Qed.

Lemma take_pads_closed_source_witness :
  exists sched c,
    forallb (env_may [Ch 2] []) sched = true /\
    run sched (take_init [VInt 7] true 3) = Some c /\
    panicked c = false /\ is_closed c (Ch 2) = true /\
    received c (Ch 2) = [VInt 7; VNil; VNil].
Proof.
  apply (take_pads_closed_source [VInt 7] 3). vm_compute. lia.
Defined.

(** Take on a source that holds at least [K] elements: what the output
    has delivered is at any time a prefix of the first [K] elements of the
    source, no run panics, an output that is closed with nobody having
    cancelled has delivered exactly the first [K], and the run that
    delivers them and closes exists.  With [K = 0] that is a close with
    nothing delivered. *)
Theorem take_first_elements (xs : list value) (cl : bool) (num : Z) :
  (take_count num <= length xs)%nat ->
  (forall sched c,
     forallb (env_may [Ch 2] [Ch 0]) sched = true ->
     run sched (take_init xs cl num) = Some c ->
     panicked c = false /\
     (exists j, (j <= take_count num)%nat /\
                received c (Ch 2) = firstn j xs) /\
     (is_closed c (Ch 2) = true -> is_closed c (Ch 0) = false ->
      received c (Ch 2) = firstn (take_count num) xs)) /\
  (exists sched c,
     forallb (env_may [Ch 2] []) sched = true /\
     run sched (take_init xs cl num) = Some c /\
     panicked c = false /\ is_closed c (Ch 2) = true /\
     received c (Ch 2) = firstn (take_count num) xs).
Proof.
  intros Hlen. split.
  - intros sched c Hok Hrun.
    destruct (take_runs xs cl num sched Hok Hrun)
      as (Hp & j & Hrc & Hj & _ & Hall).
    rewrite take_feed_prefix in Hrc by lia.
    split; [assumption|]. split; [exists j; auto|].
    intros Hc Hd. rewrite Hrc, (Hall Hc Hd). reflexivity.
  - exists (tk_schedule num). eexists.
    split; [apply tk_schedule_ok|]. split.
    + apply tk_schedule_run.
      pose proof (take_feed_length xs cl num). lia.
    + rewrite take_feed_prefix by assumption. repeat split.
Qed.

Lemma take_first_elements_witness :
  exists sched c,
    forallb (env_may [Ch 2] []) sched = true /\
    run sched (take_init [VInt 1; VInt 2; VInt 3] false 2) = Some c /\
    panicked c = false /\ is_closed c (Ch 2) = true /\
    received c (Ch 2) = [VInt 1; VInt 2].
Proof.
  apply (take_first_elements [VInt 1; VInt 2; VInt 3] false 2).
  vm_compute. lia.
Defined.

(** ** RepeatValue *)

(** Claim C2: RepeatValue on an empty list is to close its output at once.
    In the code the outer [for] has no [select] to reach when the inner
    [range] has no round: in every run, cancelled or not, the output stays
    open with nothing delivered, and the worker, once started, can always
    take one more step that changes nothing. *)
Theorem repeat_empty_never_closes (sched : list choice) (c : config chan) :
  forallb (env_may [Ch 1] [Ch 0]) sched = true ->
  run sched rp_init = Some c ->
  panicked c = false /\ is_closed c (Ch 1) = false /\
  received c (Ch 1) = [] /\
  (pool c <> [] -> step c (Solo 0 0) = Some c).
Proof.
  intros Hok Hrun.
  assert (Hinv : rp_inv c).
  { eapply run_invariant with (Inv := rp_inv); eauto using rp_init_inv.
    intros; eapply rp_inv_step; eauto. }
  destruct (rp_inv_open Hinv) as (H1 & H2 & H3).
  repeat split; auto. apply rp_inv_spins. assumption.
Qed.

Definition rp_cancelled : config chan :=
  mkConfig (Ret (Ch 1)) [rp_spin]
    (mkWorld [done_st true; stream_st false []] []) false.

Lemma repeat_empty_never_closes_witness :
  is_closed rp_cancelled (Ch 0) = true /\
  is_closed rp_cancelled (Ch 1) = false /\
  step rp_cancelled (Solo 0 0) = Some rp_cancelled.
Proof.
  split; [reflexivity|].
  destruct (@repeat_empty_never_closes
              [Main 0; Main 0; Solo 0 0; EnvClose (Ch 0); Solo 0 0]
              rp_cancelled eq_refl eq_refl) as (_ & H2 & _ & H4).
  split; [exact H2|]. apply H4. discriminate.
Defined.

(** RepeatValue on a list that is not empty: in every run what the output
    has delivered is a start of the list repeated over and over, in list
    order, no run panics, and the output is not closed unless somebody
    has cancelled; any number of rounds can be delivered, and after any
    number of rounds a cancellation lets the worker close the output. *)
Theorem repeat_value_round_robin (values : list value) :
  values <> [] ->
  (forall sched c,
     forallb (env_may [Ch 1] [Ch 0]) sched = true ->
     run sched (rv_init values) = Some c ->
     panicked c = false /\ cyclic values (received c (Ch 1)) /\
     (is_closed c (Ch 1) = true -> is_closed c (Ch 0) = true)) /\
  (forall r,
     exists sched c,
       forallb (env_may [Ch 1] []) sched = true /\
       run sched (rv_init values) = Some c /\
       is_closed c (Ch 1) = false /\
       received c (Ch 1) = concat (repeat values r)) /\
  (forall r,
     exists sched c,
       forallb (env_may [Ch 1] [Ch 0]) sched = true /\
       run sched (rv_init values) = Some c /\
       is_closed c (Ch 1) = true /\
       received c (Ch 1) = concat (repeat values r)).
Proof.
  intros Hne. split; [|split].
  - intros sched c. apply repeat_value_runs.
  - apply repeat_value_rounds.
  - intros r. apply repeat_value_cancel. assumption.
Qed.

Lemma repeat_value_round_robin_witness :
  exists sched c,
    forallb (env_may [Ch 1] []) sched = true /\
    run sched (rv_init [VInt 1; VInt 2]) = Some c /\
    is_closed c (Ch 1) = false /\
    received c (Ch 1) = [VInt 1; VInt 2; VInt 1; VInt 2].
Proof.
  destruct (@repeat_value_round_robin [VInt 1; VInt 2]) as (_ & H & _).
  - discriminate.
  - apply (H 2%nat).
Defined.

(** ** Misuse *)

Lemma buffer_negative_rejected done inp limit h :
  limit < 0 ->
  rejected (init (UtilsGenerics.BufferChannel done inp limit) h).
Proof.
  intros Hneg. exists 1%nat. eexists. simpl. unfold step; simpl.
  replace (limit <? 0) with true by (symmetry; apply Z.ltb_lt; assumption).
  repeat split.
Qed.

Lemma throttle_negative_rejected done inp limit h :
  limit < 0 ->
  rejected (init (UtilsTyped.ThrottleChannel done inp limit) h).
Proof.
  intros Hneg. exists 2%nat. eexists. simpl. unfold step; simpl.
  replace (limit <? 0) with true by (symmetry; apply Z.ltb_lt; assumption).
  repeat split.
Qed.

Lemma buffer_accepted done inp limit h :
  0 <= limit <= chan_cap_bound ->
  accepted (init (UtilsGenerics.BufferChannel done inp limit) h).
Proof.
  intros [Hpos _]. exists 2%nat. eexists. eexists. simpl. unfold step; simpl.
  replace (limit <? 0) with false by (symmetry; apply Z.ltb_ge; assumption).
  simpl. repeat split.
Qed.

Lemma throttle_accepted done inp limit h :
  0 <= limit <= chan_cap_bound ->
  accepted (init (UtilsTyped.ThrottleChannel done inp limit) h).
Proof.
  intros [Hpos _]. exists 3%nat. eexists. eexists. simpl. unfold step; simpl.
  replace (limit <? 0) with false by (symmetry; apply Z.ltb_ge; assumption).
  simpl. repeat split.
Qed.

Lemma take_accepted done src num h :
  accepted (init (Utils.TakeChannel done src num) h).
Proof.
  exists 2%nat. eexists. eexists. simpl. repeat split.
Qed.

(** Take with a count that is not positive delivers nothing. *)
Lemma take_nothing xs cl num sched c :
  num <= 0 ->
  forallb (env_may [Ch 2] [Ch 0]) sched = true ->
  run sched (take_init xs cl num) = Some c ->
  panicked c = false /\ received c (Ch 2) = [].
Proof.
  intros Hnum Hok Hrun.
  destruct (take_runs xs cl num sched Hok Hrun) as (Hp & j & Hrc & Hj & _).
  split; [assumption|].
  unfold take_count in Hj. replace (Z.to_nat num) with O in Hj by lia.
  replace j with O in Hrc by lia. exact Hrc.
Qed.

Lemma take_nothing_closes xs cl num :
  num <= 0 ->
  exists sched c,
    forallb (env_may [Ch 2] []) sched = true /\
    run sched (take_init xs cl num) = Some c /\ is_closed c (Ch 2) = true.
Proof.
  intros Hnum. exists (tk_schedule num). eexists.
  split; [apply tk_schedule_ok|]. split.
  - apply tk_schedule_run. unfold take_count.
    replace (Z.to_nat num) with O by lia. lia.
  - reflexivity.
Qed.

(** Claim C3, as the code has it: none of the functions checks its
    arguments.  A negative capacity makes [make] panic in the caller, in
    BufferChannel before anything else has happened and in ThrottleChannel
    after the output has been made, in both before a goroutine is started.
    A capacity from zero up to [chan_cap_bound] is accepted by both, and
    every count is accepted by Take, where a count that is not positive
    gives a stream that delivers nothing and can close right away. *)
Theorem misuse_is_not_validated (done inp : chan) (k : Z)
    (h : list chan_state) :
  (k < 0 ->
   rejected (init (UtilsGenerics.BufferChannel done inp k) h) /\
   rejected (init (UtilsTyped.ThrottleChannel done inp k) h)) /\
  (0 <= k <= chan_cap_bound ->
   accepted (init (UtilsGenerics.BufferChannel done inp k) h) /\
   accepted (init (UtilsTyped.ThrottleChannel done inp k) h)) /\
  accepted (init (Utils.TakeChannel done inp k) h) /\
  ~ rejected (init (Utils.TakeChannel done inp k) h) /\
  (k <= 0 ->
   forall xs cl,
     (forall sched c,
        forallb (env_may [Ch 2] [Ch 0]) sched = true ->
        run sched (take_init xs cl k) = Some c ->
        panicked c = false /\ received c (Ch 2) = []) /\
     (exists sched c,
        forallb (env_may [Ch 2] []) sched = true /\
        run sched (take_init xs cl k) = Some c /\
        is_closed c (Ch 2) = true)).
Proof.
  split; [|split; [|split; [|split]]].
  - intros Hneg. split.
    + apply buffer_negative_rejected. assumption.
    + apply throttle_negative_rejected. assumption.
  - intros Hpos. split.
    + apply buffer_accepted. assumption.
    + apply throttle_accepted. assumption.
  - apply take_accepted.
  - apply accepted_not_rejected. apply take_accepted.
  - intros Hk xs cl. split.
    + intros sched c. apply take_nothing. assumption.
    + apply take_nothing_closes. assumption.
Qed.

Lemma misuse_is_not_validated_witness :
  rejected (init (UtilsGenerics.BufferChannel (Ch 0) (Ch 1) (-1))
              [open_chan; source [VInt 1] true]) /\
  rejected (init (UtilsTyped.ThrottleChannel (Ch 0) (Ch 1) (-1))
              [open_chan; source [VInt 1] true]).
Proof.
  apply (misuse_is_not_validated (Ch 0) (Ch 1) (-1)
           [open_chan; source [VInt 1] true]).
  lia.
Defined.

(** Take with a negative count and BufferChannel with capacity zero are
    not rejected: the calls return. *)
Lemma misuse_accepted_counterexample :
  ~ rejected (init (Utils.TakeChannel (Ch 0) (Ch 1) (-1))
                [open_chan; source [VInt 1] true]) /\
  ~ rejected (init (UtilsGenerics.BufferChannel (Ch 0) (Ch 1) 0)
                [open_chan; source [VInt 1] true]) /\
  ~ rejected (init (UtilsTyped.ThrottleChannel (Ch 0) (Ch 1) 0)
                [open_chan; source [VInt 1] true]).
Proof.
  repeat split; apply accepted_not_rejected.
  - apply take_accepted.
  - apply buffer_accepted. unfold chan_cap_bound. lia.
  - apply throttle_accepted. unfold chan_cap_bound. lia.
Qed.

(** ** Typed extraction *)





(** ** Or *)

Lemma set_chan_length w c cs :
  length (heap (set_chan w c cs)) = length (heap w).
Proof. destruct c; simpl; [reflexivity|apply upd_length]. Qed.

(** A caller that has its result and has started nothing. *)
Definition plain_return {R : Type} (r : R) (n : nat) (cf : config R) : Prop :=
  main cf = Ret r /\ pool cf = [] /\ length (heap (st cf)) = n /\
  panicked cf = false.

Lemma plain_return_step {R : Type} (r : R) n cf ch cf' :
  plain_return r n cf -> step cf ch = Some cf' -> plain_return r n cf'.
Proof.
  destruct cf as [m p w pk]. intros (Hm & Hp & Hh & Hk); simpl in *.
  subst m p pk. unfold step; simpl.
  destruct ch as [a|i a|i a j b|c i a|c|c]; simpl.
  - discriminate.
  - destruct i; discriminate.
  - destruct (Nat.eqb i j); [discriminate|]. destruct i; discriminate.
  - destruct i; discriminate.
  - destruct (get_chan w c) as [cs|]; [|discriminate].
    destruct (buf cs); [discriminate|]. intros H. injection H as <-.
    repeat split; simpl. rewrite set_chan_length. assumption.
  - destruct (get_chan w c) as [cs|]; [|discriminate].
    destruct (closed cs); [discriminate|]. intros H. injection H as <-.
    repeat split; simpl. rewrite set_chan_length. assumption.
Qed.

Lemma plain_return_runs {R : Type} (r : R) h sched cf :
  run sched (init (Ret r) h) = Some cf -> plain_return r (length h) cf.
Proof.
  intros Hrun.
  apply (@run_invariant R (fun _ => true) (plain_return r (length h)))
    with (sched := sched) (c := init (Ret r) h); auto.
  - intros c ch c' Hc _ Hstep. eapply plain_return_step; eauto.
  - apply forallb_forall. reflexivity.
  - repeat split.
Qed.

(** A goroutine that waits for a nil channel waits for good. *)
Lemma nil_recv_stuck {R : Type} (cf cf' : config R) i k ch :
  nth_error (pool cf) i = Some (recv NilChan k) ->
  step cf ch = Some cf' ->
  nth_error (pool cf') i = Some (recv NilChan k).
Proof.
  intros Hi. unfold step.
  assert (Hlen : (i < length (pool cf))%nat)
    by (apply nth_error_Some; congruence).
  destruct (panicked cf); [discriminate|].
  destruct ch as [a|j a|j a l b|c j a|c|c].
  - destruct (solo (main cf) a (st cf)); try discriminate;
      intros H; injection H as <-; simpl; [assumption|].
    rewrite nth_error_app1 by assumption. assumption.
  - destruct (nth_error (pool cf) j) as [t|] eqn:Ej; [|discriminate].
    destruct (solo t a (st cf)) as [| |p w sp] eqn:Es; try discriminate;
      intros H; injection H as <-; simpl; [assumption|].
    destruct (Nat.eq_dec j i) as [->|Hne].
    + rewrite Hi in Ej. injection Ej as <-.
      destruct a as [|[|a]]; discriminate.
    + rewrite nth_error_app1 by (rewrite upd_length; assumption).
      rewrite nth_error_upd_neq by assumption. assumption.
  - destruct (Nat.eqb j l) eqn:Ejl; [discriminate|].
    destruct (nth_error (pool cf) j) as [tj|] eqn:Ej; [|discriminate].
    destruct (nth_error (pool cf) l) as [tl|] eqn:El; [|discriminate].
    destruct (send_offer tj a) as [[[c v] kk]|] eqn:Es; [|discriminate].
    destruct (recv_offer tl b) as [[c' k']|] eqn:Er; [|discriminate].
    destruct (chan_eqb c c') eqn:Ec; [|discriminate].
    destruct (handover (st cf) c v) as [w|] eqn:Eh; [|discriminate].
    intros H; injection H as <-; simpl.
    destruct (Nat.eq_dec j i) as [->|Hj].
    { rewrite Hi in Ej. injection Ej as <-.
      destruct a as [|[|a]]; discriminate. }
    destruct (Nat.eq_dec l i) as [->|Hl].
    { rewrite Hi in El. injection El as <-. exfalso.
      destruct b as [|[|b]]; try discriminate.
      injection Er as <- _. destruct c; [|discriminate].
      discriminate. }
    rewrite !nth_error_upd_neq by assumption. assumption.
  - destruct (nth_error (pool cf) j) as [tj|] eqn:Ej; [|discriminate].
    destruct (send_offer tj a) as [[[c' v] kk]|] eqn:Es; [|discriminate].
    destruct (chan_eqb c c'); [|discriminate].
    destruct (handover (st cf) c v) as [w|]; [|discriminate].
    intros H; injection H as <-; simpl.
    destruct (Nat.eq_dec j i) as [->|Hj].
    { rewrite Hi in Ej. injection Ej as <-.
      destruct a as [|[|a]]; discriminate. }
    rewrite nth_error_upd_neq by assumption. assumption.
  - destruct (get_chan (st cf) c) as [cs|]; [|discriminate].
    destruct (buf cs); [discriminate|].
    intros H; injection H as <-; simpl. assumption.
  - destruct (get_chan (st cf) c) as [cs|]; [|discriminate].
    destruct (closed cs); [discriminate|].
    intros H; injection H as <-; simpl. assumption.
Qed.

(** Claim C7: Or of no channel returns the nil channel, in both packages:
    no state has it fired, and a goroutine that waits for it is still
    waiting after any step of anybody.  Or of one channel returns that
    channel at once: in every run from the call nothing is started and no
    channel is made. *)
Theorem or_of_none_and_of_one :
  (Utils.OrChannel [] = Ret NilChan /\
   UtilsGenerics.OrChannel [] = Ret NilChan) /\
  (forall cf : config chan, fired cf NilChan = false) /\
  (forall (cf cf' : config chan) i k ch,
     nth_error (pool cf) i = Some (recv NilChan k) ->
     step cf ch = Some cf' ->
     nth_error (pool cf') i = Some (recv NilChan k)) /\
  (forall c0, Utils.OrChannel [c0] = Ret c0 /\
              UtilsGenerics.OrChannel [c0] = Ret c0) /\
  (forall c0 h sched cf,
     run sched (init (Utils.OrChannel [c0]) h) = Some cf ->
     main cf = Ret c0 /\ pool cf = [] /\
     length (heap (st cf)) = length h /\ panicked cf = false).
Proof.
  split; [split; reflexivity|]. split; [reflexivity|].
  split; [intros; eapply nil_recv_stuck; eauto|].
  split; [intros; split; reflexivity|].
  intros c0 h sched cf Hrun.
  apply (plain_return_runs c0 h sched Hrun).
Qed.

(** ** The two packages *)

(** Two calls that behave the same under every schedule. *)
Definition same_runs {R : Type} (p q : proc R) : Prop :=
  forall h sched, run sched (init p h) = run sched (init q h).

(** Claim C9: each combinator of package utils and its namesake of package
    utils_generics give the same configurations, and so the same output
    streams, under every schedule from every initial heap; the generators
    are those of utils in its second file. *)
Theorem packages_agree :
  (forall channels,
     same_runs (Utils.OrChannel channels) (UtilsGenerics.OrChannel channels)) /\
  (forall done values,
     same_runs (Utils.RepeatValue done values)
       (UtilsGenerics.RepeatValueChannel done values)) /\
  (forall done fn,
     same_runs (Utils.RepeatFn done fn)
       (UtilsGenerics.RepeatFnChannel done fn)) /\
  (forall done valueStream num,
     same_runs (Utils.TakeChannel done valueStream num)
       (UtilsGenerics.TakeChannel done valueStream num)) /\
  (forall done c,
     same_runs (Utils.OrDoneChannel done c)
       (UtilsGenerics.OrDoneChannel done c)) /\
  (forall done channels,
     same_runs (Utils.FanInChannel done channels)
       (UtilsGenerics.FanInChannel done channels)) /\
  (forall done inp,
     same_runs (Utils.TeeChannel done inp)
       (UtilsGenerics.TeeChannel done inp)) /\
  (forall done chanStream,
     same_runs (Utils.BridgeChannel done chanStream)
       (UtilsGenerics.BridgeChannel done chanStream)) /\
  (forall done slice,
     same_runs (UtilsTyped.GeneratorToChannel done slice)
       (UtilsGenerics.GeneratorToChannel done slice)) /\
  (forall done slice,
     same_runs (UtilsTyped.GeneratorFromStringArrayToChannel done slice)
       (UtilsGenerics.GeneratorFromStringArrayToChannel done slice)).
Proof.
  repeat split; intros; intros h sched; reflexivity.
Qed.

(** ** Tee *)

(** Somebody cancels right after the start: the relay and then Tee leave
    their loops. *)
Definition te_cancel_sched : list choice :=
  te_setup ++
  [EnvClose (Ch 0); Solo 1 0; Solo 1 0; Solo 1 0;
   Solo 0 0; Solo 0 0; Solo 0 0; Solo 0 0].

Lemma te_cancel_run xs cl :
  run te_cancel_sched (tee_init xs cl)
  = Some (te_cfg xs cl TeDone OdDone true xs [] [] [] []).
Proof. reflexivity. Qed.

(** Claim C5: with nobody cancelling, what each of the two streams of Tee
    has delivered is at any time a prefix of the source; once both are
    closed each has delivered the whole source, so the two sequences have
    the length of the source and are equal to it and to each other.  On a
    source that is closed after its elements the run that drains both
    exists. *)
Theorem tee_duplicates (xs : list value) :
  (forall cl sched c,
     forallb (env_may [Ch 2; Ch 3] [Ch 0]) sched = true ->
     run sched (tee_init xs cl) = Some c ->
     is_closed c (Ch 0) = false ->
     (exists l1, received c (Ch 2) ++ l1 = xs) /\
     (exists l2, received c (Ch 3) ++ l2 = xs) /\
     (is_closed c (Ch 2) = true -> is_closed c (Ch 3) = true ->
      received c (Ch 2) = xs /\ received c (Ch 3) = xs /\
      length (received c (Ch 2)) = length xs /\
      length (received c (Ch 3)) = length xs)) /\
  (exists sched c,
     forallb (env_may [Ch 2; Ch 3] []) sched = true /\
     run sched (tee_init xs true) = Some c /\
     is_closed c (Ch 0) = false /\
     is_closed c (Ch 2) = true /\ is_closed c (Ch 3) = true /\
     received c (Ch 2) = xs /\ received c (Ch 3) = xs).
Proof.
  split.
  - intros cl sched c Hok Hrun Hdone.
    pose proof (tee_runs xs cl sched Hok Hrun) as Hinv.
    destruct (tee_inv_received Hinv Hdone) as (H1 & H2 & H3 & H4).
    split; [assumption|]. split; [assumption|].
    intros Hc1 Hc2. destruct (H3 Hc1) as [E1 _]. destruct (H4 Hc2) as [E2 _].
    rewrite E1, E2. repeat split.
  - exists (te_schedule xs). eexists.
    split; [apply te_schedule_ok|]. split; [apply te_schedule_run|].
    repeat split.
Qed.

Lemma tee_duplicates_witness :
  exists sched c,
    forallb (env_may [Ch 2; Ch 3] []) sched = true /\
    run sched (tee_init [VInt 1; VInt 2; VInt 3] true) = Some c /\
    is_closed c (Ch 0) = false /\
    is_closed c (Ch 2) = true /\ is_closed c (Ch 3) = true /\
    received c (Ch 2) = [VInt 1; VInt 2; VInt 3] /\
    received c (Ch 3) = [VInt 1; VInt 2; VInt 3].
Proof.
  apply (tee_duplicates [VInt 1; VInt 2; VInt 3]).
Defined.

(** Claim C10: in every run of Tee, cancelled or not and whatever the
    source does, a Tee worker that has returned has closed both outputs,
    and the second output is never closed with the first still open.  The
    worker does return both ways: when somebody cancels, and when the
    source is closed and drained. *)
Theorem tee_exit_closes_both (xs : list value) (cl : bool) :
  (forall sched c,
     forallb (env_may [Ch 2; Ch 3] [Ch 0]) sched = true ->
     run sched (tee_init xs cl) = Some c ->
     (nth_error (pool c) 0 = Some (Ret tt) ->
      is_closed c (Ch 2) = true /\ is_closed c (Ch 3) = true) /\
     (is_closed c (Ch 3) = true -> is_closed c (Ch 2) = true)) /\
  (exists sched c,
     forallb (env_may [Ch 2; Ch 3] [Ch 0]) sched = true /\
     run sched (tee_init xs cl) = Some c /\
     is_closed c (Ch 0) = true /\ nth_error (pool c) 0 = Some (Ret tt)) /\
  (exists sched c,
     forallb (env_may [Ch 2; Ch 3] [Ch 0]) sched = true /\
     run sched (tee_init xs true) = Some c /\
     is_closed c (Ch 0) = false /\ nth_error (pool c) 0 = Some (Ret tt)).
Proof.
  split; [|split].
  - intros sched c Hok Hrun.
    pose proof (tee_runs xs cl sched Hok Hrun) as Hinv. split.
    + apply (tee_inv_exit Hinv).
    + apply (tee_inv_order Hinv).
  - exists te_cancel_sched. eexists.
    split; [reflexivity|]. split; [apply te_cancel_run|].
    split; reflexivity.
  - exists (te_schedule xs). eexists.
    split; [apply te_schedule_ok|]. split; [apply te_schedule_run|].
    split; reflexivity.
Qed.

Lemma tee_exit_closes_both_witness :
  is_closed (te_cfg [VInt 1] false TeDone OdDone true [VInt 1] [] [] [] [])
    (Ch 2) = true /\
  is_closed (te_cfg [VInt 1] false TeDone OdDone true [VInt 1] [] [] [] [])
    (Ch 3) = true.
Proof.
  destruct (tee_exit_closes_both [VInt 1] false) as [H _].
  apply (H te_cancel_sched
           (te_cfg [VInt 1] false TeDone OdDone true [VInt 1] [] [] [] []));
    reflexivity.
Defined.

(** ** Bridge *)

(** Claim C4: Bridge over an outer stream that holds the inner streams
    [xss] in order, each closed after its elements.  With nobody
    cancelling, what the output has delivered is at any time a prefix of
    the concatenation of the inner streams in the order of the outer
    stream, and it is that concatenation once the output is closed; no run
    panics; and the run that delivers everything and closes the output
    exists. *)
Theorem bridge_concatenates (xss : list (list value)) :
  (forall sched c,
     forallb (env_may [Ch (2 + length xss)] [Ch 0]) sched = true ->
     run sched (bridge_init (length xss) xss) = Some c ->
     panicked c = false /\
     (is_closed c (Ch 0) = false ->
      (exists rest, received c (Ch (2 + length xss)) ++ rest = concat xss) /\
      (is_closed c (Ch (2 + length xss)) = true ->
       received c (Ch (2 + length xss)) = concat xss))) /\
  (exists sched c,
     forallb (env_may [Ch (2 + length xss)] [Ch 0]) sched = true /\
     run sched (bridge_init (length xss) xss) = Some c /\
     is_closed c (Ch 0) = false /\
     is_closed c (Ch (2 + length xss)) = true /\
     received c (Ch (2 + length xss)) = concat xss).
Proof.
  split.
  - intros sched c. apply bridge_runs. reflexivity.
  - destruct (@bridge_completes (length xss) xss eq_refl)
      as (sched & c & Hok & Hrun & Hc & Hd).
    exists sched, c. repeat split; auto.
    destruct (@bridge_runs (length xss) xss eq_refl sched c Hok Hrun)
      as [_ H].
    apply H; assumption.
Qed.

(** Ten inner streams with one element each, 0 to 9. *)
Definition ten_streams : list (list value) :=
  map (fun i => [VInt (Z.of_nat i)]) (seq 0 10).

Lemma bridge_concatenates_witness :
  exists sched c,
    forallb (env_may [Ch 12] [Ch 0]) sched = true /\
    run sched (bridge_init 10 ten_streams) = Some c /\
    is_closed c (Ch 0) = false /\ is_closed c (Ch 12) = true /\
    received c (Ch 12)
    = [VInt 0; VInt 1; VInt 2; VInt 3; VInt 4; VInt 5; VInt 6; VInt 7;
       VInt 8; VInt 9].
Proof.
  apply (bridge_concatenates ten_streams).
Defined.

(** ** FanIn *)

(** Claim C8: FanIn over the sources [xss], each closed after its
    elements.  With nobody cancelling, what the output has delivered is at
    any time part of the values of the sources; once the output is closed
    it is a permutation of all of them and every source is empty, so the
    output is not closed before the last source is drained; no run panics;
    the run that delivers everything and closes the output exists; and
    with no source at all the output is closed after the steps of the
    caller and two steps of the closing goroutine. *)
Theorem fanin_merges (xss : list (list value)) :
  (forall sched c,
     forallb (env_may [Ch (1 + length xss)] [Ch 0]) sched = true ->
     run sched (fanin_init (length xss) xss) = Some c ->
     panicked c = false /\
     (is_closed c (Ch 0) = false ->
      (exists rest,
         Permutation (received c (Ch (1 + length xss)) ++ rest)
           (concat xss)) /\
      (is_closed c (Ch (1 + length xss)) = true ->
       Permutation (received c (Ch (1 + length xss))) (concat xss) /\
       forall i, (i < length xss)%nat -> pending c (fi_source i) = []))) /\
  (exists sched c,
     forallb (env_may [Ch (1 + length xss)] [Ch 0]) sched = true /\
     run sched (fanin_init (length xss) xss) = Some c /\
     is_closed c (Ch 0) = false /\
     is_closed c (Ch (1 + length xss)) = true /\
     Permutation (received c (Ch (1 + length xss))) (concat xss)) /\
  (exists c,
     run [Main 0; Main 0; Main 0; Main 0; Solo 0 0; Solo 0 0]
       (fanin_init 0 []) = Some c /\
     is_closed c (Ch 1) = true /\ received c (Ch 1) = []).
Proof.
  split; [|split].
  - intros sched c. apply fanin_runs. reflexivity.
  - destruct (@fanin_completes (length xss) xss eq_refl)
      as (sched & c & Hok & Hrun & Hc & Hd).
    exists sched, c. repeat split; auto.
    destruct (@fanin_runs (length xss) xss eq_refl sched c Hok Hrun)
      as [_ H].
    apply H; assumption.
  - eexists. split; [reflexivity|]. split; reflexivity.
Qed.

Lemma fanin_merges_witness :
  exists sched c,
    forallb (env_may [Ch 3] [Ch 0]) sched = true /\
    run sched (fanin_init 2 [[VInt 1; VInt 2]; [VInt 3]]) = Some c /\
    is_closed c (Ch 0) = false /\ is_closed c (Ch 3) = true /\
    Permutation (received c (Ch 3)) [VInt 1; VInt 2; VInt 3].
Proof.
  apply (fanin_merges [[VInt 1; VInt 2]; [VInt 3]]).
Defined.

(** * What the rest of the code guarantees *)

(** The conversion of a stream all of whose elements have the target
    type: no run panics, what has been delivered is always a prefix of
    the input, unchanged; an output closed with nobody having cancelled
    has delivered the whole input, which was closed; and on a closed input
    the run that delivers everything and closes the output exists. *)
Theorem typed_extraction_of_well_typed (T : gotype) (xs : list value) :
  forallb (well_typed T) xs = true ->
  (forall cl sched c,
     forallb (env_may [Ch 2] [Ch 0]) sched = true ->
     run sched (tx_init T xs cl) = Some c ->
     panicked c = false /\
     (exists m, received c (Ch 2) = firstn m xs) /\
     (is_closed c (Ch 2) = true -> is_closed c (Ch 0) = false ->
      received c (Ch 2) = xs /\ cl = true)) /\
  (exists sched c,
     forallb (env_may [Ch 2] []) sched = true /\
     run sched (tx_init T xs true) = Some c /\
     panicked c = false /\ is_closed c (Ch 2) = true /\
     received c (Ch 2) = xs).
Proof.
  intros Hwt. split.
  - intros cl sched c Hok Hrun.
    destruct (typed_runs T xs cl sched Hok Hrun)
      as (m & (Hrc & Hm & _) & Hpanic & Hclosed).
    split; [|split].
    + destruct (panicked c) eqn:Hp; [|reflexivity].
      destruct (Hpanic eq_refl) as (Hlt & Hill & _).
      rewrite (well_typed_nth T xs Hwt Hlt) in Hill. discriminate.
    + exists m. assumption.
    + intros Hc Hd.
      destruct (Hclosed Hc) as [Hd'|[(Hcl & Hall & _)|(Hlt & Hill)]].
      * congruence.
      * subst m. rewrite firstn_all in Hrc. auto.
      * rewrite (well_typed_nth T xs Hwt Hlt) in Hill. discriminate.
  - exists (tx_full_schedule (length xs)). eexists.
    split; [|split; [apply tx_full_run; assumption|repeat split]].
    unfold tx_full_schedule. rewrite !forallb_app, worker_rounds_ok.
    reflexivity.
Qed.

Lemma typed_extraction_of_well_typed_witness :
  exists sched c,
    forallb (env_may [Ch 2] []) sched = true /\
    run sched (tx_init TString [VStr "tom"; VStr "dick"; VStr "harry"] true)
    = Some c /\
    panicked c = false /\ is_closed c (Ch 2) = true /\
    received c (Ch 2) = [VStr "tom"; VStr "dick"; VStr "harry"].
Proof.
  apply (@typed_extraction_of_well_typed TString
           [VStr "tom"; VStr "dick"; VStr "harry"]).
  reflexivity.
Defined.

(** OrDoneChannel: no run panics; with nobody having cancelled, what the
    relay has passed on is a prefix of its input, and once its stream is
    closed it is the whole input, which was closed; on a closed input the
    run that passes everything on and closes exists; and after any number
    of deliveries a cancellation lets the relay close its stream without
    another delivery. *)
Theorem ordone_relays (xs : list value) :
  (forall cl sched c,
     forallb (env_may [Ch 2] [Ch 0]) sched = true ->
     run sched (ordone_init xs cl) = Some c ->
     panicked c = false /\
     (is_closed c (Ch 0) = false ->
      (exists m, received c (Ch 2) = firstn m xs) /\
      (is_closed c (Ch 2) = true -> received c (Ch 2) = xs /\ cl = true))) /\
  (exists sched c,
     forallb (env_may [Ch 2] []) sched = true /\
     run sched (ordone_init xs true) = Some c /\
     is_closed c (Ch 2) = true /\ received c (Ch 2) = xs) /\
  (forall cl k, (k <= length xs)%nat ->
     exists sched c,
       forallb (env_may [Ch 2] [Ch 0]) sched = true /\
       run sched (ordone_init xs cl) = Some c /\
       is_closed c (Ch 0) = true /\ is_closed c (Ch 2) = true /\
       received c (Ch 2) = firstn k xs).
Proof.
  split; [|split].
  - intros cl sched c. apply ordone_runs.
  - exists (odr_schedule (length xs)). eexists.
    split; [|split; [apply odr_schedule_run|split; reflexivity]].
    unfold odr_schedule. rewrite !forallb_app, odr_rounds_ok. reflexivity.
  - intros cl k Hk. exists (odr_cancel_sched k). eexists.
    split; [|split; [apply odr_cancel_run; assumption|repeat split]].
    unfold odr_cancel_sched. rewrite !forallb_app, odr_rounds_ok.
    reflexivity.
Qed.

Lemma ordone_relays_witness :
  exists sched c,
    forallb (env_may [Ch 2] [Ch 0]) sched = true /\
    run sched (ordone_init [VInt 1; VInt 2; VInt 3] false) = Some c /\
    is_closed c (Ch 0) = true /\ is_closed c (Ch 2) = true /\
    received c (Ch 2) = [VInt 1; VInt 2].
Proof.
  destruct (ordone_relays [VInt 1; VInt 2; VInt 3]) as (_ & _ & H).
  apply (H false 2%nat). simpl. lia.
Defined.

(** Once somebody has cancelled, OrDone can lose a value and still
    deliver the one that follows: the reader then sees the second value
    of the input without having seen the first. *)
Theorem ordone_skips_once_cancelled
    (a b : value) (rest : list value) (cl : bool) :
  exists c,
    forallb (env_may [Ch 2] [Ch 0]) odr_skip_sched = true /\
    run odr_skip_sched (ordone_init (a :: b :: rest) cl) = Some c /\
    panicked c = false /\
    is_closed c (Ch 0) = true /\ is_closed c (Ch 2) = false /\
    received c (Ch 2) = [b] /\
    received c (Ch 1) = [a; b].
Proof.
  exists (odr_cfg (a :: b :: rest) cl OdHead true 2 false [b]).
  split; [reflexivity|]. split; [reflexivity|]. repeat split.
Qed.

(** RepeatFn, where [fn n] is what call [n] of the function returns: in
    every run the output has delivered the results of the first calls, one
    per call and in the order of the calls, no run panics, and the output
    is not closed unless somebody has cancelled; any number of results can
    be delivered, and after any number of them a cancellation lets the
    worker close the output. *)
Theorem repeatfn_in_call_order (fn : nat -> value) :
  (forall sched c,
     forallb (env_may [Ch 1] [Ch 0]) sched = true ->
     run sched (repeatfn_init fn) = Some c ->
     panicked c = false /\
     (exists n, received c (Ch 1) = map fn (seq 0 n)) /\
     (is_closed c (Ch 1) = true -> is_closed c (Ch 0) = true)) /\
  (forall k,
     exists sched c,
       forallb (env_may [Ch 1] []) sched = true /\
       run sched (repeatfn_init fn) = Some c /\
       is_closed c (Ch 1) = false /\
       received c (Ch 1) = map fn (seq 0 k)) /\
  (forall k,
     exists sched c,
       forallb (env_may [Ch 1] [Ch 0]) sched = true /\
       run sched (repeatfn_init fn) = Some c /\
       is_closed c (Ch 1) = true /\
       received c (Ch 1) = map fn (seq 0 k)).
Proof.
  split; [|split].
  - intros sched c. apply repeatfn_runs.
  - apply repeatfn_delivers.
  - apply repeatfn_cancels.
Qed.

(** Take of RepeatFn, as the tests chain them.  No run panics; with
    nobody having cancelled, what the output has delivered are the
    results of the first calls of [fn], in call order and never more than
    [num] of them, and exactly [num] of them (none when [num] is
    negative) once the output is closed.  The run that delivers them and
    closes the output, with nobody cancelling, exists. *)
Theorem take_of_repeatfn (fn : nat -> value) (num : Z) :
  (forall sched c,
     forallb (env_may [Ch 2] [Ch 0]) sched = true ->
     run sched (take_repeatfn_init fn num) = Some c ->
     panicked c = false /\
     (is_closed c (Ch 0) = false ->
      (exists m, (m <= Z.to_nat num)%nat /\
                 received c (Ch 2) = map fn (seq 0 m)) /\
      (is_closed c (Ch 2) = true ->
       received c (Ch 2) = map fn (seq 0 (Z.to_nat num))))) /\
  (exists sched c,
     forallb (env_may [Ch 2] []) sched = true /\
     run sched (take_repeatfn_init fn num) = Some c /\
     is_closed c (Ch 0) = false /\ is_closed c (Ch 2) = true /\
     received c (Ch 2) = map fn (seq 0 (Z.to_nat num))).
Proof.
  split.
  - intros sched c. apply take_repeatfn_runs.
  - exists (tr_schedule num). eexists.
    split; [apply tr_schedule_ok|].
    split; [apply tr_schedule_run|]. repeat split.
Qed.

(** The generator: in every run what has been received, then what waits
    in the buffer, is a prefix of the slice, in order, and an output closed
    with nobody having cancelled holds the whole slice; with no reader at
    all the worker puts the whole slice in the buffer, closes the channel
    and ends; and a reader that comes afterwards receives the slice. *)
Theorem generator_buffers_the_slice (slice : list value) :
  (forall sched c,
     forallb (env_may [Ch 1] [Ch 0]) sched = true ->
     run sched (generator_init slice) = Some c ->
     panicked c = false /\
     (exists tail,
        slice = received c (Ch 1) ++ pending c (Ch 1) ++ tail) /\
     (is_closed c (Ch 1) = true -> is_closed c (Ch 0) = false ->
      slice = received c (Ch 1) ++ pending c (Ch 1))) /\
  (exists sched c,
     forallb (env_may [] []) sched = true /\
     run sched (generator_init slice) = Some c /\
     pool c = [Ret tt] /\
     st c = mkWorld [open_chan; source slice true] []) /\
  (exists sched c,
     forallb (env_may [Ch 1] []) sched = true /\
     run sched (generator_init slice) = Some c /\
     is_closed c (Ch 1) = true /\
     received c (Ch 1) = slice /\ pending c (Ch 1) = []).
Proof.
  split; [|split].
  - intros sched c Hok Hrun.
    destruct (generator_runs slice sched Hok Hrun) as (Hp & Ht & _ & Hc).
    auto.
  - exists (gn_alone slice). eexists.
    split; [apply gn_alone_ok|].
    split; [apply gn_alone_run|]. split; reflexivity.
  - exists (gn_alone slice ++ repeat (EnvTake (Ch 1)) (length slice)).
    eexists. split; [apply gn_drained_ok|].
    split; [apply gn_drained_run|]. repeat split.
Qed.

(** Or of two and of three channels: in no run does the output deliver a
    value or panic, and it is closed only when one of the inputs has been
    closed; whichever input is closed, alone, the run in which the output
    is closed after it exists. *)
Theorem or_fires_after_an_input :
  (forall sched c,
     forallb (env_may [Ch 2] [Ch 0; Ch 1]) sched = true ->
     run sched or2_init = Some c ->
     panicked c = false /\ received c (Ch 2) = [] /\
     (is_closed c (Ch 2) = true ->
      is_closed c (Ch 0) = true \/ is_closed c (Ch 1) = true)) /\
  (forall i, (i < 2)%nat ->
     exists c,
       run (or_fire_sched i) or2_init = Some c /\
       is_closed c (Ch 2) = true /\
       forall j, (j < 2)%nat -> is_closed c (Ch j) = Nat.eqb j i) /\
  (forall sched c,
     forallb (env_may [Ch 3] [Ch 0; Ch 1; Ch 2]) sched = true ->
     run sched or3_init = Some c ->
     panicked c = false /\ received c (Ch 3) = [] /\
     (is_closed c (Ch 3) = true ->
      is_closed c (Ch 0) = true \/ is_closed c (Ch 1) = true \/
      is_closed c (Ch 2) = true)) /\
  (forall i, (i < 3)%nat ->
     exists c,
       run (or_fire_sched i) or3_init = Some c /\
       is_closed c (Ch 3) = true /\
       forall j, (j < 3)%nat -> is_closed c (Ch j) = Nat.eqb j i).
Proof.
  split; [|split; [|split]].
  - apply or2_runs.
  - intros i Hi. destruct i as [|[|i]]; [| |lia];
      (eexists; split; [reflexivity|]; split; [reflexivity|]);
      intros [|[|j]] Hj; try reflexivity; lia.
  - apply or3_runs.
  - intros i Hi. destruct i as [|[|[|i]]]; [| | |lia];
      (eexists; split; [reflexivity|]; split; [reflexivity|]);
      intros [|[|[|j]]] Hj; try reflexivity; lia.
Qed.

(** Or of five channels, as the tests call it: the call starts a
    goroutine that starts a second one through the recursive call.  In
    no run does the output deliver a value or panic, and it is closed
    only when one of the five inputs has been closed.  Whichever input is
    closed, alone, the run exists in which the output is then closed and
    both goroutines have ended. *)
Theorem or_of_five_fires_and_ends :
  (forall sched c,
     forallb (env_may [Ch 5] [Ch 0; Ch 1; Ch 2; Ch 3; Ch 4]) sched = true ->
     run sched or5_init = Some c ->
     panicked c = false /\ received c (Ch 5) = [] /\
     (is_closed c (Ch 5) = true ->
      is_closed c (Ch 0) = true \/ is_closed c (Ch 1) = true \/
      is_closed c (Ch 2) = true \/ is_closed c (Ch 3) = true \/
      is_closed c (Ch 4) = true)) /\
  (forall i, (i < 5)%nat ->
     exists c,
       run (or5_fire_sched i) or5_init = Some c /\
       is_closed c (Ch 5) = true /\
       pool c = [Ret tt; Ret tt] /\
       forall j, (j < 5)%nat -> is_closed c (Ch j) = Nat.eqb j i).
Proof.
  split.
  - apply or5_runs.
  - intros i Hi. eexists. split; [apply or5_fire_run; exact Hi|].
    split; [reflexivity|]. split; [reflexivity|].
    intros [|[|[|[|[|j]]]]] Hj; try reflexivity; lia.
Qed.

(** [IntArrayEquals] never indexes [b] out of range, whatever the two
    lengths, and answers true exactly when the two slices are equal. *)
Theorem IntArrayEquals_decides (a b : list Z) :
  exists r, IntArrayEquals a b = Some r /\ (r = true <-> a = b).
Proof.
  unfold IntArrayEquals.
  destruct (Nat.eqb_spec (length a) (length b)) as [Hlen|Hlen]; simpl.
  - apply (IntArrayEquals_from_spec a [] b Hlen).
  - exists false. split; [reflexivity|].
    split; [discriminate|]. intros ->. contradiction.
Qed.

(** The primality loop of [primeFinder]: an integer from 2 up passes
    exactly when it is prime; every integer below 2, so 0, 1 and the
    negative ones, passes as well. *)
Theorem primeFinder_flag :
  (forall n, 2 <= n < 2 ^ 63 - 1 -> (prime_flag n = true <-> Z.prime n)) /\
  (forall n, - 2 ^ 63 <= n < 2 -> prime_flag n = true).
Proof.
  split.
  - intros n Hn. rewrite prime_flag_spec by lia.
    rewrite Z.quot_div_nonneg by lia.
    unfold Z.prime. split.
    + intros H. split; [lia|]. intros k Hk [q Hq].
      assert (Hq2 : 2 <= q) by nia.
      apply (H k).
      * split; [lia|]. apply Z.div_le_lower_bound; nia.
      * apply Z.rem_divide; [lia|]. exists q. exact Hq.
    + intros [_ H] k Hk Hrem.
      assert (Hlt : (n + 1) / 2 < n)
        by (apply Z.div_lt_upper_bound; lia).
      apply (H k); [lia|]. apply Z.rem_divide; [lia|exact Hrem].
  - intros n Hn. rewrite prime_flag_spec by lia.
    intros k Hk. exfalso.
    destruct (Z_lt_le_dec (n + 1) 0) as [Hneg|Hpos].
    + pose proof (Z.quot_opp_l (- (n + 1)) 2 ltac:(lia)) as Ho.
      rewrite Z.opp_involutive in Ho.
      pose proof (Z.quot_pos (- (n + 1)) 2 ltac:(lia) ltac:(lia)). lia.
    + rewrite Z.quot_div_nonneg in Hk by lia.
      assert ((n + 1) / 2 < 2) by (apply Z.div_lt_upper_bound; lia). lia.
Qed.

(** The prime finder on a stream of integers.  In no run does it panic,
    and what it has delivered is a prefix of the integers of the input
    that pass the primality loop, in the order of the input; once its
    output is closed with nobody having cancelled, it has delivered them
    all, and the input was closed.  On a closed input the run that
    delivers them all and closes the output exists. *)
Theorem primeFinder_filters (zs : list Z) :
  (forall cl sched c,
     forallb (env_may [Ch 2] [Ch 0]) sched = true ->
     run sched (primefinder_init (map VInt zs) cl) = Some c ->
     panicked c = false /\
     (exists tail,
        map VInt (filter prime_flag zs) = received c (Ch 2) ++ tail) /\
     (is_closed c (Ch 2) = true -> is_closed c (Ch 0) = false ->
      received c (Ch 2) = map VInt (filter prime_flag zs) /\ cl = true)) /\
  (exists sched c,
     forallb (env_may [Ch 2] []) sched = true /\
     run sched (primefinder_init (map VInt zs) true) = Some c /\
     is_closed c (Ch 2) = true /\
     received c (Ch 2) = map VInt (filter prime_flag zs)).
Proof.
  rewrite <- filter_passes. split.
  - intros cl sched c. apply primefinder_runs.
  - exists (pf_schedule (map VInt zs)). eexists.
    split; [apply pf_schedule_ok|].
    split; [apply pf_schedule_run|]. split; reflexivity.
Qed.

(** The conversion to strings of package utils, which reads its input
    through orDone and has deferred the close of its output.  In every
    run what has been delivered are strings, and a panic means that the
    input holds a value that is not a string and that the output has
    been closed while the panic unwound; with nobody having cancelled,
    what has been delivered is a prefix of the input, a panic happened
    at the value that follows it, and a closed output has either
    delivered the whole input, which was closed, without a panic, or
    stopped in front of a value that is not a string.  An input of
    strings only, closed, can be delivered entirely, the output then
    being closed; and when the first value that is not a string comes
    after [pre], the run that delivers [pre], closes the output and ends
    in the panic, with nobody having cancelled, exists. *)
Theorem tostring_relays_strings (xs : list value) :
  (forall cl sched c,
     forallb (env_may [Ch 2] [Ch 0]) sched = true ->
     run sched (tostring_init xs cl) = Some c ->
     forallb (well_typed TString) (received c (Ch 2)) = true /\
     (panicked c = true ->
      is_closed c (Ch 2) = true /\
      exists v, In v xs /\ well_typed TString v = false) /\
     (is_closed c (Ch 0) = false ->
      (exists tail, xs = received c (Ch 2) ++ tail) /\
      (panicked c = true ->
       exists v tail,
         xs = received c (Ch 2) ++ v :: tail /\
         well_typed TString v = false) /\
      (is_closed c (Ch 2) = true ->
       (xs = received c (Ch 2) /\ cl = true /\ panicked c = false) \/
       (exists v tail,
          xs = received c (Ch 2) ++ v :: tail /\
          well_typed TString v = false)))) /\
  (forallb (well_typed TString) xs = true ->
   exists sched c,
     forallb (env_may [Ch 2] []) sched = true /\
     run sched (tostring_init xs true) = Some c /\
     panicked c = false /\ is_closed c (Ch 2) = true /\
     received c (Ch 2) = xs) /\
  (forall cl pre v post,
     xs = pre ++ v :: post ->
     forallb (well_typed TString) pre = true ->
     well_typed TString v = false ->
     exists sched c,
       forallb (env_may [Ch 2] []) sched = true /\
       run sched (tostring_init xs cl) = Some c /\
       panicked c = true /\ is_closed c (Ch 0) = false /\
       is_closed c (Ch 2) = true /\ received c (Ch 2) = pre).
Proof.
  split; [|split].
  - intros cl sched c. apply tostring_runs.
  - intros Hwt. exists (ts_schedule xs). eexists.
    split; [apply ts_schedule_ok|].
    split; [apply ts_schedule_run; assumption|]. repeat split.
  - intros cl pre v post Hx Hpre Hv.
    exists (ts_panic_sched (length pre)). eexists.
    split; [|split; [apply (ts_panic_run cl pre v post Hx Hpre Hv)
                    |repeat split]].
    unfold ts_panic_sched. rewrite !forallb_app, ts_deliver_ok. reflexivity.
Qed.

(** Buffer, called with a capacity from zero up to [chan_cap_bound].  In
    every run nothing panics and the buffer of the output never holds more than
    [limit] values; with nobody having cancelled, what has been received
    followed by what waits in the buffer is a prefix of the input, in
    order, and it is the whole input, which was closed, once the output
    is closed.  On a closed input the run in which a reader receives
    everything and the output is closed exists.  With no reader at all the
    worker still moves the first [k] values into the buffer, for every
    [k] up to [limit]. *)
Theorem buffer_relays_ahead (xs : list value) (limit : nat) :
  Z.of_nat limit <= chan_cap_bound ->
  (forall cl sched c,
     forallb (env_may [Ch 2] [Ch 0]) sched = true ->
     run sched (buffer_init xs limit cl) = Some c ->
     panicked c = false /\
     (length (pending c (Ch 2)) <= limit)%nat /\
     (is_closed c (Ch 0) = false ->
      (exists tail,
         xs = received c (Ch 2) ++ pending c (Ch 2) ++ tail) /\
      (is_closed c (Ch 2) = true ->
       xs = received c (Ch 2) ++ pending c (Ch 2) /\ cl = true))) /\
  (exists sched c,
     forallb (env_may [Ch 2] []) sched = true /\
     run sched (buffer_init xs limit true) = Some c /\
     is_closed c (Ch 2) = true /\
     received c (Ch 2) = xs /\ pending c (Ch 2) = []) /\
  (forall cl k, (k <= length xs)%nat -> (k <= limit)%nat ->
     exists sched c,
       forallb (env_may [] []) sched = true /\
       run sched (buffer_init xs limit cl) = Some c /\
       is_closed c (Ch 2) = false /\
       received c (Ch 2) = [] /\ pending c (Ch 2) = firstn k xs).
Proof.
  intros _. split; [|split].
  - intros cl sched c. apply buffer_runs.
  - exists (bf_schedule xs). eexists.
    split; [apply bf_schedule_ok|].
    split; [apply bf_schedule_run|]. repeat split.
  - intros cl k Hk Hl. exists (bf_setup ++ bf_fill k). eexists.
    split; [rewrite forallb_app, bf_fill_ok; reflexivity|].
    split; [apply bf_ahead_run; assumption|]. repeat split.
Qed.

Lemma buffer_relays_ahead_witness :
  exists sched c,
    forallb (env_may [] []) sched = true /\
    run sched (buffer_init [VInt 1; VInt 2; VInt 3] 2 false) = Some c /\
    is_closed c (Ch 2) = false /\
    received c (Ch 2) = [] /\ pending c (Ch 2) = [VInt 1; VInt 2].
Proof.
  assert (Hbound : Z.of_nat 2 <= chan_cap_bound)
    by (unfold chan_cap_bound; lia).
  destruct (@buffer_relays_ahead [VInt 1; VInt 2; VInt 3] 2%nat Hbound)
    as (_ & _ & Hahead).
  apply (Hahead false 2%nat); simpl; lia.
Defined.

(** Throttle with room for at least one token and for at most
    [chan_cap_bound] of them.  In every run nothing
    panics, at most one token is in the buffer of the tokens, and the
    tokens are not closed before the output; with nobody having
    cancelled, what the output has delivered is a prefix of the input, in
    order, and the whole input, which was closed, once the output is
    closed.  On a closed input the run that delivers everything and closes
    the output exists. *)
Theorem throttle_relays (xs : list value) (l : nat) :
  Z.of_nat (S l) <= chan_cap_bound ->
  (forall cl sched c,
     forallb (env_may [Ch 2] [Ch 0]) sched = true ->
     run sched (throttle_init xs (S l) cl) = Some c ->
     panicked c = false /\
     (length (pending c (Ch 3)) <= 1)%nat /\
     (is_closed c (Ch 3) = true -> is_closed c (Ch 2) = true) /\
     (is_closed c (Ch 0) = false ->
      (exists tail, xs = received c (Ch 2) ++ tail) /\
      (is_closed c (Ch 2) = true -> xs = received c (Ch 2) /\ cl = true))) /\
  (exists sched c,
     forallb (env_may [Ch 2] []) sched = true /\
     run sched (throttle_init xs (S l) true) = Some c /\
     panicked c = false /\
     is_closed c (Ch 2) = true /\ is_closed c (Ch 3) = true /\
     received c (Ch 2) = xs).
Proof.
  intros _. split.
  - intros cl sched c Hok Hrun.
    destruct (throttle_runs xs (S l) cl sched Hok Hrun)
      as (H1 & H2 & _ & H3 & H4). auto.
  - exists (th_schedule xs). eexists.
    split; [apply th_schedule_ok|].
    split; [apply th_schedule_run; lia|]. repeat split.
Qed.

Lemma throttle_relays_witness :
  exists sched c,
    forallb (env_may [Ch 2] []) sched = true /\
    run sched (throttle_init [VInt 1; VInt 2; VInt 3] 2 true) = Some c /\
    panicked c = false /\
    is_closed c (Ch 2) = true /\ is_closed c (Ch 3) = true /\
    received c (Ch 2) = [VInt 1; VInt 2; VInt 3].
Proof.
  assert (Hbound : Z.of_nat 2 <= chan_cap_bound)
    by (unfold chan_cap_bound; lia).
  destruct (@throttle_relays [VInt 1; VInt 2; VInt 3] 1%nat Hbound)
    as (_ & Hall).
  exact Hall.
Defined.

(** Throttle with a limit of zero.  Nothing is ever delivered, and the
    output can only be closed, with nobody having cancelled, when the
    input was empty and closed.  When the input holds a value, the run in
    which the worker takes it exists, and from there on, whatever
    happens, cancellation included, the worker never ends and the output
    is never closed: the worker waits at the send of its token. *)
Theorem throttle_of_zero_blocks (xs : list value) :
  (forall cl sched c,
     forallb (env_may [Ch 2] [Ch 0]) sched = true ->
     run sched (throttle_init xs 0 cl) = Some c ->
     panicked c = false /\ received c (Ch 2) = [] /\
     (is_closed c (Ch 2) = true -> is_closed c (Ch 0) = false ->
      xs = [] /\ cl = true)) /\
  (forall cl, xs <> [] ->
     exists sched c,
       forallb (env_may [] []) sched = true /\
       run sched (throttle_init xs 0 cl) = Some c /\
       forall sched' c',
         forallb (env_may [Ch 2] [Ch 0]) sched' = true ->
         run sched' c = Some c' ->
         panicked c' = false /\ is_closed c' (Ch 2) = false /\
         received c' (Ch 2) = [] /\
         nth_error (pool c') 0 <> Some (Ret tt)).
Proof.
  split.
  - intros cl sched c Hok Hrun.
    destruct (throttle_runs xs 0 cl sched Hok Hrun)
      as (H1 & _ & H2 & _ & H3).
    specialize (H2 eq_refl). split; [assumption|]. split; [assumption|].
    intros Hc Hd. destruct (H3 Hd) as (_ & H4).
    destruct (H4 Hc) as (H5 & H6). rewrite H2 in H5. auto.
  - intros cl Hne. destruct xs as [|v sb]; [congruence|].
    exists (th_setup ++ th_fetch). eexists.
    split; [reflexivity|].
    split; [apply (@th_fetched_run (v :: sb) 0 cl v sb eq_refl)|].
    intros sched' c' Hok Hrun.
    eapply th_stuck_runs; [reflexivity | | exact Hok | exact Hrun].
    apply th_fetched_stuck.
Qed.

(** The generator of strings followed by the conversion to strings, as
    the names are sent through: whatever the generator has put out is a
    prefix of the names, as strings; left alone it ends with the output
    closed and holding all the names, which is the input the conversion
    starts from; the conversion of that input never panics and can
    deliver every name and close. *)
Theorem string_generator_then_conversion (slice : list string) :
  (forall sched c,
     forallb (env_may [Ch 1] [Ch 0]) sched = true ->
     run sched
       (init (UtilsGenerics.GeneratorFromStringArrayToChannel (Ch 0) slice)
          [open_chan]) = Some c ->
     panicked c = false /\
     exists tail,
       map VStr slice = received c (Ch 1) ++ pending c (Ch 1) ++ tail) /\
  (exists sched c,
     forallb (env_may [] []) sched = true /\
     run sched
       (init (UtilsGenerics.GeneratorFromStringArrayToChannel (Ch 0) slice)
          [open_chan]) = Some c /\
     pool c = [Ret tt] /\
     st c = st (tx_init TString (map VStr slice) true)) /\
  (forall sched c,
     forallb (env_may [Ch 2] [Ch 0]) sched = true ->
     run sched (tx_init TString (map VStr slice) true) = Some c ->
     panicked c = false /\
     exists m, received c (Ch 2) = firstn m (map VStr slice)) /\
  (exists sched c,
     forallb (env_may [Ch 2] []) sched = true /\
     run sched (tx_init TString (map VStr slice) true) = Some c /\
     is_closed c (Ch 2) = true /\
     received c (Ch 2) = map VStr slice).
Proof.
  rewrite string_generator_is_generator.
  change (init (UtilsGenerics.GeneratorToChannel (Ch 0) (map VStr slice))
            [open_chan]) with (generator_init (map VStr slice)).
  split; [|split; [|split]].
  - intros sched c Hok Hrun.
    destruct (generator_runs (map VStr slice) sched Hok Hrun)
      as (Hp & Ht & _). auto.
  - exists (gn_alone (map VStr slice)). eexists.
    split; [apply gn_alone_ok|].
    split; [apply gn_alone_run|]. split; reflexivity.
  - intros sched c Hok Hrun.
    destruct (typed_runs TString (map VStr slice) true sched Hok Hrun)
      as (m & (Hrc & Hm & _) & Hpanic & _).
    split; [|exists m; assumption].
    destruct (panicked c) eqn:Hp; [|reflexivity].
    destruct (Hpanic eq_refl) as (Hlt & Hill & _).
    rewrite (well_typed_nth TString (map VStr slice)
               (strings_well_typed slice) Hlt) in Hill.
    discriminate.
  - exists (tx_full_schedule (length (map VStr slice))). eexists.
    split; [|split; [apply tx_full_run; apply strings_well_typed
                    |split; reflexivity]].
    unfold tx_full_schedule. rewrite !forallb_app, worker_rounds_ok.
    reflexivity.
Qed.
